(** * stoppers_modelling: combination of text recognition results

    A shallow embedding of [combination.py], [combination_with_estimation.py],
    [treap.py] and [metrics.py], and the properties of these programs.

    Conventions of the embedding:
    - a Python [float] is an exact rational ([Q]), and equality of computed
      numbers is [Qeq] ([==]): the value of a sum, product or quotient is the
      one before rounding;
    - module [Binary64] has [Cell], [cell_dist], [merge_cells], the Treap
      and the two sequence structures once more on binary64 numbers, with
      the rounding of the programs: the theorems of the stated properties
      assert of the exact numbers what the rounding keeps, and what it
      breaks is shown on [Binary64];
    - a Python [int] is a [Z];
    - a Python exception is the [Raise] case of [result]; a call that raises
      aborts the run it belongs to, and the relations [reached] and
      [reached_estimation] follow a client that handles the exception;
    - a [dict] is an association list in insertion order, its keys pairwise
      distinct ([dict_set] keeps them so);
    - the priorities drawn by [Treap.next_weight] are an input of the model;
    - a recursive function or a [while] loop takes the depth it may reach as
      an argument ([fuel]); the model stops with [OutOfFuel] beyond it. *)

From Stdlib Require Import List ZArith QArith Qabs Qminmax Qfield.
From Stdlib Require Import String Ascii Bool Lia Lqa Permutation Sorted OrderedTypeEx.
From Stdlib Require Import PrimFloat.
Import ListNotations.

Open Scope Z_scope.
Open Scope Q_scope.

(** ** Python values and control *)

Inductive exn : Set :=
| ZeroDivisionError
| KeyError
| IndexError
| TypeError
| OutOfFuel.

Inductive result (A : Type) : Type :=
| Ok (a : A)
| Raise (e : exn).

Arguments Ok {A} a.
Arguments Raise {A} e.

Definition bind {A B : Type} (m : result A) (k : A -> result B) : result B :=
  match m with
  | Ok a => k a
  | Raise e => Raise e
  end.

Notation "x <- m ;; k" := (bind m (fun x => k))
  (at level 61, m at next level, right associativity).
Notation "' p <- m ;; k" := (bind m (fun x => let p := x in k))
  (at level 61, p pattern, m at next level, right associativity).

Definition is_ok {A : Type} (m : result A) : bool :=
  match m with Ok _ => true | Raise _ => false end.

(** [for x in xs: acc = body(acc, x)], any iteration may raise. *)
Fixpoint foldM {A S : Type} (body : S -> A -> result S) (xs : list A) (acc : S)
  : result S :=
  match xs with
  | [] => Ok acc
  | x :: xs' => acc' <- body acc x ;; foldM body xs' acc'
  end.

(** [[f(x) for x in xs]] *)
Fixpoint mapM {A B : Type} (f : A -> result B) (xs : list A) : result (list B) :=
  match xs with
  | [] => Ok []
  | x :: xs' => y <- f x ;; ys <- mapM f xs' ;; Ok (y :: ys)
  end.

(** [range(lo, hi)] *)
Definition range (lo hi : Z) : list Z :=
  map (fun k => (lo + Z.of_nat k)%Z) (seq 0 (Z.to_nat (hi - lo))).

Definition len {A : Type} (l : list A) : Z := Z.of_nat (List.length l).

(** [l[i]]: a negative index counts from the end, anything out of range raises. *)
Definition py_index {A : Type} (l : list A) (i : Z) : result nat :=
  if ((0 <=? i) && (i <? len l))%Z then Ok (Z.to_nat i)
  else if ((- len l <=? i) && (i <? 0))%Z then Ok (Z.to_nat (len l + i))
  else Raise IndexError.

Definition py_get {A : Type} (l : list A) (i : Z) : result A :=
  k <- py_index l i ;;
  match nth_error l k with
  | Some a => Ok a
  | None => Raise IndexError
  end.

Fixpoint list_set {A : Type} (l : list A) (k : nat) (a : A) : list A :=
  match l, k with
  | [], _ => []
  | _ :: l', O => a :: l'
  | x :: l', S k' => x :: list_set l' k' a
  end.

(** [l[i] = a] *)
Definition py_set {A : Type} (l : list A) (i : Z) (a : A) : result (list A) :=
  k <- py_index l i ;; Ok (list_set l k a).

(** [l[i].field = ...]: the object at [l[i]] is changed in place. *)
Definition modify {A : Type} (l : list A) (i : Z) (f : A -> A) : result (list A) :=
  a <- py_get l i ;; py_set l i (f a).

(** Comparison and division of floats. *)
Definition Qltb (x y : Q) : bool := negb (Qle_bool y x).

Definition py_div (x y : Q) : result Q :=
  if Qeq_bool y 0 then Raise ZeroDivisionError else Ok (x / y).

(** [min(a, b)] and [min(a, b, c)]: the first of the smallest arguments. *)
Definition py_min (a b : Q) : Q := if Qltb b a then b else a.
Definition py_min3 (a b c : Q) : Q := py_min (py_min a b) c.

Fixpoint sumQ (l : list Q) : Q :=
  match l with
  | [] => 0
  | x :: l' => x + sumQ l'
  end.

(** ** Dictionaries *)

Definition dict (V : Type) : Type := list (string * V).

Definition keys {V : Type} (d : dict V) : list string := map fst d.

Fixpoint dict_get {V : Type} (k : string) (d : dict V) : option V :=
  match d with
  | [] => None
  | (k', v) :: d' => if String.eqb k k' then Some v else dict_get k d'
  end.

Definition dict_mem {V : Type} (k : string) (d : dict V) : bool :=
  match dict_get k d with Some _ => true | None => false end.

(** [d[k]] *)
Definition dict_at {V : Type} (d : dict V) (k : string) : result V :=
  match dict_get k d with Some v => Ok v | None => Raise KeyError end.

(** [d[k] = v]: in place for a key of [d], at the end for a new key. *)
Fixpoint dict_set {V : Type} (k : string) (v : V) (d : dict V) : dict V :=
  match d with
  | [] => [(k, v)]
  | (k', v') :: d' =>
      if String.eqb k k' then (k', v) :: d' else (k', v') :: dict_set k v d'
  end.

(** ** combination.py: Cell *)

Module Cell.

(** [self.vars]: label to membership estimation. *)
Definition t : Type := dict Q.

Definition clone (c : t) : t := c.

Definition weight_sum (c : t) : Q := fold_left (fun s kv => s + snd kv) c 0.

(** [normalize] works in place; the model returns the new [vars]. *)
Definition normalize (c : t) : result t :=
  let s := weight_sum c in
  mapM (fun kv => v <- py_div (snd kv) s ;; Ok (fst kv, v)) c.

Definition normalized (c : t) : result t :=
  let ret := clone c in
  normalize ret.

(** [sorted(self.vars.items())]: by label, labels being distinct. *)
Fixpoint insert_sorted (kv : string * Q) (l : list (string * Q)) : list (string * Q) :=
  match l with
  | [] => [kv]
  | kv' :: l' =>
      if String.leb (fst kv) (fst kv') then kv :: l else kv' :: insert_sorted kv l'
  end.

Definition sorted_items (c : t) : list (string * Q) :=
  fold_right insert_sorted [] c.

Definition best_key (c : t) : string :=
  fst (fold_left
         (fun st kv =>
            let '(ret, best_value) := st in
            if Qltb best_value (snd kv) then (fst kv, snd kv) else (ret, best_value))
         (sorted_items c) (EmptyString, - (1))).

(** [k in exclusion_mask] for two strings: [k] occurs in the mask. *)
Fixpoint occurs_in (k mask : string) : bool :=
  if String.prefix k mask then true
  else match mask with
       | EmptyString => false
       | String _ mask' => occurs_in k mask'
       end.

Definition best_key_not_from (c : t) (exclusion_mask : string) : string :=
  fst (fold_left
         (fun st kv =>
            let '(ret, best_value) := st in
            if occurs_in (fst kv) exclusion_mask then (ret, best_value)
            else if Qltb best_value (snd kv) then (fst kv, snd kv)
            else (ret, best_value))
         (sorted_items c) (EmptyString, - (1))).

End Cell.

(** The weight of a label in a distribution, an absent label weighing 0. *)
Definition weight_of (c : Cell.t) (k : string) : Q :=
  match dict_get k c with Some v => v | None => 0 end.

(** [cell_dist(a, b)] *)
Definition cell_dist (a b : Cell.t) : result Q :=
  na <- Cell.normalized a ;;
  nb <- Cell.normalized b ;;
  let ret := 0 in
  let ret :=
    fold_left
      (fun ret kv =>
         match dict_get (fst kv) nb with
         | Some y => ret + Qabs (snd kv - y)
         | None => ret + snd kv
         end) na ret in
  let ret :=
    fold_left
      (fun ret kv => if dict_mem (fst kv) na then ret else ret + snd kv) nb ret in
  Ok (ret / 2).

(** [merge_cells(a, b, wa, wb)] *)
Definition merge_cells (a b : Cell.t) (wa wb : Q) : result Cell.t :=
  na <- Cell.normalized a ;;
  nb <- Cell.normalized b ;;
  let ret := Cell.clone na in
  ret <- foldM
           (fun ret kv =>
              match dict_get (fst kv) ret with
              | Some x =>
                  v <- py_div (wa * x + wb * snd kv) (wa + wb) ;;
                  Ok (dict_set (fst kv) v ret)
              | None =>
                  v <- py_div (wb * snd kv) (wa + wb) ;;
                  Ok (dict_set (fst kv) v ret)
              end) nb ret ;;
  foldM
    (fun ret kv =>
       if negb (dict_mem (fst kv) nb) then
         x <- dict_at ret (fst kv) ;;
         v <- py_div (wa * x) (wa + wb) ;;
         Ok (dict_set (fst kv) v ret)
       else Ok ret) na ret.


(** ** treap.py *)

Module Treap.

Record TreapNode : Type := mkNode {
  element : Q;       (* value of stored element *)
  subtree_sum : Q;   (* sum of values in a subtree (including this node) *)
  subtree_cnt : Z;   (* number of nodes in a subtree (including this node) *)
  weight : Z;        (* balancing weight *)
  left_node : Z;     (* index of left child (-1 if there are none) *)
  right_node : Z     (* index of right child (-1 if there are none) *)
}.

Definition set_sum (s : Q) (nd : TreapNode) : TreapNode :=
  mkNode (element nd) s (subtree_cnt nd) (weight nd) (left_node nd) (right_node nd).
Definition set_cnt (c : Z) (nd : TreapNode) : TreapNode :=
  mkNode (element nd) (subtree_sum nd) c (weight nd) (left_node nd) (right_node nd).
Definition set_left (l : Z) (nd : TreapNode) : TreapNode :=
  mkNode (element nd) (subtree_sum nd) (subtree_cnt nd) (weight nd) l (right_node nd).
Definition set_right (r : Z) (nd : TreapNode) : TreapNode :=
  mkNode (element nd) (subtree_sum nd) (subtree_cnt nd) (weight nd) (left_node nd) r.

(** [self.nodes] and [self.root]. *)
Record t : Type := mk {
  nodes : list TreapNode;
  root : Z
}.

Definition empty : t := mk [] (-1).

Definition update_subtree (nodes : list TreapNode) (node : Z)
  : result (list TreapNode) :=
  nodes <- modify nodes node (fun nd => set_sum (element nd) nd) ;;
  nodes <- modify nodes node (set_cnt 1) ;;
  nd <- py_get nodes node ;;
  nodes <- (if negb (left_node nd =? -1)%Z then
              l <- py_get nodes (left_node nd) ;;
              nodes <- modify nodes node
                         (fun nd => set_sum (subtree_sum nd + subtree_sum l) nd) ;;
              l <- py_get nodes (left_node nd) ;;
              modify nodes node (fun nd => set_cnt (subtree_cnt nd + subtree_cnt l) nd)
            else Ok nodes) ;;
  nd <- py_get nodes node ;;
  if negb (right_node nd =? -1)%Z then
    r <- py_get nodes (right_node nd) ;;
    nodes <- modify nodes node
               (fun nd => set_sum (subtree_sum nd + subtree_sum r) nd) ;;
    r <- py_get nodes (right_node nd) ;;
    modify nodes node (fun nd => set_cnt (subtree_cnt nd + subtree_cnt r) nd)
  else Ok nodes.

(** [split] returns the two roots; the model returns the changed nodes too. *)
Fixpoint split (fuel : nat) (nodes : list TreapNode) (node : Z) (elt : Q)
  : result (list TreapNode * (Z * Z)) :=
  match fuel with
  | O => Raise OutOfFuel
  | S fuel =>
      if (node =? -1)%Z then Ok (nodes, ((-1)%Z, (-1)%Z))
      else
        nd <- py_get nodes node ;;
        if Qltb elt (element nd) then
          ' (nodes, (l, r)) <- split fuel nodes (left_node nd) elt ;;
          nodes <- modify nodes node (set_left r) ;;
          nodes <- update_subtree nodes node ;;
          Ok (nodes, (l, node))
        else
          ' (nodes, (l, r)) <- split fuel nodes (right_node nd) elt ;;
          nodes <- modify nodes node (set_right l) ;;
          nodes <- update_subtree nodes node ;;
          Ok (nodes, (node, r))
  end.

Fixpoint join (fuel : nat) (nodes : list TreapNode) (left right : Z)
  : result (list TreapNode * Z) :=
  match fuel with
  | O => Raise OutOfFuel
  | S fuel =>
      if ((left =? -1) || (right =? -1))%Z then
        Ok (nodes, if negb (left =? -1)%Z then left else right)
      else
        l <- py_get nodes left ;;
        r <- py_get nodes right ;;
        if (weight r <? weight l)%Z then
          ' (nodes, j) <- join fuel nodes (right_node l) right ;;
          nodes <- modify nodes left (set_right j) ;;
          nodes <- update_subtree nodes left ;;
          Ok (nodes, left)
        else
          ' (nodes, j) <- join fuel nodes left (left_node r) ;;
          nodes <- modify nodes right (set_left j) ;;
          nodes <- update_subtree nodes right ;;
          Ok (nodes, right)
  end.

(** The inserted element is the last of [nodes]. *)
Fixpoint add_element_internal (fuel : nat) (nodes : list TreapNode) (node : Z)
  : result (list TreapNode * Z) :=
  match fuel with
  | O => Raise OutOfFuel
  | S fuel =>
      if (node =? -1)%Z then
        nodes <- update_subtree nodes (-1) ;;
        Ok (nodes, (len nodes - 1)%Z)
      else
        new <- py_get nodes (-1) ;;
        nd <- py_get nodes node ;;
        if (weight nd <? weight new)%Z then
          ' (nodes, (l, r)) <- split fuel nodes node (element new) ;;
          nodes <- modify nodes (-1) (set_left l) ;;
          nodes <- modify nodes (-1) (set_right r) ;;
          nodes <- update_subtree nodes (-1) ;;
          Ok (nodes, (len nodes - 1)%Z)
        else
          nodes <-
            (if Qltb (element new) (element nd) then
               ' (nodes, sub) <- add_element_internal fuel nodes (left_node nd) ;;
               modify nodes node (set_left sub)
             else
               ' (nodes, sub) <- add_element_internal fuel nodes (right_node nd) ;;
               modify nodes node (set_right sub)) ;;
          nodes <- update_subtree nodes node ;;
          Ok (nodes, node)
  end.

(** [next_weight] is the priority that [Treap.next_weight()] returns. *)
Definition add_element (fuel : nat) (next_weight : Z) (elt : Q) (self : t) : result t :=
  let new_node := mkNode elt 0 0 next_weight (-1) (-1) in
  let nodes := (nodes self ++ [new_node])%list in
  ' (nodes, r) <- add_element_internal fuel nodes (root self) ;;
  Ok (mk nodes r).

Fixpoint get_lower (fuel : nat) (nodes : list TreapNode) (node : Z) (value : Q)
  : result (Z * Q) :=
  match fuel with
  | O => Raise OutOfFuel
  | S fuel =>
      if (node =? -1)%Z then Ok (0%Z, 0)
      else
        nd <- py_get nodes node ;;
        if Qltb (element nd) value then
          ' (c, s) <- get_lower fuel nodes (right_node nd) value ;;
          ' (c, s) <-
            (if negb (left_node nd =? -1)%Z then
               l <- py_get nodes (left_node nd) ;;
               Ok ((c + subtree_cnt l)%Z, s + subtree_sum l)
             else Ok (c, s)) ;;
          Ok ((c + 1)%Z, s + element nd)
        else get_lower fuel nodes (left_node nd) value
  end.

(** A run of [add_element] calls on a fresh Treap, each with its priority. *)
Definition build (fuel : nat) (calls : list (Z * Q)) : result t :=
  foldM (fun self call => add_element fuel (fst call) (snd call) self) calls empty.

(** The in-order traversal of the subtree at index [node]. *)
Fixpoint inorder (fuel : nat) (nodes : list TreapNode) (node : Z) : option (list Q) :=
  match fuel with
  | O => None
  | S fuel =>
      if (node =? -1)%Z then Some []
      else
        match nth_error nodes (Z.to_nat node) with
        | None => None
        | Some nd =>
            match inorder fuel nodes (left_node nd), inorder fuel nodes (right_node nd) with
            | Some l, Some r => Some (l ++ element nd :: r)%list
            | _, _ => None
            end
        end
  end.

End Treap.


(** ** combination_with_estimation.py: the sequence structures *)

Module TreapBasedSequenceStructure.

(** [self.treap] *)
Record t : Type := mk { treap : Treap.t }.

Definition new : t := mk Treap.empty.

Definition get_sum (self : t) : result Q :=
  if (Treap.root (treap self) =? -1)%Z then Ok 0
  else
    nd <- py_get (Treap.nodes (treap self)) (Treap.root (treap self)) ;;
    Ok (Treap.subtree_sum nd).

Definition insert (fuel : nat) (next_weight : Z) (elt : Q) (self : t) : result t :=
  T <- Treap.add_element fuel next_weight elt (treap self) ;;
  Ok (mk T).

(** What one history [cell[c]] adds to [ret] in [get_modelling_sum]. *)
Definition history_term (fuel : nat) (h : t) (n : Z) : result Q :=
  s <- get_sum h ;;
  mean <- py_div s (inject_Z n) ;;
  ' (lc, ls) <- Treap.get_lower fuel (Treap.nodes (treap h)) (Treap.root (treap h)) mean ;;
  Ok (s * inject_Z lc - inject_Z n * ls).

Definition get_modelling_sum (fuel : nat) (Y : list (dict t)) (n : Z) : result Q :=
  let ret := 0 in
  ret <- foldM
           (fun ret cell =>
              foldM
                (fun ret c =>
                   h <- dict_at cell c ;;
                   x <- history_term fuel h n ;;
                   Ok (ret + x))
                (keys cell) ret)
           Y ret ;;
  (* quickly computed approximation of GLD *)
  ret <- py_div ret (inject_Z (n * (n + 1))) ;;
  (* post-summation normalization *)
  py_div (2 * ret) (ret + 2 * inject_Z (len Y)).

(** A run of [insert] calls on a new structure, each with its priority. *)
Definition inserts (fuel : nat) (calls : list (Z * Q)) : result t :=
  foldM (fun self call => insert fuel (fst call) (snd call) self) calls new.

End TreapBasedSequenceStructure.

Module ListBasedSequenceStructure.

Record t : Type := mk {
  elements : list Q;   (* a list of inserted elements *)
  sum : Q              (* accumulator for sum of elements *)
}.

Definition new : t := mk [] 0.

Definition get_sum (self : t) : Q := sum self.

Definition insert (elt : Q) (self : t) : t :=
  mk (elements self ++ [elt]) (sum self + elt).

(** What one history [cell[c]] adds to [d[0]], [d[1]], ... in
    [get_modelling_sum]. *)
Definition history_terms (h : t) (n : Z) : list Q :=
  let s := get_sum h in
  map (fun e => Qabs (s - inject_Z n * e)) (elements h).

Definition get_modelling_sum (Y : list (dict t)) (n : Z) : result Q :=
  let d := repeat 0 (Z.to_nat n) in
  d <- foldM
         (fun d cell =>
            foldM
              (fun d c =>
                 h <- dict_at cell c ;;
                 foldM
                   (fun d ix => modify d (fst ix) (fun v => v + snd ix))
                   (combine (range 0 (len (elements h))) (history_terms h n)) d)
              (keys cell) d)
         Y d ;;
  d <- foldM
         (fun d i =>
            d <- (v <- py_get d i ;;
                  v' <- py_div v (inject_Z (2 * n * (n + 1))) ;;
                  py_set d i v') ;;
            (* normalizing each GLD separately *)
            v <- py_get d i ;;
            v' <- py_div (2 * v) (v + 2 * inject_Z (len Y)) ;;
            py_set d i v')
         (range 0 n) d ;;
  Ok (fold_left Qplus d 0).

(** A run of [insert] calls on a new structure. *)
Definition inserts (elts : list Q) : t :=
  fold_left (fun self elt => insert elt self) elts new.

End ListBasedSequenceStructure.


(** ** Matrices of the dynamic programs: lists of rows *)

Definition matrix (A : Type) : Type := list (list A).

(** [[[a for j in range(cols)] for i in range(rows)]] *)
Definition new_matrix {A : Type} (rows cols : Z) (a : A) : matrix A :=
  repeat (repeat a (Z.to_nat cols)) (Z.to_nat rows).

(** [m[i][j]] *)
Definition mget {A : Type} (m : matrix A) (i j : Z) : result A :=
  row <- py_get m i ;; py_get row j.

(** [m[i][j] = a] *)
Definition mset {A : Type} (m : matrix A) (i j : Z) (a : A) : result (matrix A) :=
  row <- py_get m i ;;
  row <- py_set row j a ;;
  py_set m i row.

(** The empty character label and [Cell({'@': 1.0})]. *)
Definition es : string := "@".
Definition ec : Cell.t := [(es, 1)].

(** ** combination.py: levmetric_ocr *)

Definition levmetric_ocr (ocr_string1 ocr_string2 : list Cell.t) : result Q :=
  if ((len ocr_string1 =? 0) && (len ocr_string2 =? 0))%Z then Ok 0
  else
    let dp := new_matrix (len ocr_string1 + 1) (len ocr_string2 + 1) 0 in
    dp <- mset dp 0 0 0 ;;
    dp <- foldM
            (fun dp s_preflen =>
               c <- py_get ocr_string2 (s_preflen - 1) ;;
               d <- cell_dist c ec ;;
               p <- mget dp 0 (s_preflen - 1) ;;
               mset dp 0 s_preflen (d + p))
            (range 1 (len ocr_string2 + 1)) dp ;;
    dp <- foldM
            (fun dp b_preflen =>
               c <- py_get ocr_string1 (b_preflen - 1) ;;
               d <- cell_dist c ec ;;
               p <- mget dp (b_preflen - 1) 0 ;;
               mset dp b_preflen 0 (d + p))
            (range 1 (len ocr_string1 + 1)) dp ;;
    dp <- foldM
            (fun dp b_preflen =>
               foldM
                 (fun dp s_preflen =>
                    (* cell from ocr_string1 is aligned with empty cell *)
                    b <- py_get ocr_string1 (b_preflen - 1) ;;
                    d <- cell_dist b ec ;;
                    p <- mget dp (b_preflen - 1) s_preflen ;;
                    let pen_unmatched_base := d + p in
                    (* cell from ocr_string2 is aligned with empty cell *)
                    s <- py_get ocr_string2 (s_preflen - 1) ;;
                    d <- cell_dist s ec ;;
                    p <- mget dp b_preflen (s_preflen - 1) ;;
                    let pen_unmatched_s := d + p in
                    (* cells of ocr_string1 and ocr_string2 are aligned together *)
                    b <- py_get ocr_string1 (b_preflen - 1) ;;
                    s <- py_get ocr_string2 (s_preflen - 1) ;;
                    d <- cell_dist b s ;;
                    p <- mget dp (b_preflen - 1) (s_preflen - 1) ;;
                    let pen_matched := d + p in
                    mset dp b_preflen s_preflen
                      (py_min3 pen_unmatched_base pen_unmatched_s pen_matched))
                 (range 1 (len ocr_string2 + 1)) dp)
            (range 1 (len ocr_string1 + 1)) dp ;;
    (* Generalized Levenshtein Distance value *)
    levenshtein <- mget dp (len ocr_string1) (len ocr_string2) ;;
    (* returning normalized value *)
    py_div (2 * levenshtein)
      (inject_Z (len ocr_string1) + inject_Z (len ocr_string2) + levenshtein).

(** ** metrics.py: levenshtein *)

(** A Python [str] as the sequence of its one-character strings. *)
Definition chars (s : string) : list string :=
  map (fun c => String c EmptyString) (list_ascii_of_string s).

(** [a] and [b] are sequences of items compared with [==]. *)
Definition levenshtein (a b : list string) : result Z :=
  if (Z.min (len a) (len b) =? 0)%Z then Ok (Z.max (len a) (len b))
  else
    let dp := new_matrix (len a + 1) (len b + 1) 0%Z in
    dp <- foldM (fun dp b_preflen => mset dp 0 b_preflen b_preflen)
            (range 0 (len b + 1)) dp ;;
    dp <- foldM
            (fun dp a_preflen =>
               dp <- mset dp a_preflen 0 a_preflen ;;
               foldM
                 (fun dp b_preflen =>
                    (* insertion or deletion (penalty 1) *)
                    x <- mget dp (a_preflen - 1) b_preflen ;;
                    y <- mget dp a_preflen (b_preflen - 1) ;;
                    dp <- mset dp a_preflen b_preflen (1 + Z.min x y)%Z ;;
                    (* substitution penalty *)
                    ai <- py_get a (a_preflen - 1) ;;
                    bj <- py_get b (b_preflen - 1) ;;
                    let subs_penalty := if String.eqb ai bj then 0%Z else 1%Z in
                    (* substitution *)
                    x <- mget dp a_preflen b_preflen ;;
                    y <- mget dp (a_preflen - 1) (b_preflen - 1) ;;
                    mset dp a_preflen b_preflen (Z.min x (subs_penalty + y))%Z)
                 (range 1 (len b + 1)) dp)
            (range 1 (len a + 1)) dp ;;
    mget dp (len a) (len b).

(** ** combination.py: Alignment *)

(** [arg_s]: a simple string or a sequence of Cells. *)
Inductive input : Type :=
| Str (s : string)
| Cells (l : list Cell.t).

(** [[Cell({c: 1.0}) for c in arg_s] if isinstance(arg_s, str)
     else [c.clone() for c in arg_s]] *)
Definition cells_of (arg_s : input) : list Cell.t :=
  match arg_s with
  | Str s => map (fun c => [(c, 1)]) (chars s)
  | Cells l => map Cell.clone l
  end.

(** Alignment DP matrix direction labels. *)
Inductive path_label : Set :=
| PATH_UNDEFINED
| PATH_MATCHED
| PATH_UNMATCHED_BASE   (* 'deletion' *)
| PATH_UNMATCHED_S.     (* 'insertion' *)

(** The label that [add_string] records for three penalties. *)
Definition choose_path (pen_unmatched_base pen_unmatched_s pen_matched : Q) : path_label :=
  if Qltb pen_matched (py_min pen_unmatched_base pen_unmatched_s) then PATH_MATCHED
  else if Qltb pen_unmatched_base pen_unmatched_s then PATH_UNMATCHED_BASE
  else PATH_UNMATCHED_S.

(** The matrices [dp] and [path] that [add_string] fills, in [Alignment]
    and in [AlignmentWithEstimation] alike. *)
Definition align_matrices (base s : list Cell.t)
  : result (matrix Q * matrix path_label) :=
  let dp := new_matrix (len base + 1) (len s + 1) 0 in
  let path := new_matrix (len base + 1) (len s + 1) PATH_UNDEFINED in
  dp <- mset dp 0 0 0 ;;
  path <- mset path 0 0 PATH_UNDEFINED ;;
  ' (dp, path) <-
    foldM
      (fun st s_preflen =>
         let '(dp, path) := st in
         c <- py_get s (s_preflen - 1) ;;
         d <- cell_dist c ec ;;
         p <- mget dp 0 (s_preflen - 1) ;;
         dp <- mset dp 0 s_preflen (d + p) ;;
         path <- mset path 0 s_preflen PATH_UNMATCHED_S ;;
         Ok (dp, path))
      (range 1 (len s + 1)) (dp, path) ;;
  ' (dp, path) <-
    foldM
      (fun st b_preflen =>
         let '(dp, path) := st in
         c <- py_get base (b_preflen - 1) ;;
         d <- cell_dist c ec ;;
         p <- mget dp (b_preflen - 1) 0 ;;
         dp <- mset dp b_preflen 0 (d + p) ;;
         path <- mset path b_preflen 0 PATH_UNMATCHED_BASE ;;
         Ok (dp, path))
      (range 1 (len base + 1)) (dp, path) ;;
  foldM
    (fun st b_preflen =>
       foldM
         (fun st s_preflen =>
            let '(dp, path) := st in
            (* cell from base is aligned with empty cell *)
            b <- py_get base (b_preflen - 1) ;;
            d <- cell_dist b ec ;;
            p <- mget dp (b_preflen - 1) s_preflen ;;
            let pen_unmatched_base := d + p in
            (* cell from input is aligned with empty cell *)
            c <- py_get s (s_preflen - 1) ;;
            d <- cell_dist c ec ;;
            p <- mget dp b_preflen (s_preflen - 1) ;;
            let pen_unmatched_s := d + p in
            (* cells from base and input are aligned together *)
            b <- py_get base (b_preflen - 1) ;;
            c <- py_get s (s_preflen - 1) ;;
            d <- cell_dist b c ;;
            p <- mget dp (b_preflen - 1) (s_preflen - 1) ;;
            let pen_matched := d + p in
            dp <- mset dp b_preflen s_preflen
                    (py_min3 pen_unmatched_base pen_unmatched_s pen_matched) ;;
            (* determining the path label to trace the path after DP *)
            path <- mset path b_preflen s_preflen
                      (choose_path pen_unmatched_base pen_unmatched_s pen_matched) ;;
            Ok (dp, path))
         (range 1 (len s + 1)) st)
    (range 1 (len base + 1)) (dp, path).

Definition path_eqb (x y : path_label) : bool :=
  match x, y with
  | PATH_UNDEFINED, PATH_UNDEFINED
  | PATH_MATCHED, PATH_MATCHED
  | PATH_UNMATCHED_BASE, PATH_UNMATCHED_BASE
  | PATH_UNMATCHED_S, PATH_UNMATCHED_S => true
  | _, _ => false
  end.

Module Alignment.

Record t : Type := mk {
  base : option (list Cell.t);   (* aligned and combined result *)
  base_weight : Q;               (* sum of weights of combined inputs *)
  ew : Q                         (* weight of empty character *)
}.

(** [Alignment(empty_weight)] *)
Definition init (empty_weight : Q) : t := mk None 0 empty_weight.

(** The [while] loop of [add_string]: tracing the path, building the new
    base from its end. *)
Fixpoint trace (fuel : nat) (path : matrix path_label) (base s : list Cell.t)
         (base_weight weight : Q) (cur_b_preflen cur_s_preflen : Z)
         (new_base : list Cell.t) : result (list Cell.t) :=
  if ((0 <? cur_b_preflen) || (0 <? cur_s_preflen))%Z then
    match fuel with
    | O => Raise OutOfFuel
    | S fuel =>
        label <- mget path cur_b_preflen cur_s_preflen ;;
        if path_eqb label PATH_MATCHED then
          b <- py_get base (cur_b_preflen - 1) ;;
          c <- py_get s (cur_s_preflen - 1) ;;
          m <- merge_cells b c base_weight weight ;;
          trace fuel path base s base_weight weight
            (cur_b_preflen - 1) (cur_s_preflen - 1) (new_base ++ [m])
        else if path_eqb label PATH_UNMATCHED_BASE then
          b <- py_get base (cur_b_preflen - 1) ;;
          m <- merge_cells b ec base_weight weight ;;
          trace fuel path base s base_weight weight
            (cur_b_preflen - 1) cur_s_preflen (new_base ++ [m])
        else if path_eqb label PATH_UNMATCHED_S then
          c <- py_get s (cur_s_preflen - 1) ;;
          m <- merge_cells ec c base_weight weight ;;
          trace fuel path base s base_weight weight
            cur_b_preflen (cur_s_preflen - 1) (new_base ++ [m])
        else
          trace fuel path base s base_weight weight
            cur_b_preflen cur_s_preflen new_base
    end
  else Ok new_base.

Definition add_string (fuel : nat) (self : t) (arg_s : input) (weight : Q) : result t :=
  let s := cells_of arg_s in
  let s := if (len s =? 0)%Z then [Cell.clone ec] else s in
  match base self with
  | None =>
      (* the first input becomes the new base *)
      new_base <- mapM Cell.normalized s ;;
      Ok (mk (Some new_base) weight (ew self))
  | Some base =>
      ' (dp, path) <- align_matrices base s ;;
      new_base <- trace fuel path base s (base_weight self) weight
                    (len base) (len s) [] ;;
      let new_base := rev new_base in
      Ok (mk (Some new_base) (base_weight self + weight) (ew self))
  end.

Definition get_string_result (self : t) : result string :=
  match base self with
  | None => Raise TypeError
  | Some base =>
      foldM
        (fun ret cell =>
           let best_nonempty := Cell.best_key_not_from cell es in
           best_nonempty_score <-
             (if String.eqb best_nonempty EmptyString then Ok 0
              else dict_at cell best_nonempty) ;;
           empty_score <-
             (if negb (dict_mem es cell) then Ok 0 else dict_at cell es) ;;
           if Qltb (empty_score * ew self) best_nonempty_score
           then Ok (ret ++ best_nonempty)%string
           else Ok ret)
        base EmptyString
  end.

(** A run of [add_string] calls on a new Alignment. *)
Definition run (fuel : nat) (empty_weight : Q) (calls : list (input * Q)) : result t :=
  foldM (fun self call => add_string fuel self (fst call) (snd call))
        calls (init empty_weight).

End Alignment.


(** ** combination_with_estimation.py: AlignmentWithEstimation *)

(** The class passed as [SequenceStructure]: its constructor and the
    methods that [AlignmentWithEstimation] calls. *)
Class SequenceStructure (T : Type) : Type := {
  ss_new : T;
  ss_insert : Q -> T -> result T;
  ss_get_modelling_sum : list (dict T) -> Z -> result Q
}.

#[export] Instance list_based : SequenceStructure ListBasedSequenceStructure.t := {
  ss_new := ListBasedSequenceStructure.new;
  ss_insert := fun elt self => Ok (ListBasedSequenceStructure.insert elt self);
  ss_get_modelling_sum := ListBasedSequenceStructure.get_modelling_sum
}.

(** The tree-backed class, for a recursion depth and the priorities that
    [Treap.next_weight] gives to the first, second, ... node of a Treap. *)
Definition treap_based (fuel : nat) (next_weight : nat -> Z)
  : SequenceStructure TreapBasedSequenceStructure.t := {|
  ss_new := TreapBasedSequenceStructure.new;
  ss_insert := fun elt self =>
    TreapBasedSequenceStructure.insert fuel
      (next_weight (List.length (Treap.nodes (TreapBasedSequenceStructure.treap self))))
      elt self;
  ss_get_modelling_sum := TreapBasedSequenceStructure.get_modelling_sum fuel
|}.

Module AlignmentWithEstimation.

Section WithSequenceStructure.
Context {T : Type} {SS : SequenceStructure T}.

Record t : Type := mk {
    base : option (list Cell.t);   (* aligned and combined result *)
    base_samples : Z;              (* number of processed samples *)
    ew : Q;                        (* weight of empty character *)
    Y : option (list (dict T));    (* structure for estimation computation *)
    alphabet : option string       (* alphabet of character classification results *)
  }.

  (** [AlignmentWithEstimation(empty_weight, SequenceStructure)] *)
Definition init (empty_weight : Q) : t := mk None 0 empty_weight None None.

  (** [y[c].insert(v)]: the structure at [y[c]] is changed in place. *)
Definition insert_at (y : dict T) (c : string) (v : Q) : result (dict T) :=
    h <- dict_at y c ;;
    h <- ss_insert v h ;;
    Ok (dict_set c h y).

  (** [for i in range(n): y[c].insert(v)] *)
Definition insert_times (n : Z) (y : dict T) (c : string) (v : Q) : result (dict T) :=
    foldM (fun y _ => insert_at y c v) (range 0 n) y.

  (** [''.join(list(cell.vars.keys()))] *)
Definition join_keys (cell : Cell.t) : string := String.concat EmptyString (keys cell).

  (** The [while] loop of [add_string]; [Y] is [self.Y], whose dictionaries
      the loop moves to [new_Y] as it changes them. *)
Fixpoint trace (fuel : nat) (path : matrix path_label) (base s : list Cell.t)
           (base_samples : Z) (alphabet : option string) (Y : list (dict T))
           (cur_b_preflen cur_s_preflen : Z)
           (new_base : list Cell.t) (new_Y : list (dict T))
    : result (list Cell.t * list (dict T)) :=
    if ((0 <? cur_b_preflen) || (0 <? cur_s_preflen))%Z then
      match fuel with
      | O => Raise OutOfFuel
      | S fuel =>
          label <- mget path cur_b_preflen cur_s_preflen ;;
          if path_eqb label PATH_MATCHED then
            b <- py_get base (cur_b_preflen - 1) ;;
            c <- py_get s (cur_s_preflen - 1) ;;
            m <- merge_cells b c (inject_Z base_samples) 1 ;;
            (* updating Y *)
            y <- py_get Y (cur_b_preflen - 1) ;;
            c <- py_get s (cur_s_preflen - 1) ;;
            y <- foldM (fun y kv => insert_at y (fst kv) (snd kv)) c y ;;
            trace fuel path base s base_samples alphabet Y
              (cur_b_preflen - 1) (cur_s_preflen - 1) (new_base ++ [m]) (new_Y ++ [y])
          else if path_eqb label PATH_UNMATCHED_BASE then
            b <- py_get base (cur_b_preflen - 1) ;;
            m <- merge_cells b ec (inject_Z base_samples) 1 ;;
            (* updating Y *)
            y <- py_get Y (cur_b_preflen - 1) ;;
            y <- match alphabet with
                 | None => insert_at y es 1
                 | Some alphabet =>
                     y <- foldM
                            (fun y c =>
                               if negb (String.eqb c es) then insert_at y c 0 else Ok y)
                            (chars alphabet) y ;;
                     insert_at y es 1
                 end ;;
            trace fuel path base s base_samples alphabet Y
              (cur_b_preflen - 1) cur_s_preflen (new_base ++ [m]) (new_Y ++ [y])
          else if path_eqb label PATH_UNMATCHED_S then
            c <- py_get s (cur_s_preflen - 1) ;;
            m <- merge_cells ec c (inject_Z base_samples) 1 ;;
            (* updating Y *)
            c <- py_get s (cur_s_preflen - 1) ;;
            let y := fold_left (fun y kv => dict_set (fst kv) ss_new y) c [] in
            y <- match alphabet with
                 | None => insert_at y es 1
                 | Some alphabet =>
                     y <- foldM
                            (fun y c =>
                               if negb (String.eqb c es)
                               then insert_times base_samples y c 0
                               else Ok y)
                            (chars alphabet) y ;;
                     insert_at y es 1
                 end ;;
            c <- py_get s (cur_s_preflen - 1) ;;
            y <- foldM (fun y kv => insert_at y (fst kv) (snd kv)) c y ;;
            trace fuel path base s base_samples alphabet Y
              cur_b_preflen (cur_s_preflen - 1) (new_base ++ [m]) (new_Y ++ [y])
          else
            trace fuel path base s base_samples alphabet Y
              cur_b_preflen cur_s_preflen new_base new_Y
      end
    else Ok (new_base, new_Y).

Definition add_string (fuel : nat) (self : t) (arg_s : input) : result t :=
    let s := cells_of arg_s in
    (* whether an empty string was passed as an input *)
    let '(s, empty_input_string) :=
      if (len s =? 0)%Z then
        (* empty sequence is normalized as a sequence of a single empty Cell *)
        let s0 := Cell.clone ec in
        (* populating alphabet if it is initialized *)
        let s0 := match alphabet self with
                  | Some alphabet =>
                      fold_left
                        (fun s0 c => if negb (String.eqb c es) then dict_set c 0 s0 else s0)
                        (chars alphabet) s0
                  | None => s0
                  end in
        ([s0], true)
      else (s, false) in
    match base self with
    | None =>
        (* the first input becomes the new base *)
        new_base <- mapM Cell.normalized s ;;
        new_Y <- mapM
                   (fun cell =>
                      foldM
                        (fun y kv =>
                           h <- ss_insert (snd kv) ss_new ;;
                           Ok (dict_set (fst kv) h y))
                        cell [])
                   new_base ;;
        new_alphabet <-
          (if negb empty_input_string then
             (* initializing alphabet *)
             s0 <- py_get s 0 ;; Ok (Some (join_keys s0))
           else Ok (alphabet self)) ;;
        Ok (mk (Some new_base) 1 (ew self) (Some new_Y) new_alphabet)
    | Some base =>
        Y0 <- match Y self with Some Y0 => Ok Y0 | None => Raise TypeError end ;;
        (* if this is a first non-empty input string the stored matrix Y has
           to be updated *)
        ' (alphabet1, Y1) <-
          (if negb empty_input_string &&
              match alphabet self with None => true | Some _ => false end
           then
             (* initializing alphabet *)
             s0 <- py_get s 0 ;;
             let alphabet1 := join_keys s0 in
             Y1 <- mapM
                     (fun y =>
                        foldM
                          (fun y c =>
                             if negb (String.eqb c es) && negb (dict_mem c y) then
                               insert_times (base_samples self) (dict_set c ss_new y) c 0
                             else Ok y)
                          (chars alphabet1) y)
                     Y0 ;;
             Ok (Some alphabet1, Y1)
           else Ok (alphabet self, Y0)) ;;
        ' (dp, path) <- align_matrices base s ;;
        ' (new_base, new_Y) <-
          trace fuel path base s (base_samples self) alphabet1 Y1
            (len base) (len s) [] [] ;;
        let new_base := rev new_base in
        let new_Y := rev new_Y in
        (* setting a new base *)
        Ok (mk (Some new_base) (base_samples self + 1) (ew self) (Some new_Y) alphabet1)
    end.

Definition get_string_result (self : t) : result string :=
    match base self with
    | None => Raise TypeError
    | Some base =>
        foldM
          (fun ret cell =>
             let best_nonempty := Cell.best_key_not_from cell es in
             best_nonempty_score <-
               (if String.eqb best_nonempty EmptyString then Ok 0
                else dict_at cell best_nonempty) ;;
             empty_score <-
               (if negb (dict_mem es cell) then Ok 0 else dict_at cell es) ;;
             if Qltb (empty_score * ew self) best_nonempty_score
             then Ok (ret ++ best_nonempty)%string
             else Ok ret)
          base EmptyString
    end.

Definition get_modelling_sum (self : t) : result Q :=
    match Y self with
    | None => Raise TypeError
    | Some Y => ss_get_modelling_sum Y (base_samples self)
    end.

  (** A run of [add_string] calls on a new AlignmentWithEstimation. *)
Definition run (fuel : nat) (empty_weight : Q) (calls : list input) : result t :=
    foldM (fun self arg_s => add_string fuel self arg_s) calls (init empty_weight).

End WithSequenceStructure.

Arguments t T : clear implicits.

End AlignmentWithEstimation.


(** ** metrics.py: normalization of strings and the string metrics *)

(** [str.upper()] for a character of ASCII: ['a'] .. ['z'] become
    ['A'] .. ['Z'], any other character of ASCII is kept. *)
Definition upper_char (c : ascii) : ascii :=
  let n := nat_of_ascii c in
  if ((97 <=? n) && (n <=? 122))%nat then ascii_of_nat (n - 32) else c.

Fixpoint upper (s : string) : string :=
  match s with
  | EmptyString => EmptyString
  | String c s' => String (upper_char c) (upper s')
  end.

(** [s.replace(old, new)] for two characters. *)
Fixpoint replace (old new : ascii) (s : string) : string :=
  match s with
  | EmptyString => EmptyString
  | String c s' => String (if Ascii.eqb c old then new else c) (replace old new s')
  end.

Definition normalize_string (s : string) : string :=
  replace "O" "0" (upper s).

Definition end_to_end (result ideal : string) : Z :=
  if String.eqb (normalize_string result) (normalize_string ideal) then 0%Z else 1%Z.

Definition d_levenshtein (a b : string) : result Q :=
  l <- levenshtein (chars (normalize_string a)) (chars (normalize_string b)) ;;
  Ok (1 * inject_Z l).

Definition levmetric (a b : string) : result Q :=
  if ((Z.of_nat (String.length a) =? 0) && (Z.of_nat (String.length b) =? 0))%Z then Ok 0
  else
    l <- d_levenshtein a b ;;
    py_div (2 * l)
      (inject_Z (Z.of_nat (String.length a)) + inject_Z (Z.of_nat (String.length b)) + l).

(** * The arithmetic of the source: binary64

    The definitions above compute with exact rationals. Python computes with
    binary64 numbers and rounds the result of every operation to the nearest
    one, ties to even. The functions of the Cells, of the Treap and of the
    sequence structures are given here once more, statement for statement
    as above, on the kernel's binary64 numbers: they tell which properties
    of the exact numbers the programs keep and which they keep up to
    rounding only. *)

#[local] Set Warnings "-inexact-float".

Module Binary64.

Local Open Scope float_scope.

Module Int63.
Import PrimInt63.

Fixpoint of_pos (p : positive) : int :=
  match p with
  | xH => 1%uint63
  | xO p => lsl (of_pos p) 1%uint63
  | xI p => lor (lsl (of_pos p) 1%uint63) 1%uint63
  end.

End Int63.

(** [float(z)] for an [int] below [2^63], as the counts and lengths of these
    programs are. *)
Definition of_Z (z : Z) : float :=
  match z with
  | Z0 => 0
  | Zpos p => of_uint63 (Int63.of_pos p)
  | Zneg p => - of_uint63 (Int63.of_pos p)
  end.

Definition py_div (x y : float) : result float :=
  if y =? 0 then Raise ZeroDivisionError else Ok (x / y).

(** ** combination.py: Cell *)

Module Cell.

Definition t : Type := dict float.

Definition clone (c : t) : t := c.

Definition weight_sum (c : t) : float := fold_left (fun s kv => s + snd kv) c 0.

Definition normalize (c : t) : result t :=
  let s := weight_sum c in
  mapM (fun kv => v <- py_div (snd kv) s ;; Ok (fst kv, v)) c.

Definition normalized (c : t) : result t :=
  let ret := clone c in
  normalize ret.

End Cell.

(** [cell_dist(a, b)] *)
Definition cell_dist (a b : Cell.t) : result float :=
  na <- Cell.normalized a ;;
  nb <- Cell.normalized b ;;
  let ret := 0 in
  let ret :=
    fold_left
      (fun ret kv =>
         match dict_get (fst kv) nb with
         | Some y => ret + abs (snd kv - y)
         | None => ret + snd kv
         end) na ret in
  let ret :=
    fold_left
      (fun ret kv => if dict_mem (fst kv) na then ret else ret + snd kv) nb ret in
  Ok (ret / 2).

(** [merge_cells(a, b, wa, wb)] *)
Definition merge_cells (a b : Cell.t) (wa wb : float) : result Cell.t :=
  na <- Cell.normalized a ;;
  nb <- Cell.normalized b ;;
  let ret := Cell.clone na in
  ret <- foldM
           (fun ret kv =>
              match dict_get (fst kv) ret with
              | Some x =>
                  v <- py_div (wa * x + wb * snd kv) (wa + wb) ;;
                  Ok (dict_set (fst kv) v ret)
              | None =>
                  v <- py_div (wb * snd kv) (wa + wb) ;;
                  Ok (dict_set (fst kv) v ret)
              end) nb ret ;;
  foldM
    (fun ret kv =>
       if negb (dict_mem (fst kv) nb) then
         x <- dict_at ret (fst kv) ;;
         v <- py_div (wa * x) (wa + wb) ;;
         Ok (dict_set (fst kv) v ret)
       else Ok ret) na ret.

(** ** treap.py *)

Module Treap.

Record TreapNode : Type := mkNode {
  element : float;       (* value of stored element *)
  subtree_sum : float;   (* sum of values in a subtree (including this node) *)
  subtree_cnt : Z;       (* number of nodes in a subtree (including this node) *)
  weight : Z;            (* balancing weight *)
  left_node : Z;         (* index of left child (-1 if there are none) *)
  right_node : Z         (* index of right child (-1 if there are none) *)
}.

Definition set_sum (s : float) (nd : TreapNode) : TreapNode :=
  mkNode (element nd) s (subtree_cnt nd) (weight nd) (left_node nd) (right_node nd).
Definition set_cnt (c : Z) (nd : TreapNode) : TreapNode :=
  mkNode (element nd) (subtree_sum nd) c (weight nd) (left_node nd) (right_node nd).
Definition set_left (l : Z) (nd : TreapNode) : TreapNode :=
  mkNode (element nd) (subtree_sum nd) (subtree_cnt nd) (weight nd) l (right_node nd).
Definition set_right (r : Z) (nd : TreapNode) : TreapNode :=
  mkNode (element nd) (subtree_sum nd) (subtree_cnt nd) (weight nd) (left_node nd) r.

Record t : Type := mk {
  nodes : list TreapNode;
  root : Z
}.

Definition empty : t := mk [] (-1).

Definition update_subtree (nodes : list TreapNode) (node : Z)
  : result (list TreapNode) :=
  nodes <- modify nodes node (fun nd => set_sum (element nd) nd) ;;
  nodes <- modify nodes node (set_cnt 1) ;;
  nd <- py_get nodes node ;;
  nodes <- (if negb (left_node nd =? -1)%Z then
              l <- py_get nodes (left_node nd) ;;
              nodes <- modify nodes node
                         (fun nd => set_sum (subtree_sum nd + subtree_sum l) nd) ;;
              l <- py_get nodes (left_node nd) ;;
              modify nodes node (fun nd => set_cnt (subtree_cnt nd + subtree_cnt l) nd)
            else Ok nodes) ;;
  nd <- py_get nodes node ;;
  if negb (right_node nd =? -1)%Z then
    r <- py_get nodes (right_node nd) ;;
    nodes <- modify nodes node
               (fun nd => set_sum (subtree_sum nd + subtree_sum r) nd) ;;
    r <- py_get nodes (right_node nd) ;;
    modify nodes node (fun nd => set_cnt (subtree_cnt nd + subtree_cnt r) nd)
  else Ok nodes.

Fixpoint split (fuel : nat) (nodes : list TreapNode) (node : Z) (elt : float)
  : result (list TreapNode * (Z * Z)) :=
  match fuel with
  | O => Raise OutOfFuel
  | S fuel =>
      if (node =? -1)%Z then Ok (nodes, ((-1)%Z, (-1)%Z))
      else
        nd <- py_get nodes node ;;
        if elt <? element nd then
          ' (nodes, (l, r)) <- split fuel nodes (left_node nd) elt ;;
          nodes <- modify nodes node (set_left r) ;;
          nodes <- update_subtree nodes node ;;
          Ok (nodes, (l, node))
        else
          ' (nodes, (l, r)) <- split fuel nodes (right_node nd) elt ;;
          nodes <- modify nodes node (set_right l) ;;
          nodes <- update_subtree nodes node ;;
          Ok (nodes, (node, r))
  end.

Fixpoint add_element_internal (fuel : nat) (nodes : list TreapNode) (node : Z)
  : result (list TreapNode * Z) :=
  match fuel with
  | O => Raise OutOfFuel
  | S fuel =>
      if (node =? -1)%Z then
        nodes <- update_subtree nodes (-1) ;;
        Ok (nodes, (len nodes - 1)%Z)
      else
        new <- py_get nodes (-1) ;;
        nd <- py_get nodes node ;;
        if (weight nd <? weight new)%Z then
          ' (nodes, (l, r)) <- split fuel nodes node (element new) ;;
          nodes <- modify nodes (-1) (set_left l) ;;
          nodes <- modify nodes (-1) (set_right r) ;;
          nodes <- update_subtree nodes (-1) ;;
          Ok (nodes, (len nodes - 1)%Z)
        else
          nodes <-
            (if element new <? element nd then
               ' (nodes, sub) <- add_element_internal fuel nodes (left_node nd) ;;
               modify nodes node (set_left sub)
             else
               ' (nodes, sub) <- add_element_internal fuel nodes (right_node nd) ;;
               modify nodes node (set_right sub)) ;;
          nodes <- update_subtree nodes node ;;
          Ok (nodes, node)
  end.

Definition add_element (fuel : nat) (next_weight : Z) (elt : float) (self : t) : result t :=
  let new_node := mkNode elt 0 0 next_weight (-1) (-1) in
  let nodes := (nodes self ++ [new_node])%list in
  ' (nodes, r) <- add_element_internal fuel nodes (root self) ;;
  Ok (mk nodes r).

Fixpoint get_lower (fuel : nat) (nodes : list TreapNode) (node : Z) (value : float)
  : result (Z * float) :=
  match fuel with
  | O => Raise OutOfFuel
  | S fuel =>
      if (node =? -1)%Z then Ok (0%Z, 0)
      else
        nd <- py_get nodes node ;;
        if element nd <? value then
          ' (c, s) <- get_lower fuel nodes (right_node nd) value ;;
          ' (c, s) <-
            (if negb (left_node nd =? -1)%Z then
               l <- py_get nodes (left_node nd) ;;
               Ok ((c + subtree_cnt l)%Z, s + subtree_sum l)
             else Ok (c, s)) ;;
          Ok ((c + 1)%Z, s + element nd)
        else get_lower fuel nodes (left_node nd) value
  end.

Definition build (fuel : nat) (calls : list (Z * float)) : result t :=
  foldM (fun self call => add_element fuel (fst call) (snd call) self) calls empty.

End Treap.

(** ** combination_with_estimation.py: the sequence structures *)

Module TreapBasedSequenceStructure.

Record t : Type := mk { treap : Treap.t }.

Definition new : t := mk Treap.empty.

Definition get_sum (self : t) : result float :=
  if (Treap.root (treap self) =? -1)%Z then Ok 0
  else
    nd <- py_get (Treap.nodes (treap self)) (Treap.root (treap self)) ;;
    Ok (Treap.subtree_sum nd).

Definition insert (fuel : nat) (next_weight : Z) (elt : float) (self : t) : result t :=
  T <- Treap.add_element fuel next_weight elt (treap self) ;;
  Ok (mk T).

(** What one history [cell[c]] adds to [ret] in [get_modelling_sum]. *)
Definition history_term (fuel : nat) (h : t) (n : Z) : result float :=
  s <- get_sum h ;;
  mean <- py_div s (of_Z n) ;;
  ' (lc, ls) <- Treap.get_lower fuel (Treap.nodes (treap h)) (Treap.root (treap h)) mean ;;
  Ok (s * of_Z lc - of_Z n * ls).

Definition inserts (fuel : nat) (calls : list (Z * float)) : result t :=
  foldM (fun self call => insert fuel (fst call) (snd call) self) calls new.

End TreapBasedSequenceStructure.

Module ListBasedSequenceStructure.

Record t : Type := mk {
  elements : list float;   (* a list of inserted elements *)
  sum : float              (* accumulator for sum of elements *)
}.

Definition new : t := mk [] 0.

Definition get_sum (self : t) : float := sum self.

Definition insert (elt : float) (self : t) : t :=
  mk (elements self ++ [elt]) (sum self + elt).

(** What one history [cell[c]] adds to [d[0]], [d[1]], ... in
    [get_modelling_sum]. *)
Definition history_terms (h : t) (n : Z) : list float :=
  let s := get_sum h in
  map (fun e => abs (s - of_Z n * e)) (elements h).

Definition inserts (elts : list float) : t :=
  fold_left (fun self elt => insert elt self) elts new.

End ListBasedSequenceStructure.

End Binary64.

(** * Vocabulary of the properties *)

(** A Cell of the data model: distinct labels, non-negative weights. *)
Definition cell_ok (c : Cell.t) : Prop :=
  NoDup (keys c) /\ (forall k v, In (k, v) c -> 0 <= v).

(** Two Cells are the same distribution when every label weighs the same. *)
Definition same_distribution (c c' : Cell.t) : Prop :=
  forall k, weight_of c k == weight_of c' k.

(** The support of a Cell: the labels of non-zero weight. *)
Definition support (c : Cell.t) (k : string) : Prop := ~ weight_of c k == 0.

Definition disjoint_support (c c' : Cell.t) : Prop :=
  forall k, ~ (support c k /\ support c' k).

(** Every weight divided by [s]. *)
Definition scale (s : Q) (c : Cell.t) : Cell.t :=
  map (fun kv => (fst kv, snd kv / s)) c.

(** The labels of either of two Cells, each once. *)
Definition union_keys (c c' : Cell.t) : list string :=
  (keys c ++ filter (fun k => negb (dict_mem k c)) (keys c'))%list.

(** The sum that the two loops of [cell_dist] accumulate. *)
Definition taxicab (na nb : Cell.t) : Q :=
  fold_left
    (fun ret kv => if dict_mem (fst kv) na then ret else ret + snd kv) nb
    (fold_left
       (fun ret kv =>
          match dict_get (fst kv) nb with
          | Some y => ret + Qabs (snd kv - y)
          | None => ret + snd kv
          end) na 0).

(** The shape a Treap's arena encodes: each node with its index in
    [Treap.nodes] and its element. *)
Inductive tree : Type :=
| Leaf
| Node (l : tree) (i : nat) (e : Q) (r : tree).

Fixpoint elems (t : tree) : list Q :=
  match t with
  | Leaf => []
  | Node l _ e r => (elems l ++ e :: elems r)%list
  end.

Fixpoint idxs (t : tree) : list nat :=
  match t with
  | Leaf => []
  | Node l i _ r => (idxs l ++ i :: idxs r)%list
  end.

Fixpoint size (t : tree) : nat :=
  match t with
  | Leaf => O
  | Node l _ _ r => S (size l + size r)
  end.

Definition root_of (t : tree) : Z :=
  match t with
  | Leaf => (-1)%Z
  | Node _ i _ _ => Z.of_nat i
  end.

(** [shaped nodes t]: the arena holds [t], children linked by index, and
    every node of [t] stores the sum and the count of its own subtree. *)
Fixpoint shaped (nodes : list Treap.TreapNode) (t : tree) : Prop :=
  match t with
  | Leaf => True
  | Node l i e r =>
      exists nd,
        nth_error nodes i = Some nd /\
        Treap.element nd = e /\
        Treap.left_node nd = root_of l /\
        Treap.right_node nd = root_of r /\
        Treap.subtree_sum nd == sumQ (elems t) /\
        Treap.subtree_cnt nd = len (elems t) /\
        shaped nodes l /\ shaped nodes r
  end.

(** The child of a node, if it has one. *)
Definition child (nodes : list Treap.TreapNode) (c : Z) : option Treap.TreapNode :=
  if (c =? -1)%Z then None else nth_error nodes (Z.to_nat c).

(** What [update_subtree] adds to a node for the child of index [c]. *)
Definition add_child (nodes : list Treap.TreapNode) (c : Z) (x : Treap.TreapNode)
  : Treap.TreapNode :=
  match child nodes c with
  | Some l =>
      Treap.set_cnt (Treap.subtree_cnt (Treap.set_sum (Treap.subtree_sum x + Treap.subtree_sum l) x)
                     + Treap.subtree_cnt l)
        (Treap.set_sum (Treap.subtree_sum x + Treap.subtree_sum l) x)
  | None => x
  end.

(** What [update_subtree] leaves in a node. *)
Definition aggregated (nodes : list Treap.TreapNode) (nd : Treap.TreapNode)
  : Treap.TreapNode :=
  add_child nodes (Treap.right_node nd)
    (add_child nodes (Treap.left_node nd)
       (Treap.set_cnt 1 (Treap.set_sum (Treap.element nd) nd))).

(** The elements below [v], counted and summed. *)
Definition below (v : Q) (l : list Q) : list Q := filter (fun x => Qltb x v) l.

(** A child index: none, or a node of the arena other than node [i]. *)
Definition child_ok (nodes : list Treap.TreapNode) (i : nat) (c : Z) : Prop :=
  c = (-1)%Z \/ exists j, c = Z.of_nat j /\ j <> i /\ (j < List.length nodes)%nat.

(** The invariant of a Treap: its arena holds one tree, made of all its
    nodes, rooted at [root], whose in-order traversal is sorted. *)
Definition treap_inv (T : Treap.t) (t : tree) : Prop :=
  Treap.root T = root_of t /\
  shaped (Treap.nodes T) t /\
  Permutation (idxs t) (seq 0 (List.length (Treap.nodes T))) /\
  StronglySorted Qle (elems t).

(** A matrix of [R] rows and [C] columns. *)
Definition dims {A : Type} (m : matrix A) (R C : Z) : Prop :=
  len m = R /\ forall row, In row m -> len row = C.

(** [agrees G m R C filled]: the matrix holds the value [G i j] in every
    cell [(i, j)] that is filled. *)
Definition agrees {A : Type} (G : Z -> Z -> A) (m : matrix A) (R C : Z)
           (filled : Z -> Z -> Prop) : Prop :=
  dims m R C /\
  forall i j, (0 <= i < R)%Z -> (0 <= j < C)%Z -> filled i j -> mget m i j = Ok (G i j).

(** The distance that [cell_dist] returns for Cells of non-zero weight sum. *)
Definition dist (a b : Cell.t) : Q :=
  taxicab (scale (Cell.weight_sum a) a) (scale (Cell.weight_sum b) b) / 2.

(** A Cell that [normalize] accepts. *)
Definition normalizable (c : Cell.t) : Prop := ~ Cell.weight_sum c == 0.

(** The recurrence of the generalized Levenshtein distance between the
    prefixes of [base] and of [s], and the direction recorded with it. *)
Section Recurrence.
Variables base s : list Cell.t.

Definition del (i : nat) : Q := dist (nth i base []) ec.
Definition ins (j : nat) : Q := dist (nth j s []) ec.
Definition sub (i j : nat) : Q := dist (nth i base []) (nth j s []).

Fixpoint gld (i : nat) : nat -> Q :=
    match i with
    | O => fix row0 (j : nat) : Q :=
             match j with
             | O => 0
             | S j' => ins j' + row0 j'
             end
    | S i' => fix row (j : nat) : Q :=
                match j with
                | O => del i' + gld i' O
                | S j' => py_min3 (del i' + gld i' (S j'))
                                  (ins j' + row j')
                                  (sub i' j' + gld i' j')
                end
    end.

Definition direction (i j : nat) : path_label :=
    match i, j with
    | O, O => PATH_UNDEFINED
    | O, S _ => PATH_UNMATCHED_S
    | S _, O => PATH_UNMATCHED_BASE
    | S i', S j' => choose_path (del i' + gld i' (S j'))
                                (ins j' + gld (S i') j')
                                (sub i' j' + gld i' j')
    end.

Definition gldZ (i j : Z) : Q := gld (Z.to_nat i) (Z.to_nat j).
Definition directionZ (i j : Z) : path_label := direction (Z.to_nat i) (Z.to_nat j).
End Recurrence.

(** The classic Levenshtein distance between the prefixes of two sequences:
    unit cost for an insertion, a deletion and a substitution. *)
Section EditDistance.
Variables a b : list string.

Definition subst_cost (i j : nat) : Z :=
    if String.eqb (nth i a EmptyString) (nth j b EmptyString) then 0%Z else 1%Z.

Fixpoint edit (i : nat) : nat -> Z :=
    match i with
    | O => fun j => Z.of_nat j
    | S i' => fix row (j : nat) : Z :=
                match j with
                | O => Z.of_nat (S i')
                | S j' => Z.min (Z.min (edit i' (S j') + 1) (row j' + 1))
                                (edit i' j' + subst_cost i' j')
                end
    end.

Definition editZ (i j : Z) : Z := edit (Z.to_nat i) (Z.to_nat j).

Definition edit_distance : Z := edit (List.length a) (List.length b).

  (** [2 * L / (|a| + |b| + L)], and 0 for two empty sequences. *)
Definition normalized_levenshtein : Q :=
    if ((len a =? 0) && (len b =? 0))%Z then 0
    else 2 * inject_Z edit_distance
         / (inject_Z (len a) + inject_Z (len b) + inject_Z edit_distance).
End EditDistance.

(** The certain Cell of a label: [Cell({label: 1.0})]. *)
Definition certain (label : string) : Cell.t := [(label, 1)].

(** The first Cell of the first non-empty input of a run of [add_string]. *)
Fixpoint first_nonempty (calls : list input) : option Cell.t :=
  match calls with
  | [] => None
  | arg_s :: calls' =>
      match cells_of arg_s with
      | [] => first_nonempty calls'
      | c0 :: _ => Some c0
      end
  end.

(** The labels of an input other than the empty character label. *)
Definition non_gap_label (arg_s : input) (c : string) : Prop :=
  c <> es /\ exists cell, In cell (cells_of arg_s) /\ In c (keys cell).

(** ** Vocabulary of the further properties *)

(** One step of the loops of [best_key] and [best_key_not_from]: labels
    that [skip] holds for are passed over. *)
Definition pick (skip : string -> bool) (st kv : string * Q) : string * Q :=
  let '(ret, best_value) := st in
  if skip (fst kv) then (ret, best_value)
  else if Qltb best_value (snd kv) then (fst kv, snd kv)
  else (ret, best_value).

(** Labels in the order of [sorted]. *)
Definition label_le (x y : string * Q) : Prop := String.leb (fst x) (fst y) = true.

(** A Cell that stands for a distribution: a Cell of the data model whose
    weights do not all vanish. *)
Definition distribution (c : Cell.t) : Prop := cell_ok c /\ 0 < Cell.weight_sum c.

(** A string of characters of ASCII, on which [upper] is [str.upper]. *)
Definition ascii_only (s : string) : Prop :=
  Forall (fun c => (nat_of_ascii c < 128)%nat) (list_ascii_of_string s).

(** A lower case letter of ASCII. *)
Definition lower_case (c : ascii) : Prop := (97 <= nat_of_ascii c <= 122)%nat.

(** What [normalize_string] does to one character. *)
Definition normalize_char (c : ascii) : ascii :=
  if Ascii.eqb (upper_char c) "O" then "0"%char else upper_char c.

(** What [add_element] stores for good in each node: the priority and the
    element. *)
Definition stored (nodes : list Treap.TreapNode) : list (Z * Q) :=
  map (fun nd => (Treap.weight nd, Treap.element nd)) nodes.

(** The priority and the two child indices of each node. *)
Definition links (nodes : list Treap.TreapNode) : list (Z * Z * Z) :=
  map (fun nd => (Treap.weight nd, Treap.left_node nd, Treap.right_node nd)) nodes.

(** [lighter L c w]: [c] is no child, or the index of a node whose priority
    is not above [w]. *)
Definition lighter (L : list (Z * Z * Z)) (c w : Z) : Prop :=
  c = (-1)%Z \/
  exists wc lc rc,
    (0 <= c)%Z /\ nth_error L (Z.to_nat c) = Some (wc, lc, rc) /\ (wc <= w)%Z.

(** The heap order of a Treap: no child has a priority above its parent's. *)
Definition heap (L : list (Z * Z * Z)) : Prop :=
  forall i w l r, nth_error L i = Some (w, l, r) -> lighter L l w /\ lighter L r w.

(** The priorities alone. *)
Definition priorities (L : list (Z * Z * Z)) : list Z := map (fun x => fst (fst x)) L.

(** A normalized distribution: what [merge_cells] and [normalized] return. *)
Definition normal (c : Cell.t) : Prop := cell_ok c /\ Cell.weight_sum c == 1.

(** The Cells that [add_string] aligns for an input: those of the input,
    or the empty Cell alone for an empty input. *)
Definition aligned_cells (arg_s : input) : list Cell.t :=
  if (len (cells_of arg_s) =? 0)%Z then [Cell.clone ec] else cells_of arg_s.

(** A string without the occurrences of a character. *)
Fixpoint drop_char (c : ascii) (s : string) : string :=
  match s with
  | EmptyString => EmptyString
  | String c' s' => if Ascii.eqb c' c then drop_char c s' else String c' (drop_char c s')
  end.

(** The number of Cells that a run of [add_string] calls aligns. *)
Definition total_cells (calls : list (input * Q)) : nat :=
  list_sum (map (fun call => List.length (aligned_cells (fst call))) calls).

(** An Alignment between two [add_string] calls: no base yet and no weight,
    or a base of at most [n] normalized Cells. *)
Definition combined (self : Alignment.t) (n : nat) : Prop :=
  match Alignment.base self with
  | None => Alignment.base_weight self == 0 /\ n = 0%nat
  | Some b =>
      Forall normal b /\ 0 <= Alignment.base_weight self /\
      (1 <= List.length b <= n)%nat
  end.

(** The Cell that [AlignmentWithEstimation.add_string] aligns for an empty
    input: the empty Cell, with a zero estimation for every other character
    of the alphabet once it is known. *)
Definition padded_ec (alphabet : option string) : Cell.t :=
  match alphabet with
  | Some alphabet =>
      fold_left
        (fun s0 c => if negb (String.eqb c es) then dict_set c 0 s0 else s0)
        (chars alphabet) (Cell.clone ec)
  | None => Cell.clone ec
  end.

Definition estimation_cells (alphabet : option string) (arg_s : input) : list Cell.t :=
  if (len (cells_of arg_s) =? 0)%Z then [padded_ec alphabet] else cells_of arg_s.

(** The histories of an estimation as they were inserted: for each Cell of
    the base and each label, the values [y_1 .. y_n], each with the priority
    drawn for it. *)
Definition histories : Type := list (dict (list (Z * Q))).

(** [Y] for the list-backed structure. *)
Definition list_Y (data : histories) : list (dict ListBasedSequenceStructure.t) :=
  map (fun cell =>
         map (fun kv => (fst kv, ListBasedSequenceStructure.inserts (map snd (snd kv))))
             cell) data.

(** [Y] for the tree-backed structure. *)
Definition treap_Y (fuel : nat) (data : histories)
  : result (list (dict TreapBasedSequenceStructure.t)) :=
  mapM (fun cell =>
          mapM (fun kv =>
                  h <- TreapBasedSequenceStructure.inserts fuel (snd kv) ;;
                  Ok (fst kv, h)) cell) data.

(** Every history holds [n] values; the labels of a dictionary are distinct. *)
Definition regular (data : histories) (n : Z) : Prop :=
  Forall (fun cell => NoDup (keys cell) /\ Forall (fun kv => len (snd kv) = n) cell) data.

(** What sample [i] is away from the others: [|s - n * y_i|] summed over the
    histories, [s] being the sum of a history. *)
Definition deviation (data : histories) (n : Z) (i : nat) : Q :=
  sumQ (map (fun cell =>
               sumQ (map (fun kv =>
                            Qabs (sumQ (map snd (snd kv))
                                  - inject_Z n * nth i (map snd (snd kv)) 0))
                         cell))
            data).

(** The normalization of a distance [x] for a base of [m] Cells. *)
Definition normalized_gld (m : Z) (x : Q) : Q := 2 * x / (x + 2 * inject_Z m).

(** The histories that the first sample leaves: one value for each label of
    each Cell of the base, with the priority [p]. *)
Definition single_histories (p : Z) (base : list Cell.t) : histories :=
  map (fun cell => map (fun kv => (fst kv, [(p, snd kv)])) cell) base.

(** A Cell that holds one label, with the weight 1. *)
Definition pointed (label : string) (c : Cell.t) : Prop :=
  exists q, c = [(label, q)] /\ q == 1.

(** The sum that a node's child stores, 0 without a child. *)
Definition child_sum (nodes : list Treap.TreapNode) (c : Z) : Q :=
  match child nodes c with
  | Some nd => Treap.subtree_sum nd
  | None => 0
  end.

(** The objects that a client reaches with [add_string] calls when it handles
    the exceptions that they raise; [returned] tells whether one of the calls
    has returned. [Alignment.add_string] assigns to [self] in its last
    statements only (in the first call, once the input is normalized), so a
    call that raises leaves the object as it was. *)
Inductive reached (fuel : nat) (empty_weight : Q) : Alignment.t -> bool -> Prop :=
| reached_init :
    reached fuel empty_weight (Alignment.init empty_weight) false
| reached_return (self self' : Alignment.t) (returned : bool) (arg_s : input) (weight : Q) :
    reached fuel empty_weight self returned ->
    Alignment.add_string fuel self arg_s weight = Ok self' ->
    reached fuel empty_weight self' true
| reached_raise (self : Alignment.t) (returned : bool) (arg_s : input) (weight : Q)
                (e : exn) :
    reached fuel empty_weight self returned ->
    Alignment.add_string fuel self arg_s weight = Raise e -> e <> OutOfFuel ->
    reached fuel empty_weight self returned.

(** The same for the estimation class. Its [add_string] assigns [base] and
    [base_samples] in its last statements, and in the first call once the
    input is normalized, but it fills [alphabet] and the histories of [Y] on
    its way: a call that raises leaves [base], [base_samples] and [ew] as
    they were. *)
Inductive reached_estimation {T : Type} {SS : SequenceStructure T}
          (fuel : nat) (empty_weight : Q)
  : AlignmentWithEstimation.t T -> bool -> Prop :=
| reached_estimation_init :
    reached_estimation fuel empty_weight (AlignmentWithEstimation.init empty_weight) false
| reached_estimation_return (self self' : AlignmentWithEstimation.t T) (returned : bool)
                            (arg_s : input) :
    reached_estimation fuel empty_weight self returned ->
    AlignmentWithEstimation.add_string fuel self arg_s = Ok self' ->
    reached_estimation fuel empty_weight self' true
| reached_estimation_raise (self self' : AlignmentWithEstimation.t T) (returned : bool)
                           (arg_s : input) (e : exn) :
    reached_estimation fuel empty_weight self returned ->
    AlignmentWithEstimation.add_string fuel self arg_s = Raise e -> e <> OutOfFuel ->
    (AlignmentWithEstimation.base self = None ->
     exists e', mapM Cell.normalized
                     (estimation_cells (AlignmentWithEstimation.alphabet self) arg_s)
                = Raise e') ->
    AlignmentWithEstimation.base self' = AlignmentWithEstimation.base self ->
    AlignmentWithEstimation.base_samples self'
    = AlignmentWithEstimation.base_samples self ->
    AlignmentWithEstimation.ew self' = AlignmentWithEstimation.ew self ->
    reached_estimation fuel empty_weight self' returned.

(** * Properties *)

(** ** Rational sums and comparisons *)

(** Closed statements about the programs are settled by running them. *)
Ltac by_computation :=
  repeat match goal with
         | |- _ /\ _ => split
         | |- exists _, _ => eexists
         end;
  vm_compute; reflexivity.

Lemma Qltb_lt (x y : Q) : Qltb x y = true <-> x < y.
Proof.
  unfold Qltb. rewrite negb_true_iff, <- not_true_iff_false, Qle_bool_iff.
  split; [apply Qnot_le_lt | apply Qlt_not_le].
Qed.

Lemma Qltb_ge (x y : Q) : Qltb x y = false <-> y <= x.
Proof.
  unfold Qltb. rewrite negb_false_iff. apply Qle_bool_iff.
Qed.

Lemma py_div_ok (x y : Q) : ~ y == 0 -> py_div x y = Ok (x / y).
Proof.
  intro H. unfold py_div. destruct (Qeq_bool y 0) eqn:E; [|reflexivity].
  apply Qeq_bool_iff in E. contradiction.
Qed.

Lemma py_div_zero (x y : Q) : y == 0 -> py_div x y = Raise ZeroDivisionError.
Proof.
  intro H. unfold py_div. apply Qeq_bool_iff in H. now rewrite H.
Qed.

Lemma sumQ_app (l1 l2 : list Q) : sumQ (l1 ++ l2) == sumQ l1 + sumQ l2.
Proof.
  induction l1 as [|x l1 IH]; simpl; [ring | rewrite IH; ring].
Qed.

Lemma fold_left_sum {A : Type} (f : A -> Q) (l : list A) (a : Q) :
  fold_left (fun s x => s + f x) l a == a + sumQ (map f l).
Proof.
  revert a. induction l as [|x l IH]; intro a; simpl; [ring | rewrite IH; ring].
Qed.

Lemma sumQ_map_ext {A : Type} (f g : A -> Q) (l : list A) :
  (forall x, In x l -> f x == g x) -> sumQ (map f l) == sumQ (map g l).
Proof.
  induction l as [|x l IH]; intro H; simpl; [reflexivity|].
  rewrite (H x (or_introl eq_refl)), IH; [reflexivity|].
  intros y Hy. apply H. now right.
Qed.

Lemma sumQ_map_plus {A : Type} (f g : A -> Q) (l : list A) :
  sumQ (map (fun x => f x + g x) l) == sumQ (map f l) + sumQ (map g l).
Proof.
  induction l as [|x l IH]; simpl; [ring | rewrite IH; ring].
Qed.

Lemma sumQ_map_scale {A : Type} (c : Q) (f : A -> Q) (l : list A) :
  sumQ (map (fun x => c * f x) l) == c * sumQ (map f l).
Proof.
  induction l as [|x l IH]; simpl; [ring | rewrite IH; ring].
Qed.

Lemma sumQ_map_zero {A : Type} (f : A -> Q) (l : list A) :
  (forall x, In x l -> f x == 0) -> sumQ (map f l) == 0.
Proof.
  induction l as [|x l IH]; intro H; simpl; [reflexivity|].
  rewrite (H x (or_introl eq_refl)), IH; [ring|].
  intros y Hy. apply H. now right.
Qed.

Lemma sumQ_map_perm {A : Type} (f : A -> Q) (l l' : list A) :
  Permutation l l' -> sumQ (map f l) == sumQ (map f l').
Proof.
  induction 1; simpl.
  - reflexivity.
  - now rewrite IHPermutation.
  - ring.
  - now rewrite IHPermutation1.
Qed.

Lemma sumQ_map_nonneg {A : Type} (f : A -> Q) (l : list A) :
  (forall x, In x l -> 0 <= f x) -> 0 <= sumQ (map f l).
Proof.
  induction l as [|x l IH]; intro H; simpl; [lra|].
  specialize (H x (or_introl eq_refl)) as Hx.
  assert (0 <= sumQ (map f l)) by (apply IH; intros y Hy; apply H; now right).
  lra.
Qed.

Lemma sumQ_map_le {A : Type} (f g : A -> Q) (l : list A) :
  (forall x, In x l -> f x <= g x) -> sumQ (map f l) <= sumQ (map g l).
Proof.
  induction l as [|x l IH]; intro H; simpl; [lra|].
  specialize (H x (or_introl eq_refl)) as Hx.
  assert (sumQ (map f l) <= sumQ (map g l)) by (apply IH; intros y Hy; apply H; now right).
  lra.
Qed.

(** A sum of non-negative terms vanishes exactly when every term does. *)
Lemma sumQ_map_eq0 {A : Type} (f : A -> Q) (l : list A) :
  (forall x, In x l -> 0 <= f x) ->
  (sumQ (map f l) == 0 <-> forall x, In x l -> f x == 0).
Proof.
  intro Hpos. split; [|apply sumQ_map_zero].
  induction l as [|x l IH]; simpl; intros Hs y Hy; [contradiction|].
  assert (Hx : 0 <= f x) by (apply Hpos; now left).
  assert (Hl : 0 <= sumQ (map f l))
    by (apply sumQ_map_nonneg; intros z Hz; apply Hpos; now right).
  destruct Hy as [<-|Hy]; [lra|].
  apply IH; [intros z Hz; apply Hpos; now right | lra | exact Hy].
Qed.

(** ** Dictionaries *)

Section DictFacts.
Context {V : Type}.
  Implicit Types (d : dict V) (k : string) (v : V).

Lemma dict_get_in_keys d k : dict_get k d <> None <-> In k (keys d).
  Proof.
    induction d as [|[k' v'] d IH]; simpl; [tauto|].
    destruct (String.eqb_spec k k') as [->|Hne].
    - split; [now left | discriminate].
    - rewrite IH. split; [now right | intros [E|H]; [congruence | exact H]].
  Qed.

Lemma dict_get_none d k : dict_get k d = None <-> ~ In k (keys d).
  Proof.
    rewrite <- dict_get_in_keys. destruct (dict_get k d); split; try congruence.
    intro H. exfalso. apply H. discriminate.
  Qed.

Lemma dict_mem_in d k : dict_mem k d = true <-> In k (keys d).
  Proof.
    rewrite <- dict_get_in_keys. unfold dict_mem.
    destruct (dict_get k d); split; congruence.
  Qed.

Lemma dict_mem_not_in d k : dict_mem k d = false <-> ~ In k (keys d).
  Proof.
    rewrite <- dict_mem_in. destruct (dict_mem k d); split; congruence.
  Qed.

  (** An item of a dictionary is what a lookup of its key returns. *)
Lemma dict_get_item d k v : NoDup (keys d) -> In (k, v) d -> dict_get k d = Some v.
  Proof.
    induction d as [|[k' v'] d IH]; simpl; intros Hnd Hin; [contradiction|].
    inversion Hnd as [|? ? Hnotin Hnd']; subst.
    destruct Hin as [E|Hin].
    - inversion E; subst. now rewrite String.eqb_refl.
    - destruct (String.eqb_spec k k') as [->|Hne]; [|now apply IH].
      exfalso. apply Hnotin. change k' with (fst (k', v)). now apply in_map.
  Qed.

Lemma dict_get_set d k k' v :
    dict_get k (dict_set k' v d) = if String.eqb k k' then Some v else dict_get k d.
  Proof.
    induction d as [|[k0 v0] d IH]; simpl.
    - destruct (String.eqb k k'); reflexivity.
    - destruct (String.eqb_spec k' k0) as [->|Hne]; simpl.
      + destruct (String.eqb k k0); reflexivity.
      + rewrite IH. destruct (String.eqb_spec k k0) as [->|Hne'];
          [|reflexivity].
        destruct (String.eqb_spec k0 k'); [congruence | reflexivity].
  Qed.

Lemma keys_dict_set d k v :
    keys (dict_set k v d) = if dict_mem k d then keys d else (keys d ++ [k])%list.
  Proof.
    unfold dict_mem.
    induction d as [|[k0 v0] d IH]; simpl; [reflexivity|].
    destruct (String.eqb_spec k k0) as [->|Hne]; simpl; [reflexivity|].
    change (map fst (dict_set k v d)) with (keys (dict_set k v d)).
    rewrite IH. now destruct (dict_get k d).
  Qed.

Lemma NoDup_dict_set d k v : NoDup (keys d) -> NoDup (keys (dict_set k v d)).
  Proof.
    intro H. rewrite keys_dict_set. destruct (dict_mem k d) eqn:E; [exact H|].
    apply dict_mem_not_in in E.
    apply (Permutation_NoDup (l := k :: keys d)).
    - apply Permutation_cons_append.
    - now constructor.
  Qed.
End DictFacts.

(** ** Cell: normalization *)

Lemma fold_left_acc {A : Type} (F : Q -> A -> Q) (h : A -> Q) (l : list A) (a : Q) :
  (forall s x, F s x == s + h x) ->
  fold_left F l a == a + sumQ (map h l).
Proof.
  intro HF. revert a.
  induction l as [|x l IH]; intro a; simpl; [ring | rewrite IH, HF; ring].
Qed.

Lemma weight_sum_items (c : Cell.t) : Cell.weight_sum c == sumQ (map snd c).
Proof.
  unfold Cell.weight_sum. rewrite fold_left_sum. ring.
Qed.

Lemma weight_of_item (c : Cell.t) k v :
  NoDup (keys c) -> In (k, v) c -> weight_of c k = v.
Proof.
  intros Hnd Hin. unfold weight_of. now rewrite (dict_get_item c k v Hnd Hin).
Qed.

Lemma weight_of_absent (c : Cell.t) k : ~ In k (keys c) -> weight_of c k = 0.
Proof.
  intro H. unfold weight_of. apply dict_get_none in H. now rewrite H.
Qed.

(** Summing the items of a dictionary is summing the weights of its keys. *)
Lemma weight_sum_keys (c : Cell.t) :
  NoDup (keys c) -> Cell.weight_sum c == sumQ (map (weight_of c) (keys c)).
Proof.
  intro Hnd. rewrite weight_sum_items. unfold keys. rewrite map_map.
  apply sumQ_map_ext. intros [k v] Hin. simpl.
  now rewrite (weight_of_item c k v Hnd Hin).
Qed.

Lemma keys_scale s (c : Cell.t) : keys (scale s c) = keys c.
Proof.
  unfold keys, scale. rewrite map_map. reflexivity.
Qed.

Lemma dict_get_scale s (c : Cell.t) k :
  dict_get k (scale s c) = option_map (fun v => v / s) (dict_get k c).
Proof.
  induction c as [|[k' v'] c IH]; simpl; [reflexivity|].
  destruct (String.eqb k k'); [reflexivity | exact IH].
Qed.

Lemma weight_of_scale s (c : Cell.t) k : weight_of (scale s c) k == weight_of c k / s.
Proof.
  unfold weight_of. rewrite dict_get_scale.
  destruct (dict_get k c); simpl; [reflexivity|].
  unfold Qdiv. ring.
Qed.

Lemma weight_sum_scale s (c : Cell.t) :
  Cell.weight_sum (scale s c) == Cell.weight_sum c / s.
Proof.
  rewrite !weight_sum_items. unfold scale. rewrite map_map. simpl.
  unfold Qdiv. rewrite (Qmult_comm _ (/ s)), <- sumQ_map_scale.
  apply sumQ_map_ext. intros; ring.
Qed.

Lemma cell_ok_scale s (c : Cell.t) : 0 < s -> cell_ok c -> cell_ok (scale s c).
Proof.
  intros Hs [Hnd Hpos]. split; [now rewrite keys_scale|].
  intros k v Hin. unfold scale in Hin. apply in_map_iff in Hin.
  destruct Hin as [[k' v'] [E Hin]]. inversion E; subst.
  apply Hpos in Hin. simpl.
  apply Qle_shift_div_l; [exact Hs | lra].
Qed.

Lemma normalize_nonzero (c : Cell.t) :
  ~ Cell.weight_sum c == 0 ->
  Cell.normalize c = Ok (scale (Cell.weight_sum c) c).
Proof.
  intro Hs. unfold Cell.normalize. cbv zeta.
  generalize dependent (Cell.weight_sum c). intros s Hs.
  induction c as [|[k v] c IH]; simpl; [reflexivity|].
  rewrite (py_div_ok v s Hs). simpl. rewrite IH. reflexivity.
Qed.

Lemma normalize_zero (c : Cell.t) :
  c <> [] -> Cell.weight_sum c == 0 -> Cell.normalize c = Raise ZeroDivisionError.
Proof.
  intros Hne Hs. unfold Cell.normalize.
  destruct c as [|[k v] c]; [congruence|]. simpl.
  now rewrite (py_div_zero v _ Hs).
Qed.

Lemma normalized_sum (c : Cell.t) :
  ~ Cell.weight_sum c == 0 ->
  Cell.weight_sum (scale (Cell.weight_sum c) c) == 1.
Proof.
  intro Hs. rewrite weight_sum_scale. now field.
Qed.

(** ** Cell: the taxicab distance *)

Lemma sumQ_map_filter {A : Type} (p : A -> bool) (g : A -> Q) (l : list A) :
  sumQ (map g (filter p l)) == sumQ (map (fun x => if p x then g x else 0) l).
Proof.
  induction l as [|x l IH]; simpl; [reflexivity|].
  destruct (p x); simpl; rewrite IH; ring.
Qed.

Lemma in_union_keys (c c' : Cell.t) k :
  In k (union_keys c c') <-> In k (keys c) \/ In k (keys c').
Proof.
  unfold union_keys. rewrite in_app_iff, filter_In, negb_true_iff, dict_mem_not_in.
  destruct (in_dec string_dec k (keys c)); tauto.
Qed.

Lemma NoDup_union_keys (c c' : Cell.t) :
  NoDup (keys c) -> NoDup (keys c') -> NoDup (union_keys c c').
Proof.
  intros H H'. unfold union_keys. apply NoDup_app.
  - exact H.
  - now apply NoDup_filter.
  - intros k Hk Hf. apply filter_In in Hf. destruct Hf as [_ Hf].
    apply negb_true_iff, dict_mem_not_in in Hf. contradiction.
Qed.

Lemma union_keys_comm (c c' : Cell.t) :
  NoDup (keys c) -> NoDup (keys c') ->
  Permutation (union_keys c c') (union_keys c' c).
Proof.
  intros H H'. apply NoDup_Permutation; try now apply NoDup_union_keys.
  intro k. rewrite !in_union_keys. tauto.
Qed.

Section Taxicab.
Variables P R : Cell.t.
Hypothesis HP : cell_ok P.
Hypothesis HR : cell_ok R.

Let gap (k : string) : Q := Qabs (weight_of P k - weight_of R k).

Lemma taxicab_union : taxicab P R == sumQ (map gap (union_keys P R)).
  Proof.
    destruct HP as [HPnd HPpos], HR as [HRnd HRpos].
    unfold taxicab, union_keys.
    rewrite (fold_left_acc _ (fun kv => if dict_mem (fst kv) P then 0 else snd kv)).
    2:{ intros s x. destruct (dict_mem (fst x) P); ring. }
    rewrite (fold_left_acc _ (fun kv => match dict_get (fst kv) R with
                                        | Some y => Qabs (snd kv - y)
                                        | None => snd kv
                                        end)).
    2:{ intros s x. destruct (dict_get (fst x) R); ring. }
    rewrite map_app, sumQ_app, Qplus_0_l.
    apply Qplus_comp.
    - unfold keys. rewrite map_map. apply sumQ_map_ext.
      intros [k x] Hin. simpl. unfold gap.
      rewrite (weight_of_item P k x HPnd Hin). unfold weight_of.
      destruct (dict_get k R); [reflexivity|].
      apply HPpos in Hin. rewrite Qabs_pos; lra.
    - rewrite sumQ_map_filter. unfold keys. rewrite map_map.
      apply sumQ_map_ext. intros [k y] Hin. simpl.
      destruct (dict_mem k P) eqn:E; simpl; [reflexivity|].
      apply dict_mem_not_in in E. unfold gap.
      rewrite (weight_of_absent P k E), (weight_of_item R k y HRnd Hin).
      apply HRpos in Hin. rewrite Qabs_neg; lra.
  Qed.

Lemma union_sum_left :
    sumQ (map (weight_of P) (union_keys P R)) == Cell.weight_sum P.
  Proof.
    destruct HP as [HPnd _]. unfold union_keys.
    rewrite map_app, sumQ_app, <- (weight_sum_keys P HPnd).
    rewrite sumQ_map_zero; [ring|].
    intros k Hk. apply filter_In in Hk. destruct Hk as [_ Hk].
    apply negb_true_iff, dict_mem_not_in in Hk.
    now rewrite (weight_of_absent P k Hk).
  Qed.

Lemma weight_of_nonneg k : 0 <= weight_of P k.
  Proof.
    destruct HP as [HPnd HPpos]. unfold weight_of.
    destruct (dict_get k P) as [v|] eqn:E; [|lra].
    assert (Hin : In k (keys P)) by (apply dict_get_in_keys; congruence).
    unfold keys in Hin. apply in_map_iff in Hin. destruct Hin as [[k' v'] [Ek Hin]].
    simpl in Ek. subst k'. rewrite (dict_get_item P k v' HPnd Hin) in E.
    inversion E; subst. now apply HPpos in Hin.
  Qed.
End Taxicab.

Lemma Qabs_diff_le (x y : Q) : 0 <= x -> 0 <= y -> Qabs (x - y) <= x + y.
Proof.
  intros Hx Hy. apply Qabs_case; intros; lra.
Qed.

Lemma Qabs_diff_zero (x y : Q) : Qabs (x - y) == 0 <-> x == y.
Proof.
  apply Qabs_case; intros; split; intros; lra.
Qed.

Lemma Qabs_diff_sum (x y : Q) :
  0 <= x -> 0 <= y -> (x + y - Qabs (x - y) == 0 <-> x == 0 \/ y == 0).
Proof.
  intros Hx Hy. apply Qabs_case; intro H; split.
  - intro E. right. lra.
  - intros [E|E]; lra.
  - intro E. left. lra.
  - intros [E|E]; lra.
Qed.

Section TaxicabDistributions.
Variables P R : Cell.t.
Hypothesis HP : cell_ok P.
Hypothesis HR : cell_ok R.
Hypothesis HsP : Cell.weight_sum P == 1.
Hypothesis HsR : Cell.weight_sum R == 1.

Let gap (k : string) : Q := Qabs (weight_of P k - weight_of R k).

Lemma union_sum_right :
    sumQ (map (weight_of R) (union_keys P R)) == Cell.weight_sum R.
  Proof.
    rewrite (sumQ_map_perm _ _ _ (union_keys_comm P R (proj1 HP) (proj1 HR))).
    now apply union_sum_left.
  Qed.

Lemma taxicab_sym : taxicab P R == taxicab R P.
  Proof.
    rewrite (taxicab_union P R HP HR), (taxicab_union R P HR HP).
    rewrite (sumQ_map_perm _ _ _ (union_keys_comm P R (proj1 HP) (proj1 HR))).
    apply sumQ_map_ext. intros k _. now rewrite Qabs_Qminus.
  Qed.

Lemma taxicab_range : 0 <= taxicab P R <= 2.
  Proof.
    rewrite (taxicab_union P R HP HR). split.
    - apply sumQ_map_nonneg. intros; apply Qabs_nonneg.
    - apply Qle_trans
        with (sumQ (map (fun k => weight_of P k + weight_of R k) (union_keys P R))).
      + apply sumQ_map_le. intros k _.
        apply Qabs_diff_le; now apply weight_of_nonneg.
      + rewrite sumQ_map_plus, (union_sum_left P R HP), union_sum_right. lra.
  Qed.

Lemma weights_outside_union k :
    ~ In k (union_keys P R) -> weight_of P k = 0 /\ weight_of R k = 0.
  Proof.
    rewrite in_union_keys. intro H.
    split; apply weight_of_absent; tauto.
  Qed.

Lemma taxicab_zero : taxicab P R == 0 <-> same_distribution P R.
  Proof.
    rewrite (taxicab_union P R HP HR), sumQ_map_eq0
      by (intros; apply Qabs_nonneg).
    split.
    - intros H k. destruct (in_dec string_dec k (union_keys P R)) as [Hin|Hout].
      + now apply Qabs_diff_zero, H.
      + destruct (weights_outside_union k Hout) as [-> ->]. reflexivity.
    - intros H k _. apply Qabs_diff_zero, H.
  Qed.

Lemma taxicab_two : taxicab P R == 2 <-> disjoint_support P R.
  Proof.
    assert (E : 2 - taxicab P R ==
                sumQ (map (fun k => weight_of P k + weight_of R k - gap k)
                          (union_keys P R))).
    { rewrite (taxicab_union P R HP HR). fold gap.
      rewrite (sumQ_map_ext (fun k => weight_of P k + weight_of R k - gap k)
                 (fun k => (weight_of P k + weight_of R k) + (-(1)) * gap k))
        by (intros; ring).
      rewrite sumQ_map_plus, sumQ_map_plus, sumQ_map_scale.
      rewrite (union_sum_left P R HP), union_sum_right, HsP, HsR.
      ring. }
    assert (Hpos : forall k, In k (union_keys P R) ->
                             0 <= weight_of P k + weight_of R k - gap k).
    { intros k _. pose proof (Qabs_diff_le (weight_of P k) (weight_of R k)
        (weight_of_nonneg P HP k) (weight_of_nonneg R HR k)). unfold gap. lra. }
    pose proof (sumQ_map_eq0 _ _ Hpos) as Hz. rewrite <- E in Hz.
    split.
    - intros H2 k [HkP HkR].
      destruct (in_dec string_dec k (union_keys P R)) as [Hin|Hout].
      + assert (H0 : 2 - taxicab P R == 0) by lra.
        pose proof (proj1 Hz H0 k Hin) as H1. unfold gap in H1.
        apply Qabs_diff_sum in H1; try now apply weight_of_nonneg.
        unfold support in *. tauto.
      + destruct (weights_outside_union k Hout) as [E0 _].
        apply HkP. now rewrite E0.
    - intro Hd. assert (H0 : 2 - taxicab P R == 0); [|lra].
      apply (proj2 Hz). intros k _. unfold gap.
      apply Qabs_diff_sum; try now apply weight_of_nonneg.
      specialize (Hd k). unfold support in Hd.
      destruct (Qeq_dec (weight_of P k) 0); [now left|].
      destruct (Qeq_dec (weight_of R k) 0); [now right | tauto].
  Qed.
End TaxicabDistributions.

Lemma cell_dist_taxicab (a b : Cell.t) :
  ~ Cell.weight_sum a == 0 -> ~ Cell.weight_sum b == 0 ->
  cell_dist a b =
  Ok (taxicab (scale (Cell.weight_sum a) a) (scale (Cell.weight_sum b) b) / 2).
Proof.
  intros Ha Hb. unfold cell_dist, Cell.normalized, Cell.clone.
  rewrite (normalize_nonzero a Ha), (normalize_nonzero b Hb). reflexivity.
Qed.

Lemma support_scale s (c : Cell.t) k : 0 < s -> (support (scale s c) k <-> support c k).
Proof.
  intro Hs. unfold support. rewrite weight_of_scale.
  split; intros H E; apply H.
  - rewrite E. field. lra.
  - assert (weight_of c k == weight_of c k / s * s) by (field; lra). nra.
Qed.

(** ** Cell: merging *)

Section MergeLoops.
Variables wa wb : Q.
Hypothesis Hw : ~ wa + wb == 0.

  (** The first loop of [merge_cells], over the items of [nb]. *)
Let both_or_b (ret : Cell.t) (kv : string * Q) : result Cell.t :=
    match dict_get (fst kv) ret with
    | Some x =>
        v <- py_div (wa * x + wb * snd kv) (wa + wb) ;;
        Ok (dict_set (fst kv) v ret)
    | None =>
        v <- py_div (wb * snd kv) (wa + wb) ;;
        Ok (dict_set (fst kv) v ret)
    end.

Lemma merge_first_loop (rest ret : Cell.t) :
    NoDup (keys rest) -> NoDup (keys ret) ->
    exists ret',
      foldM both_or_b rest ret = Ok ret' /\ NoDup (keys ret') /\
      forall k,
        dict_get k ret' =
        match dict_get k rest with
        | Some y =>
            Some (match dict_get k ret with
                  | Some x => (wa * x + wb * y) / (wa + wb)
                  | None => (wb * y) / (wa + wb)
                  end)
        | None => dict_get k ret
        end.
  Proof.
    revert ret. induction rest as [|[k1 y1] rest IH]; intros ret Hnd Hret.
    - exists ret. simpl. auto.
    - inversion Hnd as [|? ? Hfresh Hnd']; subst.
      set (v1 := match dict_get k1 ret with
                 | Some x => (wa * x + wb * y1) / (wa + wb)
                 | None => (wb * y1) / (wa + wb)
                 end).
      assert (Hstep : both_or_b ret (k1, y1) = Ok (dict_set k1 v1 ret)).
      { unfold both_or_b, v1. simpl.
        destruct (dict_get k1 ret); rewrite py_div_ok by exact Hw; reflexivity. }
      destruct (IH (dict_set k1 v1 ret) Hnd' (NoDup_dict_set ret k1 v1 Hret))
        as [ret' [Hrun [Hnd'' Hget]]].
      exists ret'. simpl foldM. rewrite Hstep. simpl. split; [exact Hrun|].
      split; [exact Hnd''|]. intro k. rewrite Hget, dict_get_set. simpl.
      destruct (String.eqb_spec k k1) as [->|Hne].
      + apply dict_get_none in Hfresh. rewrite Hfresh. reflexivity.
      + reflexivity.
  Qed.

  (** The second loop, over the items of [na]. *)
Variable nb : Cell.t.

Let only_a (ret : Cell.t) (kv : string * Q) : result Cell.t :=
    if negb (dict_mem (fst kv) nb) then
      x <- dict_at ret (fst kv) ;;
      v <- py_div (wa * x) (wa + wb) ;;
      Ok (dict_set (fst kv) v ret)
    else Ok ret.

Lemma merge_second_loop (rest ret : Cell.t) :
    NoDup (keys rest) -> NoDup (keys ret) ->
    (forall k, In k (keys rest) -> In k (keys ret)) ->
    exists ret',
      foldM only_a rest ret = Ok ret' /\ NoDup (keys ret') /\
      forall k,
        dict_get k ret' =
        if dict_mem k rest && negb (dict_mem k nb)
        then option_map (fun x => (wa * x) / (wa + wb)) (dict_get k ret)
        else dict_get k ret.
  Proof.
    revert ret. induction rest as [|[k1 x1] rest IH]; intros ret Hnd Hret Hsub.
    - exists ret. simpl. auto.
    - inversion Hnd as [|? ? Hfresh Hnd']; subst.
      assert (Hk1 : In k1 (keys ret)) by (apply Hsub; now left).
      apply dict_get_in_keys in Hk1.
      destruct (dict_get k1 ret) as [x|] eqn:Ex; [clear Hk1 | congruence].
      assert (Hmem1 : dict_mem k1 ((k1, x1) :: rest) = true)
        by (unfold dict_mem; simpl; now rewrite String.eqb_refl).
      destruct (dict_mem k1 nb) eqn:Eb.
      + (* a label of both: the item is left as the first loop made it *)
        destruct (IH ret Hnd' Hret) as [ret' [Hrun [Hnd'' Hget]]].
        { intros k Hk. apply Hsub. now right. }
        exists ret'. simpl foldM. unfold only_a at 1. simpl. rewrite Eb. simpl.
        split; [exact Hrun|]. split; [exact Hnd''|].
        intro k. rewrite Hget. unfold dict_mem. simpl.
        destruct (String.eqb_spec k k1) as [->|Hne]; [|reflexivity].
        apply dict_get_none in Hfresh. rewrite Hfresh.
        fold (dict_mem k1 nb). rewrite Eb. reflexivity.
      + set (v1 := (wa * x) / (wa + wb)).
        destruct (IH (dict_set k1 v1 ret) Hnd' (NoDup_dict_set ret k1 v1 Hret))
          as [ret' [Hrun [Hnd'' Hget]]].
        { intros k Hk. rewrite keys_dict_set.
          assert (In k (keys ret)) by (apply Hsub; now right).
          destruct (dict_mem k1 ret); [assumption | apply in_or_app; now left]. }
        exists ret'. simpl foldM. unfold only_a at 1. simpl. rewrite Eb. simpl.
        unfold dict_at. rewrite Ex. simpl. rewrite py_div_ok by exact Hw. simpl.
        split; [exact Hrun|]. split; [exact Hnd''|].
        intro k. rewrite Hget, dict_get_set. unfold dict_mem. simpl.
        destruct (String.eqb_spec k k1) as [->|Hne]; [|reflexivity].
        apply dict_get_none in Hfresh. rewrite Hfresh.
        fold (dict_mem k1 nb). rewrite Eb. simpl. rewrite Ex. reflexivity.
  Qed.
End MergeLoops.

Lemma merge_cells_weights (a b : Cell.t) (wa wb : Q) :
  NoDup (keys a) -> NoDup (keys b) ->
  ~ Cell.weight_sum a == 0 -> ~ Cell.weight_sum b == 0 -> ~ wa + wb == 0 ->
  let na := scale (Cell.weight_sum a) a in
  let nb := scale (Cell.weight_sum b) b in
  exists r,
    merge_cells a b wa wb = Ok r /\ NoDup (keys r) /\
    (forall k, In k (keys r) <-> In k (union_keys na nb)) /\
    (forall k, weight_of r k ==
               (wa * weight_of na k + wb * weight_of nb k) / (wa + wb)).
Proof.
  intros Ha Hb Hsa Hsb Hw na nb.
  assert (Hna : NoDup (keys na)) by (unfold na; now rewrite keys_scale).
  assert (Hnb : NoDup (keys nb)) by (unfold nb; now rewrite keys_scale).
  unfold merge_cells, Cell.normalized, Cell.clone.
  rewrite (normalize_nonzero a Hsa), (normalize_nonzero b Hsb). simpl bind.
  fold na nb.
  destruct (merge_first_loop wa wb Hw nb na Hnb Hna) as [r1 [Hrun1 [Hnd1 Hget1]]].
  unfold Cell.t in *. rewrite Hrun1. simpl bind.
  destruct (merge_second_loop wa wb Hw nb na r1 Hna Hnd1) as [r [Hrun [Hnd Hget]]].
  { intros k Hk. apply dict_get_in_keys. rewrite Hget1.
    apply dict_get_in_keys in Hk. destruct (dict_get k nb); congruence. }
  exists r. split; [exact Hrun|]. split; [exact Hnd|].
  assert (Hfinal : forall k,
             dict_get k r =
             match dict_get k na, dict_get k nb with
             | Some x, Some y => Some ((wa * x + wb * y) / (wa + wb))
             | Some x, None => Some ((wa * x) / (wa + wb))
             | None, Some y => Some ((wb * y) / (wa + wb))
             | None, None => None
             end).
  { intro k. rewrite Hget, Hget1. unfold dict_mem.
    destruct (dict_get k na), (dict_get k nb); reflexivity. }
  split.
  - intro k. rewrite in_union_keys, <- !dict_get_in_keys, Hfinal.
    destruct (dict_get k na), (dict_get k nb); intuition congruence.
  - intro k. unfold weight_of. rewrite Hfinal.
    destruct (dict_get k na), (dict_get k nb); field; exact Hw.
Qed.

Lemma merge_cells_sum (na nb r : Cell.t) (wa wb : Q) :
  NoDup (keys na) -> NoDup (keys nb) -> NoDup (keys r) ->
  Cell.weight_sum na == 1 -> Cell.weight_sum nb == 1 -> ~ wa + wb == 0 ->
  (forall k, In k (keys r) <-> In k (union_keys na nb)) ->
  (forall k, weight_of r k ==
             (wa * weight_of na k + wb * weight_of nb k) / (wa + wb)) ->
  Cell.weight_sum r == 1.
Proof.
  intros Hna Hnb Hr Hsa Hsb Hw Hkeys Hweights.
  rewrite (weight_sum_keys r Hr).
  rewrite (sumQ_map_perm _ (keys r) (union_keys na nb)).
  2:{ apply NoDup_Permutation; [exact Hr | now apply NoDup_union_keys | exact Hkeys]. }
  rewrite (sumQ_map_ext _ (fun k => (wa / (wa + wb)) * weight_of na k
                                    + (wb / (wa + wb)) * weight_of nb k)).
  2:{ intros k _. rewrite Hweights. now field. }
  rewrite sumQ_map_plus, !sumQ_map_scale.
  assert (E1 : sumQ (map (weight_of na) (union_keys na nb)) == 1).
  { rewrite <- Hsa. unfold union_keys.
    rewrite map_app, sumQ_app, <- (weight_sum_keys na Hna).
    rewrite sumQ_map_zero; [ring|].
    intros k Hk. apply filter_In in Hk. destruct Hk as [_ Hk].
    apply negb_true_iff, dict_mem_not_in in Hk.
    now rewrite (weight_of_absent na k Hk). }
  assert (E2 : sumQ (map (weight_of nb) (union_keys na nb)) == 1).
  { rewrite (sumQ_map_perm _ _ _ (union_keys_comm na nb Hna Hnb)), <- Hsb.
    unfold union_keys.
    rewrite map_app, sumQ_app, <- (weight_sum_keys nb Hnb).
    rewrite sumQ_map_zero; [ring|].
    intros k Hk. apply filter_In in Hk. destruct Hk as [_ Hk].
    apply negb_true_iff, dict_mem_not_in in Hk.
    now rewrite (weight_of_absent nb k Hk). }
  rewrite E1, E2. now field.
Qed.

Lemma bind_ok {A B : Type} (a : A) (k : A -> result B) : bind (Ok a) k = k a.
Proof.
  reflexivity.
Qed.

(** ** Lists indexed the Python way *)

Section PyLists.
Context {A : Type}.
  Implicit Types (l : list A) (a : A) (i j : nat) (z : Z).

Lemma length_list_set l i a : List.length (list_set l i a) = List.length l.
  Proof.
    revert i. induction l as [|x l IH]; intros [|i]; simpl; auto.
  Qed.

Lemma nth_error_list_set_same l i a :
    (i < List.length l)%nat -> nth_error (list_set l i a) i = Some a.
  Proof.
    revert i. induction l as [|x l IH]; intros [|i] H; simpl in *; try lia; auto.
    apply IH. lia.
  Qed.

Lemma nth_error_list_set_other l i j a :
    i <> j -> nth_error (list_set l i a) j = nth_error l j.
  Proof.
    revert i j. induction l as [|x l IH]; intros [|i] [|j] H; simpl; auto.
    congruence.
  Qed.

Lemma list_set_twice l i a b : list_set (list_set l i a) i b = list_set l i b.
  Proof.
    revert i. induction l as [|x l IH]; intros [|i]; simpl; auto.
    now rewrite IH.
  Qed.

Lemma py_index_list_set l i a z : py_index (list_set l i a) z = py_index l z.
  Proof.
    unfold py_index, len. now rewrite length_list_set.
  Qed.

Lemma py_index_nat l i : (i < List.length l)%nat -> py_index l (Z.of_nat i) = Ok i.
  Proof.
    intro H. unfold py_index, len.
    destruct (Z.leb_spec 0 (Z.of_nat i)); [|lia].
    destruct (Z.ltb_spec (Z.of_nat i) (Z.of_nat (List.length l))); [|lia].
    simpl. now rewrite Nat2Z.id.
  Qed.

Lemma py_index_last l a :
    py_index (l ++ [a]) (-1) = Ok (List.length l).
  Proof.
    unfold py_index, len. rewrite length_app. simpl.
    destruct (Z.ltb_spec (-1) (Z.of_nat (List.length l + 1))); simpl.
    - destruct (Z.leb_spec (- Z.of_nat (List.length l + 1)) (-1)); [|lia].
      simpl. f_equal. lia.
    - lia.
  Qed.

Lemma py_index_bound l z i : py_index l z = Ok i -> (i < List.length l)%nat.
  Proof.
    unfold py_index, len.
    destruct (Z.leb_spec 0 z), (Z.ltb_spec z (Z.of_nat (List.length l))); simpl;
      try (intro E; inversion E; lia);
      destruct (Z.leb_spec (- Z.of_nat (List.length l)) z), (Z.ltb_spec z 0); simpl;
      intro E; inversion E; lia.
  Qed.

Lemma py_get_at l z i a :
    py_index l z = Ok i -> nth_error l i = Some a -> py_get l z = Ok a.
  Proof.
    intros Hz Hi. unfold py_get. rewrite Hz. simpl. now rewrite Hi.
  Qed.

Lemma modify_at l z i a f :
    py_index l z = Ok i -> nth_error l i = Some a ->
    modify l z f = Ok (list_set l i (f a)).
  Proof.
    intros Hz Hi. unfold modify. rewrite (py_get_at l z i a Hz Hi). simpl.
    unfold py_set. now rewrite Hz.
  Qed.
End PyLists.

Lemma list_set_same {A : Type} (l : list A) (i : nat) (a : A) :
  nth_error l i = Some a -> list_set l i a = l.
Proof.
  revert i. induction l as [|x l IH]; intros [|i] H; simpl in *; try congruence.
  now rewrite IH.
Qed.

(** ** Treap: [update_subtree] *)

Section UpdateSubtree.
Variable nodes : list Treap.TreapNode.
Variables (z : Z) (i : nat).
Hypothesis Hz : py_index nodes z = Ok i.

Lemma modify_current x f :
    modify (list_set nodes i x) z f = Ok (list_set nodes i (f x)).
  Proof.
    rewrite (modify_at _ z i x).
    - now rewrite list_set_twice.
    - now rewrite py_index_list_set.
    - apply nth_error_list_set_same. now apply py_index_bound in Hz.
  Qed.

Lemma get_current x : py_get (list_set nodes i x) z = Ok x.
  Proof.
    apply (py_get_at _ z i).
    - now rewrite py_index_list_set.
    - apply nth_error_list_set_same. now apply py_index_bound in Hz.
  Qed.

Lemma get_child x c :
    child_ok nodes i c -> c <> (-1)%Z ->
    exists nd, child nodes c = Some nd /\ py_get (list_set nodes i x) c = Ok nd.
  Proof.
    intros [E|[j [E [Hne Hlt]]]] Hc; [contradiction|]. subst c.
    destruct (nth_error nodes j) as [nd|] eqn:Ej.
    2:{ apply nth_error_None in Ej. lia. }
    exists nd. split.
    - unfold child. destruct (Z.eqb_spec (Z.of_nat j) (-1)); [lia|].
      now rewrite Nat2Z.id.
    - apply (py_get_at _ _ j).
      + apply py_index_nat. now rewrite length_list_set.
      + rewrite nth_error_list_set_other by congruence. exact Ej.
  Qed.

Lemma add_child_step x c :
    child_ok nodes i c ->
    (if negb (c =? -1)%Z then
       l <- py_get (list_set nodes i x) c ;;
       nodes' <- modify (list_set nodes i x) z
                   (fun nd => Treap.set_sum (Treap.subtree_sum nd + Treap.subtree_sum l) nd) ;;
       l <- py_get nodes' c ;;
       modify nodes' z (fun nd => Treap.set_cnt (Treap.subtree_cnt nd + Treap.subtree_cnt l) nd)
     else Ok (list_set nodes i x))
    = Ok (list_set nodes i (add_child nodes c x)).
  Proof.
    intro Hc. unfold add_child.
    destruct (Z.eqb_spec c (-1)) as [E|N]; simpl negb; cbv iota.
    - unfold child. subst c. reflexivity.
    - destruct (get_child x c Hc N) as [l [Hcl Hgl]].
      rewrite Hgl, bind_ok, modify_current, bind_ok.
      destruct (get_child
                  (Treap.set_sum (Treap.subtree_sum x + Treap.subtree_sum l) x)
                  c Hc N) as [l' [Hcl' Hgl']].
      rewrite Hgl', bind_ok, modify_current.
      rewrite Hcl in Hcl'. inversion Hcl'; subst l'. rewrite Hcl. reflexivity.
  Qed.

Lemma update_subtree_aggregated nd :
    nth_error nodes i = Some nd ->
    child_ok nodes i (Treap.left_node nd) ->
    child_ok nodes i (Treap.right_node nd) ->
    Treap.update_subtree nodes z = Ok (list_set nodes i (aggregated nodes nd)).
  Proof.
    intros Hnd Hl Hr. unfold Treap.update_subtree.
    rewrite <- (list_set_same nodes i nd Hnd) at 1.
    rewrite modify_current, bind_ok, modify_current, bind_ok.
    rewrite get_current, bind_ok.
    rewrite (add_child_step _ _ Hl), bind_ok, get_current, bind_ok.
    assert (E : Treap.right_node
                  (add_child nodes (Treap.left_node nd)
                     (Treap.set_cnt 1 (Treap.set_sum (Treap.element nd) nd)))
                = Treap.right_node nd)
      by (unfold add_child; destruct (child nodes (Treap.left_node nd)); reflexivity).
    rewrite E. unfold aggregated. apply (add_child_step _ _ Hr).
  Qed.
End UpdateSubtree.

(** ** Treap: the arena and the tree it holds *)

Lemma shaped_frame (nodes nodes' : list Treap.TreapNode) (t : tree) :
  shaped nodes t ->
  (forall j, In j (idxs t) -> nth_error nodes' j = nth_error nodes j) ->
  shaped nodes' t.
Proof.
  induction t as [|l IHl i e r IHr]; simpl; [trivial|].
  intros [nd [Hi [He [Hl [Hr [Hs [Hc [Hsl Hsr]]]]]]]] Hframe.
  exists nd. rewrite Hframe by (apply in_or_app; right; now left).
  repeat split; try assumption.
  - apply IHl; [assumption|]. intros j Hj. apply Hframe, in_or_app. now left.
  - apply IHr; [assumption|]. intros j Hj. apply Hframe, in_or_app. right. now right.
Qed.

Lemma shaped_bound (nodes : list Treap.TreapNode) (t : tree) (j : nat) :
  shaped nodes t -> In j (idxs t) -> (j < List.length nodes)%nat.
Proof.
  induction t as [|l IHl i e r IHr]; simpl; [tauto|].
  intros [nd [Hi [_ [_ [_ [_ [_ [Hsl Hsr]]]]]]]] Hj.
  apply in_app_or in Hj. destruct Hj as [Hj|[<-|Hj]]; auto.
  apply nth_error_Some. congruence.
Qed.

Lemma shaped_child_ok (nodes : list Treap.TreapNode) (t : tree) (i : nat) :
  shaped nodes t -> ~ In i (idxs t) -> child_ok nodes i (root_of t).
Proof.
  destruct t as [|l j e r]; intros Hs Hi; [now left|].
  right. exists j. simpl. split; [reflexivity|]. split.
  - intro E. apply Hi. simpl. apply in_or_app. right. now left.
  - apply (shaped_bound nodes (Node l j e r)); [assumption|].
    simpl. apply in_or_app. right. now left.
Qed.

Lemma shaped_child (nodes : list Treap.TreapNode) (t : tree) :
  shaped nodes t ->
  match child nodes (root_of t) with
  | Some nd =>
      Treap.subtree_sum nd == sumQ (elems t) /\ Treap.subtree_cnt nd = len (elems t)
  | None => t = Leaf
  end.
Proof.
  destruct t as [|l j e r]; intro Hs; [reflexivity|].
  destruct Hs as [nd [Hi [_ [_ [_ [Hsum [Hcnt _]]]]]]].
  unfold child. simpl root_of.
  destruct (Z.eqb_spec (Z.of_nat j) (-1)); [lia|].
  rewrite Nat2Z.id, Hi. now split.
Qed.

Lemma len_app {A : Type} (l1 l2 : list A) : len (l1 ++ l2) = (len l1 + len l2)%Z.
Proof.
  unfold len. rewrite length_app. lia.
Qed.

Lemma len_cons {A : Type} (a : A) (l : list A) : len (a :: l) = (1 + len l)%Z.
Proof.
  unfold len. simpl List.length. lia.
Qed.

Lemma aggregated_fields (nodes : list Treap.TreapNode) (nd : Treap.TreapNode) :
  Treap.element (aggregated nodes nd) = Treap.element nd /\
  Treap.weight (aggregated nodes nd) = Treap.weight nd /\
  Treap.left_node (aggregated nodes nd) = Treap.left_node nd /\
  Treap.right_node (aggregated nodes nd) = Treap.right_node nd.
Proof.
  unfold aggregated, add_child.
  destruct (child nodes (Treap.left_node nd)), (child nodes (Treap.right_node nd));
    repeat split.
Qed.

Lemma aggregated_sums (nodes : list Treap.TreapNode) (nd : Treap.TreapNode) (l r : tree) :
  Treap.left_node nd = root_of l -> Treap.right_node nd = root_of r ->
  shaped nodes l -> shaped nodes r ->
  Treap.subtree_sum (aggregated nodes nd)
  == sumQ (elems l ++ Treap.element nd :: elems r) /\
  Treap.subtree_cnt (aggregated nodes nd)
  = len (elems l ++ Treap.element nd :: elems r).
Proof.
  intros Hl Hr Hsl Hsr.
  pose proof (shaped_child nodes l Hsl) as Hcl.
  pose proof (shaped_child nodes r Hsr) as Hcr.
  rewrite sumQ_app, len_app, len_cons. simpl sumQ.
  unfold aggregated, add_child. rewrite Hl, Hr.
  destruct (child nodes (root_of l)) as [ndl|], (child nodes (root_of r)) as [ndr|];
    unfold Treap.set_cnt, Treap.set_sum;
    cbn [Treap.subtree_sum Treap.subtree_cnt Treap.element].
  - destruct Hcl as [Hcl Hcl'], Hcr as [Hcr Hcr'].
    rewrite Hcl, Hcr, Hcl', Hcr'. split; [ring | lia].
  - destruct Hcl as [Hcl Hcl']. subst r.
    rewrite Hcl, Hcl'. split; [simpl; ring | unfold len; simpl List.length; lia].
  - destruct Hcr as [Hcr Hcr']. subst l.
    rewrite Hcr, Hcr'. split; [simpl; ring | unfold len; simpl List.length; lia].
  - subst l r. split; [simpl; ring | reflexivity].
Qed.

(** [update_subtree] on a node whose two subtrees are in order makes the
    node's own subtree in order. *)
Lemma update_subtree_node (nodes : list Treap.TreapNode) (z : Z) (i : nat)
      (nd : Treap.TreapNode) (l r : tree) :
  py_index nodes z = Ok i ->
  nth_error nodes i = Some nd ->
  Treap.left_node nd = root_of l -> Treap.right_node nd = root_of r ->
  shaped nodes l -> shaped nodes r ->
  ~ In i (idxs l) -> ~ In i (idxs r) ->
  exists nd',
    Treap.update_subtree nodes z = Ok (list_set nodes i nd') /\
    shaped (list_set nodes i nd') (Node l i (Treap.element nd) r).
Proof.
  intros Hz Hi Hl Hr Hsl Hsr Hil Hir.
  exists (aggregated nodes nd). split.
  - apply update_subtree_aggregated; try assumption.
    + rewrite Hl. now apply shaped_child_ok.
    + rewrite Hr. now apply shaped_child_ok.
  - simpl. exists (aggregated nodes nd).
    assert (Hlt : (i < List.length nodes)%nat) by (apply nth_error_Some; congruence).
    destruct (aggregated_fields nodes nd) as [Fe [_ [Fl Fr]]].
    destruct (aggregated_sums nodes nd l r Hl Hr Hsl Hsr) as [Fs Fc].
    rewrite nth_error_list_set_same by exact Hlt.
    split; [reflexivity|]. split; [exact Fe|].
    split; [congruence|]. split; [congruence|].
    split; [exact Fs|]. split; [exact Fc|].
    split; (apply shaped_frame with (nodes := nodes); [assumption|];
            intros j Hj; apply nth_error_list_set_other; congruence).
Qed.

Lemma NoDup_middle {A : Type} (l1 l2 : list A) (a : A) :
  NoDup (l1 ++ a :: l2) ->
  NoDup l1 /\ NoDup l2 /\ ~ In a l1 /\ ~ In a l2 /\
  (forall x, In x l1 -> ~ In x l2).
Proof.
  intro H. pose proof (NoDup_remove _ _ _ H) as [Hnd Ha].
  split; [now apply NoDup_app_remove_r in Hnd|].
  split; [now apply NoDup_app_remove_l in Hnd|].
  split; [intro; apply Ha, in_or_app; now left|].
  split; [intro; apply Ha, in_or_app; now right|].
  intros x H1 H2. clear H Ha.
  induction l1 as [|y l1 IH]; [contradiction|].
  simpl in Hnd. inversion Hnd as [|? ? Hy Hnd']; subst.
  destruct H1 as [->|H1]; [apply Hy, in_or_app; now right | now apply IH].
Qed.

Lemma sorted_middle (l1 l2 : list Q) (e : Q) :
  StronglySorted Qle (l1 ++ e :: l2) ->
  StronglySorted Qle l1 /\ StronglySorted Qle l2 /\
  Forall (fun x => x <= e) l1 /\ Forall (fun y => e <= y) l2.
Proof.
  induction l1 as [|x l1 IH]; simpl; intro H.
  - inversion H; subst. repeat split; auto. constructor.
  - inversion H as [|? ? Hs Hall]; subst.
    destruct (IH Hs) as [H1 [H2 [H3 H4]]].
    repeat split; auto.
    + constructor; [assumption|].
      apply Forall_app in Hall. tauto.
    + constructor; [|assumption].
      apply Forall_app in Hall. destruct Hall as [_ Hall].
      now inversion Hall.
Qed.

Lemma sorted_join (l1 l2 : list Q) (e : Q) :
  StronglySorted Qle l1 -> StronglySorted Qle l2 ->
  Forall (fun x => x <= e) l1 -> Forall (fun y => e <= y) l2 ->
  StronglySorted Qle (l1 ++ e :: l2).
Proof.
  intros H1 H2 F1 F2. induction l1 as [|x l1 IH]; simpl.
  - now constructor.
  - inversion H1; subst. inversion F1; subst.
    constructor; [now apply IH|].
    apply Forall_app. split; [assumption|].
    constructor; [assumption|].
    eapply Forall_impl; [|exact F2]. intros y Hy. simpl in Hy.
    now apply Qle_trans with e.
Qed.

(** ** Treap: [split] *)

Lemma split_spec (elt : Q) (t : tree) :
  forall (fuel : nat) (nodes : list Treap.TreapNode),
    shaped nodes t -> NoDup (idxs t) -> StronglySorted Qle (elems t) ->
    (size t < fuel)%nat ->
    exists nodes' tl tr,
      Treap.split fuel nodes (root_of t) elt = Ok (nodes', (root_of tl, root_of tr)) /\
      shaped nodes' tl /\ shaped nodes' tr /\
      (elems tl ++ elems tr)%list = elems t /\
      Forall (fun x => x <= elt) (elems tl) /\
      Forall (fun x => elt < x) (elems tr) /\
      Permutation (idxs tl ++ idxs tr) (idxs t) /\
      List.length nodes' = List.length nodes /\
      (forall j, ~ In j (idxs t) -> nth_error nodes' j = nth_error nodes j).
Proof.
  induction t as [|l IHl i e r IHr]; intros fuel nodes Hs Hnd Hsorted Hfuel;
    (destruct fuel as [|fuel]; [simpl in Hfuel; lia|]).
  - exists nodes, Leaf, Leaf. simpl. repeat split; auto.
  - simpl in Hs. destruct Hs as [nd [Hi [He [Hl [Hr [_ [_ [Hsl Hsr]]]]]]]].
    simpl in Hnd, Hsorted, Hfuel.
    destruct (NoDup_middle _ _ _ Hnd) as [Hndl [Hndr [Hil [Hir Hdis]]]].
    destruct (sorted_middle _ _ _ Hsorted) as [Hsol [Hsor [Hle Hge]]].
    assert (Hilt : (i < List.length nodes)%nat) by (apply nth_error_Some; congruence).
    cbn [Treap.split root_of].
    destruct (Z.eqb_spec (Z.of_nat i) (-1)) as [|_]; [lia|].
    rewrite (py_get_at nodes _ i nd (py_index_nat nodes i Hilt) Hi), bind_ok.
    rewrite He.
    destruct (Qltb elt e) eqn:Ecmp.
    + (* the node and its right subtree go to the right part *)
      apply Qltb_lt in Ecmp.
      destruct (IHl fuel nodes Hsl Hndl Hsol ltac:(lia))
        as [n1 [tll [tlr [Hrun [Hs1 [Hs2 [Hel [Hf1 [Hf2 [Hperm [Hlen Hframe]]]]]]]]]]].
      rewrite Hl, Hrun, bind_ok. cbv beta iota zeta.
      assert (Hi1 : nth_error n1 i = Some nd) by (rewrite Hframe; assumption).
      assert (Hz1 : py_index n1 (Z.of_nat i) = Ok i)
        by (apply py_index_nat; lia).
      rewrite (modify_at n1 _ i nd _ Hz1 Hi1), bind_ok.
      set (n2 := list_set n1 i (Treap.set_left (root_of tlr) nd)).
      assert (Hsub : forall j, In j (idxs tll) \/ In j (idxs tlr) -> In j (idxs l)).
      { intros j Hj. apply (Permutation_in _ Hperm), in_or_app. exact Hj. }
      assert (Hn2 : forall j, j <> i -> nth_error n2 j = nth_error n1 j)
        by (intros j Hj; apply nth_error_list_set_other; congruence).
      destruct (update_subtree_node n2 (Z.of_nat i) i
                  (Treap.set_left (root_of tlr) nd) tlr r)
        as [nd' [Hup Hs3]].
      * unfold n2. rewrite py_index_list_set. exact Hz1.
      * unfold n2. apply nth_error_list_set_same. lia.
      * reflexivity.
      * exact Hr.
      * apply shaped_frame with (nodes := n1); [assumption|].
        intros j Hj. apply Hn2. intro E. subst j. apply Hil, Hsub. now right.
      * apply shaped_frame with (nodes := nodes); [assumption|].
        intros j Hj. rewrite Hn2 by congruence. apply Hframe.
        intro Hjl. now apply (Hdis j).
      * intro Hx. apply Hil, Hsub. now right.
      * exact Hir.
      * change (Treap.element (Treap.set_left (root_of tlr) nd))
          with (Treap.element nd) in Hs3. rewrite He in Hs3.
        rewrite Hup, bind_ok.
        exists (list_set n2 i nd'), tll, (Node tlr i e r).
        split; [reflexivity|].
        split.
        { apply shaped_frame with (nodes := n1); [assumption|].
          intros j Hj. rewrite nth_error_list_set_other.
          - apply Hn2. intro E. subst j. apply Hil, Hsub. now left.
          - intro E. subst j. apply Hil, Hsub. now left. }
        split; [exact Hs3|].
        split; [simpl; rewrite app_assoc, Hel; reflexivity|].
        split; [exact Hf1|].
        split.
        { simpl. apply Forall_app. split; [exact Hf2|].
          constructor; [exact Ecmp|].
          eapply Forall_impl; [|exact Hge]. intros y Hy. simpl in Hy.
          now apply Qlt_le_trans with e. }
        split.
        { simpl. rewrite app_assoc. now apply Permutation_app_tail. }
        split.
        { unfold n2. now rewrite !length_list_set. }
        intros j Hj. simpl in Hj.
        assert (j <> i) by (intro E; subst j; apply Hj, in_or_app; right; now left).
        rewrite nth_error_list_set_other by congruence.
        rewrite Hn2 by assumption. apply Hframe.
        intro Hjl. apply Hj, in_or_app. now left.
    + (* the node and its left subtree go to the left part *)
      apply Qltb_ge in Ecmp.
      destruct (IHr fuel nodes Hsr Hndr Hsor ltac:(lia))
        as [n1 [trl [trr [Hrun [Hs1 [Hs2 [Hel [Hf1 [Hf2 [Hperm [Hlen Hframe]]]]]]]]]]].
      rewrite Hr, Hrun, bind_ok. cbv beta iota zeta.
      assert (Hi1 : nth_error n1 i = Some nd) by (rewrite Hframe; assumption).
      assert (Hz1 : py_index n1 (Z.of_nat i) = Ok i)
        by (apply py_index_nat; lia).
      rewrite (modify_at n1 _ i nd _ Hz1 Hi1), bind_ok.
      set (n2 := list_set n1 i (Treap.set_right (root_of trl) nd)).
      assert (Hsub : forall j, In j (idxs trl) \/ In j (idxs trr) -> In j (idxs r)).
      { intros j Hj. apply (Permutation_in _ Hperm), in_or_app. exact Hj. }
      assert (Hn2 : forall j, j <> i -> nth_error n2 j = nth_error n1 j)
        by (intros j Hj; apply nth_error_list_set_other; congruence).
      destruct (update_subtree_node n2 (Z.of_nat i) i
                  (Treap.set_right (root_of trl) nd) l trl)
        as [nd' [Hup Hs3]].
      * unfold n2. rewrite py_index_list_set. exact Hz1.
      * unfold n2. apply nth_error_list_set_same. lia.
      * exact Hl.
      * reflexivity.
      * apply shaped_frame with (nodes := nodes); [assumption|].
        intros j Hj. rewrite Hn2 by congruence. apply Hframe.
        intro Hjr. now apply (Hdis j).
      * apply shaped_frame with (nodes := n1); [assumption|].
        intros j Hj. apply Hn2. intro E. subst j. apply Hir, Hsub. now left.
      * exact Hil.
      * intro Hx. apply Hir, Hsub. now left.
      * change (Treap.element (Treap.set_right (root_of trl) nd))
          with (Treap.element nd) in Hs3. rewrite He in Hs3.
        rewrite Hup, bind_ok.
        exists (list_set n2 i nd'), (Node l i e trl), trr.
        split; [reflexivity|].
        split; [exact Hs3|].
        split.
        { apply shaped_frame with (nodes := n1); [assumption|].
          intros j Hj. rewrite nth_error_list_set_other.
          - apply Hn2. intro E. subst j. apply Hir, Hsub. now right.
          - intro E. subst j. apply Hir, Hsub. now right. }
        split; [simpl; rewrite <- app_assoc; simpl; rewrite Hel; reflexivity|].
        split.
        { simpl. apply Forall_app. split.
          - eapply Forall_impl; [|exact Hle]. intros y Hy. simpl in Hy.
            now apply Qle_trans with e.
          - constructor; [exact Ecmp | exact Hf1]. }
        split; [exact Hf2|].
        split.
        { simpl. rewrite <- app_assoc. simpl.
          apply Permutation_app_head. now constructor. }
        split.
        { unfold n2. now rewrite !length_list_set. }
        intros j Hj. simpl in Hj.
        assert (j <> i) by (intro E; subst j; apply Hj, in_or_app; right; now left).
        rewrite nth_error_list_set_other by congruence.
        rewrite Hn2 by assumption. apply Hframe.
        intro Hjr. apply Hj, in_or_app. right. now right.
Qed.

(** ** Treap: [add_element_internal] *)

Lemma py_index_minus1 {A : Type} (l : list A) (n : nat) :
  List.length l = S n -> py_index l (-1) = Ok n.
Proof.
  intro H. unfold py_index, len. rewrite H.
  change (0 <=? -1)%Z with false. cbv [andb].
  destruct (Z.leb_spec (- Z.of_nat (S n)) (-1)); [|lia].
  change (-1 <? 0)%Z with true. cbv [andb]. f_equal. lia.
Qed.

Lemma add_element_internal_spec (t : tree) :
  forall (fuel : nat) (nodes : list Treap.TreapNode) (n : nat) (new : Treap.TreapNode),
    List.length nodes = S n -> nth_error nodes n = Some new ->
    Treap.left_node new = (-1)%Z -> Treap.right_node new = (-1)%Z ->
    shaped nodes t -> NoDup (idxs t) -> ~ In n (idxs t) ->
    StronglySorted Qle (elems t) -> (S (size t) < fuel)%nat ->
    exists nodes' t',
      Treap.add_element_internal fuel nodes (root_of t) = Ok (nodes', root_of t') /\
      shaped nodes' t' /\
      Permutation (idxs t') (n :: idxs t) /\
      (exists l1 l2,
          elems t' = (l1 ++ Treap.element new :: l2)%list /\
          elems t = (l1 ++ l2)%list /\
          Forall (fun x => x <= Treap.element new) l1 /\
          Forall (fun x => Treap.element new < x) l2) /\
      List.length nodes' = List.length nodes /\
      (forall j, j <> n -> ~ In j (idxs t) -> nth_error nodes' j = nth_error nodes j).
Proof.
  induction t as [|l IHl i e r IHr];
    intros fuel nodes n new Hlen Hnew Hnl Hnr Hs Hnd Hn Hsorted Hfuel;
    (destruct fuel as [|fuel]; [lia|]);
    pose proof (py_index_minus1 nodes n Hlen) as Hz.
  - (* an empty subtree: the new node is its root *)
    cbn [Treap.add_element_internal root_of]. simpl Z.eqb. cbv iota.
    destruct (update_subtree_node nodes (-1) n new Leaf Leaf Hz Hnew Hnl Hnr I I)
      as [nd' [Hup Hs']]; try (simpl; tauto).
    rewrite Hup, bind_ok.
    exists (list_set nodes n nd'), (Node Leaf n (Treap.element new) Leaf).
    split.
    { do 2 f_equal. unfold len. rewrite length_list_set, Hlen. simpl root_of. lia. }
    split; [exact Hs'|].
    split; [reflexivity|].
    split; [exists [], []; repeat split; constructor|].
    split; [apply length_list_set|].
    intros j Hj _. apply nth_error_list_set_other. congruence.
  - pose proof Hs as Hnode. simpl in Hnode.
    destruct Hnode as [nd [Hi [He [Hl [Hr [_ [_ [Hsl Hsr]]]]]]]].
    simpl in Hnd, Hsorted, Hfuel, Hn.
    destruct (NoDup_middle _ _ _ Hnd) as [Hndl [Hndr [Hil [Hir Hdis]]]].
    destruct (sorted_middle _ _ _ Hsorted) as [Hsol [Hsor [Hle Hge]]].
    assert (Hilt : (i < List.length nodes)%nat) by (apply nth_error_Some; congruence).
    assert (Hin : i <> n) by (intro E; apply Hn, in_or_app; right; now left).
    assert (Hnl' : ~ In n (idxs l)) by (intro; apply Hn, in_or_app; now left).
    assert (Hnr' : ~ In n (idxs r)) by (intro; apply Hn, in_or_app; right; now right).
    cbn [Treap.add_element_internal root_of].
    destruct (Z.eqb_spec (Z.of_nat i) (-1)) as [|_]; [lia|].
    rewrite (py_get_at nodes _ n new Hz Hnew), bind_ok.
    rewrite (py_get_at nodes _ i nd (py_index_nat nodes i Hilt) Hi), bind_ok.
    destruct (Treap.weight nd <? Treap.weight new)%Z.
    + (* the new node takes the place of this one, which is split under it *)
      destruct (split_spec (Treap.element new) (Node l i e r) fuel nodes Hs Hnd Hsorted)
        as [n1 [tl [tr [Hrun [Hs1 [Hs2 [Hel [Hf1 [Hf2 [Hperm [Hlen1 Hframe]]]]]]]]]]].
      { simpl. lia. }
      simpl root_of in Hrun. rewrite Hrun, bind_ok. cbv beta iota zeta.
      assert (Hsub : forall j, In j (idxs tl) \/ In j (idxs tr) ->
                               In j (idxs (Node l i e r))).
      { intros j Hj. apply (Permutation_in _ Hperm), in_or_app. exact Hj. }
      assert (Hz1 : py_index n1 (-1) = Ok n) by (apply py_index_minus1; congruence).
      assert (Hnew1 : nth_error n1 n = Some new) by (rewrite Hframe; assumption).
      rewrite (modify_at n1 _ n new _ Hz1 Hnew1), bind_ok.
      rewrite (modify_current n1 (-1) n Hz1), bind_ok.
      set (nd2 := Treap.set_right (root_of tr) (Treap.set_left (root_of tl) new)).
      set (n2 := list_set n1 n nd2).
      assert (Hn2 : forall j, j <> n -> nth_error n2 j = nth_error n1 j)
        by (intros j Hj; apply nth_error_list_set_other; congruence).
      destruct (update_subtree_node n2 (-1) n nd2 tl tr) as [nd' [Hup Hs3]].
      * unfold n2. rewrite py_index_list_set. exact Hz1.
      * unfold n2. apply nth_error_list_set_same. lia.
      * reflexivity.
      * reflexivity.
      * apply shaped_frame with (nodes := n1); [assumption|].
        intros j Hj. apply Hn2. intro E. subst j. apply Hn, Hsub. now left.
      * apply shaped_frame with (nodes := n1); [assumption|].
        intros j Hj. apply Hn2. intro E. subst j. apply Hn, Hsub. now right.
      * intro Hx. apply Hn, Hsub. now left.
      * intro Hx. apply Hn, Hsub. now right.
      * rewrite Hup, bind_ok.
        exists (list_set n2 n nd'), (Node tl n (Treap.element new) tr).
        split.
        { do 2 f_equal. unfold len, n2. rewrite !length_list_set, Hlen1, Hlen.
          simpl root_of. lia. }
        split; [exact Hs3|].
        split.
        { simpl idxs. symmetry. apply Permutation_cons_app.
          symmetry. exact Hperm. }
        split.
        { exists (elems tl), (elems tr). simpl elems.
          repeat split; try assumption. now symmetry. }
        split.
        { unfold n2. rewrite !length_list_set. exact Hlen1. }
        intros j Hj Hjt. rewrite nth_error_list_set_other by congruence.
        rewrite Hn2 by assumption. now apply Hframe.
    + destruct (Qltb (Treap.element new) (Treap.element nd)) eqn:Ecmp.
      * (* the new element goes to the left subtree *)
        rewrite He in Ecmp. apply Qltb_lt in Ecmp.
        destruct (IHl fuel nodes n new Hlen Hnew Hnl Hnr Hsl Hndl Hnl' Hsol ltac:(lia))
          as [n1 [l' [Hrun [Hs1 [Hperm [[l1 [l2 [El' [El [Hf1 Hf2]]]]] [Hlen1 Hframe]]]]]]].
        rewrite Hl, Hrun, bind_ok. cbv beta iota zeta.
        assert (Hi1 : nth_error n1 i = Some nd) by (rewrite Hframe; assumption).
        assert (Hz1 : py_index n1 (Z.of_nat i) = Ok i) by (apply py_index_nat; lia).
        rewrite (modify_at n1 _ i nd _ Hz1 Hi1), bind_ok.
        set (n2 := list_set n1 i (Treap.set_left (root_of l') nd)).
        assert (Hn2 : forall j, j <> i -> nth_error n2 j = nth_error n1 j)
          by (intros j Hj; apply nth_error_list_set_other; congruence).
        assert (Hil' : ~ In i (idxs l')).
        { intro Hx. apply (Permutation_in _ Hperm) in Hx.
          destruct Hx as [E|Hx]; [congruence | contradiction]. }
        destruct (update_subtree_node n2 (Z.of_nat i) i
                    (Treap.set_left (root_of l') nd) l' r)
          as [nd' [Hup Hs3]].
        -- unfold n2. rewrite py_index_list_set. exact Hz1.
        -- unfold n2. apply nth_error_list_set_same. lia.
        -- reflexivity.
        -- exact Hr.
        -- apply shaped_frame with (nodes := n1); [assumption|].
           intros j Hj. apply Hn2. congruence.
        -- apply shaped_frame with (nodes := nodes); [assumption|].
           intros j Hj. rewrite Hn2 by congruence. apply Hframe.
           ++ congruence.
           ++ intro Hjl. now apply (Hdis j).
        -- exact Hil'.
        -- exact Hir.
        -- change (Treap.element (Treap.set_left (root_of l') nd))
             with (Treap.element nd) in Hs3. rewrite He in Hs3.
           rewrite Hup, bind_ok.
           exists (list_set n2 i nd'), (Node l' i e r).
           split; [reflexivity|].
           split; [exact Hs3|].
           split.
           { simpl idxs. apply (Permutation_app_tail (i :: idxs r)) in Hperm.
             exact Hperm. }
           split.
           { exists l1, (l2 ++ e :: elems r)%list. simpl elems.
             rewrite El', El, <- !app_assoc. simpl.
             repeat split; try assumption.
             apply Forall_app. split; [assumption|].
             constructor; [assumption|].
             eapply Forall_impl; [|exact Hge]. intros y Hy. simpl in Hy.
             now apply Qlt_le_trans with e. }
           split.
           { unfold n2. rewrite !length_list_set. exact Hlen1. }
           intros j Hj Hjt. simpl in Hjt.
           assert (j <> i) by (intro E; subst j; apply Hjt, in_or_app; right; now left).
           rewrite nth_error_list_set_other by congruence.
           rewrite Hn2 by assumption. apply Hframe; [assumption|].
           intro Hjl. apply Hjt, in_or_app. now left.
      * (* the new element goes to the right subtree *)
        rewrite He in Ecmp. apply Qltb_ge in Ecmp.
        destruct (IHr fuel nodes n new Hlen Hnew Hnl Hnr Hsr Hndr Hnr' Hsor ltac:(lia))
          as [n1 [r' [Hrun [Hs1 [Hperm [[l1 [l2 [Er' [Er [Hf1 Hf2]]]]] [Hlen1 Hframe]]]]]]].
        rewrite Hr, Hrun, bind_ok. cbv beta iota zeta.
        assert (Hi1 : nth_error n1 i = Some nd) by (rewrite Hframe; assumption).
        assert (Hz1 : py_index n1 (Z.of_nat i) = Ok i) by (apply py_index_nat; lia).
        rewrite (modify_at n1 _ i nd _ Hz1 Hi1), bind_ok.
        set (n2 := list_set n1 i (Treap.set_right (root_of r') nd)).
        assert (Hn2 : forall j, j <> i -> nth_error n2 j = nth_error n1 j)
          by (intros j Hj; apply nth_error_list_set_other; congruence).
        assert (Hir' : ~ In i (idxs r')).
        { intro Hx. apply (Permutation_in _ Hperm) in Hx.
          destruct Hx as [E|Hx]; [congruence | contradiction]. }
        destruct (update_subtree_node n2 (Z.of_nat i) i
                    (Treap.set_right (root_of r') nd) l r')
          as [nd' [Hup Hs3]].
        -- unfold n2. rewrite py_index_list_set. exact Hz1.
        -- unfold n2. apply nth_error_list_set_same. lia.
        -- exact Hl.
        -- reflexivity.
        -- apply shaped_frame with (nodes := nodes); [assumption|].
           intros j Hj. rewrite Hn2 by congruence. apply Hframe.
           ++ congruence.
           ++ intro Hjr. now apply (Hdis j).
        -- apply shaped_frame with (nodes := n1); [assumption|].
           intros j Hj. apply Hn2. congruence.
        -- exact Hil.
        -- exact Hir'.
        -- change (Treap.element (Treap.set_right (root_of r') nd))
             with (Treap.element nd) in Hs3. rewrite He in Hs3.
           rewrite Hup, bind_ok.
           exists (list_set n2 i nd'), (Node l i e r').
           split; [reflexivity|].
           split; [exact Hs3|].
           split.
           { simpl idxs. rewrite Hperm.
             replace (idxs l ++ i :: n :: idxs r)%list
               with ((idxs l ++ [i]) ++ n :: idxs r)%list
               by (rewrite <- app_assoc; reflexivity).
             symmetry. apply Permutation_cons_app.
             rewrite <- app_assoc. reflexivity. }
           split.
           { exists (elems l ++ e :: l1)%list, l2. simpl elems.
             rewrite Er', Er, <- !app_assoc. simpl.
             repeat split; try assumption.
             apply Forall_app. split.
             - eapply Forall_impl; [|exact Hle]. intros y Hy. simpl in Hy.
               now apply Qle_trans with e.
             - constructor; assumption. }
           split.
           { unfold n2. rewrite !length_list_set. exact Hlen1. }
           intros j Hj Hjt. simpl in Hjt.
           assert (j <> i) by (intro E; subst j; apply Hjt, in_or_app; right; now left).
           rewrite nth_error_list_set_other by congruence.
           rewrite Hn2 by assumption. apply Hframe; [assumption|].
           intro Hjr. apply Hjt, in_or_app. right. now right.
Qed.

(** ** Treap: the invariant of [add_element] *)

Lemma size_idxs (t : tree) : size t = List.length (idxs t).
Proof.
  induction t as [|l IHl i e r IHr]; simpl; [reflexivity|].
  rewrite length_app. simpl. lia.
Qed.

Lemma size_elems (t : tree) : size t = List.length (elems t).
Proof.
  induction t as [|l IHl i e r IHr]; simpl; [reflexivity|].
  rewrite length_app. simpl. lia.
Qed.

Lemma sorted_app_inv (l1 l2 : list Q) :
  StronglySorted Qle (l1 ++ l2) -> StronglySorted Qle l1 /\ StronglySorted Qle l2.
Proof.
  induction l1 as [|x l1 IH]; simpl; intro H.
  - split; [constructor | assumption].
  - inversion H as [|? ? Hs Hall]; subst. destruct (IH Hs) as [H1 H2].
    split; [|assumption]. constructor; [assumption|].
    apply Forall_app in Hall. tauto.
Qed.

Lemma add_element_inv (fuel : nat) (w : Z) (e : Q) (T : Treap.t) (t : tree) :
  treap_inv T t -> (S (List.length (Treap.nodes T)) < fuel)%nat ->
  exists T' t',
    Treap.add_element fuel w e T = Ok T' /\ treap_inv T' t' /\
    Permutation (elems t') (e :: elems t) /\
    List.length (Treap.nodes T') = S (List.length (Treap.nodes T)).
Proof.
  intros [Hroot [Hs [Hperm Hsorted]]] Hfuel.
  set (n := List.length (Treap.nodes T)) in *.
  set (new := Treap.mkNode e 0 0 w (-1) (-1)).
  assert (Hbound : forall j, In j (idxs t) -> (j < n)%nat).
  { intros j Hj. apply (Permutation_in _ Hperm), in_seq in Hj. lia. }
  assert (Hnd : NoDup (idxs t)).
  { apply (Permutation_NoDup (Permutation_sym Hperm)), seq_NoDup. }
  assert (Hsize : size t = n).
  { rewrite size_idxs, (Permutation_length Hperm). apply length_seq. }
  destruct (add_element_internal_spec t fuel (Treap.nodes T ++ [new]) n new)
    as [nodes' [t' [Hrun [Hs' [Hperm' [[l1 [l2 [Et' [Et [Hf1 Hf2]]]]] [Hlen' _]]]]]]];
    try reflexivity.
  - rewrite length_app. simpl. fold n. lia.
  - rewrite nth_error_app2 by (fold n; lia). fold n. now rewrite Nat.sub_diag.
  - apply shaped_frame with (nodes := Treap.nodes T); [assumption|].
    intros j Hj. apply nth_error_app1. now apply Hbound.
  - exact Hnd.
  - intro Hx. apply Hbound in Hx. lia.
  - exact Hsorted.
  - lia.
  - unfold Treap.add_element. fold new. rewrite Hroot, Hrun, bind_ok.
    cbv beta iota zeta.
    exists (Treap.mk nodes' (root_of t')), t'.
    assert (Hlen2 : List.length nodes' = S n).
    { rewrite Hlen', length_app. simpl. fold n. lia. }
    split; [reflexivity|].
    split.
    + split; [reflexivity|]. split; [exact Hs'|]. simpl Treap.nodes.
      split.
      * rewrite Hlen2, seq_S. simpl. rewrite Hperm', Hperm.
        apply Permutation_cons_append.
      * rewrite Et'. rewrite Et in Hsorted.
        destruct (sorted_app_inv _ _ Hsorted) as [H1 H2].
        apply sorted_join; try assumption.
        eapply Forall_impl; [|exact Hf2]. intros y Hy. simpl in Hy.
        now apply Qlt_le_weak.
    + split; [|exact Hlen2].
      rewrite Et', Et. symmetry. apply Permutation_middle.
Qed.

Lemma build_from_inv (fuel : nat) (calls : list (Z * Q)) :
  forall (T : Treap.t) (t : tree),
    treap_inv T t ->
    (List.length (Treap.nodes T) + List.length calls < fuel)%nat ->
    exists T' t',
      foldM (fun self call => Treap.add_element fuel (fst call) (snd call) self)
            calls T = Ok T' /\
      treap_inv T' t' /\
      Permutation (elems t') (map snd calls ++ elems t) /\
      List.length (Treap.nodes T') = (List.length (Treap.nodes T) + List.length calls)%nat.
Proof.
  induction calls as [|[w e] calls IH]; intros T t Hinv Hfuel.
  - exists T, t. simpl.
    split; [reflexivity|]. split; [exact Hinv|]. split; [reflexivity | lia].
  - simpl in Hfuel.
    destruct (add_element_inv fuel w e T t Hinv ltac:(lia))
      as [T1 [t1 [Hrun1 [Hinv1 [Hperm1 Hlen1]]]]].
    destruct (IH T1 t1 Hinv1 ltac:(lia)) as [T' [t' [Hrun [Hinv' [Hperm Hlen]]]]].
    exists T', t'. simpl foldM. rewrite Hrun1, bind_ok.
    split; [exact Hrun|]. split; [exact Hinv'|].
    split.
    + rewrite Hperm, Hperm1. simpl. symmetry. apply Permutation_middle.
    + rewrite Hlen, Hlen1. simpl. lia.
Qed.

Lemma build_inv (fuel : nat) (calls : list (Z * Q)) :
  (List.length calls < fuel)%nat ->
  exists T t,
    Treap.build fuel calls = Ok T /\ treap_inv T t /\
    Permutation (elems t) (map snd calls) /\
    List.length (Treap.nodes T) = List.length calls.
Proof.
  intro Hfuel.
  destruct (build_from_inv fuel calls Treap.empty Leaf) as [T [t [H1 [H2 [H3 H4]]]]].
  - repeat split; simpl; constructor.
  - simpl. lia.
  - exists T, t. rewrite app_nil_r in H3. simpl in H4. auto.
Qed.

(** ** Treap: reading the tree *)

Lemma inorder_shaped (nodes : list Treap.TreapNode) (t : tree) :
  forall fuel, shaped nodes t -> (size t < fuel)%nat ->
               Treap.inorder fuel nodes (root_of t) = Some (elems t).
Proof.
  induction t as [|l IHl i e r IHr]; intros fuel Hs Hfuel;
    (destruct fuel as [|fuel]; [lia|]).
  - reflexivity.
  - simpl in Hs, Hfuel. destruct Hs as [nd [Hi [He [Hl [Hr [_ [_ [Hsl Hsr]]]]]]]].
    cbn [Treap.inorder root_of].
    destruct (Z.eqb_spec (Z.of_nat i) (-1)) as [|_]; [lia|].
    rewrite Nat2Z.id, Hi, Hl, Hr, (IHl fuel Hsl), (IHr fuel Hsr) by lia.
    now rewrite He.
Qed.

Lemma shaped_subtree (nodes : list Treap.TreapNode) (t : tree) (i : nat) :
  shaped nodes t -> In i (idxs t) ->
  exists l e r, shaped nodes (Node l i e r) /\ (size (Node l i e r) <= size t)%nat.
Proof.
  induction t as [|l IHl j e r IHr]; intros Hs Hi; [contradiction|].
  simpl in Hi. apply in_app_or in Hi.
  pose proof Hs as Hnode. simpl in Hnode.
  destruct Hnode as [nd [_ [_ [_ [_ [_ [_ [Hsl Hsr]]]]]]]].
  destruct Hi as [Hi|[<-|Hi]].
  - destruct (IHl Hsl Hi) as [l' [e' [r' [H1 H2]]]].
    exists l', e', r'. split; [assumption|]. simpl in *. lia.
  - exists l, e, r. split; [assumption | lia].
  - destruct (IHr Hsr Hi) as [l' [e' [r' [H1 H2]]]].
    exists l', e', r'. split; [assumption|]. simpl in *. lia.
Qed.

Lemma filter_all {A : Type} (p : A -> bool) (l : list A) :
  Forall (fun x => p x = true) l -> filter p l = l.
Proof.
  induction 1 as [|x l Hx _ IH]; simpl; [reflexivity|]. now rewrite Hx, IH.
Qed.

Lemma filter_none {A : Type} (p : A -> bool) (l : list A) :
  Forall (fun x => p x = false) l -> filter p l = [].
Proof.
  induction 1 as [|x l Hx _ IH]; simpl; [reflexivity|]. now rewrite Hx, IH.
Qed.

Lemma filter_perm {A : Type} (p : A -> bool) (l l' : list A) :
  Permutation l l' -> Permutation (filter p l) (filter p l').
Proof.
  induction 1 as [|x l l' _ IH|x y l|l l' l'' _ IH1 _ IH2]; simpl.
  - constructor.
  - destruct (p x); [now constructor | assumption].
  - destruct (p x), (p y); try reflexivity. constructor.
  - now transitivity (filter p l').
Qed.

Lemma sumQ_cons (x : Q) (l : list Q) : sumQ (x :: l) = x + sumQ l.
Proof.
  reflexivity.
Qed.

Lemma sumQ_perm (l l' : list Q) : Permutation l l' -> sumQ l == sumQ l'.
Proof.
  intro H. rewrite <- (map_id l), <- (map_id l'). now apply sumQ_map_perm.
Qed.

Lemma get_lower_spec (v : Q) (t : tree) :
  forall (fuel : nat) (nodes : list Treap.TreapNode),
    shaped nodes t -> StronglySorted Qle (elems t) -> (size t < fuel)%nat ->
    exists s,
      Treap.get_lower fuel nodes (root_of t) v = Ok (len (below v (elems t)), s) /\
      s == sumQ (below v (elems t)).
Proof.
  induction t as [|l IHl i e r IHr]; intros fuel nodes Hs Hsorted Hfuel;
    (destruct fuel as [|fuel]; [lia|]).
  - exists 0. split; reflexivity.
  - simpl in Hs, Hsorted, Hfuel.
    destruct Hs as [nd [Hi [He [Hl [Hr [_ [_ [Hsl Hsr]]]]]]]].
    destruct (sorted_middle _ _ _ Hsorted) as [Hsol [Hsor [Hle Hge]]].
    assert (Hilt : (i < List.length nodes)%nat) by (apply nth_error_Some; congruence).
    cbn [Treap.get_lower root_of elems].
    destruct (Z.eqb_spec (Z.of_nat i) (-1)) as [|_]; [lia|].
    rewrite (py_get_at nodes _ i nd (py_index_nat nodes i Hilt) Hi), bind_ok.
    rewrite He. unfold below. rewrite filter_app. simpl filter.
    destruct (Qltb e v) eqn:Ecmp.
    + apply Qltb_lt in Ecmp.
      destruct (IHr fuel nodes Hsr Hsor ltac:(lia)) as [sr [Hrun Hsum]].
      rewrite Hr, Hrun, bind_ok. cbv beta iota zeta.
      rewrite (filter_all _ (elems l)).
      2:{ eapply Forall_impl; [|exact Hle]. intros x Hx. simpl in Hx.
          apply Qltb_lt. now apply Qle_lt_trans with e. }
      fold (below v (elems r)). rewrite len_app, len_cons.
      pose proof (shaped_child nodes l Hsl) as Hcl. rewrite Hl.
      destruct l as [|ll j el lr].
      * simpl root_of. simpl negb. cbv iota. rewrite bind_ok.
        exists (sr + e). split.
        { apply f_equal. apply f_equal2; [|reflexivity].
          change (len (elems Leaf)) with 0%Z. lia. }
        simpl. rewrite Hsum. ring.
      * simpl root_of in *.
        destruct (Z.eqb_spec (Z.of_nat j) (-1)) as [|_]; [lia|].
        simpl negb. cbv iota.
        unfold child in Hcl.
        destruct (Z.eqb_spec (Z.of_nat j) (-1)) as [|_]; [lia|].
        rewrite Nat2Z.id in Hcl.
        destruct (nth_error nodes j) as [ndl|] eqn:Ej; [|discriminate].
        destruct Hcl as [Hsuml Hcntl].
        assert (Hjlt : (j < List.length nodes)%nat)
          by (apply nth_error_Some; congruence).
        rewrite (py_get_at nodes _ j ndl (py_index_nat nodes j Hjlt) Ej), !bind_ok.
        exists (sr + Treap.subtree_sum ndl + e). split.
        { apply f_equal. apply f_equal2; [|reflexivity]. rewrite Hcntl. lia. }
        rewrite sumQ_app, sumQ_cons, Hsuml, Hsum. ring.
    + apply Qltb_ge in Ecmp.
      destruct (IHl fuel nodes Hsl Hsol ltac:(lia)) as [sl [Hrun Hsum]].
      rewrite (filter_none _ (elems r)).
      2:{ eapply Forall_impl; [|exact Hge]. intros x Hx. simpl in Hx.
          apply Qltb_ge. now apply Qle_trans with e. }
      rewrite app_nil_r. exists sl. rewrite Hl. split; assumption.
Qed.

(** [get_lower] on a Treap that [add_element] calls built. *)
Lemma get_lower_built (fuel : nat) (calls : list (Z * Q)) (v : Q) :
  (List.length calls < fuel)%nat ->
  exists T c s,
    Treap.build fuel calls = Ok T /\
    Treap.get_lower fuel (Treap.nodes T) (Treap.root T) v = Ok (c, s) /\
    c = len (below v (map snd calls)) /\
    s == sumQ (below v (map snd calls)).
Proof.
  intro Hfuel.
  destruct (build_inv fuel calls Hfuel) as [T [t [Hrun [Hinv [Hperm Hlen]]]]].
  destruct Hinv as [Hroot [Hs [Hidx Hsorted]]].
  destruct (get_lower_spec v t fuel (Treap.nodes T) Hs Hsorted) as [s [Hget Hsum]].
  { rewrite size_elems, (Permutation_length Hperm), length_map. exact Hfuel. }
  exists T, (len (below v (elems t))), s.
  split; [exact Hrun|]. rewrite Hroot. split; [exact Hget|].
  pose proof (filter_perm (fun x => Qltb x v) _ _ Hperm) as Hf.
  split.
  - unfold len, below. now rewrite (Permutation_length Hf).
  - rewrite Hsum. now apply sumQ_perm.
Qed.

(** ** Sequence structures: deviations from the mean *)

Lemma sumQ_map_const {A : Type} (c : Q) (l : list A) :
  sumQ (map (fun _ => c) l) == inject_Z (len l) * c.
Proof.
  induction l as [|x l IH]; simpl.
  - unfold len. simpl. ring.
  - rewrite IH, len_cons, inject_Z_plus. ring.
Qed.

Lemma sumQ_filter (p : Q -> bool) (l : list Q) :
  sumQ (filter p l) == sumQ (map (fun x => if p x then x else 0) l).
Proof.
  rewrite <- (map_id (filter p l)). apply sumQ_map_filter.
Qed.

Lemma len_filter (p : Q -> bool) (l : list Q) :
  inject_Z (len (filter p l)) == sumQ (map (fun x => if p x then 1 else 0) l).
Proof.
  induction l as [|x l IH]; simpl; [reflexivity|].
  destruct (p x); simpl; rewrite <- IH; [|ring].
  rewrite len_cons, inject_Z_plus. ring.
Qed.

Lemma Qltb_compat (x v v' : Q) : v == v' -> Qltb x v = Qltb x v'.
Proof.
  intro H. destruct (Qltb x v') eqn:E.
  - apply Qltb_lt. apply Qltb_lt in E. lra.
  - apply Qltb_ge. apply Qltb_ge in E. lra.
Qed.

Lemma below_compat (v v' : Q) (l : list Q) : v == v' -> below v l = below v' l.
Proof.
  intro H. unfold below. apply filter_ext. intro x. now apply Qltb_compat.
Qed.

(** The closed form of the tree-backed structure is half the sum of the
    absolute deviations that the list-backed structure accumulates. *)
Lemma deviations_closed_form (es : list Q) (s mean : Q) :
  let n := inject_Z (len es) in
  es <> [] -> s == sumQ es -> mean == s / n ->
  sumQ (map (fun e => Qabs (s - n * e)) es)
  == 2 * (s * inject_Z (len (below mean es)) - n * sumQ (below mean es)).
Proof.
  intros n Hne Hs Hmean.
  assert (Hn : 0 < n).
  { unfold n, len. destruct es; [congruence|]. simpl List.length.
    change 0 with (inject_Z 0). rewrite <- Zlt_Qlt. lia. }
  assert (Hlt : forall e, Qltb e mean = true <-> n * e < s).
  { intro e. rewrite Qltb_lt, Hmean. split; intro H.
    - apply Qmult_lt_l with (z := / n); [now apply Qinv_lt_0_compat|].
      rewrite Qmult_assoc, (Qmult_comm (/ n)), Qmult_inv_r, Qmult_1_l by lra.
      rewrite (Qmult_comm (/ n)). exact H.
    - apply Qmult_lt_l with (z := n); [exact Hn|].
      unfold Qdiv. rewrite (Qmult_comm s), Qmult_assoc, Qmult_inv_r, Qmult_1_l by lra.
      exact H. }
  unfold below. rewrite len_filter, sumQ_filter.
  rewrite (sumQ_map_ext _ (fun e => 2 * ((s * (if Qltb e mean then 1 else 0))
                                         + (- n) * (if Qltb e mean then e else 0))
                                    + (n * e + (- (1)) * s))).
  - rewrite sumQ_map_plus, sumQ_map_scale, sumQ_map_plus, !sumQ_map_scale.
    rewrite (sumQ_map_plus (fun e => n * e) (fun _ => - (1) * s)).
    rewrite sumQ_map_scale, sumQ_map_const, map_id. fold n. rewrite <- Hs. ring.
  - intros e _. destruct (Qltb e mean) eqn:E.
    + apply Hlt in E. rewrite Qabs_pos by lra. ring.
    + assert (E' : ~ n * e < s) by (rewrite <- Hlt; congruence).
      rewrite Qabs_neg by lra. ring.
Qed.

(** ** Sequence structures: the two backends on one history *)

Lemma list_inserts_from (es : list Q) :
  forall h : ListBasedSequenceStructure.t,
    ListBasedSequenceStructure.elements
      (fold_left (fun self elt => ListBasedSequenceStructure.insert elt self) es h)
    = (ListBasedSequenceStructure.elements h ++ es)%list /\
    ListBasedSequenceStructure.sum
      (fold_left (fun self elt => ListBasedSequenceStructure.insert elt self) es h)
    == ListBasedSequenceStructure.sum h + sumQ es.
Proof.
  induction es as [|e es IH]; intro h; simpl.
  - rewrite app_nil_r. split; [reflexivity | ring].
  - destruct (IH (ListBasedSequenceStructure.insert e h)) as [H1 H2].
    rewrite H1, H2. simpl. rewrite <- app_assoc. split; [reflexivity | ring].
Qed.

Lemma list_inserts (es : list Q) :
  ListBasedSequenceStructure.elements (ListBasedSequenceStructure.inserts es) = es /\
  ListBasedSequenceStructure.get_sum (ListBasedSequenceStructure.inserts es) == sumQ es.
Proof.
  destruct (list_inserts_from es ListBasedSequenceStructure.new) as [H1 H2].
  unfold ListBasedSequenceStructure.inserts, ListBasedSequenceStructure.get_sum.
  rewrite H1, H2. simpl. split; [reflexivity | ring].
Qed.

Lemma treap_inserts_from (fuel : nat) (calls : list (Z * Q)) :
  forall T : Treap.t,
    foldM (fun self call =>
             TreapBasedSequenceStructure.insert fuel (fst call) (snd call) self)
          calls (TreapBasedSequenceStructure.mk T)
    = (T' <- foldM (fun self call => Treap.add_element fuel (fst call) (snd call) self)
                   calls T ;;
       Ok (TreapBasedSequenceStructure.mk T')).
Proof.
  induction calls as [|[w e] calls IH]; intro T; simpl; [reflexivity|].
  unfold TreapBasedSequenceStructure.insert at 1. simpl.
  destruct (Treap.add_element fuel w e T) as [T1|err]; simpl; [apply IH | reflexivity].
Qed.

Lemma treap_get_sum (T : Treap.t) (t : tree) :
  treap_inv T t ->
  exists s, TreapBasedSequenceStructure.get_sum (TreapBasedSequenceStructure.mk T) = Ok s /\
            s == sumQ (elems t).
Proof.
  intros [Hroot [Hs _]]. unfold TreapBasedSequenceStructure.get_sum. simpl.
  rewrite Hroot. destruct t as [|l i e r].
  - exists 0. split; reflexivity.
  - simpl root_of. destruct (Z.eqb_spec (Z.of_nat i) (-1)) as [|_]; [lia|].
    pose proof Hs as Hnode. simpl in Hnode.
    destruct Hnode as [nd [Hi [_ [_ [_ [Hsum _]]]]]].
    assert (Hilt : (i < List.length (Treap.nodes T))%nat)
      by (apply nth_error_Some; congruence).
    rewrite (py_get_at _ _ i nd (py_index_nat _ i Hilt) Hi), bind_ok.
    exists (Treap.subtree_sum nd). split; [reflexivity | exact Hsum].
Qed.

(** ** Loops over a range *)

Lemma range_nil (lo hi : Z) : (hi <= lo)%Z -> range lo hi = [].
Proof.
  intro H. unfold range. replace (Z.to_nat (hi - lo)) with O by lia. reflexivity.
Qed.

Lemma range_cons (lo hi : Z) : (lo < hi)%Z -> range lo hi = lo :: range (lo + 1) hi.
Proof.
  intro H. unfold range.
  replace (Z.to_nat (hi - lo)) with (S (Z.to_nat (hi - (lo + 1)))) by lia.
  simpl. f_equal; [lia|].
  rewrite <- seq_shift, map_map. apply map_ext. intro k. lia.
Qed.

(** The invariant rule of a [for] loop over [range(lo, hi)]. *)
Lemma foldM_range {S : Type} (Inv : Z -> S -> Prop) (body : S -> Z -> result S)
      (lo hi : Z) (s0 : S) :
  (lo <= hi)%Z -> Inv lo s0 ->
  (forall k s, (lo <= k < hi)%Z -> Inv k s -> exists s', body s k = Ok s' /\ Inv (k + 1)%Z s') ->
  exists s', foldM body (range lo hi) s0 = Ok s' /\ Inv hi s'.
Proof.
  intros Hle H0 Hstep.
  remember (Z.to_nat (hi - lo)) as n eqn:En.
  revert lo s0 Hle H0 Hstep En.
  induction n as [|n IH]; intros lo s0 Hle H0 Hstep En.
  - assert (lo = hi) by lia. subst lo. rewrite range_nil by lia.
    exists s0. now split.
  - rewrite range_cons by lia.
    destruct (Hstep lo s0 ltac:(lia) H0) as [s1 [Hrun1 H1]].
    destruct (IH (lo + 1)%Z s1 ltac:(lia) H1) as [s' [Hrun Hs']].
    + intros k s Hk. apply Hstep. lia.
    + lia.
    + exists s'. simpl. rewrite Hrun1, bind_ok. now split.
Qed.

(** ** Matrices *)

Lemma py_get_nth {A : Type} (l : list A) (i : Z) :
  (0 <= i < len l)%Z -> exists x, nth_error l (Z.to_nat i) = Some x /\ py_get l i = Ok x.
Proof.
  intro H. unfold len in H.
  destruct (nth_error l (Z.to_nat i)) as [x|] eqn:E.
  - exists x. split; [reflexivity|].
    apply (py_get_at l i (Z.to_nat i)); [|exact E].
    rewrite <- (Z2Nat.id i) at 1 by lia. apply py_index_nat. lia.
  - apply nth_error_None in E. lia.
Qed.

Lemma py_set_nth {A : Type} (l : list A) (i : Z) (a : A) :
  (0 <= i < len l)%Z -> py_set l i a = Ok (list_set l (Z.to_nat i) a).
Proof.
  intro H. unfold len in H. unfold py_set.
  rewrite <- (Z2Nat.id i) at 1 by lia. rewrite py_index_nat by lia. reflexivity.
Qed.

Lemma in_list_set {A : Type} (l : list A) (k : nat) (a x : A) :
  In x (list_set l k a) -> x = a \/ In x l.
Proof.
  revert k. induction l as [|y l IH]; intros [|k]; simpl; try tauto.
  - intros [E|H]; [now left | right; now right].
  - intros [E|H]; [right; now left|]. destruct (IH k H); tauto.
Qed.

Section Matrices.
Context {A : Type}.
  Implicit Types (m : matrix A) (a : A).

Lemma new_matrix_dims (R C : Z) a :
    (0 <= R)%Z -> (0 <= C)%Z -> dims (new_matrix R C a) R C.
  Proof.
    intros HR HC. unfold dims, new_matrix, len. split.
    - rewrite repeat_length. lia.
    - intros row Hrow. apply repeat_spec in Hrow. subst row.
      rewrite repeat_length. lia.
  Qed.

Lemma mset_spec m (R C i j : Z) a :
    dims m R C -> (0 <= i < R)%Z -> (0 <= j < C)%Z ->
    exists m',
      mset m i j a = Ok m' /\ dims m' R C /\ mget m' i j = Ok a /\
      forall i' j', (0 <= i' < R)%Z -> (0 <= j' < C)%Z -> i' <> i \/ j' <> j ->
                    mget m' i' j' = mget m i' j'.
  Proof.
    intros [HR HC] Hi Hj. unfold mset, mget.
    destruct (py_get_nth m i ltac:(lia)) as [row [Hrow Hget]].
    assert (Hlen : len row = C) by (apply HC; eapply nth_error_In; exact Hrow).
    rewrite Hget, bind_ok, (py_set_nth row j) by lia.
    rewrite bind_ok, (py_set_nth m i) by lia.
    set (row' := list_set row (Z.to_nat j) a).
    set (m' := list_set m (Z.to_nat i) row').
    assert (Hlen' : len row' = C) by (unfold len, row'; now rewrite length_list_set).
    assert (Hm' : len m' = R) by (unfold len, m'; now rewrite length_list_set).
    assert (Hrow' : py_get m' i = Ok row').
    { apply (py_get_at m' i (Z.to_nat i)).
      - rewrite <- (Z2Nat.id i) at 1 by lia. apply py_index_nat.
        unfold len in Hm'. lia.
      - unfold m'. apply nth_error_list_set_same. unfold len in HR. lia. }
    exists m'. split; [reflexivity|]. split; [|split].
    - split; [exact Hm'|]. intros r Hr. unfold m' in Hr.
      apply in_list_set in Hr. destruct Hr as [->|Hr]; [exact Hlen' | now apply HC].
    - rewrite Hrow', bind_ok. apply (py_get_at row' j (Z.to_nat j)).
      + rewrite <- (Z2Nat.id j) at 1 by lia. apply py_index_nat.
        unfold len in Hlen'. lia.
      + unfold row'. apply nth_error_list_set_same. unfold len in Hlen. lia.
    - intros i' j' Hi' Hj' Hne.
      destruct (Z.eq_dec i' i) as [->|Hii].
      + rewrite Hrow', Hget, !bind_ok.
        assert (Hjj : j' <> j) by (destruct Hne; congruence).
        unfold py_get. unfold py_index. rewrite Hlen', Hlen.
        replace ((0 <=? j') && (j' <? C))%Z with true
          by (symmetry; apply andb_true_iff; split;
              [apply Z.leb_le | apply Z.ltb_lt]; lia).
        simpl.
        unfold row'. rewrite nth_error_list_set_other by lia. reflexivity.
      + assert (E : py_get m' i' = py_get m i').
        { unfold py_get, py_index. rewrite Hm', HR.
          replace ((0 <=? i') && (i' <? R))%Z with true
            by (symmetry; apply andb_true_iff; split;
                [apply Z.leb_le | apply Z.ltb_lt]; lia).
          simpl.
          unfold m'. rewrite nth_error_list_set_other by lia. reflexivity. }
        now rewrite E.
  Qed.

Lemma agrees_mset (G : Z -> Z -> A) m (R C i j : Z) a (filled : Z -> Z -> Prop) :
    agrees G m R C filled -> (0 <= i < R)%Z -> (0 <= j < C)%Z -> a = G i j ->
    exists m',
      mset m i j a = Ok m' /\
      agrees G m' R C (fun i' j' => filled i' j' \/ (i' = i /\ j' = j)).
  Proof.
    intros [Hd Hg] Hi Hj Ha.
    destruct (mset_spec m R C i j a Hd Hi Hj) as [m' [Hset [Hd' [Hsame Hother]]]].
    exists m'. split; [exact Hset|]. split; [exact Hd'|].
    intros i' j' Hi' Hj' [Hf|[-> ->]].
    - destruct (Z.eq_dec i' i) as [->|Hii].
      + destruct (Z.eq_dec j' j) as [->|Hjj]; [now rewrite Hsame, Ha|].
        rewrite Hother by (auto; lia). now apply Hg.
      + rewrite Hother by (auto; lia). now apply Hg.
    - now rewrite Hsame, Ha.
  Qed.

Lemma agrees_weaken (G : Z -> Z -> A) m (R C : Z) (filled filled' : Z -> Z -> Prop) :
    (forall i j, (0 <= i < R)%Z -> (0 <= j < C)%Z -> filled' i j -> filled i j) ->
    agrees G m R C filled -> agrees G m R C filled'.
  Proof.
    intros Hsub [Hd Hg]. split; [exact Hd|].
    intros i j Hi Hj Hf. apply Hg; auto.
  Qed.
End Matrices.

(** ** The dynamic program of [add_string] *)

Lemma cell_dist_dist (a b : Cell.t) :
  normalizable a -> normalizable b -> cell_dist a b = Ok (dist a b).
Proof.
  intros Ha Hb. now apply cell_dist_taxicab.
Qed.

Lemma normalizable_ec : normalizable ec.
Proof.
  unfold normalizable. intro H. discriminate H.
Qed.

Lemma py_get_cell (l : list Cell.t) (i : Z) :
  (1 <= i <= len l)%Z -> Forall normalizable l ->
  py_get l (i - 1) = Ok (nth (Z.to_nat (i - 1)) l []) /\
  normalizable (nth (Z.to_nat (i - 1)) l []).
Proof.
  intros Hi Hall.
  destruct (py_get_nth l (i - 1) ltac:(lia)) as [x [Hx Hget]].
  rewrite (nth_error_nth l _ [] Hx). split; [exact Hget|].
  rewrite Forall_forall in Hall. apply Hall. eapply nth_error_In. exact Hx.
Qed.

Section RecurrenceFacts.
Variables base s : list Cell.t.

Lemma gldZ_row0 (j : Z) :
    (1 <= j)%Z ->
    gldZ base s 0 j = ins s (Z.to_nat (j - 1)) + gldZ base s 0 (j - 1).
  Proof.
    intro H. unfold gldZ. replace (Z.to_nat j) with (S (Z.to_nat (j - 1))) by lia.
    reflexivity.
  Qed.

Lemma gldZ_col0 (i : Z) :
    (1 <= i)%Z ->
    gldZ base s i 0 = del base (Z.to_nat (i - 1)) + gldZ base s (i - 1) 0.
  Proof.
    intro H. unfold gldZ. replace (Z.to_nat i) with (S (Z.to_nat (i - 1))) by lia.
    reflexivity.
  Qed.

Lemma gldZ_inner (i j : Z) :
    (1 <= i)%Z -> (1 <= j)%Z ->
    gldZ base s i j =
    py_min3 (del base (Z.to_nat (i - 1)) + gldZ base s (i - 1) j)
            (ins s (Z.to_nat (j - 1)) + gldZ base s i (j - 1))
            (sub base s (Z.to_nat (i - 1)) (Z.to_nat (j - 1)) + gldZ base s (i - 1) (j - 1)).
  Proof.
    intros Hi Hj. unfold gldZ.
    replace (Z.to_nat i) with (S (Z.to_nat (i - 1))) by lia.
    replace (Z.to_nat j) with (S (Z.to_nat (j - 1))) by lia.
    reflexivity.
  Qed.

Lemma directionZ_row0 (j : Z) : (1 <= j)%Z -> directionZ base s 0 j = PATH_UNMATCHED_S.
  Proof.
    intro H. unfold directionZ. replace (Z.to_nat j) with (S (Z.to_nat (j - 1))) by lia.
    reflexivity.
  Qed.

Lemma directionZ_col0 (i : Z) : (1 <= i)%Z -> directionZ base s i 0 = PATH_UNMATCHED_BASE.
  Proof.
    intro H. unfold directionZ. replace (Z.to_nat i) with (S (Z.to_nat (i - 1))) by lia.
    reflexivity.
  Qed.

Lemma directionZ_inner (i j : Z) :
    (1 <= i)%Z -> (1 <= j)%Z ->
    directionZ base s i j =
    choose_path (del base (Z.to_nat (i - 1)) + gldZ base s (i - 1) j)
                (ins s (Z.to_nat (j - 1)) + gldZ base s i (j - 1))
                (sub base s (Z.to_nat (i - 1)) (Z.to_nat (j - 1)) + gldZ base s (i - 1) (j - 1)).
  Proof.
    intros Hi Hj. unfold directionZ, gldZ.
    replace (Z.to_nat i) with (S (Z.to_nat (i - 1))) by lia.
    replace (Z.to_nat j) with (S (Z.to_nat (j - 1))) by lia.
    reflexivity.
  Qed.
End RecurrenceFacts.

Ltac weaken_filled :=
  eapply agrees_weaken; [|eassumption]; cbv beta; intros; lia.

Lemma align_matrices_spec (base s : list Cell.t) :
  Forall normalizable base -> Forall normalizable s ->
  exists dp path,
    align_matrices base s = Ok (dp, path) /\
    agrees (gldZ base s) dp (len base + 1) (len s + 1) (fun _ _ => True) /\
    agrees (directionZ base s) path (len base + 1) (len s + 1) (fun _ _ => True).
Proof.
  intros Hb Hs. unfold align_matrices.
  set (n := len base). set (m := len s).
  assert (Hn : (0 <= n)%Z) by (unfold n, len; lia).
  assert (Hm : (0 <= m)%Z) by (unfold m, len; lia).
  set (D := gldZ base s). set (L := directionZ base s).
  (* the origin *)
  assert (A0 : agrees D (new_matrix (n + 1) (m + 1) 0) (n + 1) (m + 1) (fun _ _ => False)).
  { split; [apply new_matrix_dims; lia | intros; contradiction]. }
  assert (P0 : agrees L (new_matrix (n + 1) (m + 1) PATH_UNDEFINED) (n + 1) (m + 1)
                      (fun _ _ => False)).
  { split; [apply new_matrix_dims; lia | intros; contradiction]. }
  destruct (agrees_mset D _ _ _ 0 0 0 _ A0 ltac:(lia) ltac:(lia) eq_refl)
    as [dp0 [E0 A0']].
  destruct (agrees_mset L _ _ _ 0 0 PATH_UNDEFINED _ P0 ltac:(lia) ltac:(lia) eq_refl)
    as [path0 [F0 P0']].
  rewrite E0, bind_ok, F0, bind_ok.
  (* the first row *)
  match goal with
  | |- context [foldM ?body (range 1 (m + 1)) (dp0, path0)] =>
      destruct (foldM_range
                  (fun k st =>
                     agrees D (fst st) (n + 1) (m + 1) (fun i j => i = 0 /\ j < k)%Z /\
                     agrees L (snd st) (n + 1) (m + 1) (fun i j => i = 0 /\ j < k)%Z)
                  body 1 (m + 1) (dp0, path0))
      as [[dp1 path1] [E1 [A1 P1]]]
  end.
  { lia. }
  { split; simpl; weaken_filled. }
  { intros k [dp path] Hk [HA HP]. simpl in HA, HP.
    destruct (py_get_cell s k ltac:(fold m; lia) Hs) as [Hget Hnorm].
    rewrite Hget, bind_ok, (cell_dist_dist _ ec Hnorm normalizable_ec), bind_ok.
    rewrite (proj2 HA 0 (k - 1))%Z by lia. rewrite bind_ok.
    destruct (agrees_mset D dp _ _ 0 k
                (dist (nth (Z.to_nat (k - 1)) s []) ec + D 0%Z (k - 1)%Z) _ HA
                ltac:(lia) ltac:(lia)) as [dp' [E A']].
    { unfold D. rewrite (gldZ_row0 base s k) by lia. reflexivity. }
    destruct (agrees_mset L path _ _ 0 k PATH_UNMATCHED_S _ HP ltac:(lia) ltac:(lia))
      as [path' [F P']].
    { unfold L. now rewrite directionZ_row0 by lia. }
    rewrite E, bind_ok, F, bind_ok.
    exists (dp', path'). split; [reflexivity|]. split; simpl; weaken_filled. }
  rewrite E1, bind_ok. cbv beta iota zeta. simpl in A1, P1.
  (* the first column *)
  match goal with
  | |- context [foldM ?body (range 1 (n + 1)) (dp1, path1)] =>
      destruct (foldM_range
                  (fun k st =>
                     agrees D (fst st) (n + 1) (m + 1)
                            (fun i j => i = 0 \/ (j = 0 /\ i < k))%Z /\
                     agrees L (snd st) (n + 1) (m + 1)
                            (fun i j => i = 0 \/ (j = 0 /\ i < k))%Z)
                  body 1 (n + 1) (dp1, path1))
      as [[dp2 path2] [E2 [A2 P2]]]
  end.
  { lia. }
  { split; simpl; weaken_filled. }
  { intros k [dp path] Hk [HA HP]. simpl in HA, HP.
    destruct (py_get_cell base k ltac:(fold n; lia) Hb) as [Hget Hnorm].
    rewrite Hget, bind_ok, (cell_dist_dist _ ec Hnorm normalizable_ec), bind_ok.
    rewrite (proj2 HA (k - 1) 0)%Z by lia. rewrite bind_ok.
    destruct (agrees_mset D dp _ _ k 0
                (dist (nth (Z.to_nat (k - 1)) base []) ec + D (k - 1)%Z 0%Z) _ HA
                ltac:(lia) ltac:(lia)) as [dp' [E A']].
    { unfold D. rewrite (gldZ_col0 base s k) by lia. reflexivity. }
    destruct (agrees_mset L path _ _ k 0 PATH_UNMATCHED_BASE _ HP ltac:(lia) ltac:(lia))
      as [path' [F P']].
    { unfold L. now rewrite directionZ_col0 by lia. }
    rewrite E, bind_ok, F, bind_ok.
    exists (dp', path'). split; [reflexivity|]. split; simpl; weaken_filled. }
  rewrite E2, bind_ok. cbv beta iota zeta. simpl in A2, P2.
  (* the interior, row by row *)
  match goal with
  | |- context [foldM ?body (range 1 (n + 1)) (dp2, path2)] =>
      destruct (foldM_range
                  (fun k st =>
                     agrees D (fst st) (n + 1) (m + 1)
                            (fun i j => i = 0 \/ j = 0 \/ i < k)%Z /\
                     agrees L (snd st) (n + 1) (m + 1)
                            (fun i j => i = 0 \/ j = 0 \/ i < k)%Z)
                  body 1 (n + 1) (dp2, path2))
      as [[dp3 path3] [E3 [A3 P3]]]
  end.
  { lia. }
  { split; simpl; weaken_filled. }
  { intros i st Hi [HA HP].
    match goal with
    | |- context [foldM ?body (range 1 (m + 1)) st] =>
        destruct (foldM_range
                    (fun k st =>
                       agrees D (fst st) (n + 1) (m + 1)
                              (fun i' j => i' = 0 \/ j = 0 \/ i' < i \/ (i' = i /\ j < k))%Z /\
                       agrees L (snd st) (n + 1) (m + 1)
                              (fun i' j => i' = 0 \/ j = 0 \/ i' < i \/ (i' = i /\ j < k))%Z)
                    body 1 (m + 1) st)
        as [st' [E [A' P']]]
    end.
    { lia. }
    { split; weaken_filled. }
    { intros j [dp path] Hj [HA' HP']. simpl in HA', HP'.
      destruct (py_get_cell base i ltac:(fold n; lia) Hb) as [Hgb Hnb].
      destruct (py_get_cell s j ltac:(fold m; lia) Hs) as [Hgs Hns].
      rewrite Hgb, bind_ok, (cell_dist_dist _ ec Hnb normalizable_ec), bind_ok.
      rewrite (proj2 HA' (i - 1) j)%Z by lia. rewrite bind_ok.
      rewrite Hgs, bind_ok, (cell_dist_dist _ ec Hns normalizable_ec), bind_ok.
      rewrite (proj2 HA' i (j - 1))%Z by lia. rewrite bind_ok.
      rewrite !bind_ok, (cell_dist_dist _ _ Hnb Hns), bind_ok.
      rewrite (proj2 HA' (i - 1) (j - 1))%Z by lia. rewrite bind_ok.
      cbv zeta.
      match goal with
      | |- context [mset dp i j ?v] =>
          destruct (agrees_mset D dp _ _ i j v _ HA' ltac:(lia) ltac:(lia))
          as [dp' [Ed Ad]]
      end.
      { unfold D. rewrite (gldZ_inner base s i j) by lia. reflexivity. }
      match goal with
      | |- context [mset path i j ?v] =>
          destruct (agrees_mset L path _ _ i j v _ HP' ltac:(lia) ltac:(lia))
          as [path' [Ep Ap]]
      end.
      { unfold L, D. rewrite (directionZ_inner base s i j) by lia. reflexivity. }
      rewrite Ed, bind_ok, Ep, bind_ok.
      exists (dp', path'). split; [reflexivity|]. split; simpl; weaken_filled. }
    exists st'. split; [exact E|]. split; weaken_filled. }
  exists dp3, path3. split; [exact E3|]. simpl in A3, P3. split; weaken_filled.
Qed.

(** ** The dynamic program of [levmetric_ocr] *)

Lemma levmetric_ocr_spec (s1 s2 : list Cell.t) :
  Forall normalizable s1 -> Forall normalizable s2 ->
  (s1 <> [] \/ s2 <> []) ->
  levmetric_ocr s1 s2 =
  py_div (2 * gldZ s1 s2 (len s1) (len s2))
         (inject_Z (len s1) + inject_Z (len s2) + gldZ s1 s2 (len s1) (len s2)).
Proof.
  intros Hb Hs Hne. unfold levmetric_ocr.
  set (n := len s1). set (m := len s2).
  assert (Hn : (0 <= n)%Z) by (unfold n, len; lia).
  assert (Hm : (0 <= m)%Z) by (unfold m, len; lia).
  assert (Hnm : ((n =? 0) && (m =? 0))%Z = false).
  { apply andb_false_iff. unfold n, m, len.
    destruct Hne as [H|H]; [left | right]; apply Z.eqb_neq;
      [destruct s1 | destruct s2]; try congruence; simpl; lia. }
  rewrite Hnm.
  set (D := gldZ s1 s2).
  assert (A0 : agrees D (new_matrix (n + 1) (m + 1) 0) (n + 1) (m + 1) (fun _ _ => False)).
  { split; [apply new_matrix_dims; lia | intros; contradiction]. }
  destruct (agrees_mset D _ _ _ 0 0 0 _ A0 ltac:(lia) ltac:(lia) eq_refl)
    as [dp0 [E0 A0']].
  rewrite E0, bind_ok.
  (* the first row *)
  match goal with
  | |- context [foldM ?body (range 1 (m + 1)) dp0] =>
      destruct (foldM_range
                  (fun k dp => agrees D dp (n + 1) (m + 1) (fun i j => i = 0 /\ j < k)%Z)
                  body 1 (m + 1) dp0)
      as [dp1 [E1 A1]]
  end.
  { lia. }
  { weaken_filled. }
  { intros k dp Hk HA.
    destruct (py_get_cell s2 k ltac:(fold m; lia) Hs) as [Hget Hnorm].
    rewrite Hget, bind_ok, (cell_dist_dist _ ec Hnorm normalizable_ec), bind_ok.
    rewrite (proj2 HA 0 (k - 1))%Z by lia. rewrite bind_ok.
    destruct (agrees_mset D dp _ _ 0 k
                (dist (nth (Z.to_nat (k - 1)) s2 []) ec + D 0%Z (k - 1)%Z) _ HA
                ltac:(lia) ltac:(lia)) as [dp' [E A']].
    { unfold D. rewrite (gldZ_row0 s1 s2 k) by lia. reflexivity. }
    exists dp'. split; [exact E | weaken_filled]. }
  rewrite E1, bind_ok.
  (* the first column *)
  match goal with
  | |- context [foldM ?body (range 1 (n + 1)) dp1] =>
      destruct (foldM_range
                  (fun k dp =>
                     agrees D dp (n + 1) (m + 1) (fun i j => i = 0 \/ (j = 0 /\ i < k))%Z)
                  body 1 (n + 1) dp1)
      as [dp2 [E2 A2]]
  end.
  { lia. }
  { weaken_filled. }
  { intros k dp Hk HA.
    destruct (py_get_cell s1 k ltac:(fold n; lia) Hb) as [Hget Hnorm].
    rewrite Hget, bind_ok, (cell_dist_dist _ ec Hnorm normalizable_ec), bind_ok.
    rewrite (proj2 HA (k - 1) 0)%Z by lia. rewrite bind_ok.
    destruct (agrees_mset D dp _ _ k 0
                (dist (nth (Z.to_nat (k - 1)) s1 []) ec + D (k - 1)%Z 0%Z) _ HA
                ltac:(lia) ltac:(lia)) as [dp' [E A']].
    { unfold D. rewrite (gldZ_col0 s1 s2 k) by lia. reflexivity. }
    exists dp'. split; [exact E | weaken_filled]. }
  rewrite E2, bind_ok.
  (* the interior, row by row *)
  match goal with
  | |- context [foldM ?body (range 1 (n + 1)) dp2] =>
      destruct (foldM_range
                  (fun k dp =>
                     agrees D dp (n + 1) (m + 1) (fun i j => i = 0 \/ j = 0 \/ i < k)%Z)
                  body 1 (n + 1) dp2)
      as [dp3 [E3 A3]]
  end.
  { lia. }
  { weaken_filled. }
  { intros i dp Hi HA.
    match goal with
    | |- context [foldM ?body (range 1 (m + 1)) dp] =>
        destruct (foldM_range
                    (fun k dp =>
                       agrees D dp (n + 1) (m + 1)
                              (fun i' j => i' = 0 \/ j = 0 \/ i' < i \/ (i' = i /\ j < k))%Z)
                    body 1 (m + 1) dp)
        as [dp' [E A']]
    end.
    { lia. }
    { weaken_filled. }
    { intros j dq Hj HA'.
      destruct (py_get_cell s1 i ltac:(fold n; lia) Hb) as [Hgb Hnb].
      destruct (py_get_cell s2 j ltac:(fold m; lia) Hs) as [Hgs Hns].
      rewrite Hgb, bind_ok, (cell_dist_dist _ ec Hnb normalizable_ec), bind_ok.
      rewrite (proj2 HA' (i - 1) j)%Z by lia. rewrite bind_ok.
      rewrite Hgs, bind_ok, (cell_dist_dist _ ec Hns normalizable_ec), bind_ok.
      rewrite (proj2 HA' i (j - 1))%Z by lia. rewrite bind_ok.
      rewrite !bind_ok, (cell_dist_dist _ _ Hnb Hns), bind_ok.
      rewrite (proj2 HA' (i - 1) (j - 1))%Z by lia. rewrite bind_ok.
      cbv zeta.
      match goal with
      | |- context [mset dq i j ?v] =>
          destruct (agrees_mset D dq _ _ i j v _ HA' ltac:(lia) ltac:(lia))
          as [dq' [Ed Ad]]
      end.
      { unfold D. rewrite (gldZ_inner s1 s2 i j) by lia. reflexivity. }
      exists dq'. split; [exact Ed | weaken_filled]. }
    exists dp'. split; [exact E | weaken_filled]. }
  rewrite E3, bind_ok.
  rewrite (proj2 A3 n m) by lia. rewrite bind_ok. reflexivity.
Qed.

(** ** The dynamic program of [levenshtein] *)

Lemma agrees_mset_scratch {A : Type} (G : Z -> Z -> A) (m : matrix A) (R C i j : Z)
      (a : A) (filled : Z -> Z -> Prop) :
  agrees G m R C filled -> (0 <= i < R)%Z -> (0 <= j < C)%Z -> ~ filled i j ->
  exists m', mset m i j a = Ok m' /\ agrees G m' R C filled /\ mget m' i j = Ok a.
Proof.
  intros [Hd Hg] Hi Hj Hnot.
  destruct (mset_spec m R C i j a Hd Hi Hj) as [m' [Hset [Hd' [Hsame Hother]]]].
  exists m'. split; [exact Hset|]. split; [|exact Hsame].
  split; [exact Hd'|]. intros i' j' Hi' Hj' Hf.
  rewrite Hother; auto.
  destruct (Z.eq_dec i' i) as [->|]; [|now left].
  destruct (Z.eq_dec j' j) as [->|]; [contradiction | now right].
Qed.

Section EditFacts.
Variables a b : list string.

Lemma edit_col0 (i : nat) : edit a b i 0 = Z.of_nat i.
  Proof.
    destruct i; reflexivity.
  Qed.

Lemma editZ_row0 (j : Z) : (0 <= j)%Z -> editZ a b 0 j = j.
  Proof.
    intro H. unfold editZ. simpl. lia.
  Qed.

Lemma editZ_col0 (i : Z) : (0 <= i)%Z -> editZ a b i 0 = i.
  Proof.
    intro H. unfold editZ. simpl Z.to_nat at 2. rewrite edit_col0. lia.
  Qed.

Lemma editZ_inner (i j : Z) :
    (1 <= i)%Z -> (1 <= j)%Z ->
    editZ a b i j =
    Z.min (Z.min (editZ a b (i - 1) j + 1) (editZ a b i (j - 1) + 1))
          (editZ a b (i - 1) (j - 1) + subst_cost a b (Z.to_nat (i - 1)) (Z.to_nat (j - 1))).
  Proof.
    intros Hi Hj. unfold editZ.
    replace (Z.to_nat i) with (S (Z.to_nat (i - 1))) by lia.
    replace (Z.to_nat j) with (S (Z.to_nat (j - 1))) by lia.
    reflexivity.
  Qed.
End EditFacts.

Lemma py_get_item (l : list string) (i : Z) :
  (1 <= i <= len l)%Z -> py_get l (i - 1) = Ok (nth (Z.to_nat (i - 1)) l EmptyString).
Proof.
  intro Hi. destruct (py_get_nth l (i - 1) ltac:(lia)) as [x [Hx Hget]].
  now rewrite (nth_error_nth l _ EmptyString Hx).
Qed.

Lemma levenshtein_spec (a b : list string) :
  levenshtein a b = Ok (edit_distance a b).
Proof.
  unfold levenshtein, edit_distance.
  set (n := len a). set (m := len b).
  assert (Hn : (0 <= n)%Z) by (unfold n, len; lia).
  assert (Hm : (0 <= m)%Z) by (unfold m, len; lia).
  assert (Hgoal : edit a b (List.length a) (List.length b) = editZ a b n m).
  { unfold editZ, n, m, len. now rewrite !Nat2Z.id. }
  rewrite Hgoal.
  destruct (Z.eqb_spec (Z.min n m) 0) as [Hz|Hnz].
  { f_equal. destruct (Z.eq_dec n 0) as [E|E].
    - rewrite E, editZ_row0 by lia. lia.
    - assert (m = 0)%Z by lia. replace m with 0%Z by lia.
      rewrite editZ_col0 by lia. lia. }
  set (E := editZ a b).
  assert (A0 : agrees E (new_matrix (n + 1) (m + 1) 0%Z) (n + 1) (m + 1) (fun _ _ => False)).
  { split; [apply new_matrix_dims; lia | intros; contradiction]. }
  (* the first row *)
  match goal with
  | |- context [foldM ?body (range 0 (m + 1)) ?dp0] =>
      destruct (foldM_range
                  (fun k dp => agrees E dp (n + 1) (m + 1) (fun i j => i = 0 /\ j < k)%Z)
                  body 0 (m + 1) dp0)
      as [dp1 [E1 A1]]
  end.
  { lia. }
  { weaken_filled. }
  { intros k dp Hk HA.
    destruct (agrees_mset E dp _ _ 0 k k _ HA ltac:(lia) ltac:(lia)) as [dp' [Es A']].
    { unfold E. now rewrite editZ_row0 by lia. }
    exists dp'. split; [exact Es | weaken_filled]. }
  rewrite E1, bind_ok.
  (* the other rows *)
  match goal with
  | |- context [foldM ?body (range 1 (n + 1)) dp1] =>
      destruct (foldM_range
                  (fun k dp => agrees E dp (n + 1) (m + 1) (fun i j => i < k)%Z)
                  body 1 (n + 1) dp1)
      as [dp2 [E2 A2]]
  end.
  { lia. }
  { weaken_filled. }
  { intros i dp Hi HA.
    destruct (agrees_mset E dp _ _ i 0 i _ HA ltac:(lia) ltac:(lia)) as [dp0 [Es A0']].
    { unfold E. now rewrite editZ_col0 by lia. }
    rewrite Es, bind_ok.
    match goal with
    | |- context [foldM ?body (range 1 (m + 1)) dp0] =>
        destruct (foldM_range
                    (fun k dp =>
                       agrees E dp (n + 1) (m + 1)
                              (fun i' j => i' < i \/ (i' = i /\ j < k))%Z)
                    body 1 (m + 1) dp0)
        as [dp' [Er A']]
    end.
    { lia. }
    { weaken_filled. }
    { intros j dq Hj HA'.
      rewrite (proj2 HA' (i - 1) j)%Z by lia. rewrite bind_ok.
      rewrite (proj2 HA' i (j - 1))%Z by lia. rewrite bind_ok.
      destruct (agrees_mset_scratch E dq _ _ i j
                  (1 + Z.min (E (i - 1) j) (E i (j - 1)))%Z _ HA'
                  ltac:(lia) ltac:(lia) ltac:(cbv beta; lia)) as [dq1 [Es1 [A1' Hcur]]].
      rewrite Es1, bind_ok.
      rewrite (py_get_item a i) by (fold n; lia). rewrite bind_ok.
      rewrite (py_get_item b j) by (fold m; lia). rewrite bind_ok.
      cbv zeta. rewrite Hcur, bind_ok.
      rewrite (proj2 A1' (i - 1) (j - 1))%Z by lia. rewrite bind_ok.
      match goal with
      | |- context [mset dq1 i j ?v] =>
          destruct (agrees_mset E dq1 _ _ i j v _ A1' ltac:(lia) ltac:(lia))
          as [dq' [Ed Ad]]
      end.
      { unfold E. rewrite (editZ_inner a b i j) by lia. unfold subst_cost. lia. }
      exists dq'. split; [exact Ed | weaken_filled]. }
    exists dp'. split; [exact Er | weaken_filled]. }
  rewrite E2, bind_ok. apply (proj2 A2); lia.
Qed.

(** ** [levmetric_ocr] on certain Cells *)

Lemma py_min_inject (a b : Q) (x y : Z) :
  a == inject_Z x -> b == inject_Z y -> py_min a b == inject_Z (Z.min x y).
Proof.
  intros Ha Hb. unfold py_min. destruct (Qltb b a) eqn:E.
  - apply Qltb_lt in E. rewrite Ha, Hb, <- Zlt_Qlt in E.
    rewrite Z.min_r by lia. exact Hb.
  - apply Qltb_ge in E. rewrite Ha, Hb, <- Zle_Qle in E.
    rewrite Z.min_l by lia. exact Ha.
Qed.

Lemma py_min3_inject (a b c : Q) (x y z : Z) :
  a == inject_Z x -> b == inject_Z y -> c == inject_Z z ->
  py_min3 a b c == inject_Z (Z.min (Z.min x y) z).
Proof.
  intros Ha Hb Hc. unfold py_min3.
  apply py_min_inject; [now apply py_min_inject | exact Hc].
Qed.

Lemma normalizable_certain (k : string) : normalizable (certain k).
Proof.
  unfold normalizable. intro H. discriminate H.
Qed.

Lemma dist_certain (k k' : string) :
  dist (certain k) (certain k') == if String.eqb k k' then 0 else 1.
Proof.
  unfold dist, certain, taxicab, scale, Cell.weight_sum, dict_mem. simpl.
  rewrite (String.eqb_sym k' k).
  destruct (String.eqb k k'); reflexivity.
Qed.

Lemma nth_certain (l : list string) (i : nat) :
  (i < List.length l)%nat -> nth i (map certain l) [] = certain (nth i l EmptyString).
Proof.
  intro H. rewrite (nth_indep _ [] (certain EmptyString)) by (now rewrite length_map).
  apply map_nth.
Qed.

Section CertainCells.
Variables a b : list string.
Hypothesis Ha : ~ In es a.
Hypothesis Hb : ~ In es b.

Let s1 := map certain a.
Let s2 := map certain b.

Lemma del_certain (i : nat) : (i < List.length a)%nat -> del s1 i == 1.
  Proof.
    intro H. unfold del, s1. rewrite nth_certain by exact H.
    change ec with (certain es). rewrite dist_certain.
    destruct (String.eqb_spec (nth i a EmptyString) es) as [E|_]; [|reflexivity].
    exfalso. apply Ha. rewrite <- E. now apply nth_In.
  Qed.

Lemma ins_certain (j : nat) : (j < List.length b)%nat -> ins s2 j == 1.
  Proof.
    intro H. unfold ins, s2. rewrite nth_certain by exact H.
    change ec with (certain es). rewrite dist_certain.
    destruct (String.eqb_spec (nth j b EmptyString) es) as [E|_]; [|reflexivity].
    exfalso. apply Hb. rewrite <- E. now apply nth_In.
  Qed.

Lemma sub_certain (i j : nat) :
    (i < List.length a)%nat -> (j < List.length b)%nat ->
    sub s1 s2 i j == inject_Z (subst_cost a b i j).
  Proof.
    intros Hi Hj. unfold sub, s1, s2, subst_cost.
    rewrite !nth_certain by assumption. rewrite dist_certain.
    destruct (String.eqb _ _); reflexivity.
  Qed.

Lemma gld_certain (i : nat) :
    forall j, (i <= List.length a)%nat -> (j <= List.length b)%nat ->
              gld s1 s2 i j == inject_Z (edit a b i j).
  Proof.
    induction i as [|i IHi].
    - induction j as [|j IHj]; intros Hi Hj.
      + reflexivity.
      + change (gld s1 s2 0 (S j)) with (ins s2 j + gld s1 s2 0 j).
        rewrite ins_certain, IHj by lia.
        change (edit a b 0 (S j)) with (Z.of_nat (S j)).
        change (edit a b 0 j) with (Z.of_nat j).
        rewrite Nat2Z.inj_succ. unfold Z.succ. rewrite inject_Z_plus. ring.
    - induction j as [|j IHj]; intros Hi Hj.
      + change (gld s1 s2 (S i) 0) with (del s1 i + gld s1 s2 i 0).
        rewrite del_certain, IHi by lia.
        rewrite !edit_col0, Nat2Z.inj_succ. unfold Z.succ.
        rewrite inject_Z_plus. ring.
      + change (gld s1 s2 (S i) (S j))
          with (py_min3 (del s1 i + gld s1 s2 i (S j))
                        (ins s2 j + gld s1 s2 (S i) j)
                        (sub s1 s2 i j + gld s1 s2 i j)).
        change (edit a b (S i) (S j))
          with (Z.min (Z.min (edit a b i (S j) + 1) (edit a b (S i) j + 1))
                      (edit a b i j + subst_cost a b i j)).
        apply py_min3_inject.
        * rewrite del_certain, IHi by lia. rewrite inject_Z_plus. ring.
        * rewrite ins_certain, IHj by lia. rewrite inject_Z_plus. ring.
        * rewrite sub_certain, IHi by lia. rewrite inject_Z_plus. ring.
  Qed.
End CertainCells.

Lemma edit_nonneg (a b : list string) (i j : nat) : (0 <= edit a b i j)%Z.
Proof.
  revert j. induction i as [|i IHi]; intro j.
  - simpl. lia.
  - induction j as [|j IHj].
    + rewrite edit_col0. lia.
    + change (edit a b (S i) (S j))
        with (Z.min (Z.min (edit a b i (S j) + 1) (edit a b (S i) j + 1))
                    (edit a b i j + subst_cost a b i j)).
      pose proof (IHi (S j)). pose proof (IHi j).
      unfold subst_cost. destruct (String.eqb _ _); lia.
Qed.

(** ** Alignment: reading the result *)

Lemma bind_inv {A B : Type} (m : result A) (k : A -> result B) (b : B) :
  bind m k = Ok b -> exists a, m = Ok a /\ k a = Ok b.
Proof.
  destruct m as [a|e]; simpl; intro H; [|discriminate]. now exists a.
Qed.

Lemma in_insert_sorted (kv x : string * Q) (l : list (string * Q)) :
  In x (Cell.insert_sorted kv l) -> x = kv \/ In x l.
Proof.
  induction l as [|y l IH]; simpl.
  - intros [E|[]]. now left.
  - destruct (String.leb (fst kv) (fst y)); simpl.
    + intros [E|[E|H]]; auto.
    + intros [E|H]; [auto|]. destruct (IH H); auto.
Qed.

Lemma in_sorted_items (c : Cell.t) (x : string * Q) :
  In x (Cell.sorted_items c) -> In x c.
Proof.
  unfold Cell.sorted_items. induction c as [|kv c IH]; simpl; [tauto|].
  intro H. apply in_insert_sorted in H. destruct H as [->|H]; auto.
Qed.

(** [best_key_not_from] returns the empty sentinel or a label of the Cell. *)
Lemma best_key_not_from_label (c : Cell.t) (mask : string) :
  Cell.best_key_not_from c mask = EmptyString \/
  In (Cell.best_key_not_from c mask) (keys c).
Proof.
  unfold Cell.best_key_not_from.
  assert (Hgen : forall l st,
             (forall x, In x l -> In x c) ->
             (fst st = EmptyString \/ In (fst st) (keys c)) ->
             let r := fold_left
                        (fun st kv =>
                           let '(ret, best_value) := st in
                           if Cell.occurs_in (fst kv) mask then (ret, best_value)
                           else if Qltb best_value (snd kv) then (fst kv, snd kv)
                           else (ret, best_value)) l st in
             fst r = EmptyString \/ In (fst r) (keys c)).
  { induction l as [|kv l IH]; intros [ret best] Hl Hst; simpl; [exact Hst|].
    apply IH; [intros x Hx; apply Hl; now right|].
    destruct (Cell.occurs_in (fst kv) mask); [exact Hst|].
    destruct (Qltb best (snd kv)); [|exact Hst].
    right. simpl. unfold keys. apply in_map. apply Hl. now left. }
  apply Hgen; [apply in_sorted_items | now left].
Qed.

(** The loop of [get_string_result] raises on no base. *)
Lemma get_string_result_loop (ew : Q) (base : list Cell.t) :
  forall ret : string,
  exists str,
    foldM
      (fun ret cell =>
         let best_nonempty := Cell.best_key_not_from cell es in
         best_nonempty_score <-
           (if String.eqb best_nonempty EmptyString then Ok 0
            else dict_at cell best_nonempty) ;;
         empty_score <-
           (if negb (dict_mem es cell) then Ok 0 else dict_at cell es) ;;
         if Qltb (empty_score * ew) best_nonempty_score
         then Ok (ret ++ best_nonempty)%string
         else Ok ret)
      base ret = Ok str.
Proof.
  induction base as [|cell base IH]; intro ret; simpl.
  - now exists ret.
  - assert (H1 : exists x,
               (if String.eqb (Cell.best_key_not_from cell es) EmptyString
                then Ok 0 else dict_at cell (Cell.best_key_not_from cell es)) = Ok x).
    { destruct (String.eqb_spec (Cell.best_key_not_from cell es) EmptyString) as [E|E];
        [now exists 0|].
      destruct (best_key_not_from_label cell es) as [H|H]; [contradiction|].
      apply dict_get_in_keys in H. unfold dict_at.
      destruct (dict_get (Cell.best_key_not_from cell es) cell) as [x|];
        [now exists x | congruence]. }
    destruct H1 as [x ->]. rewrite bind_ok.
    assert (H2 : exists y,
               (if negb (dict_mem es cell) then Ok 0 else dict_at cell es) = Ok y).
    { unfold dict_mem, dict_at. destruct (dict_get es cell) as [y|]; simpl;
        [now exists y | now exists 0]. }
    destruct H2 as [y ->]. rewrite bind_ok.
    destruct (Qltb (y * ew) x); apply IH.
Qed.

(** ** Alignment: [add_string] seeds the base *)

Lemma add_string_seeds (fuel : nat) (self self' : Alignment.t) (arg_s : input) (w : Q) :
  Alignment.add_string fuel self arg_s w = Ok self' -> Alignment.base self' <> None.
Proof.
  unfold Alignment.add_string. destruct (Alignment.base self) as [base|]; intro H.
  - apply bind_inv in H. destruct H as [[dp path] [_ H]].
    apply bind_inv in H. destruct H as [new_base [_ H]].
    inversion H. discriminate.
  - apply bind_inv in H. destruct H as [new_base [_ H]].
    inversion H. discriminate.
Qed.

Lemma run_seeds (fuel : nat) (calls : list (input * Q)) :
  forall s0 self,
    foldM (fun self call => Alignment.add_string fuel self (fst call) (snd call))
          calls s0 = Ok self ->
    (calls = [] /\ self = s0) \/ (calls <> [] /\ Alignment.base self <> None).
Proof.
  induction calls as [|[arg_s w] calls IH]; intros s0 self H; simpl in H.
  - left. inversion H. now split.
  - right. split; [discriminate|].
    apply bind_inv in H. destruct H as [s1 [H1 H]]. simpl in H1.
    destruct (IH s1 self H) as [[_ ->]|[_ Hb]]; [|exact Hb].
    now apply add_string_seeds in H1.
Qed.

(** ** AlignmentWithEstimation: the base and the alphabet after [add_string] *)

Lemma py_get_head {A : Type} (x : A) (l : list A) : py_get (x :: l) 0 = Ok x.
Proof.
  apply (py_get_at _ _ O); [|reflexivity].
  apply (py_index_nat (x :: l) O). simpl. lia.
Qed.

Section EstimationFacts.
Context {T : Type} {SS : SequenceStructure T}.

Lemma add_string_step (fuel : nat) (self self' : AlignmentWithEstimation.t T)
        (arg_s : input) :
    AlignmentWithEstimation.add_string fuel self arg_s = Ok self' ->
    AlignmentWithEstimation.base self' <> None /\
    AlignmentWithEstimation.alphabet self' =
    match AlignmentWithEstimation.base self, AlignmentWithEstimation.alphabet self with
    | Some _, Some al => Some al
    | _, _ =>
        match cells_of arg_s with
        | [] => AlignmentWithEstimation.alphabet self
        | c0 :: _ => Some (AlignmentWithEstimation.join_keys c0)
        end
    end.
  Proof.
    unfold AlignmentWithEstimation.add_string.
    destruct (cells_of arg_s) as [|c0 s] eqn:Es.
    - (* an empty input *)
      change (len (@nil Cell.t) =? 0)%Z with true. cbv iota.
      destruct (AlignmentWithEstimation.base self) as [base|]; intro H.
      + apply bind_inv in H. destruct H as [Y0 [_ H]].
        simpl negb in H. simpl andb in H. cbv iota in H.
        rewrite bind_ok in H. cbv beta iota zeta in H.
        apply bind_inv in H. destruct H as [[dp path] [_ H]].
        apply bind_inv in H. destruct H as [[new_base new_Y] [_ H]].
        inversion H. simpl. split; [discriminate|].
        now destruct (AlignmentWithEstimation.alphabet self).
      + apply bind_inv in H. destruct H as [new_base [_ H]].
        apply bind_inv in H. destruct H as [new_Y [_ H]].
        simpl negb in H. cbv iota in H. rewrite bind_ok in H.
        inversion H. simpl. split; [discriminate | reflexivity].
    - (* a non-empty input *)
      assert (Hlen : (len (c0 :: s) =? 0)%Z = false).
      { apply Z.eqb_neq. unfold len. simpl. lia. }
      rewrite Hlen. cbv iota.
      destruct (AlignmentWithEstimation.base self) as [base|]; intro H.
      + apply bind_inv in H. destruct H as [Y0 [_ H]].
        simpl negb in H. simpl andb in H.
        destruct (AlignmentWithEstimation.alphabet self) as [al|].
        * rewrite bind_ok in H. cbv beta iota zeta in H.
          apply bind_inv in H. destruct H as [[dp path] [_ H]].
          apply bind_inv in H. destruct H as [[new_base new_Y] [_ H]].
          inversion H. simpl. split; [discriminate | reflexivity].
        * rewrite py_get_head, bind_ok in H.
          apply bind_inv in H. destruct H as [[al1 Y1] [H1 H]].
          apply bind_inv in H1. destruct H1 as [Y1' [_ H1]]. inversion H1; subst.
          cbv beta iota zeta in H.
          apply bind_inv in H. destruct H as [[dp path] [_ H]].
          apply bind_inv in H. destruct H as [[new_base new_Y] [_ H]].
          inversion H. simpl. split; [discriminate | reflexivity].
      + apply bind_inv in H. destruct H as [new_base [_ H]].
        apply bind_inv in H. destruct H as [new_Y [_ H]].
        simpl negb in H. cbv iota in H. rewrite py_get_head, !bind_ok in H.
        inversion H. simpl. split; [discriminate|].
        now destruct (AlignmentWithEstimation.alphabet self).
  Qed.

Lemma run_alphabet (fuel : nat) (calls : list input) :
    forall s0 self,
      (AlignmentWithEstimation.base s0 = None ->
       AlignmentWithEstimation.alphabet s0 = None) ->
      foldM (fun self arg_s => AlignmentWithEstimation.add_string fuel self arg_s)
            calls s0 = Ok self ->
      ((calls = [] /\ self = s0) \/
       (calls <> [] /\ AlignmentWithEstimation.base self <> None)) /\
      AlignmentWithEstimation.alphabet self =
      match AlignmentWithEstimation.alphabet s0 with
      | Some al => Some al
      | None => option_map AlignmentWithEstimation.join_keys (first_nonempty calls)
      end.
  Proof.
    induction calls as [|arg_s calls IH]; intros s0 self Hinv H; simpl in H.
    - inversion H. subst. split; [now left|].
      now destruct (AlignmentWithEstimation.alphabet self).
    - apply bind_inv in H. destruct H as [s1 [H1 H]].
      destruct (add_string_step fuel s0 s1 arg_s H1) as [Hb1 Ha1].
      destruct (IH s1 self ltac:(intro; contradiction) H) as [Hcase Hal].
      split.
      + right. split; [discriminate|].
        destruct Hcase as [[_ ->]|[_ Hb]]; assumption.
      + rewrite Hal, Ha1. simpl first_nonempty.
        destruct (AlignmentWithEstimation.base s0) as [base|] eqn:Eb.
        * destruct (AlignmentWithEstimation.alphabet s0) as [al|]; [reflexivity|].
          destruct (cells_of arg_s); reflexivity.
        * rewrite (Hinv eq_refl).
          destruct (cells_of arg_s); reflexivity.
  Qed.

Lemma run_estimation_seeds (fuel : nat) (calls : list input) :
    forall s0 self,
      foldM (fun self arg_s => AlignmentWithEstimation.add_string fuel self arg_s)
            calls s0 = Ok self ->
      (calls = [] /\ self = s0) \/
      (calls <> [] /\ AlignmentWithEstimation.base self <> None).
  Proof.
    induction calls as [|arg_s calls IH]; intros s0 self H; simpl in H.
    - left. inversion H. now split.
    - right. split; [discriminate|].
      apply bind_inv in H. destruct H as [s1 [H1 H]].
      destruct (IH s1 self H) as [[_ ->]|[_ Hb]]; [|exact Hb].
      now apply add_string_step in H1.
  Qed.
End EstimationFacts.
(** ** Cell: the stated properties *)



Open Scope float_scope.


Close Scope float_scope.

(** C5, as the code has it. For a Cell of the data model: with at least one
    label and weights that sum to zero, [normalize] and [normalized] raise
    [ZeroDivisionError]; with no label at all the Cell is returned as it is,
    without an error; with a positive weight sum the labels are kept in
    their order and every weight is divided by the sum. *)
Theorem normalize_cases (c : Cell.t) :
  cell_ok c ->
  (c = [] -> Cell.normalize c = Ok [] /\ Cell.normalized c = Ok []) /\
  (c <> [] -> Cell.weight_sum c == 0 ->
   Cell.normalize c = Raise ZeroDivisionError /\
   Cell.normalized c = Raise ZeroDivisionError) /\
  (0 < Cell.weight_sum c ->
   exists n, Cell.normalize c = Ok n /\ Cell.normalized c = Ok n /\
             n = map (fun kv => (fst kv, snd kv / Cell.weight_sum c)) c /\
             cell_ok n).
Proof.
  intro Hc. unfold Cell.normalized, Cell.clone. repeat split.
  - now subst.
  - now subst.
  - now apply normalize_zero.
  - now apply normalize_zero.
  - intro Hs. assert (Hs' : ~ Cell.weight_sum c == 0) by lra.
    exists (scale (Cell.weight_sum c) c).
    rewrite (normalize_nonzero c Hs'). repeat split.
    + now apply cell_ok_scale.
    + now apply cell_ok_scale.
Qed.

Lemma normalize_cases_witness :
  (Cell.normalize [] = Ok [] /\ Cell.normalized [] = Ok []) /\
  (Cell.normalize [("A", 0)]%string = Raise ZeroDivisionError /\
   Cell.normalized [("A", 0)]%string = Raise ZeroDivisionError) /\
  (let c := [("A", 1); ("B", 3)]%string in
   exists n, Cell.normalize c = Ok n /\ Cell.normalized c = Ok n /\
             n = map (fun kv => (fst kv, snd kv / Cell.weight_sum c)) c /\
             cell_ok n).
Proof.
  split; [|split].
  - apply (proj1 (normalize_cases [] ltac:(split; [constructor | intros k v []]))).
    reflexivity.
  - refine (proj1 (proj2 (normalize_cases [("A", 0)]%string _)) _ _).
    + split; [repeat constructor; simpl; intuition discriminate|].
      intros k v [E|[]]; inversion E; subst; discriminate.
    + discriminate.
    + reflexivity.
  - refine (proj2 (proj2 (normalize_cases [("A", 1); ("B", 3)]%string _)) _).
    + split; [repeat constructor; simpl; intuition discriminate|].
      intros k v [E|[E|[]]]; inversion E; subst; discriminate.
    + reflexivity.
Defined.

Open Scope float_scope.

(** C5 as stated fails three times: the Cell with an empty label map has
    weights that sum to zero and [normalize] returns it without raising; on
    binary64 numbers the weights of a normalized Cell need not sum to 1: six
    weights 1 become six weights [1/6] rounded down, whose sum the same
    arithmetic finds below 1; and with weights of both signs the sum that
    the code finds need not be the sum of the weights: the weights
    [1e16, 1, -1e16, -1] sum to zero, the code finds [-1] and returns every
    weight with its sign changed, and the weights [1e16, 1, -1e16] sum to 1,
    the code finds 0 and raises. *)
Lemma normalize_not_as_stated :
  (Cell.weight_sum [] == 0 /\
   Cell.normalize [] = Ok [] /\ Cell.normalized [] = Ok [])%Q /\
  (let c := [("A", 1); ("B", 1); ("C", 1); ("D", 1); ("E", 1); ("F", 1)]%string in
   exists n,
     Binary64.Cell.normalized c = Ok n /\
     n = [("A", 0.16666666666666666); ("B", 0.16666666666666666);
          ("C", 0.16666666666666666); ("D", 0.16666666666666666);
          ("E", 0.16666666666666666); ("F", 0.16666666666666666)]%string /\
     Binary64.Cell.weight_sum n = 0.9999999999999999 /\
     (0.9999999999999999 <? 1) = true) /\
  ((Cell.weight_sum [("A", 10000000000000000); ("B", 1);
                     ("C", - (10000000000000000)); ("D", - (1))]%string == 0)%Q /\
   Binary64.Cell.normalized
     [("A", 1e16); ("B", 1); ("C", -1e16); ("D", -1)]%string
   = Ok [("A", -1e16); ("B", -1); ("C", 1e16); ("D", 1)]%string /\
   (0 < Cell.weight_sum [("A", 10000000000000000); ("B", 1);
                         ("C", - (10000000000000000))]%string)%Q /\
   Binary64.Cell.normalized [("A", 1e16); ("B", 1); ("C", -1e16)]%string
   = Raise ZeroDivisionError).
Proof.
  split; [repeat split|split].
  - cbv zeta. by_computation.
  - by_computation.
Qed.

Close Scope float_scope.



Open Scope float_scope.


Close Scope float_scope.

(** ** Treap: the stated properties *)

Lemma below_mono_len (v v' : Q) (l : list Q) :
  v <= v' -> (len (below v l) <= len (below v' l))%Z.
Proof.
  intro H. unfold len, below. apply inj_le.
  induction l as [|x l IH]; simpl; [lia|].
  destruct (Qltb x v) eqn:E.
  - apply Qltb_lt in E.
    assert (E' : Qltb x v' = true) by (apply Qltb_lt; lra).
    rewrite E'. simpl. lia.
  - destruct (Qltb x v'); simpl; lia.
Qed.

Lemma below_mono_sum (v v' : Q) (l : list Q) :
  v <= v' -> (forall x, In x l -> 0 <= x) ->
  sumQ (below v l) <= sumQ (below v' l).
Proof.
  intros H Hpos. unfold below.
  induction l as [|x l IH]; simpl; [lra|].
  assert (IH' : sumQ (filter (fun x => Qltb x v) l)
                <= sumQ (filter (fun x => Qltb x v') l))
    by (apply IH; intros y Hy; apply Hpos; now right).
  assert (Hx : 0 <= x) by (apply Hpos; now left).
  destruct (Qltb x v) eqn:E.
  - apply Qltb_lt in E.
    assert (E' : Qltb x v' = true) by (apply Qltb_lt; lra).
    rewrite E'. simpl. lra.
  - destruct (Qltb x v'); simpl; lra.
Qed.

Lemma below_all (v : Q) (l : list Q) :
  (forall x, In x l -> x < v) -> below v l = l.
Proof.
  intro H. apply filter_all, Forall_forall. intros x Hx.
  apply Qltb_lt. now apply H.
Qed.

Lemma child_sum_shaped (nodes : list Treap.TreapNode) (t : tree) :
  shaped nodes t -> child_sum nodes (root_of t) == sumQ (elems t).
Proof.
  intro Hs. pose proof (shaped_child nodes t Hs) as H. unfold child_sum.
  destruct (child nodes (root_of t)) as [nd|]; [apply H|]. subst t. reflexivity.
Qed.

(** C7, as the code has it. After any run of [add_element] calls on an empty
    Treap, the in-order traversal from [root] is sorted by element and holds
    the inserted elements, and every node stores the count of the elements
    of its own subtree and, as the sum, its element plus the sums that its
    children store. *)
Theorem add_element_invariant (fuel : nat) (calls : list (Z * Q)) :
  (List.length calls < fuel)%nat ->
  exists T,
    Treap.build fuel calls = Ok T /\
    (exists l,
        Treap.inorder fuel (Treap.nodes T) (Treap.root T) = Some l /\
        StronglySorted Qle l /\ Permutation l (map snd calls)) /\
    (forall i nd,
        nth_error (Treap.nodes T) i = Some nd ->
        exists l,
          Treap.inorder fuel (Treap.nodes T) (Z.of_nat i) = Some l /\
          In (Treap.element nd) l /\
          Treap.subtree_cnt nd = len l /\
          Treap.subtree_sum nd
          == Treap.element nd + child_sum (Treap.nodes T) (Treap.left_node nd)
             + child_sum (Treap.nodes T) (Treap.right_node nd)).
Proof.
  intro Hfuel.
  destruct (build_inv fuel calls Hfuel) as [T [t [Hrun [Hinv [Hperm Hlen]]]]].
  destruct Hinv as [Hroot [Hs [Hidx Hsorted]]].
  assert (Hsize : size t = List.length calls).
  { now rewrite size_elems, (Permutation_length Hperm), length_map. }
  exists T. split; [exact Hrun|]. split.
  - exists (elems t). rewrite Hroot. split; [|now split].
    apply inorder_shaped; [assumption | lia].
  - intros i nd Hi.
    assert (Hin : In i (idxs t)).
    { apply (Permutation_in _ (Permutation_sym Hidx)), in_seq.
      assert (i < List.length (Treap.nodes T))%nat by (apply nth_error_Some; congruence).
      lia. }
    destruct (shaped_subtree _ t i Hs Hin) as [l [e [r [Hsub Hle]]]].
    exists (elems (Node l i e r)). split.
    + apply (inorder_shaped _ (Node l i e r)); [assumption | lia].
    + simpl in Hsub.
      destruct Hsub as [nd' [Hi' [He [Hl [Hr [Hsum [Hcnt [Hsl Hsr]]]]]]]].
      rewrite Hi in Hi'. inversion Hi'; subst nd'.
      split; [|split; [exact Hcnt|]].
      * simpl. apply in_or_app. right. left. now symmetry.
      * rewrite Hsum, Hl, Hr, (child_sum_shaped _ l Hsl), (child_sum_shaped _ r Hsr), He.
        rewrite sumQ_app. simpl. ring.
Qed.

Lemma add_element_invariant_witness :
  let calls := [(5%Z, 3); (7%Z, 1); (2%Z, 2); (9%Z, 2); (1%Z, 5)] in
  exists T,
    Treap.build 6 calls = Ok T /\
    (exists l,
        Treap.inorder 6 (Treap.nodes T) (Treap.root T) = Some l /\
        StronglySorted Qle l /\ Permutation l (map snd calls)) /\
    (forall i nd,
        nth_error (Treap.nodes T) i = Some nd ->
        exists l,
          Treap.inorder 6 (Treap.nodes T) (Z.of_nat i) = Some l /\
          In (Treap.element nd) l /\
          Treap.subtree_cnt nd = len l /\
          Treap.subtree_sum nd
          == Treap.element nd + child_sum (Treap.nodes T) (Treap.left_node nd)
             + child_sum (Treap.nodes T) (Treap.right_node nd)).
Proof.
  apply add_element_invariant. simpl. lia.
Defined.

Open Scope float_scope.

(** C7 as stated fails on binary64 numbers: the sum that a node stores is
    rounded at every addition, in the order that the shape of the tree
    gives, so it is not one number for one set of elements. The elements
    0.1, 0.2 and 0.3 inserted with the priorities 3, 2, 1 leave the sum 0.6
    in the root, and with the priorities 1, 3, 2 the sum
    0.6000000000000001. *)
Lemma subtree_sum_rounding :
  let calls := [(3%Z, 0.1); (2%Z, 0.2); (1%Z, 0.3)] in
  let calls' := [(1%Z, 0.1); (3%Z, 0.2); (2%Z, 0.3)] in
  map snd calls = map snd calls' /\
  exists T T' nd nd',
    Binary64.Treap.build 4 calls = Ok T /\
    Binary64.Treap.build 4 calls' = Ok T' /\
    py_get (Binary64.Treap.nodes T) (Binary64.Treap.root T) = Ok nd /\
    py_get (Binary64.Treap.nodes T') (Binary64.Treap.root T') = Ok nd' /\
    Binary64.Treap.subtree_cnt nd = 3%Z /\
    Binary64.Treap.subtree_cnt nd' = 3%Z /\
    Binary64.Treap.subtree_sum nd = 0.6 /\
    Binary64.Treap.subtree_sum nd' = 0.6000000000000001 /\
    (0.6 <? 0.6000000000000001) = true.
Proof.
  cbv zeta. by_computation.
Qed.

Close Scope float_scope.

(** C8, as the code has it. On a Treap built by [add_element] calls,
    [get_lower(root, v)] returns the count of the inserted elements strictly
    less than [v], and the sum 0 when there is none; it returns (0, 0) on
    the empty Treap; the count does not decrease when [v] grows, and is the
    count of all elements when [v] exceeds them. *)
Theorem get_lower_count (fuel : nat) (calls : list (Z * Q)) (v : Q) :
  (List.length calls < fuel)%nat ->
  exists T c s,
    Treap.build fuel calls = Ok T /\
    Treap.get_lower fuel (Treap.nodes T) (Treap.root T) v = Ok (c, s) /\
    c = len (below v (map snd calls)) /\
    (c = 0%Z -> s == 0) /\
    Treap.get_lower fuel (Treap.nodes Treap.empty) (Treap.root Treap.empty) v
    = Ok (0%Z, 0) /\
    (forall v', v <= v' ->
                exists c' s',
                  Treap.get_lower fuel (Treap.nodes T) (Treap.root T) v' = Ok (c', s') /\
                  (c <= c')%Z) /\
    ((forall x, In x (map snd calls) -> x < v) -> c = len (map snd calls)).
Proof.
  intro Hfuel.
  destruct (get_lower_built fuel calls v Hfuel) as [T [c [s [Hrun [Hget [Hc Hs]]]]]].
  exists T, c, s. split; [exact Hrun|]. split; [exact Hget|].
  split; [exact Hc|]. split.
  { intro Hc0. rewrite Hs. rewrite Hc0 in Hc. unfold len in Hc.
    destruct (below v (map snd calls)); [reflexivity | simpl in Hc; lia]. }
  split.
  { destruct fuel; [lia | reflexivity]. }
  split.
  - intros v' Hv.
    destruct (get_lower_built fuel calls v' Hfuel)
      as [T' [c' [s' [Hrun' [Hget' [Hc' Hs']]]]]].
    rewrite Hrun in Hrun'. inversion Hrun'; subst T'.
    exists c', s'. split; [exact Hget'|].
    subst c c'. now apply below_mono_len.
  - intro Hall. now rewrite (below_all v _ Hall) in Hc.
Qed.

Lemma get_lower_count_witness :
  let calls := [(5%Z, 3); (7%Z, 1); (2%Z, 2); (9%Z, 2); (1%Z, 5)] in
  exists T c s,
    Treap.build 6 calls = Ok T /\
    Treap.get_lower 6 (Treap.nodes T) (Treap.root T) (5 # 2) = Ok (c, s) /\
    c = len (below (5 # 2) (map snd calls)) /\
    (c = 0%Z -> s == 0) /\
    Treap.get_lower 6 (Treap.nodes Treap.empty) (Treap.root Treap.empty) (5 # 2)
    = Ok (0%Z, 0) /\
    (forall v', 5 # 2 <= v' ->
                exists c' s',
                  Treap.get_lower 6 (Treap.nodes T) (Treap.root T) v' = Ok (c', s') /\
                  (c <= c')%Z) /\
    ((forall x, In x (map snd calls) -> x < 5 # 2) -> c = len (map snd calls)).
Proof.
  apply get_lower_count. simpl. lia.
Defined.

Open Scope float_scope.

(** C8 as stated fails on binary64 numbers: the sum that [get_lower] returns
    is added up from the sums stored in the tree, so it depends on the
    priorities drawn. For the elements 0.1, 0.2 and 0.3, all below 1,
    [get_lower(root, 1)] returns the sum 0.6 after the priorities 3, 2, 1
    and 0.6000000000000001 after the priorities 1, 3, 2; the count is 3
    both times. *)
Lemma get_lower_rounding :
  let calls := [(3%Z, 0.1); (2%Z, 0.2); (1%Z, 0.3)] in
  let calls' := [(1%Z, 0.1); (3%Z, 0.2); (2%Z, 0.3)] in
  map snd calls = map snd calls' /\
  exists T T',
    Binary64.Treap.build 4 calls = Ok T /\
    Binary64.Treap.build 4 calls' = Ok T' /\
    Binary64.Treap.get_lower 4 (Binary64.Treap.nodes T) (Binary64.Treap.root T) 1
    = Ok (3%Z, 0.6) /\
    Binary64.Treap.get_lower 4 (Binary64.Treap.nodes T') (Binary64.Treap.root T') 1
    = Ok (3%Z, 0.6000000000000001) /\
    (0.6 <? 0.6000000000000001) = true.
Proof.
  cbv zeta. by_computation.
Qed.

Close Scope float_scope.
(** ** Sequence structures: what the two structures accumulate *)

(** In exact numbers the closed form of the tree-backed structure is half of
    what the list-backed structure accumulates for the same history. *)
Lemma history_terms_agree (fuel : nat) (calls : list (Z * Q)) :
  let es := map snd calls in
  let n := len es in
  calls <> [] -> (List.length calls < fuel)%nat ->
  (let s := sumQ es in
   let mean := s / inject_Z n in
   s * inject_Z (len (below mean es)) - inject_Z n * sumQ (below mean es)
   == sumQ (map (fun e => Qabs (s - inject_Z n * e)) es) / 2) /\
  exists hT q,
    TreapBasedSequenceStructure.inserts fuel calls = Ok hT /\
    TreapBasedSequenceStructure.history_term fuel hT n = Ok q /\
    q / inject_Z (n * (n + 1))
    == sumQ (ListBasedSequenceStructure.history_terms
               (ListBasedSequenceStructure.inserts es) n)
       / inject_Z (2 * n * (n + 1)).
Proof.
  intros es n Hne Hfuel.
  assert (Hes : es <> []) by (unfold es; destruct calls; [congruence | discriminate]).
  assert (Hn : 0 < inject_Z n).
  { unfold n, len. destruct es; [congruence|]. simpl List.length.
    change 0 with (inject_Z 0). rewrite <- Zlt_Qlt. lia. }
  split.
  - intros s mean. unfold n.
    rewrite (deviations_closed_form es s mean Hes); [field | reflexivity | reflexivity].
  - destruct (build_inv fuel calls Hfuel) as [T [t [Hrun [Hinv [Hperm Hlen]]]]].
    destruct (treap_get_sum T t Hinv) as [s [Hsum Hs]].
    assert (Hs' : s == sumQ es) by (rewrite Hs; now apply sumQ_perm).
    destruct Hinv as [Hroot [Hshaped [Hidx Hsorted]]].
    destruct (get_lower_spec (s / inject_Z n) t fuel (Treap.nodes T) Hshaped Hsorted)
      as [ls [Hget Hls]].
    { rewrite size_elems, (Permutation_length Hperm). unfold es in *.
      now rewrite length_map. }
    pose proof (filter_perm (fun x => Qltb x (s / inject_Z n)) _ _ Hperm) as Hf.
    fold (below (s / inject_Z n) (elems t)) in Hf.
    fold (below (s / inject_Z n) (map snd calls)) in Hf. fold es in Hf.
    exists (TreapBasedSequenceStructure.mk T),
      (s * inject_Z (len (below (s / inject_Z n) (elems t))) - inject_Z n * ls).
    split.
    { unfold TreapBasedSequenceStructure.inserts, TreapBasedSequenceStructure.new.
      rewrite treap_inserts_from. unfold Treap.build in Hrun. now rewrite Hrun. }
    split.
    { unfold TreapBasedSequenceStructure.history_term.
      rewrite Hsum, bind_ok, (py_div_ok s (inject_Z n)) by lra.
      rewrite bind_ok. simpl TreapBasedSequenceStructure.treap.
      rewrite <- Hroot in Hget. rewrite Hget. reflexivity. }
    destruct (list_inserts es) as [Hel Hsl].
    unfold ListBasedSequenceStructure.history_terms. rewrite Hel. unfold n at 5.
    rewrite (deviations_closed_form es _ (s / inject_Z n) Hes Hsl).
    2:{ fold n. now rewrite Hsl, Hs'. }
    fold n. rewrite Hls, (sumQ_perm _ _ Hf).
    unfold len at 1. rewrite (Permutation_length Hf). fold (len (below (s / inject_Z n) es)).
    rewrite Hsl, <- Hs'.
    assert (Hn1 : 0 < inject_Z (n + 1)).
    { change 0 with (inject_Z 0). rewrite <- Zlt_Qlt.
      change 0 with (inject_Z 0) in Hn. rewrite <- Zlt_Qlt in Hn. lia. }
    rewrite !inject_Z_mult. change (inject_Z 2) with 2.
    field. split; lra.
Qed.


(** ** [levmetric_ocr] and [add_string]: the stated properties *)

(** C4, as the code has it. For two sequences of certain Cells whose labels
    are not the empty character label ['@'], [levmetric_ocr] equals the
    classic normalized Levenshtein distance [2 * L / (|A| + |B| + L)] of the
    two sequences of labels, where [L] is the unit-cost edit distance, which
    [levenshtein] returns. *)
Theorem levmetric_ocr_certain (a b : list string) :
  ~ In es a -> ~ In es b ->
  exists v,
    levmetric_ocr (map certain a) (map certain b) = Ok v /\
    levenshtein a b = Ok (edit_distance a b) /\
    v == normalized_levenshtein a b.
Proof.
  intros Ha Hb.
  assert (Hla : len (map certain a) = len a) by (unfold len; now rewrite length_map).
  assert (Hlb : len (map certain b) = len b) by (unfold len; now rewrite length_map).
  unfold normalized_levenshtein.
  destruct ((len a =? 0) && (len b =? 0))%Z eqn:Eempty.
  - exists 0. unfold levmetric_ocr. rewrite Hla, Hlb, Eempty.
    split; [reflexivity|]. split; [apply levenshtein_spec | reflexivity].
  - assert (Hpos : (1 <= len a + len b)%Z).
    { apply andb_false_iff in Eempty. unfold len in *.
      destruct Eempty as [E|E]; apply Z.eqb_neq in E; lia. }
    rewrite levmetric_ocr_spec.
    + rewrite Hla, Hlb.
      set (G := gldZ (map certain a) (map certain b) (len a) (len b)).
      assert (HG : G == inject_Z (edit_distance a b)).
      { unfold G, gldZ, edit_distance, len. rewrite !Nat2Z.id.
        apply gld_certain; auto. }
      pose proof (edit_nonneg a b (List.length a) (List.length b)) as Hnn.
      fold (edit_distance a b) in Hnn.
      assert (Hden : ~ inject_Z (len a) + inject_Z (len b) + G == 0).
      { rewrite HG, <- !inject_Z_plus. change 0 with (inject_Z 0).
        rewrite inject_Z_injective. lia. }
      rewrite py_div_ok by exact Hden.
      eexists. split; [reflexivity|]. split; [apply levenshtein_spec|].
      now rewrite HG.
    + apply Forall_forall. intros c Hc. apply in_map_iff in Hc.
      destruct Hc as [k [<- _]]. apply normalizable_certain.
    + apply Forall_forall. intros c Hc. apply in_map_iff in Hc.
      destruct Hc as [k [<- _]]. apply normalizable_certain.
    + apply andb_false_iff in Eempty. unfold len in Eempty.
      destruct Eempty as [E|E]; apply Z.eqb_neq in E; [left | right];
        intro H0; apply map_eq_nil in H0; subst; simpl in E; lia.
Qed.

Lemma levmetric_ocr_certain_witness :
  exists v,
    levmetric_ocr (map certain (chars "kitten")) (map certain (chars "sitting")) = Ok v /\
    levenshtein (chars "kitten") (chars "sitting")
    = Ok (edit_distance (chars "kitten") (chars "sitting")) /\
    v == normalized_levenshtein (chars "kitten") (chars "sitting").
Proof.
  apply levmetric_ocr_certain.
  - simpl. unfold es. intuition discriminate.
  - simpl. unfold es. intuition discriminate.
Defined.

(** C4 as stated fails when a certain Cell carries the empty character
    label: the sequence [['@']] is at generalized distance 0 from the empty
    sequence, and at normalized Levenshtein distance 1. *)
Lemma levmetric_ocr_gap_label :
  exists v,
    levmetric_ocr (map certain ["@"%string]) (map certain []) = Ok v /\
    v == 0 /\
    levenshtein ["@"%string] [] = Ok 1%Z /\
    normalized_levenshtein ["@"%string] [] == 1.
Proof.
  eexists. split; [vm_compute; reflexivity|]. repeat split.
Qed.

Lemma choose_path_matched (pen_unmatched_base pen_unmatched_s pen_matched : Q) :
  choose_path pen_unmatched_base pen_unmatched_s pen_matched = PATH_MATCHED <->
  pen_matched < pen_unmatched_base /\ pen_matched < pen_unmatched_s.
Proof.
  unfold choose_path, py_min.
  destruct (Qltb pen_unmatched_s pen_unmatched_base) eqn:E1;
    match goal with
    | |- context [Qltb pen_matched ?x] => destruct (Qltb pen_matched x) eqn:E2
    end;
    try destruct (Qltb pen_unmatched_base pen_unmatched_s) eqn:E3;
    repeat match goal with
           | H : Qltb _ _ = true |- _ => apply Qltb_lt in H
           | H : Qltb _ _ = false |- _ => apply Qltb_ge in H
           end;
    split; try discriminate; try reflexivity; try (intros _; lra);
    intros [? ?]; lra.
Qed.

Lemma choose_path_gap (pen_unmatched_base pen_unmatched_s pen_matched : Q) :
  ~ (pen_matched < pen_unmatched_base /\ pen_matched < pen_unmatched_s) ->
  choose_path pen_unmatched_base pen_unmatched_s pen_matched =
  if Qltb pen_unmatched_base pen_unmatched_s then PATH_UNMATCHED_BASE
  else PATH_UNMATCHED_S.
Proof.
  intro H. rewrite <- choose_path_matched in H. unfold choose_path in *.
  destruct (Qltb pen_matched (py_min pen_unmatched_base pen_unmatched_s));
    [congruence | reflexivity].
Qed.

(** C1, as the code has it. At every interior cell of the matrices that
    [add_string] fills, the match move is recorded only when [pen_matched]
    is strictly below both gap penalties; otherwise 'unmatched base' is
    recorded only when [pen_unmatched_base] is strictly below
    [pen_unmatched_s]; in every other case, ties included, 'unmatched s' is
    recorded. *)
Theorem path_label_choice (base s : list Cell.t) :
  Forall normalizable base -> Forall normalizable s ->
  exists dp path,
    align_matrices base s = Ok (dp, path) /\
    forall i j,
      (1 <= i <= len base)%Z -> (1 <= j <= len s)%Z ->
      exists b c d_b d_s d_m p_b p_s p_m label,
        py_get base (i - 1) = Ok b /\ py_get s (j - 1) = Ok c /\
        cell_dist b ec = Ok d_b /\ cell_dist c ec = Ok d_s /\ cell_dist b c = Ok d_m /\
        mget dp (i - 1) j = Ok p_b /\ mget dp i (j - 1) = Ok p_s /\
        mget dp (i - 1) (j - 1) = Ok p_m /\
        mget path i j = Ok label /\
        let pen_unmatched_base := d_b + p_b in
        let pen_unmatched_s := d_s + p_s in
        let pen_matched := d_m + p_m in
        mget dp i j = Ok (py_min3 pen_unmatched_base pen_unmatched_s pen_matched) /\
        (label = PATH_MATCHED <->
         pen_matched < pen_unmatched_base /\ pen_matched < pen_unmatched_s) /\
        (label = PATH_UNMATCHED_BASE <->
         ~ (pen_matched < pen_unmatched_base /\ pen_matched < pen_unmatched_s) /\
         pen_unmatched_base < pen_unmatched_s) /\
        (label = PATH_UNMATCHED_S <->
         ~ (pen_matched < pen_unmatched_base /\ pen_matched < pen_unmatched_s) /\
         pen_unmatched_s <= pen_unmatched_base).
Proof.
  intros Hb Hs.
  destruct (align_matrices_spec base s Hb Hs) as [dp [path [Hrun [[_ HD] [_ HL]]]]].
  exists dp, path. split; [exact Hrun|]. intros i j Hi Hj.
  destruct (py_get_cell base i Hi Hb) as [Hgb Hnb].
  destruct (py_get_cell s j Hj Hs) as [Hgs Hns].
  exists (nth (Z.to_nat (i - 1)) base []), (nth (Z.to_nat (j - 1)) s []).
  exists (dist (nth (Z.to_nat (i - 1)) base []) ec),
    (dist (nth (Z.to_nat (j - 1)) s []) ec),
    (dist (nth (Z.to_nat (i - 1)) base []) (nth (Z.to_nat (j - 1)) s [])).
  exists (gldZ base s (i - 1) j), (gldZ base s i (j - 1)), (gldZ base s (i - 1) (j - 1)).
  exists (directionZ base s i j).
  split; [exact Hgb|]. split; [exact Hgs|].
  split; [apply cell_dist_dist; [exact Hnb | apply normalizable_ec]|].
  split; [apply cell_dist_dist; [exact Hns | apply normalizable_ec]|].
  split; [now apply cell_dist_dist|].
  split; [apply HD; auto; lia|]. split; [apply HD; auto; lia|].
  split; [apply HD; auto; lia|]. split; [apply HL; auto; lia|].
  cbv zeta. split.
  { rewrite HD by (auto; lia). rewrite (gldZ_inner base s i j) by lia. reflexivity. }
  rewrite (directionZ_inner base s i j) by lia. unfold del, ins, sub.
  set (ub := dist (nth (Z.to_nat (i - 1)) base []) ec + gldZ base s (i - 1) j).
  set (us := dist (nth (Z.to_nat (j - 1)) s []) ec + gldZ base s i (j - 1)).
  set (pm := dist (nth (Z.to_nat (i - 1)) base []) (nth (Z.to_nat (j - 1)) s [])
             + gldZ base s (i - 1) (j - 1)).
  split; [apply choose_path_matched|].
  destruct (Qlt_le_dec pm ub) as [H1|H1], (Qlt_le_dec pm us) as [H2|H2];
    try (rewrite (proj2 (choose_path_matched ub us pm) (conj H1 H2));
         split; split; try discriminate; intros [Hn _]; exfalso; apply Hn; now split);
    (rewrite choose_path_gap by (intros [? ?]; lra);
     destruct (Qltb ub us) eqn:E; [apply Qltb_lt in E | apply Qltb_ge in E];
     split; split; try discriminate; try tauto; try lra;
     intros _; split; try lra; intros [? ?]; lra).
Qed.

Lemma path_label_choice_witness :
  let base := cells_of (Str "aba") in
  let s := cells_of (Str "bab") in
  exists dp path,
    align_matrices base s = Ok (dp, path) /\
    forall i j,
      (1 <= i <= len base)%Z -> (1 <= j <= len s)%Z ->
      exists b c d_b d_s d_m p_b p_s p_m label,
        py_get base (i - 1) = Ok b /\ py_get s (j - 1) = Ok c /\
        cell_dist b ec = Ok d_b /\ cell_dist c ec = Ok d_s /\ cell_dist b c = Ok d_m /\
        mget dp (i - 1) j = Ok p_b /\ mget dp i (j - 1) = Ok p_s /\
        mget dp (i - 1) (j - 1) = Ok p_m /\
        mget path i j = Ok label /\
        let pen_unmatched_base := d_b + p_b in
        let pen_unmatched_s := d_s + p_s in
        let pen_matched := d_m + p_m in
        mget dp i j = Ok (py_min3 pen_unmatched_base pen_unmatched_s pen_matched) /\
        (label = PATH_MATCHED <->
         pen_matched < pen_unmatched_base /\ pen_matched < pen_unmatched_s) /\
        (label = PATH_UNMATCHED_BASE <->
         ~ (pen_matched < pen_unmatched_base /\ pen_matched < pen_unmatched_s) /\
         pen_unmatched_base < pen_unmatched_s) /\
        (label = PATH_UNMATCHED_S <->
         ~ (pen_matched < pen_unmatched_base /\ pen_matched < pen_unmatched_s) /\
         pen_unmatched_s <= pen_unmatched_base).
Proof.
  apply path_label_choice;
    repeat constructor; unfold normalizable; intro H; discriminate H.
Defined.

(** C1 as stated fails on ties. Adding the empty string to an Alignment
    seeded with the empty string aligns [ec] with [ec]: the three penalties
    of cell (1, 1) are equal and 'unmatched s' is recorded, not the match.
    Adding "bab" to an Alignment seeded with "aba" gives, at cell (3, 3),
    two equal gap penalties below [pen_matched], and 'unmatched s' is
    recorded, not 'unmatched base'. *)
Lemma tie_break_counterexample :
  (exists self, Alignment.run 0 1 [(Str EmptyString, 1)] = Ok self /\
                Alignment.base self = Some [ec]) /\
  (exists dp path d_b d_s d_m p_b p_s p_m,
      align_matrices [ec] [ec] = Ok (dp, path) /\
      cell_dist ec ec = Ok d_b /\ cell_dist ec ec = Ok d_s /\ cell_dist ec ec = Ok d_m /\
      mget dp 0 1 = Ok p_b /\ mget dp 1 0 = Ok p_s /\ mget dp 0 0 = Ok p_m /\
      d_m + p_m == d_b + p_b /\ d_m + p_m == d_s + p_s /\
      mget path 1 1 = Ok PATH_UNMATCHED_S) /\
  (exists self, Alignment.run 0 1 [(Str "aba", 1)] = Ok self /\
                Alignment.base self = Some (cells_of (Str "aba"))) /\
  (exists dp path d_b d_s d_m p_b p_s p_m,
      align_matrices (cells_of (Str "aba")) (cells_of (Str "bab")) = Ok (dp, path) /\
      cell_dist (certain "a") ec = Ok d_b /\ cell_dist (certain "b") ec = Ok d_s /\
      cell_dist (certain "a") (certain "b") = Ok d_m /\
      mget dp 2 3 = Ok p_b /\ mget dp 3 2 = Ok p_s /\ mget dp 2 2 = Ok p_m /\
      d_b + p_b < d_m + p_m /\ d_b + p_b == d_s + p_s /\
      mget path 3 3 = Ok PATH_UNMATCHED_S).
Proof.
  split; [eexists; split; vm_compute; reflexivity|].
  split.
  { do 8 eexists.
    repeat (split; [vm_compute; reflexivity|]). vm_compute. reflexivity. }
  split; [eexists; split; vm_compute; reflexivity|].
  do 8 eexists.
  repeat (split; [vm_compute; reflexivity|]). vm_compute. reflexivity.
Qed.

(** ** Alignment and AlignmentWithEstimation: the stated properties *)

(** C10, as the code has it. On an Alignment or an AlignmentWithEstimation
    reached by [add_string] calls, [get_string_result] raises [TypeError]
    as long as no [add_string] call has returned (the base is still [None]),
    and returns a string once one call has returned, whatever calls raised
    before or after it. *)
Theorem get_string_result_after_calls :
  (forall (fuel : nat) (empty_weight : Q) (self : Alignment.t) (returned : bool),
      reached fuel empty_weight self returned ->
      (returned = false -> Alignment.get_string_result self = Raise TypeError) /\
      (returned = true -> exists str, Alignment.get_string_result self = Ok str)) /\
  (forall (T : Type) (SS : SequenceStructure T) (fuel : nat) (empty_weight : Q)
          (self : AlignmentWithEstimation.t T) (returned : bool),
      reached_estimation fuel empty_weight self returned ->
      (returned = false ->
       AlignmentWithEstimation.get_string_result self = Raise TypeError) /\
      (returned = true ->
       exists str, AlignmentWithEstimation.get_string_result self = Ok str)).
Proof.
  split.
  - intros fuel ew self returned H.
    assert (Hinv : if returned then Alignment.base self <> None
                   else Alignment.base self = None).
    { induction H as [|self self' returned arg_s w _ _ Hrun|]; [reflexivity| |assumption].
      now apply add_string_seeds in Hrun. }
    unfold Alignment.get_string_result. split; intros ->.
    + now rewrite Hinv.
    + destruct (Alignment.base self) as [base|]; [|congruence].
      apply (get_string_result_loop (Alignment.ew self) base EmptyString).
  - intros T SS fuel ew self returned H.
    assert (Hinv : if returned then AlignmentWithEstimation.base self <> None
                   else AlignmentWithEstimation.base self = None).
    { induction H as [|self self' returned arg_s _ _ Hrun
                      |self self' returned arg_s e _ IH _ _ _ Hb _ _]; [reflexivity| |].
      - now apply add_string_step in Hrun.
      - now rewrite Hb. }
    unfold AlignmentWithEstimation.get_string_result. split; intros ->.
    + now rewrite Hinv.
    + destruct (AlignmentWithEstimation.base self) as [base|]; [|congruence].
      apply (get_string_result_loop (AlignmentWithEstimation.ew self) base EmptyString).
Qed.

Lemma get_string_result_after_calls_witness :
  (exists self,
      reached 6 (6 # 10) self true /\
      exists str, Alignment.get_string_result self = Ok str) /\
  (exists self : AlignmentWithEstimation.t ListBasedSequenceStructure.t,
      reached_estimation 6 (6 # 10) self true /\
      exists str, AlignmentWithEstimation.get_string_result self = Ok str).
Proof.
  split.
  - assert (H : exists self, reached 6 (6 # 10) self true).
    { eexists.
      eapply (reached_raise 6 (6 # 10) _ true (Cells [[("B", 0)]]%string) 1).
      - eapply (reached_return 6 (6 # 10) _ _ false (Str "ABC") 1).
        + eapply (reached_raise 6 (6 # 10) _ false (Cells [[("A", 0)]]%string) 1).
          * apply reached_init.
          * vm_compute. reflexivity.
          * discriminate.
        + vm_compute. reflexivity.
      - vm_compute. reflexivity.
      - discriminate. }
    destruct H as [self H]. exists self. split; [exact H|].
    exact (proj2 (proj1 get_string_result_after_calls 6%nat (6 # 10) self true H) eq_refl).
  - assert (H : exists self : AlignmentWithEstimation.t ListBasedSequenceStructure.t,
               reached_estimation 6 (6 # 10) self true).
    { eexists.
      eapply (reached_estimation_return 6 (6 # 10) _ _ false (Str "AB")).
      - eapply (reached_estimation_raise 6 (6 # 10) _ _ false (Cells [[("A", 0)]]%string)).
        + apply reached_estimation_init.
        + vm_compute. reflexivity.
        + discriminate.
        + intros _. eexists. vm_compute. reflexivity.
        + reflexivity.
        + reflexivity.
        + reflexivity.
      - vm_compute. reflexivity. }
    destruct H as [self H]. exists self. split; [exact H|].
    exact (proj2 (proj2 get_string_result_after_calls _ list_based 6%nat (6 # 10) self true H)
                 eq_refl).
Defined.

(** C10 as stated fails after an [add_string] call that raises: the call
    on a Cell whose weights sum to zero raises [ZeroDivisionError] while it
    normalizes its input, before the base is assigned, and
    [get_string_result] then raises although [add_string] has been called. *)
Lemma get_string_result_after_raise :
  (Alignment.add_string 1 (Alignment.init 1) (Cells [[("A", 0)]]%string) 1
   = Raise ZeroDivisionError /\
   reached 1 1 (Alignment.init 1) false /\
   Alignment.get_string_result (Alignment.init 1) = Raise TypeError) /\
  (AlignmentWithEstimation.add_string (SS := list_based) 1
     (AlignmentWithEstimation.init 1) (Cells [[("A", 0)]]%string)
   = Raise ZeroDivisionError /\
   reached_estimation (SS := list_based) 1 1 (AlignmentWithEstimation.init 1) false /\
   AlignmentWithEstimation.get_string_result
     (AlignmentWithEstimation.init (T := ListBasedSequenceStructure.t) 1)
   = Raise TypeError).
Proof.
  split; (split; [vm_compute; reflexivity|split; [|vm_compute; reflexivity]]).
  - eapply (reached_raise 1 1 _ false (Cells [[("A", 0)]]%string) 1).
    + apply reached_init.
    + vm_compute. reflexivity.
    + discriminate.
  - eapply (reached_estimation_raise 1 1 _ _ false (Cells [[("A", 0)]]%string)).
    + apply reached_estimation_init.
    + vm_compute. reflexivity.
    + discriminate.
    + intros _. eexists. vm_compute. reflexivity.
    + reflexivity.
    + reflexivity.
    + reflexivity.
Qed.

(** C9, as the code has it. In AlignmentWithEstimation the alphabet starts
    undefined and is fixed at the first [add_string] call whose input is
    non-empty: after that call it is the concatenation of the labels of the
    first Cell of that input, and no later [add_string] call changes it. *)
Theorem alphabet_of_first_nonempty_input
        (T : Type) (SS : SequenceStructure T) (fuel : nat) (empty_weight : Q)
        (calls : list input) (self : AlignmentWithEstimation.t T) :
  AlignmentWithEstimation.run fuel empty_weight calls = Ok self ->
  AlignmentWithEstimation.alphabet (AlignmentWithEstimation.init (T := T) empty_weight)
  = None /\
  AlignmentWithEstimation.alphabet self
  = option_map AlignmentWithEstimation.join_keys (first_nonempty calls) /\
  forall arg_s self',
    AlignmentWithEstimation.add_string fuel self arg_s = Ok self' ->
    AlignmentWithEstimation.alphabet self' =
    match AlignmentWithEstimation.alphabet self with
    | Some al => Some al
    | None => match cells_of arg_s with
              | [] => None
              | c0 :: _ => Some (AlignmentWithEstimation.join_keys c0)
              end
    end.
Proof.
  intro Hrun. unfold AlignmentWithEstimation.run in Hrun.
  destruct (run_alphabet fuel calls (AlignmentWithEstimation.init empty_weight) self
              ltac:(intros _; reflexivity) Hrun) as [Hcase Hal].
  split; [reflexivity|]. split; [exact Hal|].
  intros arg_s self' Hstep.
  destruct (add_string_step fuel self self' arg_s Hstep) as [_ Ha].
  rewrite Ha.
  destruct (AlignmentWithEstimation.base self) as [base|] eqn:Eb.
  - destruct (AlignmentWithEstimation.alphabet self); [reflexivity|].
    destruct (cells_of arg_s); reflexivity.
  - destruct Hcase as [[-> ->]|[_ Hb]]; [|congruence].
    simpl. destruct (cells_of arg_s); reflexivity.
Qed.

Lemma alphabet_of_first_nonempty_input_witness :
  let cell := [("A", 8 # 10); ("B", 1 # 10); ("@", 1 # 10)]%string in
  let calls := [Str EmptyString; Cells [cell; cell]; Cells [cell]] in
  exists self,
    AlignmentWithEstimation.run (SS := list_based) 6 1 calls = Ok self /\
    AlignmentWithEstimation.alphabet self = Some "AB@"%string /\
    AlignmentWithEstimation.alphabet self
    = option_map AlignmentWithEstimation.join_keys (first_nonempty calls).
Proof.
  eexists. split; [vm_compute; reflexivity|]. split; [reflexivity|].
  refine (proj1 (proj2 (alphabet_of_first_nonempty_input
                          ListBasedSequenceStructure.t list_based 6%nat 1 _ _ _))).
  vm_compute. reflexivity.
Defined.

(** C9 as stated fails: after ["AB"] the alphabet is ["A"], the labels of
    the first Cell only, although [B] is a non-gap label of the input; and
    after an input whose first Cell has the empty character label, the
    alphabet holds that label. *)
Lemma alphabet_is_first_cell_only :
  (exists self,
      AlignmentWithEstimation.run (SS := list_based) 0 1 [Str "AB"] = Ok self /\
      AlignmentWithEstimation.alphabet self = Some "A"%string /\
      non_gap_label (Str "AB") "B" /\ ~ In "B"%string (chars "A")) /\
  (exists self,
      AlignmentWithEstimation.run (SS := list_based) 0 1
        [Cells [[("A", 1 # 2); ("@", 1 # 2)]%string]] = Ok self /\
      AlignmentWithEstimation.alphabet self = Some "A@"%string /\
      In es (chars "A@")).
Proof.
  split.
  - eexists. split; [vm_compute; reflexivity|]. split; [reflexivity|]. split.
    + split; [discriminate|]. exists [("B"%string, 1)]. simpl. auto.
    + simpl. intuition discriminate.
  - eexists. split; [vm_compute; reflexivity|]. split; [reflexivity|].
    simpl. auto.
Qed.

(** * Further properties *)

(** ** Cell: the best label *)

Lemma leb_trans (x y z : string) :
  String.leb x y = true -> String.leb y z = true -> String.leb x z = true.
Proof.
  unfold String.leb. intros Hxy Hyz.
  destruct (String.compare x y) eqn:Exy; [| |discriminate].
  - apply String_as_OT.cmp_eq in Exy. subst y. exact Hyz.
  - destruct (String.compare y z) eqn:Eyz; [| |discriminate].
    + apply String_as_OT.cmp_eq in Eyz. subst z. now rewrite Exy.
    + apply String_as_OT.cmp_lt in Exy. apply String_as_OT.cmp_lt in Eyz.
      pose proof (String_as_OT.lt_trans _ _ _ Exy Eyz) as H.
      apply String_as_OT.cmp_lt in H. unfold String_as_OT.cmp in H. now rewrite H.
Qed.

Lemma insert_sorted_perm (kv : string * Q) (l : list (string * Q)) :
  Permutation (Cell.insert_sorted kv l) (kv :: l).
Proof.
  induction l as [|y l IH]; simpl; [reflexivity|].
  destruct (String.leb (fst kv) (fst y)); [reflexivity|].
  rewrite IH. apply perm_swap.
Qed.

Lemma sorted_items_perm (c : Cell.t) : Permutation (Cell.sorted_items c) c.
Proof.
  unfold Cell.sorted_items. induction c as [|kv c IH]; simpl; [reflexivity|].
  rewrite insert_sorted_perm. now constructor.
Qed.

Lemma insert_sorted_sorted (kv : string * Q) (l : list (string * Q)) :
  StronglySorted label_le l -> StronglySorted label_le (Cell.insert_sorted kv l).
Proof.
  induction 1 as [|y l Hl IH Hy]; simpl.
  - constructor; constructor.
  - destruct (String.leb (fst kv) (fst y)) eqn:E.
    + constructor; [now constructor|]. constructor; [exact E|].
      eapply Forall_impl; [|exact Hy]. intros z Hz. unfold label_le in *.
      now apply leb_trans with (fst y).
    + constructor; [exact IH|].
      apply Forall_forall. intros z Hz.
      apply (Permutation_in _ (insert_sorted_perm kv l)) in Hz.
      destruct Hz as [<-|Hz].
      * unfold label_le. destruct (String.leb_total (fst y) (fst kv)) as [H|H]; [exact H|].
        congruence.
      * rewrite Forall_forall in Hy. now apply Hy.
Qed.

Lemma sorted_items_sorted (c : Cell.t) : StronglySorted label_le (Cell.sorted_items c).
Proof.
  unfold Cell.sorted_items. induction c as [|kv c IH]; simpl; [constructor|].
  now apply insert_sorted_sorted.
Qed.

Lemma sorted_suffix {A : Type} (R : A -> A -> Prop) (l1 l2 : list A) :
  StronglySorted R (l1 ++ l2) -> StronglySorted R l2.
Proof.
  induction l1 as [|x l1 IH]; simpl; [trivial|].
  intro H. inversion H; subst. now apply IH.
Qed.

(** What the loop of [pick] leaves: the start, or the first of the items of
    greatest weight among those not skipped. *)
Lemma pick_fold (skip : string -> bool) (l : list (string * Q)) :
  forall (r0 : string) (b0 : Q),
    let st := fold_left (pick skip) l (r0, b0) in
    (st = (r0, b0) /\
     forall kv, In kv l -> skip (fst kv) = false -> snd kv <= b0) \/
    (exists l1 kv l2,
        l = (l1 ++ kv :: l2)%list /\ st = kv /\ skip (fst kv) = false /\
        b0 < snd kv /\
        (forall x, In x l1 -> skip (fst x) = false -> snd x < snd kv) /\
        (forall x, In x l2 -> skip (fst x) = false -> snd x <= snd kv)).
Proof.
  induction l as [|x l IH]; intros r0 b0; simpl.
  - left. split; [reflexivity|]. intros kv [].
  - destruct (skip (fst x)) eqn:Ex.
    + destruct (IH r0 b0) as [[E H]|(l1 & kv & l2 & El & E & Hs & Hb & H1 & H2)].
      * left. split; [exact E|]. intros kv [<-|Hin] Hk; [congruence|now apply H].
      * right. exists (x :: l1), kv, l2. subst l. repeat split; auto.
        intros y [<-|Hin] Hk; [congruence|now apply H1].
    + destruct (Qltb b0 (snd x)) eqn:Eb.
      * apply Qltb_lt in Eb.
        destruct (IH (fst x) (snd x)) as [[E H]|(l1 & kv & l2 & El & E & Hs & Hb & H1 & H2)].
        -- right. exists [], x, l. simpl. repeat split; auto.
           ++ rewrite E. now destruct x.
           ++ intros y [].
        -- right. exists (x :: l1), kv, l2. subst l. repeat split; auto.
           ++ now apply Qlt_trans with (snd x).
           ++ intros y [<-|Hin] Hk; [exact Hb|now apply H1].
      * apply Qltb_ge in Eb.
        destruct (IH r0 b0) as [[E H]|(l1 & kv & l2 & El & E & Hs & Hb & H1 & H2)].
        -- left. split; [exact E|]. intros kv [<-|Hin] Hk; [exact Eb|now apply H].
        -- right. exists (x :: l1), kv, l2. subst l. repeat split; auto.
           intros y [<-|Hin] Hk; [|now apply H1].
           now apply Qle_lt_trans with b0.
Qed.

Lemma best_key_pick (c : Cell.t) :
  Cell.best_key c = fst (fold_left (pick (fun _ => false)) (Cell.sorted_items c)
                                   (EmptyString, - (1))).
Proof.
  reflexivity.
Qed.

Lemma best_key_not_from_pick (c : Cell.t) (mask : string) :
  Cell.best_key_not_from c mask
  = fst (fold_left (pick (fun k => Cell.occurs_in k mask)) (Cell.sorted_items c)
                   (EmptyString, - (1))).
Proof.
  reflexivity.
Qed.

(** The label that the loop of [pick] returns on the sorted items of a
    Cell of the data model. *)
Lemma pick_sorted_items (skip : string -> bool) (c : Cell.t) :
  cell_ok c ->
  let r := fst (fold_left (pick skip) (Cell.sorted_items c) (EmptyString, - (1))) in
  ((forall k, In k (keys c) -> skip k = true) /\ r = EmptyString) \/
  (In r (keys c) /\ skip r = false /\
   forall k, In k (keys c) -> skip k = false ->
             weight_of c k <= weight_of c r /\
             (weight_of c k == weight_of c r -> String.leb r k = true)).
Proof.
  intros [Hnd Hpos] r. subst r.
  pose proof (sorted_items_perm c) as Hperm.
  pose proof (sorted_items_sorted c) as Hsort.
  assert (Hw : forall x, In x (Cell.sorted_items c) -> weight_of c (fst x) = snd x).
  { intros [k v] Hx. apply weight_of_item; [exact Hnd|].
    now apply (Permutation_in _ Hperm). }
  assert (Hk : forall k, In k (keys c) ->
                         exists x, In x (Cell.sorted_items c) /\ fst x = k).
  { intros k Hin. unfold keys in Hin. apply in_map_iff in Hin.
    destruct Hin as (x & E & Hx). exists x. split; [|exact E].
    now apply (Permutation_in _ (Permutation_sym Hperm)). }
  destruct (pick_fold skip (Cell.sorted_items c) EmptyString (- (1)))
    as [[E H]|(l1 & kv & l2 & El & E & Hs & Hb & H1 & H2)].
  - left. rewrite E. split; [|reflexivity].
    intros k Hin. destruct (skip k) eqn:Ek; [reflexivity|exfalso].
    destruct (Hk k Hin) as (x & Hx & <-).
    specialize (H x Hx Ek).
    assert (0 <= snd x).
    { destruct x as [k v]. apply (Hpos k v). now apply (Permutation_in _ Hperm). }
    simpl in *. lra.
  - right. rewrite E.
    assert (Hin : In kv (Cell.sorted_items c)).
    { rewrite El. apply in_or_app. right. now left. }
    split; [|split; [exact Hs|]].
    + unfold keys. apply in_map. now apply (Permutation_in _ Hperm).
    + intros k Hkin Hsk. destruct (Hk k Hkin) as (x & Hx & <-).
      rewrite (Hw x Hx), (Hw kv Hin).
      rewrite El in Hx. apply in_app_or in Hx.
      destruct Hx as [Hx|[<-|Hx]].
      * specialize (H1 x Hx Hsk). split; [lra|]. intro Heq. lra.
      * split; [lra|]. intros _.
        destruct (String.leb_total (fst kv) (fst kv)); assumption.
      * split; [now apply H2|]. intros _.
        rewrite El in Hsort. apply sorted_suffix in Hsort.
        inversion Hsort as [|? ? _ Hall]; subst.
        rewrite Forall_forall in Hall. now apply Hall.
Qed.

(** ** Cell: the distance over any list of labels *)

Ltac concrete_cell_ok :=
  split;
  [ repeat constructor; simpl; intuition discriminate
  | let k := fresh "k" in
    let v := fresh "v" in
    let H := fresh "H" in
    intros k v H; simpl in H;
    repeat (destruct H as [H|H]; [inversion H; subst; discriminate|]);
    contradiction ].

Lemma sumQ_over_superset (g : string -> Q) (U L : list string) :
  NoDup U -> NoDup L ->
  (forall k, In k U -> In k L) ->
  (forall k, ~ In k U -> g k == 0) ->
  sumQ (map g L) == sumQ (map g U).
Proof.
  intros HU HL Hsub Hz.
  set (rest := filter (fun k => if in_dec string_dec k U then false else true) L).
  assert (Hperm : Permutation L (U ++ rest)).
  { apply NoDup_Permutation; [exact HL| |].
    - apply NoDup_app; [exact HU|now apply NoDup_filter|].
      intros k Hk Hr. apply filter_In in Hr. destruct Hr as [_ Hr].
      now destruct (in_dec string_dec k U).
    - intro k. rewrite in_app_iff. unfold rest. rewrite filter_In.
      destruct (in_dec string_dec k U) as [Hin|Hout]; split; intro H; auto;
        destruct H as [H|[H _]]; auto; contradiction. }
  rewrite (sumQ_map_perm g _ _ Hperm), map_app, sumQ_app.
  assert (Hr : sumQ (map g rest) == 0).
  { apply sumQ_map_zero. intros k Hk. apply Hz. unfold rest in Hk.
    apply filter_In in Hk. destruct Hk as [_ Hk].
    now destruct (in_dec string_dec k U). }
  rewrite Hr. lra.
Qed.

Lemma taxicab_over (P R : Cell.t) (L : list string) :
  cell_ok P -> cell_ok R -> NoDup L ->
  (forall k, In k (keys P) \/ In k (keys R) -> In k L) ->
  taxicab P R == sumQ (map (fun k => Qabs (weight_of P k - weight_of R k)) L).
Proof.
  intros HP HR HL Hsub.
  rewrite (taxicab_union P R HP HR). symmetry.
  apply sumQ_over_superset.
  - apply NoDup_union_keys; [apply HP|apply HR].
  - exact HL.
  - intros k Hk. apply Hsub. now apply in_union_keys.
  - intros k Hk. destruct (weights_outside_union P R k Hk) as [-> ->]. reflexivity.
Qed.

(** A duplicate-free list of the labels of three Cells. *)
Lemma labels_of_three (P R S : Cell.t) :
  NoDup (keys P) -> NoDup (keys R) -> NoDup (keys S) ->
  exists L, NoDup L /\
            forall k, In k (keys P) \/ In k (keys R) \/ In k (keys S) -> In k L.
Proof.
  intros HP HR HS.
  set (X := map (fun k => (k, 0)) (union_keys P R) : Cell.t).
  assert (HX : keys X = union_keys P R).
  { unfold X, keys. rewrite map_map. simpl. apply map_id. }
  exists (union_keys X S). split.
  - apply NoDup_union_keys; [|exact HS]. rewrite HX. now apply NoDup_union_keys.
  - intros k Hk. apply in_union_keys. rewrite HX, in_union_keys. tauto.
Qed.

Lemma Qabs_triangle_diff (x y z : Q) : Qabs (x - z) <= Qabs (x - y) + Qabs (y - z).
Proof.
  setoid_replace (x - z) with ((x - y) + (y - z)) by ring.
  apply Qabs_triangle.
Qed.

Lemma taxicab_triangle (P R S : Cell.t) :
  cell_ok P -> cell_ok R -> cell_ok S ->
  taxicab P S <= taxicab P R + taxicab R S.
Proof.
  intros HP HR HS.
  destruct (labels_of_three P R S (proj1 HP) (proj1 HR) (proj1 HS)) as (L & HL & Hin).
  rewrite (taxicab_over P S L), (taxicab_over P R L), (taxicab_over R S L);
    try assumption; try (intros k Hk; apply Hin; tauto).
  rewrite <- sumQ_map_plus. apply sumQ_map_le. intros k _.
  apply Qabs_triangle_diff.
Qed.

(** The normalized Cell of a Cell of the data model. *)
Lemma scaled_distribution (c : Cell.t) :
  cell_ok c -> 0 < Cell.weight_sum c ->
  cell_ok (scale (Cell.weight_sum c) c) /\
  Cell.weight_sum (scale (Cell.weight_sum c) c) == 1.
Proof.
  intros Hc Hs. split; [now apply cell_ok_scale|].
  apply normalized_sum. lra.
Qed.

(** ** Cell: normalization and merging, case by case *)

Lemma normalized_cases (c : Cell.t) :
  (c = [] /\ Cell.normalized c = Ok []) \/
  (c <> [] /\ Cell.weight_sum c == 0 /\ Cell.normalized c = Raise ZeroDivisionError) \/
  (~ Cell.weight_sum c == 0 /\
   Cell.normalized c = Ok (scale (Cell.weight_sum c) c)).
Proof.
  unfold Cell.normalized, Cell.clone.
  destruct (Qeq_dec (Cell.weight_sum c) 0) as [E|E].
  - destruct c as [|kv c].
    + left. now split.
    + right. left. split; [discriminate|]. split; [exact E|].
      now apply normalize_zero.
  - right. right. split; [exact E|]. now apply normalize_nonzero.
Qed.

Lemma taxicab_nil_l (c : Cell.t) : taxicab [] c == Cell.weight_sum c.
Proof.
  unfold taxicab. simpl.
  rewrite (fold_left_acc _ snd); [|intros s x; reflexivity].
  rewrite weight_sum_items. lra.
Qed.

Lemma taxicab_nil_r (c : Cell.t) : taxicab c [] == Cell.weight_sum c.
Proof.
  unfold taxicab. simpl.
  rewrite (fold_left_acc _ snd); [|intros s x; reflexivity].
  rewrite weight_sum_items. lra.
Qed.

Lemma scale_one (c : Cell.t) k : weight_of (scale 1 c) k == weight_of c k.
Proof. rewrite weight_of_scale. field. Qed.

(** [merge_cells] on Cells of the data model: all that it returns. *)
Lemma merge_cells_valid (a b : Cell.t) (wa wb : Q) :
  cell_ok a -> cell_ok b ->
  0 < Cell.weight_sum a -> 0 < Cell.weight_sum b ->
  0 <= wa -> 0 <= wb -> 0 < wa + wb ->
  let na := scale (Cell.weight_sum a) a in
  let nb := scale (Cell.weight_sum b) b in
  exists r,
    merge_cells a b wa wb = Ok r /\
    cell_ok r /\ Cell.weight_sum r == 1 /\
    (forall k, In k (keys r) <-> In k (keys a) \/ In k (keys b)) /\
    (forall k, weight_of r k ==
               (wa * weight_of na k + wb * weight_of nb k) / (wa + wb)).
Proof.
  intros Ha Hb Hsa Hsb Hwa Hwb Hw na nb.
  assert (Hsa' : ~ Cell.weight_sum a == 0) by lra.
  assert (Hsb' : ~ Cell.weight_sum b == 0) by lra.
  assert (Hw' : ~ wa + wb == 0) by lra.
  destruct (merge_cells_weights a b wa wb (proj1 Ha) (proj1 Hb) Hsa' Hsb' Hw')
    as [r [Hrun [Hnd [Hkeys Hweights]]]].
  fold na in Hkeys, Hweights. fold nb in Hkeys, Hweights.
  assert (Hna : cell_ok na) by now apply cell_ok_scale.
  assert (Hnb : cell_ok nb) by now apply cell_ok_scale.
  exists r. split; [exact Hrun|].
  split; [|split; [|split; [|exact Hweights]]].
  - split; [exact Hnd|]. intros k v Hin.
    rewrite <- (weight_of_item r k v Hnd Hin), Hweights.
    pose proof (weight_of_nonneg na Hna k). pose proof (weight_of_nonneg nb Hnb k).
    apply Qle_shift_div_l; [exact Hw | nra].
  - apply (merge_cells_sum na nb r wa wb); try assumption;
      try apply Hna; try apply Hnb; now apply normalized_sum.
  - intro k. rewrite Hkeys, in_union_keys. unfold na, nb. now rewrite !keys_scale.
Qed.

(** ** The generalized Levenshtein distance: bounds and symmetry *)

Lemma py_min_Qmin (a b : Q) : py_min a b == Qmin a b.
Proof.
  unfold py_min. destruct (Qltb b a) eqn:E.
  - apply Qltb_lt in E. symmetry. apply Q.min_r. lra.
  - apply Qltb_ge in E. symmetry. now apply Q.min_l.
Qed.

Lemma py_min3_Qmin (a b c : Q) : py_min3 a b c == Qmin (Qmin a b) c.
Proof.
  unfold py_min3. rewrite py_min_Qmin.
  apply Q.min_compat; [apply py_min_Qmin | reflexivity].
Qed.

Lemma py_min3_le (a b c : Q) :
  py_min3 a b c <= a /\ py_min3 a b c <= b /\ py_min3 a b c <= c.
Proof.
  rewrite py_min3_Qmin. repeat split.
  - eapply Qle_trans; [apply Q.le_min_l|apply Q.le_min_l].
  - eapply Qle_trans; [apply Q.le_min_l|apply Q.le_min_r].
  - apply Q.le_min_r.
Qed.

Lemma py_min3_glb (m a b c : Q) : m <= a -> m <= b -> m <= c -> m <= py_min3 a b c.
Proof.
  intros. rewrite py_min3_Qmin. apply Q.min_glb; [apply Q.min_glb|]; assumption.
Qed.

Lemma py_min3_swap (a b c a' b' c' : Q) :
  a == b' -> b == a' -> c == c' -> py_min3 a b c == py_min3 a' b' c'.
Proof.
  intros Ha Hb Hc. rewrite !py_min3_Qmin, Ha, Hb, Hc.
  apply Q.min_compat; [apply Q.min_comm | reflexivity].
Qed.

Lemma distribution_ec : distribution ec.
Proof. split; [concrete_cell_ok | reflexivity]. Qed.

Lemma distribution_normalizable (c : Cell.t) : distribution c -> normalizable c.
Proof. intros [_ H]. unfold normalizable. lra. Qed.

Lemma dist_range (a b : Cell.t) : distribution a -> distribution b -> 0 <= dist a b <= 1.
Proof.
  intros [Ha Hsa] [Hb Hsb]. unfold dist.
  destruct (scaled_distribution a Ha Hsa) as [Hna Hna1].
  destruct (scaled_distribution b Hb Hsb) as [Hnb Hnb1].
  pose proof (taxicab_range _ _ Hna Hnb Hna1 Hnb1) as [H0 H2].
  split.
  - apply Qle_shift_div_l; [reflexivity|]. lra.
  - apply Qle_shift_div_r; [reflexivity|]. lra.
Qed.

Lemma dist_sym (a b : Cell.t) : distribution a -> distribution b -> dist a b == dist b a.
Proof.
  intros [Ha Hsa] [Hb Hsb]. unfold dist.
  destruct (scaled_distribution a Ha Hsa) as [Hna Hna1].
  destruct (scaled_distribution b Hb Hsb) as [Hnb Hnb1].
  now rewrite (taxicab_sym _ _ Hna Hnb).
Qed.

Lemma dist_same (a : Cell.t) : distribution a -> dist a a == 0.
Proof.
  intros [Ha Hsa]. unfold dist.
  destruct (scaled_distribution a Ha Hsa) as [Hna Hna1].
  assert (E : taxicab (scale (Cell.weight_sum a) a) (scale (Cell.weight_sum a) a) == 0).
  { apply (taxicab_zero _ _ Hna Hna). intro k. reflexivity. }
  rewrite E. reflexivity.
Qed.

Lemma nth_distribution (l : list Cell.t) (i : nat) :
  Forall distribution l -> (i < List.length l)%nat -> distribution (nth i l []).
Proof.
  intros H Hi. rewrite Forall_forall in H. apply H. now apply nth_In.
Qed.

Section GldFacts.
Variables base s : list Cell.t.
Hypothesis Hbase : Forall distribution base.
Hypothesis Hs : Forall distribution s.

Lemma gld_0S (j : nat) : gld base s 0 (S j) = ins s j + gld base s 0 j.
Proof. reflexivity. Qed.

Lemma gld_S0 (i : nat) : gld base s (S i) 0 = del base i + gld base s i 0.
Proof. reflexivity. Qed.

Lemma gld_SS (i j : nat) :
  gld base s (S i) (S j)
  = py_min3 (del base i + gld base s i (S j))
            (ins s j + gld base s (S i) j)
            (sub base s i j + gld base s i j).
Proof. reflexivity. Qed.

Lemma del_range (i : nat) : (i < List.length base)%nat -> 0 <= del base i <= 1.
Proof.
  intro H. apply dist_range; [now apply nth_distribution | apply distribution_ec].
Qed.

Lemma ins_range (j : nat) : (j < List.length s)%nat -> 0 <= ins s j <= 1.
Proof.
  intro H. apply dist_range; [now apply nth_distribution | apply distribution_ec].
Qed.

Lemma sub_range (i j : nat) :
  (i < List.length base)%nat -> (j < List.length s)%nat -> 0 <= sub base s i j <= 1.
Proof.
  intros Hi Hj. apply dist_range; now apply nth_distribution.
Qed.

Lemma gld_bounds (i : nat) :
  forall j, (i <= List.length base)%nat -> (j <= List.length s)%nat ->
            0 <= gld base s i j <= inject_Z (Z.of_nat (i + j)).
Proof.
  induction i as [|i IHi]; induction j as [|j IHj]; intros Hi Hj.
  - simpl. split; apply Qle_refl.
  - rewrite gld_0S. destruct (ins_range j ltac:(lia)) as [? ?].
    destruct (IHj Hi ltac:(lia)) as [? ?].
    replace (Z.of_nat (0 + S j)) with (Z.of_nat (0 + j) + 1)%Z by lia.
    rewrite inject_Z_plus. split; [lra|]. change (inject_Z 1) with 1. lra.
  - rewrite gld_S0. destruct (del_range i ltac:(lia)) as [? ?].
    destruct (IHi 0%nat ltac:(lia) Hj) as [? ?].
    replace (Z.of_nat (S i + 0)) with (Z.of_nat (i + 0) + 1)%Z by lia.
    rewrite inject_Z_plus. split; [lra|]. change (inject_Z 1) with 1. lra.
  - rewrite gld_SS.
    destruct (del_range i ltac:(lia)) as [? ?].
    destruct (ins_range j ltac:(lia)) as [? ?].
    destruct (sub_range i j ltac:(lia) ltac:(lia)) as [? ?].
    destruct (IHi (S j) ltac:(lia) Hj) as [? ?].
    destruct (IHi j ltac:(lia) ltac:(lia)) as [? ?].
    destruct (IHj Hi ltac:(lia)) as [? ?].
    split.
    + apply py_min3_glb; lra.
    + eapply Qle_trans; [exact (proj1 (py_min3_le _ _ _))|].
      replace (Z.of_nat (S i + S j)) with (Z.of_nat (i + S j) + 1)%Z by lia.
      rewrite inject_Z_plus. change (inject_Z 1) with 1. lra.
Qed.

End GldFacts.

Lemma gld_sym (base s : list Cell.t) :
  Forall distribution base -> Forall distribution s ->
  forall i j, (i <= List.length base)%nat -> (j <= List.length s)%nat ->
              gld base s i j == gld s base j i.
Proof.
  intros Hbase Hs.
  induction i as [|i IHi]; induction j as [|j IHj]; intros Hi Hj.
  - reflexivity.
  - rewrite gld_0S, gld_S0. rewrite (IHj Hi ltac:(lia)). reflexivity.
  - rewrite gld_S0, gld_0S. rewrite (IHi 0%nat ltac:(lia) Hj). reflexivity.
  - rewrite !gld_SS. apply py_min3_swap.
    + rewrite (IHi (S j) ltac:(lia) Hj). reflexivity.
    + rewrite (IHj Hi ltac:(lia)). reflexivity.
    + rewrite (IHi j ltac:(lia) ltac:(lia)). unfold sub.
      rewrite (dist_sym (nth i base []) (nth j s []));
        [reflexivity | apply nth_distribution | apply nth_distribution]; auto; lia.
Qed.

Lemma gld_same (a : list Cell.t) :
  Forall distribution a ->
  forall i, (i <= List.length a)%nat -> gld a a i i == 0.
Proof.
  intros Ha. induction i as [|i IHi]; intro Hi; [reflexivity|].
  apply Qle_antisym.
  - rewrite gld_SS. eapply Qle_trans; [exact (proj2 (proj2 (py_min3_le _ _ _)))|].
    rewrite (IHi ltac:(lia)). unfold sub.
    rewrite dist_same by (apply nth_distribution; auto; lia). apply Qle_refl.
  - apply (gld_bounds a a Ha Ha); lia.
Qed.

(** [levmetric_ocr] on two sequences of distributions, not both empty. *)
Lemma levmetric_ocr_value (s1 s2 : list Cell.t) :
  Forall distribution s1 -> Forall distribution s2 ->
  (s1 <> [] \/ s2 <> []) ->
  let g := gld s1 s2 (List.length s1) (List.length s2) in
  let n := inject_Z (len s1) + inject_Z (len s2) in
  0 <= g <= n /\ 1 <= n /\
  levmetric_ocr s1 s2 = Ok (2 * g / (n + g)).
Proof.
  intros H1 H2 Hne g n.
  assert (Hg : 0 <= g <= n).
  { unfold n. rewrite <- inject_Z_plus. unfold len. rewrite <- Nat2Z.inj_add.
    apply (gld_bounds s1 s2 H1 H2); lia. }
  assert (Hlen : 1 <= n).
  { unfold n. rewrite <- inject_Z_plus. change 1 with (inject_Z 1). rewrite <- Zle_Qle.
    clear Hg. unfold len.
    destruct Hne as [H|H]; [destruct s1|destruct s2]; try congruence;
      cbn [List.length]; lia. }
  split; [exact Hg|]. split; [exact Hlen|].
  rewrite levmetric_ocr_spec;
    [ | eapply Forall_impl; [apply distribution_normalizable|assumption]
      | eapply Forall_impl; [apply distribution_normalizable|assumption]
      | exact Hne ].
  unfold gldZ, len. rewrite !Nat2Z.id. fold g. fold (len s1). fold (len s2). fold n.
  apply py_div_ok. lra.
Qed.

Ltac concrete_distributions :=
  repeat (apply Forall_cons; [split; [concrete_cell_ok | reflexivity]|]);
  apply Forall_nil.

(** ** The Levenshtein distance: symmetry, bounds, zero *)

Section EditMore.
Variables a b : list string.

Lemma edit_0 (j : nat) : edit a b 0 j = Z.of_nat j.
Proof. reflexivity. Qed.

Lemma edit_S0 (i : nat) : edit a b (S i) 0 = Z.of_nat (S i).
Proof. reflexivity. Qed.

Lemma edit_SS (i j : nat) :
  edit a b (S i) (S j)
  = Z.min (Z.min (edit a b i (S j) + 1) (edit a b (S i) j + 1))
          (edit a b i j + subst_cost a b i j).
Proof. reflexivity. Qed.

Lemma subst_cost_range (i j : nat) : (0 <= subst_cost a b i j <= 1)%Z.
Proof. unfold subst_cost. destruct (String.eqb _ _); lia. Qed.

Lemma edit_bounds (i : nat) :
  forall j, (Z.abs (Z.of_nat i - Z.of_nat j) <= edit a b i j
             <= Z.max (Z.of_nat i) (Z.of_nat j))%Z.
Proof.
  induction i as [|i IHi]; induction j as [|j IHj].
  - simpl. lia.
  - cbn [edit]. lia.
  - cbn [edit]. lia.
  - rewrite edit_SS.
    pose proof (IHi (S j)). pose proof (IHi j). pose proof (subst_cost_range i j).
    lia.
Qed.

End EditMore.

Lemma subst_cost_sym (a b : list string) (i j : nat) :
  subst_cost a b i j = subst_cost b a j i.
Proof. unfold subst_cost. now rewrite String.eqb_sym. Qed.

Lemma edit_sym (a b : list string) (i : nat) :
  forall j, edit a b i j = edit b a j i.
Proof.
  induction i as [|i IHi]; induction j as [|j IHj].
  - reflexivity.
  - reflexivity.
  - reflexivity.
  - rewrite !edit_SS, IHj, (IHi (S j)), (IHi j), (subst_cost_sym a b). lia.
Qed.

Lemma firstn_snoc {A : Type} (d : A) (l : list A) (i : nat) :
  (i < List.length l)%nat -> firstn (S i) l = (firstn i l ++ [nth i l d])%list.
Proof.
  revert i. induction l as [|x l IH]; intros i Hi; simpl in Hi; [lia|].
  destruct i as [|i]; [reflexivity|].
  change (x :: firstn (S i) l = x :: (firstn i l ++ [nth i l d])%list).
  f_equal. apply IH. lia.
Qed.

(** A distance of zero between two prefixes: the prefixes are equal. *)
Lemma edit_zero (a b : list string) (i : nat) :
  forall j, (i <= List.length a)%nat -> (j <= List.length b)%nat ->
            edit a b i j = 0%Z -> i = j /\ firstn i a = firstn j b.
Proof.
  induction i as [|i IHi]; intros j Hi Hj Hz.
  - pose proof (edit_bounds a b 0 j). assert (j = 0%nat) by lia. subst j. now split.
  - pose proof (edit_bounds a b (S i) j) as Hb.
    assert (j = S i) by lia. subst j. split; [reflexivity|].
    rewrite edit_SS in Hz.
    pose proof (edit_bounds a b i (S i)). pose proof (edit_bounds a b (S i) i).
    pose proof (edit_bounds a b i i). pose proof (subst_cost_range a b i i).
    assert (Hd : edit a b i i = 0%Z) by lia.
    assert (Hc : subst_cost a b i i = 0%Z) by lia.
    destruct (IHi i ltac:(lia) ltac:(lia) Hd) as [_ Hpre].
    rewrite (firstn_snoc EmptyString a i) by lia.
    rewrite (firstn_snoc EmptyString b i) by lia.
    rewrite Hpre. f_equal. f_equal.
    unfold subst_cost in Hc.
    destruct (String.eqb_spec (nth i a EmptyString) (nth i b EmptyString)); [assumption|lia].
Qed.

Lemma edit_same (a : list string) (i : nat) : edit a a i i = 0%Z.
Proof.
  induction i as [|i IHi]; [reflexivity|].
  rewrite edit_SS. pose proof (edit_bounds a a i (S i)). pose proof (edit_bounds a a (S i) i).
  unfold subst_cost. rewrite String.eqb_refl. lia.
Qed.

Lemma edit_distance_zero (a b : list string) : edit_distance a b = 0%Z <-> a = b.
Proof.
  unfold edit_distance. split.
  - intro H. destruct (edit_zero a b _ _ (Nat.le_refl _) (Nat.le_refl _) H) as [Hl Hf].
    rewrite !firstn_all in Hf. exact Hf.
  - intros ->. apply edit_same.
Qed.

(** ** Strings and their characters *)

Lemma length_chars (s : string) : List.length (chars s) = String.length s.
Proof.
  unfold chars. rewrite length_map. induction s as [|c s IH]; simpl; congruence.
Qed.

Lemma chars_injective (s t : string) : chars s = chars t -> s = t.
Proof.
  revert t. induction s as [|c s IH]; intros [|d t]; simpl; try discriminate.
  - reflexivity.
  - unfold chars. simpl. intro H. inversion H. f_equal. now apply IH.
Qed.

Lemma length_upper (s : string) : String.length (upper s) = String.length s.
Proof. induction s as [|c s IH]; simpl; congruence. Qed.

Lemma length_replace (old new : ascii) (s : string) :
  String.length (replace old new s) = String.length s.
Proof. induction s as [|c s IH]; simpl; congruence. Qed.

Lemma length_normalize_string (s : string) :
  String.length (normalize_string s) = String.length s.
Proof. unfold normalize_string. now rewrite length_replace, length_upper. Qed.

Lemma normalize_string_cons (c : ascii) (s : string) :
  normalize_string (String c s) = String (normalize_char c) (normalize_string s).
Proof. reflexivity. Qed.

Lemma upper_char_cases (c : ascii) :
  (lower_case c /\ nat_of_ascii (upper_char c) = (nat_of_ascii c - 32)%nat) \/
  (~ lower_case c /\ upper_char c = c).
Proof.
  unfold upper_char, lower_case.
  destruct ((97 <=? nat_of_ascii c) && (nat_of_ascii c <=? 122))%nat eqn:E.
  - apply andb_true_iff in E. destruct E as [E1 E2].
    apply Nat.leb_le in E1. apply Nat.leb_le in E2.
    left. split; [lia|]. apply nat_ascii_embedding. lia.
  - right. split; [|reflexivity]. apply andb_false_iff in E.
    destruct E as [E|E]; apply Nat.leb_gt in E; lia.
Qed.

Lemma upper_char_not_lower (c : ascii) : ~ lower_case (upper_char c).
Proof.
  destruct (upper_char_cases c) as [[Hl E]|[Hl E]].
  - unfold lower_case in *. lia.
  - now rewrite E.
Qed.

Lemma normalize_char_fixed (c : ascii) :
  ~ lower_case (normalize_char c) /\ normalize_char c <> "O"%char /\
  normalize_char (normalize_char c) = normalize_char c.
Proof.
  assert (H1 : ~ lower_case (normalize_char c)).
  { unfold normalize_char. destruct (Ascii.eqb_spec (upper_char c) "O").
    - unfold lower_case. change (nat_of_ascii "0") with 48%nat. lia.
    - apply upper_char_not_lower. }
  assert (H2 : normalize_char c <> "O"%char).
  { unfold normalize_char. destruct (Ascii.eqb_spec (upper_char c) "O"); [discriminate|assumption]. }
  repeat split; [exact H1|exact H2|].
  unfold normalize_char at 1.
  destruct (upper_char_cases (normalize_char c)) as [[Hl _]|[_ E]]; [contradiction|].
  rewrite E. destruct (Ascii.eqb_spec (normalize_char c) "O"); [contradiction|reflexivity].
Qed.

Lemma normalize_char_ascii (c : ascii) :
  (nat_of_ascii c < 128)%nat -> (nat_of_ascii (normalize_char c) < 128)%nat.
Proof.
  intro H. unfold normalize_char.
  destruct (Ascii.eqb (upper_char c) "O").
  - change (nat_of_ascii "0") with 48%nat. lia.
  - destruct (upper_char_cases c) as [[_ E]|[_ E]]; rewrite E; lia.
Qed.

Lemma normalize_string_chars (s : string) :
  list_ascii_of_string (normalize_string s)
  = map normalize_char (list_ascii_of_string s).
Proof.
  induction s as [|c s IH]; [reflexivity|].
  rewrite normalize_string_cons. simpl. now rewrite IH.
Qed.

Lemma normalize_string_idem (s : string) :
  normalize_string (normalize_string s) = normalize_string s.
Proof.
  induction s as [|c s IH]; [reflexivity|].
  rewrite !normalize_string_cons, IH.
  now rewrite (proj2 (proj2 (normalize_char_fixed c))).
Qed.

(** [levenshtein] and [d_levenshtein] as the distance of the recurrence. *)
Lemma d_levenshtein_value (a b : string) :
  d_levenshtein a b
  = Ok (1 * inject_Z (edit_distance (chars (normalize_string a))
                                    (chars (normalize_string b)))).
Proof. unfold d_levenshtein. now rewrite levenshtein_spec. Qed.

Lemma edit_distance_bounds (a b : list string) :
  (Z.abs (len a - len b) <= edit_distance a b <= Z.max (len a) (len b))%Z.
Proof. apply edit_bounds. Qed.

Lemma levmetric_value (a b : string) :
  a <> EmptyString \/ b <> EmptyString ->
  let n := inject_Z (Z.of_nat (String.length a)) + inject_Z (Z.of_nat (String.length b)) in
  let l := inject_Z (edit_distance (chars (normalize_string a))
                                   (chars (normalize_string b))) in
  0 <= l <= n /\ 1 <= n /\ levmetric a b = Ok (2 * (1 * l) / (n + 1 * l)).
Proof.
  intros Hne n l.
  pose proof (edit_distance_bounds (chars (normalize_string a))
                                   (chars (normalize_string b))) as Hb.
  unfold len in Hb. rewrite !length_chars, !length_normalize_string in Hb.
  assert (Hn : 1 <= n).
  { unfold n. rewrite <- inject_Z_plus. change 1 with (inject_Z 1). rewrite <- Zle_Qle.
    destruct Hne as [H|H]; [destruct a|destruct b]; try congruence; cbn [String.length]; lia. }
  assert (Hl : 0 <= l <= n).
  { unfold l, n. rewrite <- inject_Z_plus. change 0 with (inject_Z 0).
    rewrite <- !Zle_Qle. lia. }
  split; [exact Hl|]. split; [exact Hn|].
  unfold levmetric.
  replace ((Z.of_nat (String.length a) =? 0) && (Z.of_nat (String.length b) =? 0))%Z
    with false.
  - rewrite d_levenshtein_value. simpl bind. fold l. fold n. apply py_div_ok. lra.
  - symmetry. apply andb_false_iff.
    destruct Hne as [H|H]; [left; destruct a|right; destruct b]; try congruence;
      apply Z.eqb_neq; cbn [String.length]; lia.
Qed.

Lemma string_empty_cases (a b : string) :
  (a = EmptyString /\ b = EmptyString) \/ (a <> EmptyString \/ b <> EmptyString).
Proof.
  destruct a; [destruct b|]; [now left| |]; right; [right|left]; discriminate.
Qed.

Lemma normalize_string_empty (s : string) :
  normalize_string s = EmptyString <-> s = EmptyString.
Proof. destruct s; split; intro H; try reflexivity; discriminate. Qed.

(** [levmetric_ocr] on certain Cells, none of the empty character label. *)
Lemma levmetric_ocr_certain_value (a b : list string) :
  ~ In es a -> ~ In es b ->
  exists v,
    levmetric_ocr (map certain a) (map certain b) = Ok v /\
    v == normalized_levenshtein a b.
Proof.
  intros Ha Hb.
  assert (Hla : len (map certain a) = len a) by (unfold len; now rewrite length_map).
  assert (Hlb : len (map certain b) = len b) by (unfold len; now rewrite length_map).
  unfold normalized_levenshtein.
  destruct ((len a =? 0) && (len b =? 0))%Z eqn:Eempty.
  - exists 0. unfold levmetric_ocr. rewrite Hla, Hlb, Eempty. now split.
  - assert (Hpos : (1 <= len a + len b)%Z).
    { apply andb_false_iff in Eempty. unfold len in *.
      destruct Eempty as [E|E]; apply Z.eqb_neq in E; lia. }
    rewrite levmetric_ocr_spec.
    + rewrite Hla, Hlb.
      set (G := gldZ (map certain a) (map certain b) (len a) (len b)).
      assert (HG : G == inject_Z (edit_distance a b)).
      { unfold G, gldZ, edit_distance, len. rewrite !Nat2Z.id.
        apply gld_certain; auto. }
      pose proof (edit_nonneg a b (List.length a) (List.length b)) as Hnn.
      fold (edit_distance a b) in Hnn.
      assert (Hden : ~ inject_Z (len a) + inject_Z (len b) + G == 0).
      { rewrite HG, <- !inject_Z_plus. change 0 with (inject_Z 0).
        rewrite inject_Z_injective. lia. }
      rewrite py_div_ok by exact Hden.
      eexists. split; [reflexivity|]. now rewrite HG.
    + apply Forall_forall. intros c Hc. apply in_map_iff in Hc.
      destruct Hc as [k [<- _]]. apply normalizable_certain.
    + apply Forall_forall. intros c Hc. apply in_map_iff in Hc.
      destruct Hc as [k [<- _]]. apply normalizable_certain.
    + apply andb_false_iff in Eempty. unfold len in Eempty.
      destruct Eempty as [E|E]; apply Z.eqb_neq in E; [left | right];
        intro H0; apply map_eq_nil in H0; subst; simpl in E; lia.
Qed.

Lemma in_chars (c : ascii) (s : string) :
  In (String c EmptyString) (chars s) <-> In c (list_ascii_of_string s).
Proof.
  unfold chars. rewrite in_map_iff. split.
  - intros (d & E & H). inversion E. now subst.
  - intro H. now exists c.
Qed.

Lemma normalize_char_at (c : ascii) : normalize_char c = "@"%char -> c = "@"%char.
Proof.
  unfold normalize_char. destruct (Ascii.eqb (upper_char c) "O"); [discriminate|].
  intro H. destruct (upper_char_cases c) as [[Hl E]|[_ E]].
  - rewrite H in E. change (nat_of_ascii "@") with 64%nat in E.
    unfold lower_case in Hl. lia.
  - congruence.
Qed.

Lemma no_gap_normalize_string (s : string) :
  ~ In es (chars s) -> ~ In es (chars (normalize_string s)).
Proof.
  unfold es. rewrite !in_chars, normalize_string_chars, in_map_iff.
  intros H (c & E & Hc). apply normalize_char_at in E. now subst.
Qed.

(** ** The Levenshtein distance: the triangle inequality *)

Lemma subst_cost_triangle (a b c : list string) (i j k : nat) :
  (subst_cost a c i k <= subst_cost a b i j + subst_cost b c j k)%Z.
Proof.
  unfold subst_cost.
  destruct (String.eqb_spec (nth i a EmptyString) (nth k c EmptyString));
    destruct (String.eqb_spec (nth i a EmptyString) (nth j b EmptyString));
    destruct (String.eqb_spec (nth j b EmptyString) (nth k c EmptyString));
    try lia; congruence.
Qed.

Lemma edit_triangle (a b c : list string) (n : nat) :
  forall i j k, (i + j + k <= n)%nat ->
                (edit a c i k <= edit a b i j + edit b c j k)%Z.
Proof.
  induction n as [|n IH]; intros i j k Hn.
  - assert (i = 0%nat) by lia. assert (j = 0%nat) by lia. assert (k = 0%nat) by lia.
    subst. simpl. lia.
  - destruct i as [|i].
    { pose proof (edit_bounds b c j k).
      change (edit a c 0 k) with (Z.of_nat k). change (edit a b 0 j) with (Z.of_nat j).
      lia. }
    destruct k as [|k].
    { pose proof (edit_bounds a b (S i) j). rewrite (edit_col0 a c), (edit_col0 b c). lia. }
    destruct j as [|j].
    { pose proof (edit_bounds a c (S i) (S k)). rewrite (edit_col0 a b).
      change (edit b c 0 (S k)) with (Z.of_nat (S k)). lia. }
    pose proof (IH i (S j) (S k) ltac:(lia)).
    pose proof (IH (S i) (S j) k ltac:(lia)).
    pose proof (IH (S i) j (S k) ltac:(lia)).
    pose proof (IH (S i) j k ltac:(lia)).
    pose proof (IH i j (S k) ltac:(lia)).
    pose proof (IH i j k ltac:(lia)).
    pose proof (subst_cost_triangle a b c i j k).
    pose proof (subst_cost_range a b i j). pose proof (subst_cost_range b c j k).
    pose proof (edit_SS a c i k). pose proof (edit_SS a b i j).
    pose proof (edit_SS b c j k).
    lia.
Qed.

(** ** Treap: [join] *)

Lemma NoDup_app_inv {A : Type} (l1 l2 : list A) :
  NoDup (l1 ++ l2) ->
  NoDup l1 /\ NoDup l2 /\ (forall x, In x l1 -> ~ In x l2).
Proof.
  intro H. split; [now apply NoDup_app_remove_r in H|].
  split; [now apply NoDup_app_remove_l in H|].
  induction l1 as [|y l1 IH]; [contradiction|].
  simpl in H. inversion H as [|? ? Hy Hnd]; subst.
  intros x [->|Hx]; [intro; apply Hy, in_or_app; now right | now apply IH].
Qed.

Lemma join_spec (n : nat) :
  forall (tl tr : tree) (fuel : nat) (nodes : list Treap.TreapNode),
    (size tl + size tr <= n)%nat ->
    shaped nodes tl -> shaped nodes tr -> NoDup (idxs tl ++ idxs tr) ->
    (n < fuel)%nat ->
    exists nodes' t,
      Treap.join fuel nodes (root_of tl) (root_of tr) = Ok (nodes', root_of t) /\
      shaped nodes' t /\
      elems t = (elems tl ++ elems tr)%list /\
      Permutation (idxs t) (idxs tl ++ idxs tr) /\
      List.length nodes' = List.length nodes /\
      (forall j, ~ In j (idxs tl ++ idxs tr) -> nth_error nodes' j = nth_error nodes j).
Proof.
  induction n as [|n IH]; intros tl tr fuel nodes Hsize Hsl Hsr Hnd Hfuel;
    (destruct fuel as [|fuel]; [lia|]).
  - destruct tl; [|simpl in Hsize; lia]. destruct tr; [|simpl in Hsize; lia].
    exists nodes, Leaf. simpl. repeat split; auto.
  - destruct tl as [|ll i e lr].
    { exists nodes, tr. cbn [Treap.join root_of]. simpl orb. cbv iota.
      simpl. repeat split; auto. }
    destruct tr as [|rl k e' rr].
    { exists nodes, (Node ll i e lr). cbn [Treap.join root_of].
      destruct (Z.eqb_spec (Z.of_nat i) (-1)) as [|_]; [lia|].
      simpl. rewrite !app_nil_r. repeat split; auto. }
    pose proof Hsl as Hsl0. pose proof Hsr as Hsr0.
    simpl in Hsl. destruct Hsl as [ndl [Hi [He [Hll [Hlr [_ [_ [Hsll Hslr]]]]]]]].
    simpl in Hsr. destruct Hsr as [ndr [Hk [He' [Hrl [Hrr [_ [_ [Hsrl Hsrr]]]]]]]].
    destruct (NoDup_app_inv _ _ Hnd) as [Hndl [Hndr Hdis]].
    simpl in Hndl, Hndr, Hdis, Hsize.
    destruct (NoDup_middle _ _ _ Hndl) as [Hndll [Hndlr [Hill [Hilr Hdisl]]]].
    destruct (NoDup_middle _ _ _ Hndr) as [Hndrl [Hndrr [Hkrl [Hkrr Hdisr]]]].
    assert (Hilt : (i < List.length nodes)%nat) by (apply nth_error_Some; congruence).
    assert (Hklt : (k < List.length nodes)%nat) by (apply nth_error_Some; congruence).
    assert (Hik : i <> k).
    { intro E. subst k. apply (Hdis i).
      - apply in_or_app. right. now left.
      - apply in_or_app. right. now left. }
    cbn [Treap.join root_of].
    destruct (Z.eqb_spec (Z.of_nat i) (-1)) as [|_]; [lia|].
    destruct (Z.eqb_spec (Z.of_nat k) (-1)) as [|_]; [lia|].
    cbn [orb].
    rewrite (py_get_at nodes _ i ndl (py_index_nat nodes i Hilt) Hi), bind_ok.
    rewrite (py_get_at nodes _ k ndr (py_index_nat nodes k Hklt) Hk), bind_ok.
    destruct (Treap.weight ndr <? Treap.weight ndl)%Z.
    + (* the left root stays the root, its right subtree is joined with [tr] *)
      assert (Hnd1 : NoDup (idxs lr ++ idxs (Node rl k e' rr))).
      { apply NoDup_app; [assumption|assumption|].
        intros x Hx. apply Hdis. apply in_or_app. right. now right. }
      destruct (IH lr (Node rl k e' rr) fuel nodes ltac:(simpl; lia) Hslr Hsr0 Hnd1
                  ltac:(lia))
        as (n1 & t1 & Hrun & Hs1 & Hel & Hperm & Hlen & Hframe).
      rewrite Hlr. change (Z.of_nat k) with (root_of (Node rl k e' rr)).
      rewrite Hrun, bind_ok. cbv beta iota zeta.
      assert (Hi_out : ~ In i (idxs lr ++ idxs (Node rl k e' rr))).
      { intro Hx. apply in_app_or in Hx. destruct Hx as [Hx|Hx]; [contradiction|].
        apply (Hdis i); [apply in_or_app; right; now left | exact Hx]. }
      assert (Hi1 : nth_error n1 i = Some ndl) by (rewrite Hframe; assumption).
      assert (Hz1 : py_index n1 (Z.of_nat i) = Ok i) by (apply py_index_nat; lia).
      rewrite (modify_at n1 _ i ndl _ Hz1 Hi1), bind_ok.
      set (n2 := list_set n1 i (Treap.set_right (root_of t1) ndl)).
      assert (Hn2 : forall j, j <> i -> nth_error n2 j = nth_error n1 j)
        by (intros j Hj; apply nth_error_list_set_other; congruence).
      assert (Hit1 : ~ In i (idxs t1)).
      { intro Hx. apply Hi_out. now apply (Permutation_in _ Hperm). }
      assert (Hll_out : forall j, In j (idxs ll) ->
                                  ~ In j (idxs lr ++ idxs (Node rl k e' rr))).
      { intros j Hj Hx. apply in_app_or in Hx. destruct Hx as [Hx|Hx].
        - now apply (Hdisl j).
        - apply (Hdis j); [apply in_or_app; now left | exact Hx]. }
      destruct (update_subtree_node n2 (Z.of_nat i) i
                  (Treap.set_right (root_of t1) ndl) ll t1)
        as [nd' [Hup Hs3]].
      * unfold n2. rewrite py_index_list_set. exact Hz1.
      * unfold n2. apply nth_error_list_set_same. lia.
      * exact Hll.
      * reflexivity.
      * apply shaped_frame with (nodes := nodes); [assumption|].
        intros j Hj. rewrite Hn2 by congruence. apply Hframe. now apply Hll_out.
      * apply shaped_frame with (nodes := n1); [assumption|].
        intros j Hj. apply Hn2. congruence.
      * exact Hill.
      * exact Hit1.
      * change (Treap.element (Treap.set_right (root_of t1) ndl))
          with (Treap.element ndl) in Hs3. rewrite He in Hs3.
        rewrite Hup, bind_ok.
        exists (list_set n2 i nd'), (Node ll i e t1).
        split; [reflexivity|]. split; [exact Hs3|].
        split; [simpl; rewrite Hel, <- app_assoc; reflexivity|].
        split.
        { simpl. rewrite <- app_assoc. simpl. apply Permutation_app_head.
          now constructor. }
        split; [unfold n2; now rewrite !length_list_set|].
        intros j Hj.
        assert (j <> i).
        { intro E. subst j. apply Hj. apply in_or_app. left. simpl.
          apply in_or_app. right. now left. }
        rewrite nth_error_list_set_other by congruence.
        rewrite Hn2 by assumption. apply Hframe.
        intro Hx. apply Hj. simpl. rewrite <- app_assoc. apply in_or_app. right.
        now right.
    + (* the right root stays the root, [tl] is joined with its left subtree *)
      assert (Hnd1 : NoDup (idxs (Node ll i e lr) ++ idxs rl)).
      { apply NoDup_app; [assumption|assumption|].
        intros x Hx Hx'. apply (Hdis x Hx). apply in_or_app. now left. }
      destruct (IH (Node ll i e lr) rl fuel nodes ltac:(simpl; lia) Hsl0 Hsrl Hnd1
                  ltac:(lia))
        as (n1 & t1 & Hrun & Hs1 & Hel & Hperm & Hlen & Hframe).
      rewrite Hrl. change (Z.of_nat i) with (root_of (Node ll i e lr)).
      rewrite Hrun, bind_ok. cbv beta iota zeta.
      assert (Hk_out : ~ In k (idxs (Node ll i e lr) ++ idxs rl)).
      { intro Hx. apply in_app_or in Hx. destruct Hx as [Hx|Hx]; [|contradiction].
        apply (Hdis k Hx). apply in_or_app. right. now left. }
      assert (Hk1 : nth_error n1 k = Some ndr) by (rewrite Hframe; assumption).
      assert (Hz1 : py_index n1 (Z.of_nat k) = Ok k) by (apply py_index_nat; lia).
      rewrite (modify_at n1 _ k ndr _ Hz1 Hk1), bind_ok.
      set (n2 := list_set n1 k (Treap.set_left (root_of t1) ndr)).
      assert (Hn2 : forall j, j <> k -> nth_error n2 j = nth_error n1 j)
        by (intros j Hj; apply nth_error_list_set_other; congruence).
      assert (Hkt1 : ~ In k (idxs t1)).
      { intro Hx. apply Hk_out. now apply (Permutation_in _ Hperm). }
      assert (Hrr_out : forall j, In j (idxs rr) ->
                                  ~ In j (idxs (Node ll i e lr) ++ idxs rl)).
      { intros j Hj Hx. apply in_app_or in Hx. destruct Hx as [Hx|Hx].
        - apply (Hdis j Hx). apply in_or_app. right. now right.
        - now apply (Hdisr j). }
      destruct (update_subtree_node n2 (Z.of_nat k) k
                  (Treap.set_left (root_of t1) ndr) t1 rr)
        as [nd' [Hup Hs3]].
      * unfold n2. rewrite py_index_list_set. exact Hz1.
      * unfold n2. apply nth_error_list_set_same. lia.
      * reflexivity.
      * exact Hrr.
      * apply shaped_frame with (nodes := n1); [assumption|].
        intros j Hj. apply Hn2. congruence.
      * apply shaped_frame with (nodes := nodes); [assumption|].
        intros j Hj. rewrite Hn2 by congruence. apply Hframe. now apply Hrr_out.
      * exact Hkt1.
      * exact Hkrr.
      * change (Treap.element (Treap.set_left (root_of t1) ndr))
          with (Treap.element ndr) in Hs3. rewrite He' in Hs3.
        rewrite Hup, bind_ok.
        exists (list_set n2 k nd'), (Node t1 k e' rr).
        split; [reflexivity|]. split; [exact Hs3|].
        split; [simpl; rewrite Hel, <- app_assoc; reflexivity|].
        split.
        { cbn [idxs]. rewrite Hperm. cbn [idxs]. rewrite <- !app_assoc. reflexivity. }
        split; [unfold n2; now rewrite !length_list_set|].
        intros j Hj.
        assert (j <> k).
        { intro E. subst j. apply Hj. apply in_or_app. right. simpl.
          apply in_or_app. right. now left. }
        rewrite nth_error_list_set_other by congruence.
        rewrite Hn2 by assumption. apply Hframe.
        intro Hx. apply Hj. simpl. rewrite app_assoc. apply in_or_app. left.
        exact Hx.
Qed.

(** [split] and then [join] on a Treap that [add_element] calls built. *)
Lemma split_join_built (fuel : nat) (calls : list (Z * Q)) (elt : Q) :
  (List.length calls < fuel)%nat ->
  exists T t nodes' tl tr nodes'' t',
    Treap.build fuel calls = Ok T /\ treap_inv T t /\
    Permutation (elems t) (map snd calls) /\
    Treap.split fuel (Treap.nodes T) (Treap.root T) elt
    = Ok (nodes', (root_of tl, root_of tr)) /\
    shaped nodes' tl /\ shaped nodes' tr /\
    (elems tl ++ elems tr)%list = elems t /\
    Forall (fun x => x <= elt) (elems tl) /\
    Forall (fun x => elt < x) (elems tr) /\
    Treap.join fuel nodes' (root_of tl) (root_of tr) = Ok (nodes'', root_of t') /\
    shaped nodes'' t' /\ elems t' = elems t /\
    (size t < fuel)%nat /\ (size tl < fuel)%nat /\ (size tr < fuel)%nat /\
    (size t' < fuel)%nat.
Proof.
  intro Hfuel.
  destruct (build_inv fuel calls Hfuel) as (T & t & Hbuild & Hinv & Hperm & Hlen).
  pose proof Hinv as (Hroot & Hs & Hidx & Hsorted).
  assert (Hnd : NoDup (idxs t)).
  { apply (Permutation_NoDup (Permutation_sym Hidx)), seq_NoDup. }
  assert (Hsize : size t = List.length calls).
  { rewrite size_elems, (Permutation_length Hperm). apply length_map. }
  destruct (split_spec elt t fuel (Treap.nodes T) Hs Hnd Hsorted ltac:(lia))
    as (nodes' & tl & tr & Hsplit & Hsl & Hsr & Hel & Hf1 & Hf2 & Hpi & _ & _).
  assert (Hsizes : (size tl + size tr = size t)%nat).
  { rewrite !size_elems, <- Hel, length_app. reflexivity. }
  destruct (join_spec (size t) tl tr fuel nodes' ltac:(lia) Hsl Hsr) as
    (nodes'' & t' & Hjoin & Hs' & Hel' & _ & _ & _).
  { apply (Permutation_NoDup (Permutation_sym Hpi)), Hnd. }
  { lia. }
  exists T, t, nodes', tl, tr, nodes'', t'.
  rewrite Hroot. repeat split; try assumption; try lia.
  - congruence.
  - rewrite size_elems, Hel', Hel, <- size_elems. lia.
Qed.

(** ** Treap: what the nodes store *)

Tactic Notation "inv_bind" hyp(H) "as" ident(a) ident(E) :=
  apply bind_inv in H; destruct H as (a & E & H).

Lemma stored_list_set (nodes : list Treap.TreapNode) (k : nat) (nd nd' : Treap.TreapNode) :
  nth_error nodes k = Some nd ->
  Treap.weight nd' = Treap.weight nd -> Treap.element nd' = Treap.element nd ->
  stored (list_set nodes k nd') = stored nodes.
Proof.
  revert k. induction nodes as [|x nodes IH]; intros [|k] Hk Hw He; simpl in *;
    try discriminate.
  - inversion Hk; subst. unfold stored. simpl. now rewrite Hw, He.
  - unfold stored in *. simpl. f_equal. now apply IH.
Qed.

Lemma modify_stored (nodes nodes' : list Treap.TreapNode) (z : Z)
      (f : Treap.TreapNode -> Treap.TreapNode) :
  (forall nd, Treap.weight (f nd) = Treap.weight nd /\
              Treap.element (f nd) = Treap.element nd) ->
  modify nodes z f = Ok nodes' -> stored nodes' = stored nodes.
Proof.
  intros Hf H. unfold modify, py_get, py_set in H.
  inv_bind H as x Ex. inv_bind Ex as k Ek.
  destruct (nth_error nodes k) as [nd|] eqn:En; [|discriminate].
  inversion Ex; subst x. rewrite Ek in H. simpl in H. inversion H; subst nodes'.
  apply stored_list_set with (nd := nd); [exact En| |]; apply Hf.
Qed.

Ltac stored_step H :=
  apply modify_stored in H; [|intro; split; reflexivity].

Lemma update_subtree_stored (nodes nodes' : list Treap.TreapNode) (z : Z) :
  Treap.update_subtree nodes z = Ok nodes' -> stored nodes' = stored nodes.
Proof.
  unfold Treap.update_subtree. intro H.
  inv_bind H as n1 E1. stored_step E1.
  inv_bind H as n2 E2. stored_step E2.
  inv_bind H as nd End. inv_bind H as n3 E3.
  assert (S3 : stored n3 = stored n2).
  { destruct (negb (Treap.left_node nd =? -1)%Z); [|now inversion E3].
    inv_bind E3 as l El. inv_bind E3 as n4 E4. stored_step E4.
    inv_bind E3 as l' El'. stored_step E3. congruence. }
  inv_bind H as nd' End'.
  assert (S4 : stored nodes' = stored n3).
  { destruct (negb (Treap.right_node nd' =? -1)%Z); [|now inversion H].
    inv_bind H as r Er. inv_bind H as n4 E4. stored_step E4.
    inv_bind H as r' Er'. stored_step H. congruence. }
  congruence.
Qed.

Lemma split_stored (fuel : nat) :
  forall (nodes nodes' : list Treap.TreapNode) (node : Z) (elt : Q) (lr : Z * Z),
    Treap.split fuel nodes node elt = Ok (nodes', lr) -> stored nodes' = stored nodes.
Proof.
  induction fuel as [|fuel IH]; intros nodes nodes' node elt lr H; [discriminate|].
  cbn [Treap.split] in H.
  destruct (node =? -1)%Z; [now inversion H|].
  inv_bind H as nd End.
  destruct (Qltb elt (Treap.element nd)).
  - inv_bind H as res Eres. destruct res as [n1 [l r]]. apply IH in Eres.
    inv_bind H as n2 E2. stored_step E2.
    inv_bind H as n3 E3. apply update_subtree_stored in E3.
    inversion H; subst. congruence.
  - inv_bind H as res Eres. destruct res as [n1 [l r]]. apply IH in Eres.
    inv_bind H as n2 E2. stored_step E2.
    inv_bind H as n3 E3. apply update_subtree_stored in E3.
    inversion H; subst. congruence.
Qed.

Lemma add_element_internal_stored (fuel : nat) :
  forall (nodes nodes' : list Treap.TreapNode) (node r : Z),
    Treap.add_element_internal fuel nodes node = Ok (nodes', r) ->
    stored nodes' = stored nodes.
Proof.
  induction fuel as [|fuel IH]; intros nodes nodes' node r H; [discriminate|].
  cbn [Treap.add_element_internal] in H.
  destruct (node =? -1)%Z.
  - inv_bind H as n1 E1. apply update_subtree_stored in E1. inversion H; subst. exact E1.
  - inv_bind H as new Enew. inv_bind H as nd End.
    destruct (Treap.weight nd <? Treap.weight new)%Z.
    + inv_bind H as res Eres. destruct res as [n1 [l r']]. apply split_stored in Eres.
      inv_bind H as n2 E2. stored_step E2.
      inv_bind H as n3 E3. stored_step E3.
      inv_bind H as n4 E4. apply update_subtree_stored in E4.
      inversion H; subst. congruence.
    + inv_bind H as n1 E1.
      assert (S1 : stored n1 = stored nodes).
      { destruct (Qltb (Treap.element new) (Treap.element nd)).
        - inv_bind E1 as res Eres. destruct res as [n0 sub]. apply IH in Eres.
          stored_step E1. congruence.
        - inv_bind E1 as res Eres. destruct res as [n0 sub]. apply IH in Eres.
          stored_step E1. congruence. }
      inv_bind H as n2 E2. apply update_subtree_stored in E2.
      inversion H; subst. congruence.
Qed.

Lemma add_element_stored (fuel : nat) (w : Z) (e : Q) (T T' : Treap.t) :
  Treap.add_element fuel w e T = Ok T' ->
  stored (Treap.nodes T') = (stored (Treap.nodes T) ++ [(w, e)])%list.
Proof.
  unfold Treap.add_element. intro H. inv_bind H as res Eres. destruct res as [nodes r].
  apply add_element_internal_stored in Eres. inversion H; subst. simpl.
  rewrite Eres. unfold stored. now rewrite map_app.
Qed.

Lemma build_from_stored (fuel : nat) (calls : list (Z * Q)) :
  forall T T' : Treap.t,
    foldM (fun self call => Treap.add_element fuel (fst call) (snd call) self) calls T
    = Ok T' ->
    stored (Treap.nodes T') = (stored (Treap.nodes T) ++ calls)%list.
Proof.
  induction calls as [|[w e] calls IH]; intros T T' H; simpl in H.
  - inversion H; subst. now rewrite app_nil_r.
  - inv_bind H as T1 E1. apply add_element_stored in E1. apply IH in H.
    rewrite H, E1, <- app_assoc. reflexivity.
Qed.

(** ** Treap: the heap order of the priorities *)

Lemma priorities_links (nodes : list Treap.TreapNode) :
  priorities (links nodes) = map fst (stored nodes).
Proof. unfold priorities, links, stored. rewrite !map_map. reflexivity. Qed.

Lemma priorities_nth (L L' : list (Z * Z * Z)) (i : nat) (w l r : Z) :
  priorities L = priorities L' -> nth_error L i = Some (w, l, r) ->
  exists l' r', nth_error L' i = Some (w, l', r').
Proof.
  intros HP Hi.
  assert (H : nth_error (priorities L') i = Some w).
  { rewrite <- HP. unfold priorities. now rewrite nth_error_map, Hi. }
  unfold priorities in H. rewrite nth_error_map in H.
  destruct (nth_error L' i) as [[[w' l'] r']|]; [|discriminate].
  simpl in H. inversion H; subst. now exists l', r'.
Qed.

Lemma lighter_priorities (L L' : list (Z * Z * Z)) (c w : Z) :
  priorities L = priorities L' -> lighter L c w -> lighter L' c w.
Proof.
  intros HP [->|(wc & lc & rc & Hc & Hn & Hle)]; [now left|].
  destruct (priorities_nth L L' _ _ _ _ HP Hn) as (l' & r' & Hn').
  right. now exists wc, l', r'.
Qed.

Lemma lighter_mono (L : list (Z * Z * Z)) (c w w' : Z) :
  (w <= w')%Z -> lighter L c w -> lighter L c w'.
Proof.
  intros Hw [->|(wc & lc & rc & Hc & Hn & Hle)]; [now left|].
  right. exists wc, lc, rc. repeat split; auto. lia.
Qed.

Lemma priorities_list_set (L : list (Z * Z * Z)) (k : nat) (w l r l' r' : Z) :
  nth_error L k = Some (w, l, r) ->
  priorities (list_set L k (w, l', r')) = priorities L.
Proof.
  revert k. induction L as [|x L IH]; intros [|k] Hk; simpl in *; try discriminate.
  - inversion Hk; subst. reflexivity.
  - unfold priorities in *. simpl. f_equal. now apply IH.
Qed.

Lemma heap_list_set (L : list (Z * Z * Z)) (k : nat) (w l r l' r' : Z) :
  heap L -> nth_error L k = Some (w, l, r) ->
  lighter L l' w -> lighter L r' w ->
  heap (list_set L k (w, l', r')).
Proof.
  intros HL Hk Hl Hr i wi li ri Hi.
  assert (HP : priorities L = priorities (list_set L k (w, l', r')))
    by (symmetry; now apply priorities_list_set with (l := l) (r := r)).
  assert (Hlt : (k < List.length L)%nat) by (apply nth_error_Some; congruence).
  destruct (Nat.eq_dec i k) as [->|Hik].
  - rewrite nth_error_list_set_same in Hi by exact Hlt. inversion Hi; subst.
    split; now apply (lighter_priorities L).
  - rewrite nth_error_list_set_other in Hi by congruence.
    destruct (HL _ _ _ _ Hi). split; now apply (lighter_priorities L).
Qed.

Lemma links_list_set (nodes : list Treap.TreapNode) (k : nat) (nd : Treap.TreapNode) :
  links (list_set nodes k nd)
  = list_set (links nodes) k
             (Treap.weight nd, Treap.left_node nd, Treap.right_node nd).
Proof.
  revert k. induction nodes as [|x nodes IH]; intros [|k]; simpl; try reflexivity.
  unfold links in *. simpl. f_equal. apply IH.
Qed.

Lemma links_nth (nodes : list Treap.TreapNode) (k : nat) (nd : Treap.TreapNode) :
  nth_error nodes k = Some nd ->
  nth_error (links nodes) k
  = Some (Treap.weight nd, Treap.left_node nd, Treap.right_node nd).
Proof. intro H. unfold links. now rewrite nth_error_map, H. Qed.

Lemma modify_links (nodes nodes' : list Treap.TreapNode) (z : Z)
      (f : Treap.TreapNode -> Treap.TreapNode) :
  (forall nd, Treap.weight (f nd) = Treap.weight nd /\
              Treap.left_node (f nd) = Treap.left_node nd /\
              Treap.right_node (f nd) = Treap.right_node nd) ->
  modify nodes z f = Ok nodes' -> links nodes' = links nodes.
Proof.
  intros Hf H. unfold modify, py_get, py_set in H.
  inv_bind H as x Ex. inv_bind Ex as k Ek.
  destruct (nth_error nodes k) as [nd|] eqn:En; [|discriminate].
  inversion Ex; subst x. rewrite Ek in H. simpl in H. inversion H; subst nodes'.
  rewrite links_list_set. destruct (Hf nd) as (-> & -> & ->).
  apply list_set_same. now apply links_nth.
Qed.

Ltac links_step H :=
  apply modify_links in H; [|intro; repeat split; reflexivity].

Lemma update_subtree_links (nodes nodes' : list Treap.TreapNode) (z : Z) :
  Treap.update_subtree nodes z = Ok nodes' -> links nodes' = links nodes.
Proof.
  unfold Treap.update_subtree. intro H.
  inv_bind H as n1 E1. links_step E1.
  inv_bind H as n2 E2. links_step E2.
  inv_bind H as nd End. inv_bind H as n3 E3.
  assert (S3 : links n3 = links n2).
  { destruct (negb (Treap.left_node nd =? -1)%Z); [|now inversion E3].
    inv_bind E3 as l El. inv_bind E3 as n4 E4. links_step E4.
    inv_bind E3 as l' El'. links_step E3. congruence. }
  inv_bind H as nd' End'.
  assert (S4 : links nodes' = links n3).
  { destruct (negb (Treap.right_node nd' =? -1)%Z); [|now inversion H].
    inv_bind H as r Er. inv_bind H as n4 E4. links_step E4.
    inv_bind H as r' Er'. links_step H. congruence. }
  congruence.
Qed.

(** [nodes[z].left_node = c] or [nodes[z].right_node = c] on a heap. *)
Lemma modify_link_heap (nodes nodes' : list Treap.TreapNode) (z c : Z) (left : bool) :
  modify nodes z (if left then Treap.set_left c else Treap.set_right c) = Ok nodes' ->
  heap (links nodes) ->
  (forall nd, py_get nodes z = Ok nd -> lighter (links nodes) c (Treap.weight nd)) ->
  heap (links nodes') /\ priorities (links nodes') = priorities (links nodes).
Proof.
  intros H HL Hc. unfold modify in H. inv_bind H as nd End.
  specialize (Hc nd End).
  unfold py_get in End. inv_bind End as k Ek.
  destruct (nth_error nodes k) as [nd0|] eqn:En; [|discriminate].
  inversion End; subst nd0. unfold py_set in H. rewrite Ek in H. simpl in H.
  inversion H; subst nodes'. rewrite links_list_set.
  pose proof (links_nth _ _ _ En) as Hk.
  destruct (HL _ _ _ _ Hk) as [Hl Hr].
  destruct left; simpl; split;
    try (eapply heap_list_set; eauto);
    eapply priorities_list_set; eauto.
Qed.

Lemma py_get_lighter (nodes : list Treap.TreapNode) (z : Z) (nd : Treap.TreapNode) (w : Z) :
  (0 <= z)%Z -> py_get nodes z = Ok nd -> (Treap.weight nd <= w)%Z ->
  lighter (links nodes) z w.
Proof.
  intros Hz H Hw. unfold py_get, py_index in H.
  destruct ((0 <=? z) && (z <? len nodes))%Z eqn:E.
  - simpl in H. destruct (nth_error nodes (Z.to_nat z)) as [nd0|] eqn:En; [|discriminate].
    inversion H; subst. right.
    exists (Treap.weight nd), (Treap.left_node nd), (Treap.right_node nd).
    split; [exact Hz|]. split; [now apply links_nth|exact Hw].
  - destruct ((- len nodes <=? z) && (z <? 0))%Z eqn:E'; [|discriminate].
    apply andb_true_iff in E'. destruct E' as [_ E']. apply Z.ltb_lt in E'. lia.
Qed.

Lemma py_get_weight (nodes nodes' : list Treap.TreapNode) (z : Z)
      (nd nd' : Treap.TreapNode) :
  stored nodes' = stored nodes ->
  py_get nodes z = Ok nd -> py_get nodes' z = Ok nd' ->
  Treap.weight nd' = Treap.weight nd.
Proof.
  intros HS H H'.
  assert (Hlen : List.length nodes' = List.length nodes).
  { apply (f_equal (@List.length _)) in HS. unfold stored in HS.
    now rewrite !length_map in HS. }
  unfold py_get in H, H'. inv_bind H as k Ek. inv_bind H' as k' Ek'.
  assert (k' = k).
  { unfold py_index, len in Ek, Ek'. rewrite Hlen in Ek'. rewrite Ek in Ek'.
    now inversion Ek'. }
  subst k'.
  destruct (nth_error nodes k) as [x|] eqn:En; [|discriminate].
  destruct (nth_error nodes' k) as [x'|] eqn:En'; [|discriminate].
  inversion H; inversion H'; subst.
  assert (Hs : nth_error (stored nodes') k = nth_error (stored nodes) k) by now rewrite HS.
  unfold stored in Hs. rewrite !nth_error_map, En, En' in Hs. simpl in Hs.
  now inversion Hs.
Qed.

Lemma stored_priorities (nodes nodes' : list Treap.TreapNode) :
  stored nodes' = stored nodes -> priorities (links nodes') = priorities (links nodes).
Proof. intro H. now rewrite !priorities_links, H. Qed.

Lemma py_get_nonneg {A : Type} (l : list A) (z : Z) (a : A) :
  (0 <= z)%Z -> py_get l z = Ok a -> nth_error l (Z.to_nat z) = Some a.
Proof.
  intros Hz H. unfold py_get, py_index in H.
  destruct ((0 <=? z) && (z <? len l))%Z eqn:E.
  - simpl in H. destruct (nth_error l (Z.to_nat z)); [now inversion H|discriminate].
  - destruct ((- len l <=? z) && (z <? 0))%Z eqn:E'; [|discriminate].
    apply andb_true_iff in E'. destruct E' as [_ E']. apply Z.ltb_lt in E'. lia.
Qed.

Lemma lighter_weight (nodes : list Treap.TreapNode) (z : Z) (nd : Treap.TreapNode) (B : Z) :
  z <> (-1)%Z -> lighter (links nodes) z B -> py_get nodes z = Ok nd ->
  (0 <= z)%Z /\ (Treap.weight nd <= B)%Z.
Proof.
  intros Hz [->|(wc & lc & rc & Hc & Hn & Hle)] H; [congruence|].
  split; [exact Hc|].
  apply (py_get_nonneg _ _ _ Hc) in H. rewrite (links_nth _ _ _ H) in Hn.
  inversion Hn; subst. exact Hle.
Qed.

Lemma split_heap (fuel : nat) :
  forall (nodes nodes' : list Treap.TreapNode) (node : Z) (elt : Q) (l r B : Z),
    Treap.split fuel nodes node elt = Ok (nodes', (l, r)) ->
    heap (links nodes) -> lighter (links nodes) node B ->
    heap (links nodes') /\ lighter (links nodes') l B /\ lighter (links nodes') r B.
Proof.
  induction fuel as [|fuel IH]; intros nodes nodes' node elt l r B H HL HB;
    [discriminate|].
  pose proof (stored_priorities _ _ (split_stored _ _ _ _ _ _ H)) as HP.
  cbn [Treap.split] in H.
  destruct (Z.eqb_spec node (-1)) as [->|Hnode].
  - inversion H; subst. split; [exact HL|]. split; now left.
  - inv_bind H as nd End.
    destruct (lighter_weight _ _ _ _ Hnode HB End) as [Hz Hw].
    pose proof (links_nth _ _ _ (py_get_nonneg _ _ _ Hz End)) as Hentry.
    destruct (HL _ _ _ _ Hentry) as [Hleft Hright].
    destruct (Qltb elt (Treap.element nd)).
    + inv_bind H as res Eres. destruct res as [n1 [l0 r0]].
      pose proof (split_stored _ _ _ _ _ _ Eres) as HS1.
      destruct (IH _ _ _ _ _ _ _ Eres HL Hleft) as (HL1 & Hl0 & Hr0).
      inv_bind H as n2 E2.
      destruct (modify_link_heap n1 n2 node r0 true E2 HL1) as [HL2 HP2].
      { intros nd1 E1. now rewrite (py_get_weight _ _ _ _ _ HS1 End E1). }
      inv_bind H as n3 E3. apply update_subtree_links in E3.
      inversion H; subst. rewrite E3.
      split; [exact HL2|]. split.
      * apply (lighter_priorities (links n1)); [congruence|].
        now apply lighter_mono with (w := Treap.weight nd).
      * apply (lighter_priorities (links nodes)); [congruence|exact HB].
    + inv_bind H as res Eres. destruct res as [n1 [l0 r0]].
      pose proof (split_stored _ _ _ _ _ _ Eres) as HS1.
      destruct (IH _ _ _ _ _ _ _ Eres HL Hright) as (HL1 & Hl0 & Hr0).
      inv_bind H as n2 E2.
      destruct (modify_link_heap n1 n2 node l0 false E2 HL1) as [HL2 HP2].
      { intros nd1 E1. now rewrite (py_get_weight _ _ _ _ _ HS1 End E1). }
      inv_bind H as n3 E3. apply update_subtree_links in E3.
      inversion H; subst. rewrite E3.
      split; [exact HL2|]. split.
      * apply (lighter_priorities (links nodes)); [congruence|exact HB].
      * apply (lighter_priorities (links n1)); [congruence|].
        now apply lighter_mono with (w := Treap.weight nd).
Qed.

Lemma links_length (nodes nodes' : list Treap.TreapNode) :
  links nodes' = links nodes -> len nodes' = len nodes.
Proof.
  intro H. apply (f_equal (@List.length _)) in H. unfold links in H.
  rewrite !length_map in H. unfold len. now rewrite H.
Qed.

Lemma stored_length (nodes nodes' : list Treap.TreapNode) :
  stored nodes' = stored nodes -> len nodes' = len nodes.
Proof.
  intro H. apply (f_equal (@List.length _)) in H. unfold stored in H.
  rewrite !length_map in H. unfold len. now rewrite H.
Qed.

Lemma py_get_last {A : Type} (l : list A) (a : A) :
  py_get l (-1) = Ok a -> (1 <= len l)%Z /\ py_get l (len l - 1) = Ok a.
Proof.
  unfold py_get, py_index. intro H.
  destruct ((0 <=? -1) && (-1 <? len l))%Z eqn:E; [discriminate|].
  destruct ((- len l <=? -1) && (-1 <? 0))%Z eqn:E'; [|discriminate].
  apply andb_true_iff in E'. destruct E' as [E1 _]. apply Z.leb_le in E1.
  split; [lia|].
  replace ((0 <=? len l - 1) && (len l - 1 <? len l))%Z with true
    by (symmetry; apply andb_true_iff; split; [apply Z.leb_le|apply Z.ltb_lt]; lia).
  simpl in *. replace (Z.to_nat (len l - 1)) with (Z.to_nat (len l + -1)) by lia.
  exact H.
Qed.

Lemma add_element_internal_heap (fuel : nat) :
  forall (nodes nodes' : list Treap.TreapNode) (node r : Z) (new : Treap.TreapNode),
    py_get nodes (-1) = Ok new -> (-1 <= node)%Z ->
    Treap.add_element_internal fuel nodes node = Ok (nodes', r) ->
    heap (links nodes) ->
    heap (links nodes') /\ (r = node \/ r = (len nodes - 1)%Z).
Proof.
  induction fuel as [|fuel IH]; intros nodes nodes' node r new Hnew Hnode H HL;
    [discriminate|].
  pose proof (add_element_internal_stored _ _ _ _ _ H) as HS.
  cbn [Treap.add_element_internal] in H.
  destruct (Z.eqb_spec node (-1)) as [->|Hnode'].
  - inv_bind H as n1 E1. apply update_subtree_links in E1.
    inversion H; subst. rewrite E1. split; [exact HL|]. right.
    now rewrite (links_length _ _ E1).
  - inv_bind H as new' Enew. rewrite Hnew in Enew. inversion Enew; subst new'.
    inv_bind H as nd End.
    assert (Hz : (0 <= node)%Z) by lia.
    pose proof (links_nth _ _ _ (py_get_nonneg _ _ _ Hz End)) as Hentry.
    destruct (HL _ _ _ _ Hentry) as [Hleft Hright].
    destruct (Z.ltb_spec (Treap.weight nd) (Treap.weight new)) as [Hlt|Hge].
    + inv_bind H as res Eres. destruct res as [n1 [l0 r0]].
      pose proof (split_stored _ _ _ _ _ _ Eres) as HS1.
      destruct (split_heap _ _ _ _ _ _ _ (Treap.weight nd) Eres HL) as (HL1 & Hl0 & Hr0).
      { now apply py_get_lighter with (nd := nd); [| |lia]. }
      inv_bind H as n2 E2.
      pose proof E2 as E2'. apply modify_stored in E2'; [|intro; split; reflexivity].
      destruct (modify_link_heap n1 n2 (-1) l0 true E2 HL1) as [HL2 HP2].
      { intros nd1 E1. rewrite (py_get_weight _ _ _ _ _ HS1 Hnew E1).
        apply lighter_mono with (w := Treap.weight nd); [lia|exact Hl0]. }
      inv_bind H as n3 E3.
      destruct (modify_link_heap n2 n3 (-1) r0 false E3 HL2) as [HL3 HP3].
      { intros nd2 E2g.
        assert (HS2 : stored n2 = stored nodes) by congruence.
        rewrite (py_get_weight _ _ _ _ _ HS2 Hnew E2g).
        apply (lighter_priorities (links n1)); [congruence|].
        apply lighter_mono with (w := Treap.weight nd); [lia|exact Hr0]. }
      inv_bind H as n4 E4. apply update_subtree_links in E4.
      inversion H; subst. rewrite E4. split; [exact HL3|]. right.
      rewrite (links_length _ _ E4). f_equal. apply stored_length.
      apply modify_stored in E3; [|intro; split; reflexivity]. congruence.
    + inv_bind H as n1 E1.
      assert (Hstep : heap (links n1) /\ priorities (links n1) = priorities (links nodes)).
      { destruct (py_get_last _ _ Hnew) as [Hlen Hlast].
        assert (Hnew_l : lighter (links nodes) (len nodes - 1) (Treap.weight nd)).
        { apply py_get_lighter with (nd := new); [lia|exact Hlast|exact Hge]. }
        destruct (Qltb (Treap.element new) (Treap.element nd)).
        - inv_bind E1 as res Eres. destruct res as [n0 sub].
          pose proof (add_element_internal_stored _ _ _ _ _ Eres) as HS0.
          assert (Hc : (-1 <= Treap.left_node nd)%Z).
          { destruct Hleft as [->|(? & ? & ? & ? & _)]; lia. }
          destruct (IH _ _ _ _ _ Hnew Hc Eres HL) as [HL0 Hsub].
          destruct (modify_link_heap n0 n1 node sub true E1 HL0) as [HL1 HP1].
          { intros nd0 E0. rewrite (py_get_weight _ _ _ _ _ HS0 End E0).
            apply (lighter_priorities (links nodes));
              [symmetry; now apply stored_priorities|].
            destruct Hsub as [->| ->]; assumption. }
          split; [exact HL1|]. rewrite HP1. now apply stored_priorities.
        - inv_bind E1 as res Eres. destruct res as [n0 sub].
          pose proof (add_element_internal_stored _ _ _ _ _ Eres) as HS0.
          assert (Hc : (-1 <= Treap.right_node nd)%Z).
          { destruct Hright as [->|(? & ? & ? & ? & _)]; lia. }
          destruct (IH _ _ _ _ _ Hnew Hc Eres HL) as [HL0 Hsub].
          destruct (modify_link_heap n0 n1 node sub false E1 HL0) as [HL1 HP1].
          { intros nd0 E0. rewrite (py_get_weight _ _ _ _ _ HS0 End E0).
            apply (lighter_priorities (links nodes));
              [symmetry; now apply stored_priorities|].
            destruct Hsub as [->| ->]; assumption. }
          split; [exact HL1|]. rewrite HP1. now apply stored_priorities. }
      inv_bind H as n2 E2. apply update_subtree_links in E2.
      inversion H; subst. rewrite E2. split; [apply Hstep|]. now left.
Qed.

Lemma lighter_app (L L' : list (Z * Z * Z)) (c w : Z) :
  lighter L c w -> lighter (L ++ L') c w.
Proof.
  intros [->|(wc & lc & rc & Hc & Hn & Hle)]; [now left|].
  right. exists wc, lc, rc. split; [exact Hc|]. split; [|exact Hle].
  rewrite nth_error_app1; [exact Hn|]. apply nth_error_Some. congruence.
Qed.

Lemma add_element_heap (fuel : nat) (w : Z) (e : Q) (T T' : Treap.t) :
  Treap.add_element fuel w e T = Ok T' ->
  heap (links (Treap.nodes T)) -> (-1 <= Treap.root T)%Z ->
  heap (links (Treap.nodes T')) /\ (-1 <= Treap.root T')%Z.
Proof.
  unfold Treap.add_element. intros H HL Hroot.
  inv_bind H as res Eres. destruct res as [nodes r]. inversion H; subst. simpl.
  set (new := Treap.mkNode e 0 0 w (-1) (-1)) in *.
  assert (Hnew : py_get (Treap.nodes T ++ [new]) (-1) = Ok new).
  { apply py_get_at with (i := List.length (Treap.nodes T)).
    - apply py_index_last.
    - rewrite nth_error_app2 by lia. now rewrite Nat.sub_diag. }
  destruct (add_element_internal_heap _ _ _ _ _ new Hnew Hroot Eres) as [HL' Hr].
  - intros i wi li ri Hi. unfold links in Hi. rewrite map_app in Hi.
    fold (links (Treap.nodes T)) in Hi.
    destruct (Nat.lt_ge_cases i (List.length (links (Treap.nodes T)))) as [Hlt|Hge].
    + rewrite nth_error_app1 in Hi by exact Hlt.
      destruct (HL _ _ _ _ Hi). unfold links. rewrite map_app.
      split; now apply lighter_app.
    + rewrite nth_error_app2 in Hi by exact Hge. simpl in Hi.
      destruct (i - List.length (links (Treap.nodes T)))%nat as [|k]; simpl in Hi.
      * inversion Hi; subst. split; now left.
      * destruct k; discriminate.
  - split; [exact HL'|]. destruct Hr as [->| ->]; [exact Hroot|].
    unfold len. lia.
Qed.

Lemma build_heap (fuel : nat) (calls : list (Z * Q)) :
  forall T T' : Treap.t,
    foldM (fun self call => Treap.add_element fuel (fst call) (snd call) self) calls T
    = Ok T' ->
    heap (links (Treap.nodes T)) -> (-1 <= Treap.root T)%Z ->
    heap (links (Treap.nodes T')).
Proof.
  induction calls as [|[w e] calls IH]; intros T T' H HL Hroot; simpl in H.
  - now inversion H; subst.
  - inv_bind H as T1 E1. destruct (add_element_heap _ _ _ _ _ E1 HL Hroot).
    now apply (IH T1).
Qed.

(** On a heap, no node of a tree is above a bound of its root. *)
Lemma shaped_heap_bound (nodes : list Treap.TreapNode) (t : tree) :
  shaped nodes t -> heap (links nodes) ->
  forall B, lighter (links nodes) (root_of t) B ->
            forall i nd, In i (idxs t) -> nth_error nodes i = Some nd ->
                         (Treap.weight nd <= B)%Z.
Proof.
  induction t as [|l IHl k e r IHr]; intros Hs HL B HB i nd Hi Hn; [contradiction|].
  simpl in Hs. destruct Hs as (ndk & Hk & _ & Hl & Hr & _ & _ & Hsl & Hsr).
  pose proof (links_nth _ _ _ Hk) as Hentry.
  destruct (HL _ _ _ _ Hentry) as [Hleft Hright].
  assert (Hwk : (Treap.weight ndk <= B)%Z).
  { simpl in HB. destruct HB as [HB|(wc & lc & rc & _ & Hc & Hle)]; [lia|].
    rewrite Nat2Z.id, Hentry in Hc. inversion Hc; subst. exact Hle. }
  simpl in Hi. apply in_app_or in Hi. destruct Hi as [Hi|[<-|Hi]].
  - apply Z.le_trans with (Treap.weight ndk); [|exact Hwk].
    apply (IHl Hsl HL _ ltac:(rewrite <- Hl; exact Hleft) i nd Hi Hn).
  - rewrite Hk in Hn. inversion Hn; subst. exact Hwk.
  - apply Z.le_trans with (Treap.weight ndk); [|exact Hwk].
    apply (IHr Hsr HL _ ltac:(rewrite <- Hr; exact Hright) i nd Hi Hn).
Qed.

Lemma heap_empty : heap (links (Treap.nodes Treap.empty)).
Proof. intros [|i] w l r H; discriminate. Qed.

(** ** Alignment: tracing the path *)

Lemma normal_distribution (c : Cell.t) : normal c -> distribution c.
Proof. intros [H1 H2]. split; [exact H1|]. rewrite H2. reflexivity. Qed.

Lemma direction_cases (base s : list Cell.t) (i j : nat) :
  match direction base s i j with
  | PATH_UNDEFINED => i = 0%nat /\ j = 0%nat
  | PATH_MATCHED => (0 < i)%nat /\ (0 < j)%nat
  | PATH_UNMATCHED_BASE => (0 < i)%nat
  | PATH_UNMATCHED_S => (0 < j)%nat
  end.
Proof.
  destruct i as [|i], j as [|j]; simpl; try lia; try (split; reflexivity).
  unfold choose_path.
  destruct (Qltb _ _); [lia|]. destruct (Qltb _ _); lia.
Qed.

Lemma py_get_distribution (l : list Cell.t) (i : nat) :
  Forall distribution l -> (0 < i <= List.length l)%nat ->
  exists c, py_get l (Z.of_nat i - 1) = Ok c /\ distribution c.
Proof.
  intros Hl Hi.
  destruct (py_get_nth l (Z.of_nat i - 1)) as (c & Hn & Hg); [unfold len; lia|].
  exists c. split; [exact Hg|].
  rewrite Forall_forall in Hl. apply Hl. eapply nth_error_In. exact Hn.
Qed.

Lemma merge_cells_normal (a b : Cell.t) (wa wb : Q) :
  distribution a -> distribution b -> 0 <= wa -> 0 <= wb -> 0 < wa + wb ->
  exists r, merge_cells a b wa wb = Ok r /\ normal r.
Proof.
  intros [Ha Hsa] [Hb Hsb] Hwa Hwb Hw.
  destruct (merge_cells_valid a b wa wb Ha Hb Hsa Hsb Hwa Hwb Hw)
    as (r & Hrun & Hr & Hsr & _).
  exists r. split; [exact Hrun|]. split; assumption.
Qed.

Section TraceFacts.
Variables base s : list Cell.t.
Variables base_weight weight : Q.
Variable path : matrix path_label.
Hypothesis Hbase : Forall distribution base.
Hypothesis Hs : Forall distribution s.
Hypothesis Hbw : 0 <= base_weight.
Hypothesis Hw : 0 <= weight.
Hypothesis Hsum : 0 < base_weight + weight.
Hypothesis Hpath :
  agrees (directionZ base s) path (len base + 1) (len s + 1) (fun _ _ => True).

Lemma path_at (i j : nat) :
  (i <= List.length base)%nat -> (j <= List.length s)%nat ->
  mget path (Z.of_nat i) (Z.of_nat j) = Ok (direction base s i j).
Proof.
  intros Hi Hj. destruct Hpath as [_ H].
  rewrite H by (unfold len; auto; lia).
  unfold directionZ. now rewrite !Nat2Z.id.
Qed.

(** The loop ends within [i + j] rounds and appends between [max i j] and
    [i + j] normalized Cells. *)
Lemma trace_spec (fuel : nat) :
  forall (i j : nat) (new_base : list Cell.t),
    (i <= List.length base)%nat -> (j <= List.length s)%nat -> (i + j <= fuel)%nat ->
    exists L,
      Alignment.trace fuel path base s base_weight weight
        (Z.of_nat i) (Z.of_nat j) new_base = Ok (new_base ++ L)%list /\
      Forall normal L /\ (Nat.max i j <= List.length L <= i + j)%nat.
Proof.
  induction fuel as [|fuel IH]; intros i j new_base Hi Hj Hfuel.
  - assert (i = 0%nat) by lia. assert (j = 0%nat) by lia. subst.
    exists []. simpl. rewrite app_nil_r. repeat split; auto.
  - destruct ((0 <? Z.of_nat i) || (0 <? Z.of_nat j))%Z eqn:Econd.
    + cbn [Alignment.trace]. rewrite Econd, (path_at i j Hi Hj), bind_ok.
      pose proof (direction_cases base s i j) as Hd.
      destruct (direction base s i j); cbn [path_eqb].
      * exfalso. destruct Hd; subst. discriminate.
      * destruct Hd as [Hi0 Hj0].
        destruct (py_get_distribution base i Hbase ltac:(lia)) as (b & Hb & Hdb).
        destruct (py_get_distribution s j Hs ltac:(lia)) as (c & Hc & Hdc).
        destruct (merge_cells_normal b c _ _ Hdb Hdc Hbw Hw Hsum) as (m & Hm & Hnm).
        rewrite Hb, bind_ok, Hc, bind_ok, Hm, bind_ok.
        replace (Z.of_nat i - 1)%Z with (Z.of_nat (i - 1)) by lia.
        replace (Z.of_nat j - 1)%Z with (Z.of_nat (j - 1)) by lia.
        destruct (IH (i - 1)%nat (j - 1)%nat (new_base ++ [m])%list
                     ltac:(lia) ltac:(lia) ltac:(lia)) as (L & HL & HnL & Hlen).
        exists (m :: L). rewrite HL, <- app_assoc. split; [reflexivity|].
        split; [now constructor|]. simpl. lia.
      * destruct (py_get_distribution base i Hbase ltac:(lia)) as (b & Hb & Hdb).
        destruct (merge_cells_normal b ec _ _ Hdb distribution_ec Hbw Hw Hsum)
          as (m & Hm & Hnm).
        rewrite Hb, bind_ok, Hm, bind_ok.
        replace (Z.of_nat i - 1)%Z with (Z.of_nat (i - 1)) by lia.
        destruct (IH (i - 1)%nat j (new_base ++ [m])%list
                     ltac:(lia) ltac:(lia) ltac:(lia)) as (L & HL & HnL & Hlen).
        exists (m :: L). rewrite HL, <- app_assoc. split; [reflexivity|].
        split; [now constructor|]. simpl. lia.
      * destruct (py_get_distribution s j Hs ltac:(lia)) as (c & Hc & Hdc).
        destruct (merge_cells_normal ec c _ _ distribution_ec Hdc Hbw Hw Hsum)
          as (m & Hm & Hnm).
        rewrite Hc, bind_ok, Hm, bind_ok.
        replace (Z.of_nat j - 1)%Z with (Z.of_nat (j - 1)) by lia.
        destruct (IH i (j - 1)%nat (new_base ++ [m])%list
                     ltac:(lia) ltac:(lia) ltac:(lia)) as (L & HL & HnL & Hlen).
        exists (m :: L). rewrite HL, <- app_assoc. split; [reflexivity|].
        split; [now constructor|]. simpl. lia.
    + apply orb_false_iff in Econd. destruct Econd as [E1 E2].
      apply Z.ltb_ge in E1. apply Z.ltb_ge in E2.
      assert (i = 0%nat) by lia. assert (j = 0%nat) by lia. subst.
      exists []. cbn [Alignment.trace]. simpl. rewrite app_nil_r. repeat split; auto.
Qed.

End TraceFacts.

Lemma mapM_normalized (l : list Cell.t) :
  Forall distribution l ->
  exists l', mapM Cell.normalized l = Ok l' /\ Forall normal l' /\
             List.length l' = List.length l.
Proof.
  induction 1 as [|c l [Hc Hs] _ IH].
  - exists []. repeat split; auto.
  - destruct IH as (l' & Hrun & Hn & Hlen).
    destruct (normalized_cases c) as [[E _]|[(_ & Z & _)|[Hnz Hnorm]]];
      [subst c; discriminate Hs | lra |].
    exists (scale (Cell.weight_sum c) c :: l'). cbn [mapM].
    rewrite Hnorm, bind_ok, Hrun, bind_ok. split; [reflexivity|].
    split; [|simpl; congruence].
    constructor; [|exact Hn]. split; [now apply cell_ok_scale|now apply normalized_sum].
Qed.

Lemma aligned_cells_distribution (arg_s : input) :
  Forall distribution (cells_of arg_s) ->
  Forall distribution (aligned_cells arg_s) /\ (1 <= List.length (aligned_cells arg_s))%nat /\
  (List.length (cells_of arg_s) <= List.length (aligned_cells arg_s))%nat.
Proof.
  intro H. unfold aligned_cells, len.
  destruct (Z.eqb_spec (Z.of_nat (List.length (cells_of arg_s))) 0) as [E|E].
  - split; [|simpl; lia]. constructor; [apply distribution_ec|constructor].
  - split; [exact H|]. lia.
Qed.

(** One [add_string] call on an Alignment between two calls. *)
Lemma add_string_combined (fuel : nat) (self : Alignment.t) (arg_s : input)
      (weight : Q) (n : nat) :
  combined self n -> Forall distribution (cells_of arg_s) -> 0 < weight ->
  (n + List.length (aligned_cells arg_s) <= fuel)%nat ->
  exists self' b',
    Alignment.add_string fuel self arg_s weight = Ok self' /\
    Alignment.base self' = Some b' /\
    combined self' (n + List.length (aligned_cells arg_s)) /\
    Alignment.base_weight self' == Alignment.base_weight self + weight /\
    Alignment.ew self' = Alignment.ew self /\
    (List.length (cells_of arg_s) <= List.length b')%nat /\
    (forall b, Alignment.base self = Some b -> (List.length b <= List.length b')%nat).
Proof.
  intros Hself Hin Hw Hfuel.
  destruct (aligned_cells_distribution arg_s Hin) as (Hs & Hs1 & Hs2).
  unfold Alignment.add_string. fold (aligned_cells arg_s).
  unfold combined in Hself.
  destruct (Alignment.base self) as [b|] eqn:Eb.
  - destruct Hself as (Hb & Hbw & Hlen).
    assert (Hdb : Forall distribution b).
    { eapply Forall_impl; [apply normal_distribution|exact Hb]. }
    destruct (align_matrices_spec b (aligned_cells arg_s)) as (dp & path & Hrun & _ & Hpath).
    { eapply Forall_impl; [apply distribution_normalizable|exact Hdb]. }
    { eapply Forall_impl; [apply distribution_normalizable|exact Hs]. }
    rewrite Hrun, bind_ok. cbv beta iota zeta.
    destruct (trace_spec b (aligned_cells arg_s) (Alignment.base_weight self) weight path
                Hdb Hs Hbw ltac:(lra) ltac:(lra) Hpath fuel
                (List.length b) (List.length (aligned_cells arg_s)) []
                ltac:(lia) ltac:(lia) ltac:(lia)) as (L & HL & HnL & HlenL).
    unfold len. rewrite HL, bind_ok. simpl app.
    eexists. exists (rev L). split; [reflexivity|]. simpl.
    split; [reflexivity|]. split; [|split; [reflexivity|split; [reflexivity|]]].
    + unfold combined. simpl. split; [now apply Forall_rev|].
      split; [lra|]. rewrite length_rev. lia.
    + rewrite length_rev. split; [lia|]. intros b0 E. inversion E; subst. lia.
  - destruct Hself as [Hbw ->].
    destruct (mapM_normalized _ Hs) as (l' & Hrun & Hn & Hlen).
    rewrite Hrun, bind_ok.
    eexists. exists l'. split; [reflexivity|]. simpl.
    split; [reflexivity|]. split; [|split; [rewrite Hbw; lra|split; [reflexivity|]]].
    + unfold combined. simpl. split; [exact Hn|]. split; [lra|]. lia.
    + split; [lia|]. intros b0 E. discriminate.
Qed.

Lemma total_cells_cons (call : input * Q) (calls : list (input * Q)) :
  total_cells (call :: calls)
  = (List.length (aligned_cells (fst call)) + total_cells calls)%nat.
Proof. reflexivity. Qed.

Lemma run_combined (fuel : nat) (calls : list (input * Q)) :
  forall (self : Alignment.t) (n : nat),
    combined self n ->
    Forall (fun call => Forall distribution (cells_of (fst call)) /\ 0 < snd call) calls ->
    (n + total_cells calls <= fuel)%nat ->
    exists self',
      foldM (fun self call => Alignment.add_string fuel self (fst call) (snd call))
            calls self = Ok self' /\
      combined self' (n + total_cells calls) /\
      Alignment.base_weight self' == Alignment.base_weight self + sumQ (map snd calls) /\
      Alignment.ew self' = Alignment.ew self /\
      (forall b b', Alignment.base self = Some b -> Alignment.base self' = Some b' ->
                    (List.length b <= List.length b')%nat) /\
      (forall b', Alignment.base self' = Some b' ->
                  Forall (fun call => (List.length (cells_of (fst call))
                                       <= List.length b')%nat) calls).
Proof.
  induction calls as [|[arg_s w] calls IH]; intros self n Hself Hcalls Hfuel.
  - exists self. unfold total_cells. simpl. rewrite Nat.add_0_r.
    split; [reflexivity|]. split; [exact Hself|]. split; [lra|]. split; [reflexivity|].
    split; [intros b b' E E'; rewrite E in E'; inversion E'; lia|]. intros; constructor.
  - inversion Hcalls as [|? ? [Hin Hw] Hrest]; subst. simpl in Hin, Hw.
    rewrite total_cells_cons in *. cbn [fst] in *.
    destruct (add_string_combined fuel self arg_s w n Hself Hin Hw ltac:(lia))
      as (self1 & b1 & Hrun1 & Hb1 & Hc1 & Hbw1 & Hew1 & Hlen1 & Hmono1).
    destruct (IH self1 _ Hc1 Hrest ltac:(lia))
      as (self' & Hrun & Hc & Hbw & Hew & Hmono & Hall).
    exists self'. cbn [foldM fst snd]. rewrite Hrun1, bind_ok.
    split; [exact Hrun|]. split; [now rewrite Nat.add_assoc|].
    split; [rewrite Hbw, Hbw1; simpl; lra|]. split; [congruence|].
    split.
    + intros b b' E E'. specialize (Hmono1 b E). specialize (Hmono b1 b' Hb1 E'). lia.
    + intros b' E'. constructor; [|now apply Hall].
      simpl. specialize (Hmono b1 b' Hb1 E'). lia.
Qed.

(** ** Alignment: the first input and the string read back *)

Lemma append_empty_r (s : string) : (s ++ EmptyString)%string = s.
Proof. induction s as [|c s IH]; simpl; congruence. Qed.

Lemma append_assoc_char (r : string) (c : ascii) (s : string) :
  ((r ++ String c EmptyString) ++ s)%string = (r ++ String c s)%string.
Proof. induction r as [|d r IH]; simpl; congruence. Qed.

Lemma mapM_normalized_certain (l : list string) :
  mapM Cell.normalized (map (fun c => [(c, 1)]) l) = Ok (map certain l).
Proof.
  induction l as [|c l IH]; [reflexivity|].
  cbn [map mapM]. rewrite IH. reflexivity.
Qed.

Lemma best_key_not_from_certain (ch : ascii) :
  Cell.best_key_not_from (certain (String ch EmptyString)) es
  = if Ascii.eqb ch "@" then EmptyString else String ch EmptyString.
Proof.
  unfold Cell.best_key_not_from, certain, es. simpl.
  destruct (Ascii.eqb_spec ch "@") as [->|Hne]; [reflexivity|].
  destruct (ascii_dec ch "@"); [contradiction|]. reflexivity.
Qed.

Lemma dict_mem_certain (k k' : string) : dict_mem k (certain k') = String.eqb k k'.
Proof.
  unfold dict_mem, certain. cbn [dict_get]. now destruct (String.eqb k k').
Qed.

Lemma dict_at_certain (k : string) : dict_at (certain k) k = Ok 1.
Proof.
  unfold dict_at, certain. cbn [dict_get]. now rewrite String.eqb_refl.
Qed.

(** The loop of [get_string_result] on the Cells of a simple string. *)
Lemma string_result_certain (ew : Q) (s : string) :
  forall ret : string,
    foldM
      (fun ret cell =>
         let best_nonempty := Cell.best_key_not_from cell es in
         best_nonempty_score <-
           (if String.eqb best_nonempty EmptyString then Ok 0
            else dict_at cell best_nonempty) ;;
         empty_score <-
           (if negb (dict_mem es cell) then Ok 0 else dict_at cell es) ;;
         if Qltb (empty_score * ew) best_nonempty_score
         then Ok (ret ++ best_nonempty)%string
         else Ok ret)
      (map certain (chars s)) ret
    = Ok (ret ++ drop_char "@" s)%string.
Proof.
  match goal with |- forall ret, foldM ?f _ _ = _ => set (F := f) end.
  assert (Hstep : forall ret ch,
             F ret (certain (String ch EmptyString))
             = Ok (if Ascii.eqb ch "@" then ret
                   else (ret ++ String ch EmptyString)%string)).
  { intros ret ch. unfold F. cbv zeta.
    rewrite best_key_not_from_certain, dict_mem_certain.
    destruct (Ascii.eqb_spec ch "@") as [->|Hne].
    - change (String "@" EmptyString) with es.
      rewrite (String.eqb_refl es). cbn [negb].
      change (String.eqb EmptyString EmptyString) with true. cbv iota.
      rewrite dict_at_certain, !bind_ok.
      destruct (Qltb (1 * ew) 0); now rewrite ?append_empty_r.
    - change (String.eqb (String ch EmptyString) EmptyString) with false. cbv iota.
      rewrite dict_at_certain, bind_ok.
      replace (String.eqb es (String ch EmptyString)) with false
        by (symmetry; apply String.eqb_neq; unfold es; congruence).
      cbn [negb]. rewrite bind_ok.
      replace (Qltb (0 * ew) 1) with true by (symmetry; apply Qltb_lt; lra).
      reflexivity. }
  induction s as [|ch s IH]; intro ret.
  - cbn [chars list_ascii_of_string map foldM drop_char]. now rewrite append_empty_r.
  - change (chars (String ch s)) with (String ch EmptyString :: chars s).
    cbn [map foldM]. rewrite Hstep, bind_ok. cbn [drop_char].
    destruct (Ascii.eqb ch "@"); rewrite IH; [reflexivity|].
    now rewrite append_assoc_char.
Qed.

Lemma chars_nil (s : string) : len (chars s) = 0%Z -> s = EmptyString.
Proof.
  unfold len. rewrite length_chars. destruct s; [reflexivity|simpl; lia].
Qed.

(** ** AlignmentWithEstimation: what [add_string] leaves *)

Lemma inject_Z_succ (n : Z) : inject_Z n + 1 = inject_Z (n + 1).
Proof.
  unfold Qplus, inject_Z. simpl. f_equal. lia.
Qed.

Section EstimationMore.
Context {T : Type} {SS : SequenceStructure T}.

(** The estimation class traces the path as [Alignment] does with the
    weights [(base_samples, 1)], and appends as many dictionaries to [new_Y]
    as Cells to [new_base]. *)
Lemma estimation_trace_base (fuel : nat) :
  forall (path : matrix path_label) (base s : list Cell.t) (base_samples : Z)
         (alphabet : option string) (Y : list (dict T)) (i j : Z)
         (new_base new_base' : list Cell.t) (new_Y new_Y' : list (dict T)),
    AlignmentWithEstimation.trace fuel path base s base_samples alphabet Y i j
      new_base new_Y = Ok (new_base', new_Y') ->
    Alignment.trace fuel path base s (inject_Z base_samples) 1 i j new_base
    = Ok new_base' /\
    (List.length new_base' + List.length new_Y
     = List.length new_Y' + List.length new_base)%nat.
Proof.
  induction fuel as [|fuel IH]; intros path base s n al Y i j nb nb' nY nY' H.
  - cbn [AlignmentWithEstimation.trace Alignment.trace] in *.
    destruct ((0 <? i) || (0 <? j))%Z; [discriminate|].
    inversion H; subst. split; [reflexivity|lia].
  - cbn [AlignmentWithEstimation.trace Alignment.trace] in *.
    destruct ((0 <? i) || (0 <? j))%Z; [|inversion H; subst; split; [reflexivity|lia]].
    inv_bind H as label El. rewrite El, bind_ok.
    destruct (path_eqb label PATH_MATCHED).
    { inv_bind H as b Eb. inv_bind H as c Ec. inv_bind H as m Em.
      inv_bind H as y Ey. inv_bind H as c' Ec'. inv_bind H as y' Ey'.
      rewrite Eb, bind_ok, Ec, bind_ok, Em, bind_ok.
      destruct (IH _ _ _ _ _ _ _ _ _ _ _ _ H) as [Ht Hl].
      split; [exact Ht|]. rewrite !length_app in Hl. simpl in Hl. lia. }
    destruct (path_eqb label PATH_UNMATCHED_BASE).
    { inv_bind H as b Eb. inv_bind H as m Em.
      inv_bind H as y Ey. inv_bind H as y' Ey'.
      rewrite Eb, bind_ok, Em, bind_ok.
      destruct (IH _ _ _ _ _ _ _ _ _ _ _ _ H) as [Ht Hl].
      split; [exact Ht|]. rewrite !length_app in Hl. simpl in Hl. lia. }
    destruct (path_eqb label PATH_UNMATCHED_S).
    { inv_bind H as c Ec. inv_bind H as m Em.
      inv_bind H as c' Ec'. inv_bind H as y Ey. inv_bind H as c'' Ec''.
      inv_bind H as y' Ey'.
      rewrite Ec, bind_ok, Em, bind_ok.
      destruct (IH _ _ _ _ _ _ _ _ _ _ _ _ H) as [Ht Hl].
      split; [exact Ht|]. rewrite !length_app in Hl. simpl in Hl. lia. }
    exact (IH _ _ _ _ _ _ _ _ _ _ _ _ H).
Qed.

Lemma mapM_length {A B : Type} (f : A -> result B) (l : list A) (l' : list B) :
  mapM f l = Ok l' -> List.length l' = List.length l.
Proof.
  revert l'. induction l as [|x l IH]; intros l' H; simpl in H.
  - now inversion H.
  - inv_bind H as y Ey. inv_bind H as ys Eys. inversion H; subst.
    simpl. f_equal. now apply IH.
Qed.

(** What one [add_string] call of the estimation class returns. *)
Lemma estimation_add_string_inv (fuel : nat) (self self' : AlignmentWithEstimation.t T)
      (arg_s : input) :
  AlignmentWithEstimation.add_string fuel self arg_s = Ok self' ->
  let s := estimation_cells (AlignmentWithEstimation.alphabet self) arg_s in
  AlignmentWithEstimation.ew self' = AlignmentWithEstimation.ew self /\
  exists new_base new_Y,
    AlignmentWithEstimation.base self' = Some new_base /\
    AlignmentWithEstimation.Y self' = Some new_Y /\
    List.length new_Y = List.length new_base /\
    match AlignmentWithEstimation.base self with
    | None =>
        mapM Cell.normalized s = Ok new_base /\
        AlignmentWithEstimation.base_samples self' = 1%Z
    | Some base =>
        AlignmentWithEstimation.base_samples self'
        = (AlignmentWithEstimation.base_samples self + 1)%Z /\
        exists dp path traced,
          align_matrices base s = Ok (dp, path) /\
          Alignment.trace fuel path base s
            (inject_Z (AlignmentWithEstimation.base_samples self)) 1
            (len base) (len s) [] = Ok traced /\
          new_base = rev traced
    end.
Proof.
  intros H s0. unfold AlignmentWithEstimation.add_string in H.
  match type of H with
  | (let '(s, e) := ?X in _) = _ => destruct X as [s e] eqn:Es
  end.
  assert (Hs : s = s0).
  { unfold s0, estimation_cells, padded_ec.
    destruct (len (cells_of arg_s) =? 0)%Z; now inversion Es. }
  clearbody s0. subst s0. clear Es.
  destruct (AlignmentWithEstimation.base self) as [base|].
  - inv_bind H as Y0 EY0. inv_bind H as st Est. destruct st as [al1 Y1].
    inv_bind H as mats Emats. destruct mats as [dp path].
    inv_bind H as tr Etr. destruct tr as [nb nY].
    inversion H; subst; simpl.
    destruct (estimation_trace_base _ _ _ _ _ _ _ _ _ _ _ _ _ Etr) as [Ht Hl].
    split; [reflexivity|]. exists (rev nb), (rev nY).
    split; [reflexivity|]. split; [reflexivity|].
    split; [rewrite !length_rev; simpl in Hl; lia|].
    split; [reflexivity|]. now exists dp, path, nb.
  - inv_bind H as nb Enb. inv_bind H as nY EnY. inv_bind H as al Eal.
    inversion H; subst; simpl.
    split; [reflexivity|]. exists nb, nY.
    split; [reflexivity|]. split; [reflexivity|].
    split; [now apply mapM_length in EnY|]. now split.
Qed.

Lemma estimation_cells_nonempty (alphabet : option string) (arg_s : input) :
  cells_of arg_s <> [] ->
  estimation_cells alphabet arg_s = aligned_cells arg_s /\
  aligned_cells arg_s = cells_of arg_s.
Proof.
  intro H. unfold estimation_cells, aligned_cells, len.
  destruct (cells_of arg_s) as [|c l]; [congruence|].
  destruct (Z.eqb_spec (Z.of_nat (List.length (c :: l))) 0) as [E|_]; [simpl in E; lia|].
  now split.
Qed.

(** The bookkeeping of a run: the samples are counted, and [Y] is as long
    as the base. *)
Lemma estimation_run_counts (fuel : nat) (calls : list input) :
  forall self self' : AlignmentWithEstimation.t T,
    (AlignmentWithEstimation.base self = None ->
     AlignmentWithEstimation.base_samples self = 0%Z) ->
    foldM (fun self arg_s => AlignmentWithEstimation.add_string fuel self arg_s)
          calls self = Ok self' ->
    AlignmentWithEstimation.base_samples self'
    = (AlignmentWithEstimation.base_samples self + len calls)%Z /\
    AlignmentWithEstimation.ew self' = AlignmentWithEstimation.ew self /\
    (calls <> [] ->
     exists base Y,
       AlignmentWithEstimation.base self' = Some base /\
       AlignmentWithEstimation.Y self' = Some Y /\
       List.length Y = List.length base).
Proof.
  induction calls as [|arg_s calls IH]; intros self self' Hinit H; simpl in H.
  - inversion H; subst. unfold len. simpl. split; [lia|]. split; [reflexivity|].
    congruence.
  - inv_bind H as self1 E1.
    destruct (estimation_add_string_inv _ _ _ _ E1) as (Hew1 & nb & nY & Hb1 & HY1 & Hlen1 & Hcase).
    assert (Hn1 : AlignmentWithEstimation.base_samples self1
                  = (AlignmentWithEstimation.base_samples self + 1)%Z).
    { destruct (AlignmentWithEstimation.base self).
      - apply Hcase.
      - destruct Hcase as [_ ->]. rewrite (Hinit eq_refl). reflexivity. }
    destruct (IH self1 self' ltac:(rewrite Hb1; discriminate) H) as (Hn & Hew & HY).
    split; [rewrite Hn, Hn1, len_cons; lia|]. split; [congruence|].
    intros _. destruct calls as [|a calls'].
    + simpl in H. inversion H; subst. now exists nb, nY.
    + apply HY. discriminate.
Qed.

(** A run of the estimation class on inputs that are not empty, next to the
    run of [Alignment] on the same inputs with the weight 1. *)
Lemma estimation_run_base (fuel : nat) (calls : list input) :
  forall (selfE selfE' : AlignmentWithEstimation.t T) (selfA : Alignment.t),
    Forall (fun arg_s => cells_of arg_s <> []) calls ->
    Alignment.base selfA = AlignmentWithEstimation.base selfE ->
    Alignment.ew selfA = AlignmentWithEstimation.ew selfE ->
    (AlignmentWithEstimation.base selfE <> None ->
     Alignment.base_weight selfA
     = inject_Z (AlignmentWithEstimation.base_samples selfE)) ->
    foldM (fun self arg_s => AlignmentWithEstimation.add_string fuel self arg_s)
          calls selfE = Ok selfE' ->
    exists selfA',
      foldM (fun self call => Alignment.add_string fuel self (fst call) (snd call))
            (map (fun arg_s => (arg_s, 1)) calls) selfA = Ok selfA' /\
      Alignment.base selfA' = AlignmentWithEstimation.base selfE' /\
      Alignment.ew selfA' = AlignmentWithEstimation.ew selfE'.
Proof.
  induction calls as [|arg_s calls IH]; intros selfE selfE' selfA Hne Hb Hew Hbw H;
    simpl in H.
  - inversion H; subst. exists selfA. now repeat split.
  - inversion Hne as [|? ? Hne1 Hne']; subst.
    inv_bind H as selfE1 E1.
    destruct (estimation_add_string_inv _ _ _ _ E1)
      as (Hew1 & nb & nY & Hb1 & HY1 & Hlen1 & Hcase).
    destruct (estimation_cells_nonempty (AlignmentWithEstimation.alphabet selfE) arg_s Hne1)
      as [Ecells _].
    rewrite Ecells in Hcase.
    assert (Hstep : exists selfA1,
               Alignment.add_string fuel selfA arg_s 1 = Ok selfA1 /\
               Alignment.base selfA1 = Some nb /\
               Alignment.ew selfA1 = AlignmentWithEstimation.ew selfE1 /\
               Alignment.base_weight selfA1
               = inject_Z (AlignmentWithEstimation.base_samples selfE1)).
    { unfold Alignment.add_string. fold (aligned_cells arg_s). rewrite Hb.
      destruct (AlignmentWithEstimation.base selfE) as [base|].
      - destruct Hcase as (Hn & dp & path & traced & Hm & Ht & ->).
        rewrite Hm, bind_ok. cbv beta iota zeta.
        rewrite (Hbw ltac:(discriminate)), Ht, bind_ok.
        eexists. split; [reflexivity|]. simpl.
        split; [reflexivity|]. split; [congruence|].
        rewrite Hn. apply inject_Z_succ.
      - destruct Hcase as [Hm Hn]. rewrite Hm, bind_ok.
        eexists. split; [reflexivity|]. simpl.
        split; [reflexivity|]. split; [congruence|]. now rewrite Hn. }
    destruct Hstep as (selfA1 & HA1 & HbA1 & HewA1 & HbwA1).
    destruct (IH selfE1 selfE' selfA1 Hne' ltac:(congruence) HewA1 ltac:(intros _; exact HbwA1) H)
      as (selfA' & Hrun & Hb' & Hew').
    exists selfA'. cbn [map foldM fst snd]. rewrite HA1, bind_ok. now repeat split.
Qed.

End EstimationMore.

(** ** get_modelling_sum: the list-backed structure *)

Lemma nth_list_set {A : Type} (l : list A) (k i : nat) (a d : A) :
  (k < List.length l)%nat ->
  nth i (list_set l k a) d = if Nat.eqb i k then a else nth i l d.
Proof.
  revert k i. induction l as [|x l IH]; intros [|k] [|i] Hk; simpl in *;
    try lia; try reflexivity.
  apply IH. lia.
Qed.

Lemma modify_nth (d : list Q) (k : nat) (f : Q -> Q) :
  (k < List.length d)%nat ->
  modify d (Z.of_nat k) f = Ok (list_set d k (f (nth k d 0))).
Proof.
  intro Hk.
  destruct (nth_error d k) as [v|] eqn:E; [|apply nth_error_None in E; lia].
  rewrite (modify_at d _ k v f (py_index_nat d k Hk) E).
  now rewrite (nth_error_nth d k 0 E).
Qed.

(** [for i, e in enumerate(xs): d[i] += e], from the index [k] on. *)
Lemma add_terms (xs : list Q) :
  forall (k : nat) (d : list Q),
    (k + List.length xs <= List.length d)%nat ->
    exists d',
      foldM (fun d ix => modify d (fst ix) (fun v => v + snd ix))
            (combine (range (Z.of_nat k) (Z.of_nat k + len xs)) xs) d = Ok d' /\
      List.length d' = List.length d /\
      forall i, nth i d' 0
                = if (k <=? i)%nat && (i <? k + List.length xs)%nat
                  then nth i d 0 + nth (i - k) xs 0 else nth i d 0.
Proof.
  induction xs as [|x xs IH]; intros k d Hk.
  - exists d. unfold len. simpl. rewrite Z.add_0_r, range_nil by lia. simpl.
    split; [reflexivity|]. split; [reflexivity|]. intro i.
    replace (k + 0)%nat with k by lia.
    destruct (Nat.leb_spec k i), (Nat.ltb_spec i k); simpl; try reflexivity; lia.
  - rewrite len_cons, range_cons by (unfold len; lia). cbn [combine foldM fst snd].
    simpl in Hk. rewrite modify_nth by lia. rewrite bind_ok.
    replace (Z.of_nat k + 1)%Z with (Z.of_nat (S k)) by lia.
    replace (Z.of_nat k + (1 + len xs))%Z with (Z.of_nat (S k) + len xs)%Z by lia.
    destruct (IH (S k) (list_set d k (nth k d 0 + x))) as (d' & Hrun & Hlen & Hnth).
    { rewrite length_list_set. lia. }
    exists d'. split; [exact Hrun|]. rewrite length_list_set in Hlen.
    split; [exact Hlen|]. intro i. rewrite Hnth, nth_list_set by lia.
    destruct (Nat.eqb_spec i k) as [->|Hik].
    + replace (S k <=? k)%nat with false by (symmetry; apply Nat.leb_gt; lia).
      rewrite Nat.leb_refl. simpl andb.
      replace (k <? k + S (List.length xs))%nat with true
        by (symmetry; apply Nat.ltb_lt; lia).
      now rewrite Nat.sub_diag.
    + destruct (Nat.leb_spec (S k) i), (Nat.leb_spec k i),
        (Nat.ltb_spec i (S k + List.length xs)),
        (Nat.ltb_spec i (k + List.length (x :: xs))); simpl in *; try lia;
        try reflexivity.
      replace (i - k)%nat with (S (i - S k)) by lia. reflexivity.
Qed.

(** One history added to the separate sums. *)
Lemma add_history (es : list Q) (n : Z) (d : list Q) :
  List.length es = List.length d ->
  let h := ListBasedSequenceStructure.inserts es in
  exists d',
    foldM (fun d ix => modify d (fst ix) (fun v => v + snd ix))
          (combine (range 0 (len (ListBasedSequenceStructure.elements h)))
                   (ListBasedSequenceStructure.history_terms h n)) d = Ok d' /\
    List.length d' = List.length d /\
    forall i, (i < List.length d)%nat ->
              nth i d' 0 == nth i d 0 + Qabs (sumQ es - inject_Z n * nth i es 0).
Proof.
  intros Hlen h. destruct (list_inserts es) as [Hel Hsum]. fold h in Hel, Hsum.
  unfold ListBasedSequenceStructure.history_terms. rewrite Hel.
  set (xs := map (fun e => Qabs (ListBasedSequenceStructure.get_sum h - inject_Z n * e)) es).
  assert (Hxs : List.length xs = List.length es) by (unfold xs; apply length_map).
  destruct (add_terms xs 0 d ltac:(lia)) as (d' & Hrun & Hlen' & Hnth).
  exists d'. change (Z.of_nat 0) with 0%Z in Hrun. rewrite Z.add_0_l in Hrun.
  replace (len es) with (len xs) by (unfold len; now rewrite Hxs).
  split; [exact Hrun|]. split; [exact Hlen'|].
  intros i Hi. rewrite Hnth.
  replace ((0 <=? i)%nat && (i <? 0 + List.length xs)%nat) with true
    by (symmetry; apply andb_true_iff; split; [apply Nat.leb_le|apply Nat.ltb_lt]; lia).
  rewrite Nat.sub_0_r. unfold xs.
  rewrite (nth_indep (map (fun e => Qabs (ListBasedSequenceStructure.get_sum h
                                           - inject_Z n * e)) es)
                     0 (Qabs (ListBasedSequenceStructure.get_sum h - inject_Z n * 0)))
    by (rewrite length_map; lia).
  rewrite (map_nth (fun e => Qabs (ListBasedSequenceStructure.get_sum h - inject_Z n * e))).
  apply Qplus_comp; [reflexivity|]. apply Qabs_wd.
  unfold Qminus. apply Qplus_comp; [exact Hsum|reflexivity].
Qed.

Section ListModelling.
Variable n : Z.
Hypothesis Hn : (1 <= n)%Z.

Let term (i : nat) (kv : string * list (Z * Q)) : Q :=
  Qabs (sumQ (map snd (snd kv)) - inject_Z n * nth i (map snd (snd kv)) 0).

Let stored_history (kv : string * list (Z * Q)) : string * ListBasedSequenceStructure.t :=
  (fst kv, ListBasedSequenceStructure.inserts (map snd (snd kv))).

Let add_one (cell' : dict ListBasedSequenceStructure.t) (d : list Q) (c : string)
  : result (list Q) :=
  h <- dict_at cell' c ;;
  foldM (fun d ix => modify d (fst ix) (fun v => v + snd ix))
        (combine (range 0 (len (ListBasedSequenceStructure.elements h)))
                 (ListBasedSequenceStructure.history_terms h n)) d.

Lemma list_cell_from (cell' : dict ListBasedSequenceStructure.t)
      (rest : list (string * list (Z * Q))) :
  forall d : list Q,
    (forall kv, In kv rest -> dict_at cell' (fst kv) = Ok (snd (stored_history kv))) ->
    Forall (fun kv => len (snd kv) = n) rest ->
    List.length d = Z.to_nat n ->
    exists d',
      foldM (add_one cell') (map fst rest) d = Ok d' /\
      List.length d' = List.length d /\
      forall i, (i < List.length d)%nat ->
                nth i d' 0 == nth i d 0 + sumQ (map (term i) rest).
Proof.
  induction rest as [|kv rest IH]; intros d Hat Hlen Hd.
  - exists d. split; [reflexivity|]. split; [reflexivity|]. intros i _. simpl. lra.
  - apply Forall_cons_iff in Hlen. destruct Hlen as [Hkv Hrest].
    cbn [map foldM]. unfold add_one at 1. rewrite (Hat kv (or_introl eq_refl)), bind_ok.
    destruct (add_history (map snd (snd kv)) n d) as (d1 & Hrun1 & Hlen1 & Hnth1).
    { rewrite length_map. unfold len in Hkv. lia. }
    cbv zeta in Hrun1. unfold stored_history. cbn [snd]. rewrite Hrun1, bind_ok.
    destruct (IH d1 ltac:(intros; apply Hat; now right) Hrest ltac:(lia))
      as (d' & Hrun & Hlen' & Hnth).
    exists d'. split; [exact Hrun|]. split; [lia|].
    intros i Hi. rewrite Hnth by lia. rewrite Hnth1 by lia.
    cbn [map sumQ]. unfold term at 2. lra.
Qed.

Lemma list_cell (cell : dict (list (Z * Q))) (d : list Q) :
  NoDup (keys cell) -> Forall (fun kv => len (snd kv) = n) cell ->
  List.length d = Z.to_nat n ->
  exists d',
    foldM (add_one (map stored_history cell)) (keys (map stored_history cell)) d = Ok d' /\
    List.length d' = List.length d /\
    forall i, (i < List.length d)%nat ->
              nth i d' 0 == nth i d 0 + sumQ (map (term i) cell).
Proof.
  intros Hnd Hlen Hd.
  assert (Hk : keys (map stored_history cell) = map fst cell).
  { unfold keys. rewrite map_map. reflexivity. }
  rewrite Hk. apply list_cell_from; try assumption.
  intros kv Hin. unfold dict_at.
  rewrite (dict_get_item (map stored_history cell) (fst kv) (snd (stored_history kv)));
    [reflexivity| |].
  - rewrite Hk. exact Hnd.
  - change (fst kv, snd (stored_history kv)) with (stored_history kv). now apply in_map.
Qed.

Lemma list_cells (data : histories) :
  forall d : list Q,
    regular data n -> List.length d = Z.to_nat n ->
    exists d',
      foldM (fun d cell => foldM (add_one cell) (keys cell) d) (list_Y data) d = Ok d' /\
      List.length d' = List.length d /\
      forall i, (i < List.length d)%nat ->
                nth i d' 0 == nth i d 0 + deviation data n i.
Proof.
  induction data as [|cell data IH]; intros d Hreg Hd.
  - exists d. split; [reflexivity|]. split; [reflexivity|]. intros i _.
    unfold deviation. simpl. lra.
  - apply Forall_cons_iff in Hreg. destruct Hreg as [[Hnd Hlen] Hrest].
    destruct (list_cell cell d Hnd Hlen Hd) as (d1 & Hrun1 & Hlen1 & Hnth1).
    destruct (IH d1 Hrest ltac:(lia)) as (d' & Hrun & Hlen' & Hnth).
    exists d'. unfold list_Y. cbn [map foldM]. fold (list_Y data).
    change (map (fun kv => (fst kv, ListBasedSequenceStructure.inserts (map snd (snd kv)))) cell)
      with (map stored_history cell).
    rewrite Hrun1, bind_ok. split; [exact Hrun|]. split; [lia|].
    intros i Hi. rewrite Hnth by lia. rewrite Hnth1 by lia.
    unfold deviation. cbn [map sumQ]. fold (deviation data n i). unfold term. lra.
Qed.

End ListModelling.

Lemma fold_left_Qplus (l : list Q) (a : Q) : fold_left Qplus l a == a + sumQ l.
Proof.
  revert a. induction l as [|x l IH]; intro a; simpl; [lra|]. rewrite IH. lra.
Qed.

Lemma seq_nth_all {A : Type} (d : A) (l : list A) :
  map (fun i => nth i l d) (seq 0 (List.length l)) = l.
Proof.
  apply nth_ext with (d := d) (d' := d).
  - now rewrite length_map, length_seq.
  - intros i Hi. rewrite length_map, length_seq in Hi.
    rewrite (nth_indep _ d (nth (List.length l) l d)) by (now rewrite length_map, length_seq).
    rewrite (map_nth (fun i => nth i l d)). now rewrite seq_nth.
Qed.

Lemma sumQ_pointwise (l : list Q) (g : nat -> Q) :
  (forall i, (i < List.length l)%nat -> nth i l 0 == g i) ->
  sumQ l == sumQ (map g (seq 0 (List.length l))).
Proof.
  intro H. rewrite <- (seq_nth_all 0 l) at 1.
  apply sumQ_map_ext. intros i Hi. apply H. apply in_seq in Hi. lia.
Qed.

Lemma normalized_gld_compat (m : Z) (x y : Q) :
  x == y -> normalized_gld m x == normalized_gld m y.
Proof. intro H. unfold normalized_gld. now rewrite H. Qed.

(** The second loop of the list-backed [get_modelling_sum]: each sum is
    scaled and normalized on its own. *)
Lemma normalize_each (n m : Z) (d0 : list Q) :
  (1 <= n)%Z -> (1 <= m)%Z -> List.length d0 = Z.to_nat n ->
  (forall i, (i < List.length d0)%nat -> 0 <= nth i d0 0) ->
  exists d',
    foldM
      (fun d i =>
         d <- (v <- py_get d i ;;
               v' <- py_div v (inject_Z (2 * n * (n + 1))) ;;
               py_set d i v') ;;
         v <- py_get d i ;;
         v' <- py_div (2 * v) (v + 2 * inject_Z m) ;;
         py_set d i v')
      (range 0 n) d0 = Ok d' /\
    List.length d' = List.length d0 /\
    forall i, (i < List.length d0)%nat ->
              nth i d' 0
              == normalized_gld m (nth i d0 0 / inject_Z (2 * n * (n + 1))).
Proof.
  intros Hn Hm Hlen Hpos.
  set (c := inject_Z (2 * n * (n + 1))).
  assert (Hc : 0 < c).
  { unfold c. change 0 with (inject_Z 0). rewrite <- Zlt_Qlt. nia. }
  assert (HmQ : 1 <= inject_Z m).
  { change 1 with (inject_Z 1). now rewrite <- Zle_Qle. }
  destruct (foldM_range
              (fun k d =>
                 List.length d = List.length d0 /\
                 (forall i, (Z.of_nat i < k)%Z -> (i < List.length d0)%nat ->
                            nth i d 0 == normalized_gld m (nth i d0 0 / c)) /\
                 (forall i, (k <= Z.of_nat i)%Z -> nth i d 0 = nth i d0 0))
              (fun d i =>
                 d <- (v <- py_get d i ;;
                       v' <- py_div v c ;;
                       py_set d i v') ;;
                 v <- py_get d i ;;
                 v' <- py_div (2 * v) (v + 2 * inject_Z m) ;;
                 py_set d i v')
              0 n d0) as (d' & Hrun & Hl & Hdone & _).
  - lia.
  - split; [reflexivity|]. split; [intros; lia|reflexivity].
  - intros k d Hk (Hl & Hdone & Hrest).
    assert (Hkd : (0 <= k < len d)%Z) by (unfold len; lia).
    destruct (py_get_nth d k Hkd) as (v & Hv & Hget).
    assert (Ev : v = nth (Z.to_nat k) d0 0).
    { rewrite <- (Hrest (Z.to_nat k)) by lia. symmetry. now apply nth_error_nth. }
    assert (Hv0 : 0 <= v) by (rewrite Ev; apply Hpos; lia).
    rewrite Hget, bind_ok, (py_div_ok v c) by lra.
    rewrite bind_ok, (py_set_nth d k _ Hkd), bind_ok.
    set (d1 := list_set d (Z.to_nat k) (v / c)).
    assert (Hkd1 : (0 <= k < len d1)%Z)
      by (unfold d1, len; rewrite length_list_set; unfold len in Hkd; lia).
    destruct (py_get_nth d1 k Hkd1) as (v1 & Hv1 & Hget1).
    assert (Ev1 : v1 = v / c).
    { unfold d1 in Hv1. rewrite nth_error_list_set_same in Hv1 by (unfold len in Hkd; lia).
      now inversion Hv1. }
    assert (Hv1pos : 0 <= v / c) by (apply Qle_shift_div_l; lra).
    rewrite Hget1, bind_ok, Ev1, py_div_ok by lra.
    rewrite bind_ok, (py_set_nth d1 k _ Hkd1).
    eexists. split; [reflexivity|].
    unfold d1. rewrite !length_list_set. split; [exact Hl|]. split.
    + intros i Hi Hi0. rewrite list_set_twice, nth_list_set by (unfold len in Hkd; lia).
      destruct (Nat.eqb_spec i (Z.to_nat k)) as [->|Hne].
      * rewrite <- Ev. reflexivity.
      * apply Hdone; lia.
    + intros i Hi. rewrite list_set_twice, nth_list_set by (unfold len in Hkd; lia).
      destruct (Nat.eqb_spec i (Z.to_nat k)) as [->|Hne]; [lia|]. apply Hrest. lia.
  - exists d'. split; [exact Hrun|]. split; [exact Hl|].
    intros i Hi. apply Hdone; lia.
Qed.

Lemma deviation_nonneg (data : histories) (n : Z) (i : nat) : 0 <= deviation data n i.
Proof.
  unfold deviation. apply sumQ_map_nonneg. intros cell _.
  apply sumQ_map_nonneg. intros kv _. apply Qabs_nonneg.
Qed.

Lemma list_modelling_value (data : histories) (n : Z) :
  (1 <= n)%Z -> data <> [] -> regular data n ->
  exists v,
    ListBasedSequenceStructure.get_modelling_sum (list_Y data) n = Ok v /\
    v == sumQ (map (fun i => normalized_gld (len data)
                               (deviation data n i / inject_Z (2 * n * (n + 1))))
                   (seq 0 (Z.to_nat n))).
Proof.
  intros Hn Hne Hreg.
  unfold ListBasedSequenceStructure.get_modelling_sum.
  destruct (list_cells n Hn data (repeat 0 (Z.to_nat n)) Hreg (repeat_length _ _))
    as (d1 & Hrun1 & Hlen1 & Hnth1).
  cbv zeta in Hrun1. rewrite Hrun1, bind_ok.
  rewrite repeat_length in Hlen1, Hnth1.
  assert (Hm : len (list_Y data) = len data)
    by (unfold list_Y, len; now rewrite length_map).
  assert (Hm1 : (1 <= len data)%Z).
  { unfold len. destruct data; [congruence|]. simpl. lia. }
  assert (Hd1 : forall i, (i < Z.to_nat n)%nat -> nth i d1 0 == deviation data n i).
  { intros i Hi. rewrite (Hnth1 i Hi), nth_repeat. lra. }
  destruct (normalize_each n (len (list_Y data)) d1 Hn ltac:(lia) Hlen1)
    as (d2 & Hrun2 & Hlen2 & Hnth2).
  { intros i Hi. rewrite Hd1 by lia. apply deviation_nonneg. }
  rewrite Hrun2, bind_ok. eexists. split; [reflexivity|].
  rewrite fold_left_Qplus, Qplus_0_l.
  rewrite (sumQ_pointwise d2
             (fun i => normalized_gld (len data)
                         (deviation data n i / inject_Z (2 * n * (n + 1))))).
  - now rewrite Hlen2, Hlen1.
  - intros i Hi. rewrite Hnth2 by lia. rewrite Hm.
    apply normalized_gld_compat. rewrite Hd1 by lia. reflexivity.
Qed.

(** ** get_modelling_sum: the tree-backed structure *)

(** What one history adds: half of the deviations of its values. *)
Lemma treap_history (fuel : nat) (calls : list (Z * Q)) (n : Z) :
  len calls = n -> (1 <= n)%Z -> (List.length calls < fuel)%nat ->
  exists h q,
    TreapBasedSequenceStructure.inserts fuel calls = Ok h /\
    TreapBasedSequenceStructure.history_term fuel h n = Ok q /\
    q == sumQ (map (fun e => Qabs (sumQ (map snd calls) - inject_Z n * e))
                   (map snd calls)) / 2.
Proof.
  intros Hlen Hn Hfuel. subst n. set (es := map snd calls).
  assert (Hnes : len calls = len es) by (unfold es, len; now rewrite length_map).
  rewrite Hnes in *.
  assert (Hes : es <> []).
  { intro E. rewrite E in Hn. unfold len in Hn. simpl in Hn. lia. }
  assert (HnQ : 0 < inject_Z (len es)).
  { change 0 with (inject_Z 0). rewrite <- Zlt_Qlt. lia. }
  destruct (build_inv fuel calls Hfuel) as (T & t & Hrun & Hinv & Hperm & _).
  destruct (treap_get_sum T t Hinv) as (s & Hsum & Hs).
  assert (Hs' : s == sumQ es) by (rewrite Hs; now apply sumQ_perm).
  destruct Hinv as (Hroot & Hshaped & Hidx & Hsorted).
  destruct (get_lower_spec (s / inject_Z (len es)) t fuel (Treap.nodes T) Hshaped Hsorted)
    as (ls & Hget & Hls).
  { rewrite size_elems, (Permutation_length Hperm). now rewrite length_map. }
  pose proof (filter_perm (fun x => Qltb x (s / inject_Z (len es))) _ _ Hperm) as Hf.
  fold (below (s / inject_Z (len es)) (elems t)) in Hf.
  fold (below (s / inject_Z (len es)) (map snd calls)) in Hf. fold es in Hf.
  exists (TreapBasedSequenceStructure.mk T),
    (s * inject_Z (len (below (s / inject_Z (len es)) (elems t)))
     - inject_Z (len es) * ls).
  split.
  { unfold TreapBasedSequenceStructure.inserts, TreapBasedSequenceStructure.new.
    rewrite treap_inserts_from. unfold Treap.build in Hrun. now rewrite Hrun. }
  split.
  { unfold TreapBasedSequenceStructure.history_term.
    rewrite Hsum, bind_ok, (py_div_ok s (inject_Z (len es))) by lra.
    rewrite bind_ok. simpl TreapBasedSequenceStructure.treap.
    rewrite <- Hroot in Hget. rewrite Hget. reflexivity. }
  rewrite (deviations_closed_form es (sumQ es) (s / inject_Z (len es)) Hes (Qeq_refl _)).
  2:{ now rewrite Hs'. }
  rewrite Hls, (sumQ_perm _ _ Hf).
  unfold len at 1. rewrite (Permutation_length Hf).
  fold (len (below (s / inject_Z (len es)) es)).
  generalize (inject_Z (len (below (s / inject_Z (len es)) es))).
  generalize (sumQ (below (s / inject_Z (len es)) es)).
  intros x y. rewrite Hs'. field.
Qed.

Section TreapModelling.
Variables (fuel : nat) (n : Z).
Hypothesis Hn : (1 <= n)%Z.
Hypothesis Hfuel : (Z.to_nat n < fuel)%nat.

Let half (kv : string * list (Z * Q)) : Q :=
  sumQ (map (fun e => Qabs (sumQ (map snd (snd kv)) - inject_Z n * e))
            (map snd (snd kv))) / 2.

Let add_term (cell' : dict TreapBasedSequenceStructure.t) (ret : Q) (c : string)
  : result Q :=
  h <- dict_at cell' c ;;
  x <- TreapBasedSequenceStructure.history_term fuel h n ;;
  Ok (ret + x).

(** The histories of one dictionary are built, each with its term. *)
Lemma treap_cell_built (cell : dict (list (Z * Q))) :
  Forall (fun kv => len (snd kv) = n) cell ->
  exists cell',
    mapM (fun kv => h <- TreapBasedSequenceStructure.inserts fuel (snd kv) ;;
                    Ok (fst kv, h)) cell = Ok cell' /\
    Forall2 (fun kv kv' =>
               fst kv' = fst kv /\
               exists q, TreapBasedSequenceStructure.history_term fuel (snd kv') n = Ok q /\
                         q == half kv) cell cell'.
Proof.
  induction cell as [|kv cell IH]; intro Hlen.
  - exists []. split; [reflexivity|constructor].
  - apply Forall_cons_iff in Hlen. destruct Hlen as [Hkv Hrest].
    destruct (IH Hrest) as (cell' & Hrun & Hall).
    destruct (treap_history fuel (snd kv) n Hkv Hn) as (h & q & Hins & Hterm & Hq).
    { unfold len in Hkv. lia. }
    exists ((fst kv, h) :: cell'). cbn [mapM]. rewrite Hins, !bind_ok, Hrun, bind_ok.
    split; [reflexivity|]. constructor; [|exact Hall].
    split; [reflexivity|]. now exists q.
Qed.

Lemma treap_cell_from (cell' : dict TreapBasedSequenceStructure.t)
      (rest : dict (list (Z * Q))) (rest' : dict TreapBasedSequenceStructure.t) :
  NoDup (keys cell') -> (forall kv', In kv' rest' -> In kv' cell') ->
  Forall2 (fun kv kv' =>
             fst kv' = fst kv /\
             exists q, TreapBasedSequenceStructure.history_term fuel (snd kv') n = Ok q /\
                       q == half kv) rest rest' ->
  forall ret : Q,
  exists ret',
    foldM (add_term cell') (keys rest') ret = Ok ret' /\
    ret' == ret + sumQ (map half rest).
Proof.
  intros Hnd Hin Hall. induction Hall as [|kv kv' rest rest' [Hk (q & Hq & Eq)] _ IH];
    intro ret.
  - exists ret. split; [reflexivity|]. simpl. lra.
  - destruct (IH ltac:(intros; apply Hin; now right) (ret + q)) as (ret' & Hrun & Hret).
    exists ret'. cbn [keys map foldM]. unfold add_term at 1. unfold dict_at.
    rewrite (dict_get_item cell' (fst kv') (snd kv') Hnd)
      by (rewrite <- surjective_pairing; apply Hin; now left).
    rewrite bind_ok, Hq, bind_ok. fold (keys rest'). rewrite bind_ok.
    split; [exact Hrun|]. rewrite Hret. cbn [map sumQ]. rewrite Eq. lra.
Qed.

Lemma Forall2_keys (cell : dict (list (Z * Q))) (cell' : dict TreapBasedSequenceStructure.t)
      (R : string * list (Z * Q) -> string * TreapBasedSequenceStructure.t -> Prop) :
  Forall2 (fun kv kv' => fst kv' = fst kv /\ R kv kv') cell cell' -> keys cell' = keys cell.
Proof.
  induction 1 as [|kv kv' l l' [E _] _ IH]; [reflexivity|].
  unfold keys in *. simpl. now rewrite E, IH.
Qed.

Lemma treap_cells (data : histories) :
  regular data n ->
  exists Y,
    treap_Y fuel data = Ok Y /\ len Y = len data /\
    forall ret : Q,
    exists ret',
      foldM (fun ret cell => foldM (add_term cell) (keys cell) ret) Y ret = Ok ret' /\
      ret' == ret + sumQ (map (fun cell => sumQ (map half cell)) data).
Proof.
  induction data as [|cell data IH]; intro Hreg.
  - exists []. split; [reflexivity|]. split; [reflexivity|].
    intro ret. exists ret. split; [reflexivity|]. simpl. lra.
  - apply Forall_cons_iff in Hreg. destruct Hreg as [[Hnd Hlen] Hrest].
    destruct (IH Hrest) as (Y & HY & HlenY & Hfold).
    destruct (treap_cell_built cell Hlen) as (cell' & Hcell & Hall).
    exists (cell' :: Y). unfold treap_Y in *. cbn [mapM].
    rewrite Hcell, bind_ok, HY, bind_ok. split; [reflexivity|].
    split; [rewrite !len_cons; lia|].
    intro ret.
    destruct (treap_cell_from cell' cell cell') with (ret := ret)
      as (ret1 & Hrun1 & Hret1).
    { rewrite (Forall2_keys _ _ _ Hall). exact Hnd. }
    { auto. }
    { exact Hall. }
    destruct (Hfold ret1) as (ret' & Hrun & Hret).
    exists ret'. cbn [foldM]. rewrite Hrun1, bind_ok. split; [exact Hrun|].
    rewrite Hret, Hret1. cbn [map sumQ]. lra.
Qed.

End TreapModelling.

Lemma sumQ_exchange {A B : Type} (a : A -> B -> Q) (X : list A) (L : list B) :
  sumQ (map (fun x => sumQ (map (a x) L)) X)
  == sumQ (map (fun i => sumQ (map (fun x => a x i) X)) L).
Proof.
  induction X as [|x X IH]; simpl.
  - symmetry. apply sumQ_map_zero. reflexivity.
  - rewrite IH, <- sumQ_map_plus. reflexivity.
Qed.

(** The terms of all histories are half of the deviations of all samples. *)
Lemma halves_deviations (data : histories) (n : Z) :
  (0 <= n)%Z -> regular data n ->
  sumQ (map (fun cell =>
               sumQ (map (fun kv =>
                            sumQ (map (fun e => Qabs (sumQ (map snd (snd kv))
                                                      - inject_Z n * e))
                                      (map snd (snd kv))) / 2) cell)) data)
  == sumQ (map (deviation data n) (seq 0 (Z.to_nat n))) / 2.
Proof.
  intros Hn Hreg.
  assert (E : sumQ (map (deviation data n) (seq 0 (Z.to_nat n)))
              == sumQ (map (fun cell =>
                              sumQ (map (fun kv =>
                                           sumQ (map (fun e =>
                                                        Qabs (sumQ (map snd (snd kv))
                                                              - inject_Z n * e))
                                                     (map snd (snd kv)))) cell)) data)).
  { unfold deviation. rewrite <- sumQ_exchange.
    apply sumQ_map_ext. intros cell Hcell.
    rewrite <- sumQ_exchange. apply sumQ_map_ext. intros kv Hkv.
    unfold regular in Hreg. rewrite Forall_forall in Hreg.
    destruct (Hreg cell Hcell) as [_ Hlen]. rewrite Forall_forall in Hlen.
    specialize (Hlen kv Hkv).
    assert (Hl : Z.to_nat n = List.length (map snd (snd kv))).
    { rewrite length_map. unfold len in Hlen. lia. }
    rewrite Hl. generalize (sumQ (map snd (snd kv))). intro t.
    set (es := map snd (snd kv)).
    transitivity (sumQ (map (fun e => Qabs (t - inject_Z n * e))
                            (map (fun i => nth i es 0) (seq 0 (List.length es))))).
    - rewrite map_map. reflexivity.
    - now rewrite seq_nth_all. }
  rewrite E. clear E.
  induction data as [|cell data IH]; [reflexivity|].
  apply Forall_cons_iff in Hreg. destruct Hreg as [_ Hrest].
  cbn [map sumQ]. rewrite (IH Hrest).
  assert (Hc : forall l : list (string * list (Z * Q)),
             sumQ (map (fun kv =>
                          sumQ (map (fun e => Qabs (sumQ (map snd (snd kv))
                                                    - inject_Z n * e))
                                    (map snd (snd kv))) / 2) l)
             == sumQ (map (fun kv =>
                             sumQ (map (fun e => Qabs (sumQ (map snd (snd kv))
                                                       - inject_Z n * e))
                                       (map snd (snd kv)))) l) / 2).
  { induction l as [|kv l IHl]; [reflexivity|]. cbn [map sumQ]. rewrite IHl. field. }
  rewrite Hc. field.
Qed.

(** The normalization is subadditive: normalizing a sum gives less than
    the normalized terms together. *)
Lemma member_le_sum (l : list Q) (x : Q) :
  (forall y, In y l -> 0 <= y) -> In x l -> x <= sumQ l.
Proof.
  induction l as [|y l IH]; intros Hpos Hin; [contradiction|].
  simpl. assert (0 <= sumQ l).
  { rewrite <- (map_id l). apply sumQ_map_nonneg. intros z Hz. apply Hpos. now right. }
  destruct Hin as [->|Hin].
  - lra.
  - specialize (IH ltac:(intros; apply Hpos; now right) Hin).
    specialize (Hpos y (or_introl eq_refl)). lra.
Qed.

Lemma sumQ_map_div (t : Q) (l : list Q) :
  sumQ (map (fun x => 2 * x / t) l) == 2 * sumQ l / t.
Proof.
  induction l as [|x l IH]; simpl.
  - unfold Qdiv. ring.
  - rewrite IH. unfold Qdiv. ring.
Qed.

Lemma normalized_gld_subadditive (m : Z) (l : list Q) :
  (1 <= m)%Z -> (forall y, In y l -> 0 <= y) ->
  normalized_gld m (sumQ l) <= sumQ (map (normalized_gld m) l).
Proof.
  intros Hm Hpos. unfold normalized_gld.
  set (c := 2 * inject_Z m).
  assert (Hc : 0 < c).
  { unfold c. assert (1 <= inject_Z m)
      by (change 1 with (inject_Z 1); now rewrite <- Zle_Qle). lra. }
  assert (HS : 0 <= sumQ l).
  { rewrite <- (map_id l). now apply sumQ_map_nonneg. }
  apply Qle_trans with (sumQ (map (fun x => 2 * x / (sumQ l + c)) l)).
  - rewrite sumQ_map_div. apply Qle_refl.
  - apply sumQ_map_le. intros x Hx.
    pose proof (Hpos x Hx) as Hx0. pose proof (member_le_sum l x Hpos Hx) as HxS.
    apply Qle_shift_div_l; [lra|].
    assert (E : 2 * x / (sumQ l + c) * (x + c)
                == 2 * x - 2 * x * (sumQ l - x) / (sumQ l + c)) by (field; lra).
    rewrite E.
    assert (0 <= 2 * x * (sumQ l - x) / (sumQ l + c)).
    { apply Qle_shift_div_l; [lra|]. nra. }
    lra.
Qed.

Lemma sumQ_map_quotient (c : Q) (g : nat -> Q) (l : list nat) :
  sumQ (map (fun i => g i / c) l) == sumQ (map g l) / c.
Proof.
  induction l as [|x l IH]; simpl.
  - unfold Qdiv. ring.
  - rewrite IH. unfold Qdiv. ring.
Qed.

Lemma treap_modelling_value (fuel : nat) (data : histories) (n : Z) :
  (1 <= n)%Z -> data <> [] -> regular data n -> (Z.to_nat n < fuel)%nat ->
  exists Y v,
    treap_Y fuel data = Ok Y /\
    TreapBasedSequenceStructure.get_modelling_sum fuel Y n = Ok v /\
    v == normalized_gld (len data)
           (sumQ (map (deviation data n) (seq 0 (Z.to_nat n)))
            / inject_Z (2 * n * (n + 1))).
Proof.
  intros Hn Hne Hreg Hfuel.
  destruct (treap_cells fuel n Hn Hfuel data Hreg) as (Y & HY & HlenY & Hfold).
  cbv zeta in Hfold. destruct (Hfold 0) as (ret & Hrun & Hret0).
  set (D := sumQ (map (deviation data n) (seq 0 (Z.to_nat n)))).
  assert (Hret : ret == 0 + D / 2).
  { rewrite Hret0. apply Qplus_comp; [reflexivity|].
    apply (halves_deviations data n ltac:(lia) Hreg). }
  clear Hret0.
  assert (HD : 0 <= D).
  { unfold D. apply sumQ_map_nonneg. intros; apply deviation_nonneg. }
  assert (Hm1 : 1 <= inject_Z (len data)).
  { change 1 with (inject_Z 1). rewrite <- Zle_Qle.
    unfold len. destruct data; [congruence|]. simpl. lia. }
  assert (HnQ : 1 <= inject_Z n).
  { change 1 with (inject_Z 1). now rewrite <- Zle_Qle. }
  assert (Hc1 : inject_Z (n * (n + 1)) == inject_Z n * (inject_Z n + 1)).
  { rewrite inject_Z_mult, inject_Z_plus. reflexivity. }
  assert (Hc2 : inject_Z (2 * n * (n + 1)) == 2 * (inject_Z n * (inject_Z n + 1))).
  { rewrite !inject_Z_mult, inject_Z_plus. change (inject_Z 2) with 2.
    change (inject_Z 1) with 1. ring. }
  assert (Hc1pos : 0 < inject_Z n * (inject_Z n + 1)) by nra.
  exists Y. unfold TreapBasedSequenceStructure.get_modelling_sum.
  rewrite Hrun, bind_ok, (py_div_ok ret) by (rewrite Hc1; lra).
  rewrite bind_ok.
  assert (Hr : ret / inject_Z (n * (n + 1)) == D / inject_Z (2 * n * (n + 1))).
  { rewrite Hret, Hc1, Hc2. field. lra. }
  assert (Hr0 : 0 <= ret / inject_Z (n * (n + 1))).
  { rewrite Hr, Hc2. apply Qle_shift_div_l; lra. }
  rewrite HlenY, py_div_ok by lra.
  eexists. split; [exact HY|]. split; [reflexivity|].
  fold (normalized_gld (len data) (ret / inject_Z (n * (n + 1)))).
  now apply normalized_gld_compat.
Qed.

(** ** The first sample of an estimation *)

Lemma dict_set_fresh {V : Type} (k : string) (v : V) (d : dict V) :
  ~ In k (keys d) -> dict_set k v d = (d ++ [(k, v)])%list.
Proof.
  induction d as [|[k' v'] d IH]; simpl; intro H; [reflexivity|].
  destruct (String.eqb_spec k k') as [->|Hne]; [exfalso; apply H; now left|].
  f_equal. apply IH. tauto.
Qed.

Lemma mapM_ext_in {A B : Type} (f g : A -> result B) (l : list A) :
  (forall x, In x l -> f x = g x) -> mapM f l = mapM g l.
Proof.
  induction l as [|x l IH]; intro H; [reflexivity|].
  cbn [mapM]. rewrite (H x (or_introl eq_refl)), IH; [reflexivity|].
  intros y Hy. apply H. now right.
Qed.

Lemma mapM_map {A B C : Type} (f : B -> result C) (g : A -> B) (l : list A) :
  mapM f (map g l) = mapM (fun x => f (g x)) l.
Proof.
  induction l as [|x l IH]; [reflexivity|]. cbn [map mapM]. now rewrite IH.
Qed.

Lemma mapM_pure {A B : Type} (f : A -> B) (l : list A) :
  mapM (fun x => Ok (f x)) l = Ok (map f l).
Proof.
  induction l as [|x l IH]; [reflexivity|]. cbn [map mapM]. now rewrite IH.
Qed.

Lemma bind_ret {A : Type} (m : result A) : bind m (fun a => Ok a) = m.
Proof. now destruct m. Qed.

(** The dictionary that the first [add_string] builds for a Cell: one
    history for each label, in the order of the labels. *)
Lemma first_histories {V : Type} (g : Q -> result V) (cell : Cell.t) :
  forall acc : dict V,
    NoDup (keys acc ++ keys cell) ->
    foldM (fun y kv => h <- g (snd kv) ;; Ok (dict_set (fst kv) h y)) cell acc
    = (l <- mapM (fun kv => h <- g (snd kv) ;; Ok (fst kv, h)) cell ;;
       Ok (acc ++ l)%list).
Proof.
  induction cell as [|[k v] cell IH]; intros acc Hnd.
  - simpl. now rewrite app_nil_r.
  - cbn [foldM mapM fst snd]. destruct (g v) as [h|e]; [|reflexivity].
    rewrite !bind_ok. rewrite dict_set_fresh.
    + rewrite IH.
      * destruct (mapM _ cell); simpl; [|reflexivity]. now rewrite <- app_assoc.
      * unfold keys in *. rewrite map_app, <- app_assoc. exact Hnd.
    + intro Hin. simpl in Hnd. apply NoDup_remove_2 in Hnd.
      apply Hnd. apply in_or_app. now left.
Qed.

Lemma first_Y {V : Type} (g : Q -> result V) (base : list Cell.t) :
  Forall normal base ->
  mapM (fun cell =>
          foldM (fun y kv => h <- g (snd kv) ;; Ok (dict_set (fst kv) h y)) cell [])
       base
  = mapM (fun cell => mapM (fun kv => h <- g (snd kv) ;; Ok (fst kv, h)) cell) base.
Proof.
  intro Hn. apply mapM_ext_in. intros cell Hin.
  rewrite first_histories.
  - destruct (mapM _ cell); reflexivity.
  - simpl. rewrite Forall_forall in Hn. now destruct (Hn cell Hin) as [[Hnd _] _].
Qed.

Lemma first_Y_list (p : Z) (base : list Cell.t) :
  mapM (fun cell : Cell.t =>
          mapM (fun kv =>
                  h <- Ok (ListBasedSequenceStructure.insert
                             (snd kv) ListBasedSequenceStructure.new) ;;
                  Ok (fst kv, h)) cell) base
  = Ok (list_Y (single_histories p base)).
Proof.
  unfold list_Y, single_histories. rewrite map_map.
  rewrite <- mapM_pure. apply mapM_ext_in. intros cell _.
  induction cell as [|kv cell IH]; [reflexivity|].
  cbn [mapM map]. rewrite IH. reflexivity.
Qed.

Lemma first_Y_treap (fuel : nat) (p : Z) (base : list Cell.t) :
  mapM (fun cell : Cell.t =>
          mapM (fun kv =>
                  h <- TreapBasedSequenceStructure.insert fuel p (snd kv)
                         TreapBasedSequenceStructure.new ;;
                  Ok (fst kv, h)) cell) base
  = treap_Y fuel (single_histories p base).
Proof.
  unfold treap_Y, single_histories. rewrite mapM_map.
  apply mapM_ext_in. intros cell _. rewrite mapM_map.
  apply mapM_ext_in. intros kv _. cbn [fst snd].
  unfold TreapBasedSequenceStructure.inserts. cbn [foldM fst snd].
  now rewrite bind_ret.
Qed.

Lemma single_histories_regular (p : Z) (base : list Cell.t) :
  Forall normal base -> regular (single_histories p base) 1.
Proof.
  intro Hn. unfold regular, single_histories. apply Forall_map.
  eapply Forall_impl; [|exact Hn]. intros cell [[Hnd _] _]. split.
  - unfold keys in *. rewrite map_map. exact Hnd.
  - apply Forall_map. apply Forall_forall. intros kv _. reflexivity.
Qed.

Lemma single_deviation (p : Z) (base : list Cell.t) :
  deviation (single_histories p base) 1 0 == 0.
Proof.
  unfold deviation, single_histories. rewrite map_map.
  apply sumQ_map_zero. intros cell _. rewrite map_map.
  apply sumQ_map_zero. intros kv _. cbn [fst snd map nth sumQ].
  setoid_replace (sumQ [snd kv] - inject_Z 1 * snd kv) with 0; [reflexivity|].
  change (inject_Z 1) with 1. unfold sumQ. simpl. ring.
Qed.

Lemma normalized_gld_zero (m : Z) (x c : Q) : x == 0 -> normalized_gld m (x / c) == 0.
Proof.
  intro H. unfold normalized_gld, Qdiv. rewrite H, Qmult_0_l, Qmult_0_r, Qmult_0_l.
  reflexivity.
Qed.

Lemma first_cells (arg_s : input) :
  Forall distribution (cells_of arg_s) ->
  Forall distribution (estimation_cells None arg_s) /\ estimation_cells None arg_s <> [].
Proof.
  intro H. unfold estimation_cells, len.
  destruct (cells_of arg_s) as [|c l]; simpl.
  - split; [|discriminate]. constructor; [exact distribution_ec|constructor].
  - destruct (Z.eqb_spec (Z.pos (Pos.of_succ_nat (List.length l))) 0); [lia|].
    split; [exact H|discriminate].
Qed.

Section FirstSample.
Context {T : Type} {SS : SequenceStructure T}.

(** The first [add_string]: the normalized input is the base, and every
    label of every Cell gets a history of one value. *)
Lemma first_add_string (fuel : nat) (empty_weight : Q) (arg_s : input)
      (new_base : list Cell.t) (new_Y : list (dict T)) :
  estimation_cells None arg_s <> [] ->
  mapM Cell.normalized (estimation_cells None arg_s) = Ok new_base ->
  mapM (fun cell =>
          mapM (fun kv => h <- ss_insert (snd kv) ss_new ;; Ok (fst kv, h)) cell)
       new_base = Ok new_Y ->
  Forall normal new_base ->
  exists self,
    AlignmentWithEstimation.add_string fuel (AlignmentWithEstimation.init empty_weight)
      arg_s = Ok self /\
    AlignmentWithEstimation.Y self = Some new_Y /\
    AlignmentWithEstimation.base self = Some new_base /\
    AlignmentWithEstimation.base_samples self = 1%Z.
Proof.
  intros Hne Hb HY Hn.
  rewrite <- (first_Y (fun v => ss_insert v ss_new) new_base Hn) in HY.
  revert Hne Hb.
  unfold AlignmentWithEstimation.add_string, estimation_cells, padded_ec.
  cbn [AlignmentWithEstimation.alphabet AlignmentWithEstimation.base
       AlignmentWithEstimation.init AlignmentWithEstimation.ew].
  destruct (len (cells_of arg_s) =? 0)%Z; intros Hne Hb; unfold Cell.t in *.
  - eexists. split; [|split; [|split]].
    + rewrite Hb, bind_ok. rewrite HY, bind_ok. cbn [negb bind]. reflexivity.
    + reflexivity.
    + reflexivity.
    + reflexivity.
  - destruct (cells_of arg_s) as [|c l]; [now elim Hne|].
    eexists. split; [|split; [|split]].
    + rewrite Hb, bind_ok. rewrite HY, bind_ok. cbn [negb]. reflexivity.
    + reflexivity.
    + reflexivity.
    + reflexivity.
Qed.

End FirstSample.

(** ** Alignment: the same simple string again *)

Lemma pointed_certain (k : string) : pointed k (certain k).
Proof. exists 1. now split. Qed.

Lemma dist_pointed (k k' : string) (c c' : Cell.t) :
  pointed k c -> pointed k' c' -> dist c c' == if String.eqb k k' then 0 else 1.
Proof.
  intros (q & -> & Hq) (q' & -> & Hq').
  unfold dist, taxicab, scale, Cell.weight_sum, dict_mem.
  cbn [map fold_left fst snd dict_get].
  rewrite (String.eqb_sym k' k).
  destruct (String.eqb k k'); rewrite Hq, Hq'; reflexivity.
Qed.

Lemma Forall2_nth_both {A B : Type} (P : A -> B -> Prop) (da : A) (db : B)
      (l : list A) (l' : list B) :
  Forall2 P l l' ->
  forall i, (i < List.length l)%nat -> P (nth i l da) (nth i l' db).
Proof.
  induction 1 as [|x y l l' Hxy _ IH]; intros i Hi; simpl in Hi; [lia|].
  destruct i as [|i]; [exact Hxy|]. simpl. apply IH. lia.
Qed.

Lemma merge_pointed (k : string) (c : Cell.t) (wa wb : Q) :
  pointed k c -> 0 < wa + wb ->
  exists m, merge_cells c (certain k) wa wb = Ok m /\ pointed k m.
Proof.
  intros (q & -> & Hq) Hw.
  assert (Hq0 : ~ 0 + q == 0) by (rewrite Hq; discriminate).
  assert (H10 : ~ 0 + 1 == 0) by discriminate.
  assert (Hw0 : ~ wa + wb == 0) by lra.
  unfold merge_cells, Cell.normalized, Cell.normalize, Cell.clone, Cell.weight_sum, certain.
  cbn [fold_left mapM fst snd].
  rewrite (py_div_ok q _ Hq0), (py_div_ok 1 _ H10), !bind_ok.
  cbn [foldM fst snd dict_get]. rewrite String.eqb_refl.
  rewrite (py_div_ok _ _ Hw0), bind_ok.
  cbn [dict_set]. rewrite String.eqb_refl. rewrite bind_ok.
  unfold dict_mem. cbn [dict_get]. rewrite String.eqb_refl. cbn [negb].
  eexists. split; [reflexivity|].
  eexists. split; [reflexivity|]. rewrite Hq. field. exact Hw0.
Qed.

Section PointedCells.
Variable a : list string.
Variable base : list Cell.t.
Hypothesis Ha : ~ In es a.
Hypothesis Hp : Forall2 pointed a base.

Let s2 := map certain a.

Lemma pointed_length : List.length base = List.length a.
Proof. symmetry. eapply Forall2_length. exact Hp. Qed.

Lemma nth_pointed (i : nat) :
  (i < List.length a)%nat -> pointed (nth i a EmptyString) (nth i base []).
Proof. now apply Forall2_nth_both. Qed.

Lemma del_pointed (i : nat) : (i < List.length a)%nat -> del base i == 1.
Proof.
  intro H. unfold del.
  rewrite (dist_pointed _ es _ ec (nth_pointed i H) (pointed_certain es)).
  destruct (String.eqb_spec (nth i a EmptyString) es) as [E|_]; [|reflexivity].
  exfalso. apply Ha. rewrite <- E. now apply nth_In.
Qed.

Lemma sub_pointed (i j : nat) :
  (i < List.length a)%nat -> (j < List.length a)%nat ->
  sub base s2 i j == inject_Z (subst_cost a a i j).
Proof.
  intros Hi Hj. unfold sub, s2, subst_cost.
  rewrite (nth_certain a j Hj).
  rewrite (dist_pointed _ _ _ _ (nth_pointed i Hi) (pointed_certain _)).
  destruct (String.eqb _ _); reflexivity.
Qed.

Lemma gld_pointed (i : nat) :
  forall j, (i <= List.length a)%nat -> (j <= List.length a)%nat ->
            gld base s2 i j == inject_Z (edit a a i j).
Proof.
  induction i as [|i IHi].
  - induction j as [|j IHj]; intros Hi Hj.
    + reflexivity.
    + change (gld base s2 0 (S j)) with (ins s2 j + gld base s2 0 j).
      unfold s2 at 1. rewrite (ins_certain a Ha), IHj by lia.
      change (edit a a 0 (S j)) with (Z.of_nat (S j)).
      change (edit a a 0 j) with (Z.of_nat j).
      rewrite Nat2Z.inj_succ. unfold Z.succ. rewrite inject_Z_plus. ring.
  - induction j as [|j IHj]; intros Hi Hj.
    + change (gld base s2 (S i) 0) with (del base i + gld base s2 i 0).
      rewrite del_pointed, IHi by lia.
      rewrite !edit_col0, Nat2Z.inj_succ. unfold Z.succ.
      rewrite inject_Z_plus. ring.
    + change (gld base s2 (S i) (S j))
        with (py_min3 (del base i + gld base s2 i (S j))
                      (ins s2 j + gld base s2 (S i) j)
                      (sub base s2 i j + gld base s2 i j)).
      change (edit a a (S i) (S j))
        with (Z.min (Z.min (edit a a i (S j) + 1) (edit a a (S i) j + 1))
                    (edit a a i j + subst_cost a a i j)).
      apply py_min3_inject.
      * rewrite del_pointed, IHi by lia. rewrite inject_Z_plus. ring.
      * unfold s2 at 1. rewrite (ins_certain a Ha), IHj by lia.
        rewrite inject_Z_plus. ring.
      * rewrite sub_pointed, IHi by lia. rewrite inject_Z_plus. ring.
Qed.

(** The path of the alignment of a string with itself is the diagonal. *)
Lemma direction_diagonal (i : nat) :
  (i < List.length a)%nat -> direction base s2 (S i) (S i) = PATH_MATCHED.
Proof.
  intro Hi. cbn [direction]. apply choose_path_matched.
  rewrite del_pointed, sub_pointed, !gld_pointed by lia.
  unfold s2. rewrite (ins_certain a Ha i Hi).
  rewrite edit_same. unfold subst_cost. rewrite String.eqb_refl.
  pose proof (edit_bounds a a i (S i)) as H1.
  pose proof (edit_bounds a a (S i) i) as H2.
  assert (E1 : 1 <= inject_Z (edit a a i (S i))).
  { change 1 with (inject_Z 1). rewrite <- Zle_Qle. lia. }
  assert (E2 : 1 <= inject_Z (edit a a (S i) i)).
  { change 1 with (inject_Z 1). rewrite <- Zle_Qle. lia. }
  change (inject_Z 0) with 0. lra.
Qed.

End PointedCells.

Lemma py_get_nat {A : Type} (d : A) (l : list A) (i : nat) :
  (i < List.length l)%nat -> py_get l (Z.of_nat (S i) - 1) = Ok (nth i l d).
Proof.
  intro H. destruct (py_get_nth l (Z.of_nat (S i) - 1)) as (x & Hx & Hget).
  { unfold len. lia. }
  replace (Z.to_nat (Z.of_nat (S i) - 1)) with i in Hx by lia.
  now rewrite (nth_error_nth l _ d Hx).
Qed.

(** Tracing the diagonal merges each Cell of the base with the Cell of the
    same character. *)
Lemma trace_diagonal (a : list string) (base : list Cell.t) (bw w : Q)
      (path : matrix path_label) :
  ~ In es a -> Forall2 pointed a base -> 0 < bw + w ->
  agrees (directionZ base (map certain a)) path
         (len base + 1) (len (map certain a) + 1) (fun _ _ => True) ->
  forall (fuel i : nat) (acc : list Cell.t),
    (i <= List.length a)%nat -> (i <= fuel)%nat ->
    exists L,
      Alignment.trace fuel path base (map certain a) bw w (Z.of_nat i) (Z.of_nat i) acc
      = Ok (acc ++ L)%list /\
      Forall2 pointed (rev (firstn i a)) L.
Proof.
  intros Ha Hp Hw Hpath.
  pose proof (pointed_length a base Hp) as Hlen.
  induction fuel as [|fuel IH]; intros i acc Hi Hf.
  - assert (i = 0%nat) by lia. subst i. exists []. simpl. rewrite app_nil_r.
    split; [reflexivity|constructor].
  - destruct i as [|i].
    { exists []. simpl. rewrite app_nil_r. split; [reflexivity|constructor]. }
    cbn [Alignment.trace].
    replace ((0 <? Z.of_nat (S i)) || (0 <? Z.of_nat (S i)))%Z with true
      by (symmetry; apply orb_true_iff; left; apply Z.ltb_lt; lia).
    rewrite (path_at base (map certain a) path Hpath (S i) (S i))
      by (rewrite ?length_map; lia).
    rewrite bind_ok, (direction_diagonal a base Ha Hp i) by lia. cbn [path_eqb].
    rewrite (py_get_nat (A := Cell.t) [] base i) by lia. rewrite bind_ok.
    rewrite (py_get_nat (A := Cell.t) [] (map certain a) i) by (rewrite length_map; lia).
    rewrite bind_ok, (nth_certain a i) by lia.
    destruct (merge_pointed _ _ bw w (nth_pointed a base Hp i ltac:(lia)) Hw)
      as (m & Hm & Hpm).
    rewrite Hm, bind_ok.
    replace (Z.of_nat (S i) - 1)%Z with (Z.of_nat i) by lia.
    destruct (IH i (acc ++ [m])%list ltac:(lia) ltac:(lia)) as (L & HL & HpL).
    exists (m :: L). rewrite HL, <- app_assoc. split; [reflexivity|].
    rewrite (firstn_snoc EmptyString a i) by lia. rewrite rev_unit.
    now constructor.
Qed.

(** The loop of [get_string_result] on the Cells that hold the characters
    of a string without ['@']. *)
Lemma string_result_pointed (ew : Q) (s : string) :
  ~ In "@"%char (list_ascii_of_string s) ->
  forall (base : list Cell.t) (ret : string),
    Forall2 pointed (chars s) base ->
    foldM
      (fun ret cell =>
         let best_nonempty := Cell.best_key_not_from cell es in
         best_nonempty_score <-
           (if String.eqb best_nonempty EmptyString then Ok 0
            else dict_at cell best_nonempty) ;;
         empty_score <-
           (if negb (dict_mem es cell) then Ok 0 else dict_at cell es) ;;
         if Qltb (empty_score * ew) best_nonempty_score
         then Ok (ret ++ best_nonempty)%string
         else Ok ret)
      base ret
    = Ok (ret ++ s)%string.
Proof.
  match goal with |- _ -> forall base ret, _ -> foldM ?f _ _ = _ => set (F := f) end.
  assert (Hstep : forall ret ch q,
             ch <> "@"%char -> q == 1 ->
             F ret [(String ch EmptyString, q)] = Ok (ret ++ String ch EmptyString)%string).
  { intros ret ch q Hch Hq. unfold F. cbv zeta.
    assert (Hb : Cell.best_key_not_from [(String ch EmptyString, q)] es
                 = String ch EmptyString).
    { unfold Cell.best_key_not_from, es.
      cbn [Cell.sorted_items fold_right Cell.insert_sorted fold_left fst snd
           Cell.occurs_in String.prefix].
      destruct (ascii_dec ch "@"); [contradiction|].
      replace (Qltb (- (1)) q) with true by (symmetry; apply Qltb_lt; rewrite Hq; lra).
      reflexivity. }
    rewrite Hb.
    change (String.eqb (String ch EmptyString) EmptyString) with false. cbv iota.
    unfold dict_at, dict_mem. cbn [dict_get]. rewrite String.eqb_refl, bind_ok.
    replace (String.eqb es (String ch EmptyString)) with false
      by (symmetry; apply String.eqb_neq; unfold es; congruence).
    cbn [negb]. rewrite bind_ok.
    replace (Qltb (0 * ew) q) with true by (symmetry; apply Qltb_lt; rewrite Hq; lra).
    reflexivity. }
  induction s as [|ch s IH]; intros Hs base ret Hp.
  - inversion Hp; subst. cbn [foldM]. now rewrite append_empty_r.
  - change (chars (String ch s)) with (String ch EmptyString :: chars s) in Hp.
    inversion Hp as [|k c l l' (q & -> & Hq) Hrest]; subst.
    cbn [foldM]. rewrite Hstep, bind_ok.
    + rewrite IH; [|intro H; apply Hs; now right|exact Hrest].
      now rewrite append_assoc_char.
    + intros ->. apply Hs. now left.
    + exact Hq.
Qed.

Lemma Forall2_rev_both {A B : Type} (P : A -> B -> Prop) (l : list A) (l' : list B) :
  Forall2 P l l' -> Forall2 P (rev l) (rev l').
Proof.
  induction 1 as [|x y l l' Hxy _ IH]; [constructor|].
  simpl. apply Forall2_app; [exact IH|]. now repeat constructor.
Qed.

Lemma pointed_normalizable (a : list string) (base : list Cell.t) :
  Forall2 pointed a base -> Forall normalizable base.
Proof.
  induction 1 as [|k c l l' (q & -> & Hq) _ IH]; constructor; [|exact IH].
  unfold normalizable, Cell.weight_sum. cbn [fold_left snd]. rewrite Hq. discriminate.
Qed.

(** Adding a simple string to an Alignment that holds its characters, each
    with the weight 1, leaves such an Alignment. *)
Lemma add_string_again (fuel : nat) (self : Alignment.t) (s : string) (w : Q)
      (base : list Cell.t) :
  s <> EmptyString -> ~ In es (chars s) ->
  Alignment.base self = Some base -> Forall2 pointed (chars s) base ->
  0 < Alignment.base_weight self -> 0 < w -> (String.length s <= fuel)%nat ->
  exists self' base',
    Alignment.add_string fuel self (Str s) w = Ok self' /\
    Alignment.base self' = Some base' /\ Forall2 pointed (chars s) base' /\
    0 < Alignment.base_weight self' /\ Alignment.ew self' = Alignment.ew self.
Proof.
  intros Hne Hs Hbase Hp Hbw Hw Hfuel.
  pose proof (pointed_length _ _ Hp) as Hlen.
  pose proof (length_chars s) as Hls.
  unfold Alignment.add_string. rewrite Hbase.
  change (cells_of (Str s)) with (map certain (chars s)).
  assert (E : (len (map certain (chars s)) =? 0)%Z = false).
  { apply Z.eqb_neq. unfold len. rewrite length_map, Hls.
    destruct s; [congruence|simpl; lia]. }
  rewrite E.
  destruct (align_matrices_spec base (map certain (chars s)))
    as (dp & path & Hrun & _ & Hpath).
  { eapply pointed_normalizable. exact Hp. }
  { apply Forall_map. apply Forall_forall. intros k _. apply normalizable_certain. }
  rewrite Hrun, bind_ok. cbv beta iota zeta.
  destruct (trace_diagonal (chars s) base (Alignment.base_weight self) w path Hs Hp
              ltac:(lra) Hpath fuel (List.length (chars s)) []
              ltac:(lia) ltac:(lia)) as (L & HL & HpL).
  unfold len. rewrite length_map, Hlen, HL, bind_ok.
  eexists. exists (rev L). split; [reflexivity|]. cbn.
  split; [reflexivity|]. split; [|split; [lra|reflexivity]].
  rewrite firstn_all in HpL. apply Forall2_rev_both in HpL.
  now rewrite rev_involutive in HpL.
Qed.

Lemma run_again (fuel : nat) (s : string) (weights : list Q) :
  s <> EmptyString -> ~ In es (chars s) -> (String.length s <= fuel)%nat ->
  Forall (fun w => 0 < w) weights ->
  forall (self : Alignment.t) (base : list Cell.t),
    Alignment.base self = Some base -> Forall2 pointed (chars s) base ->
    0 < Alignment.base_weight self ->
    exists self' base',
      foldM (fun self call => Alignment.add_string fuel self (fst call) (snd call))
            (map (fun w => (Str s, w)) weights) self = Ok self' /\
      Alignment.base self' = Some base' /\ Forall2 pointed (chars s) base' /\
      Alignment.ew self' = Alignment.ew self.
Proof.
  intros Hne Hs Hfuel. induction 1 as [|w weights Hw _ IH]; intros self base Hb Hp Hbw.
  - exists self, base. now repeat split.
  - destruct (add_string_again fuel self s w base Hne Hs Hb Hp Hbw Hw Hfuel)
      as (self1 & base1 & Hrun1 & Hb1 & Hp1 & Hbw1 & Hew1).
    destruct (IH self1 base1 Hb1 Hp1 Hbw1) as (self' & base' & Hrun & Hb' & Hp' & Hew').
    exists self', base'. cbn [map foldM fst snd]. rewrite Hrun1, bind_ok.
    split; [exact Hrun|]. split; [exact Hb'|]. split; [exact Hp'|]. congruence.
Qed.

(** ** The sequence structures on one history *)

Lemma single_history_terms (c : string) (calls : list (Z * Q)) (n : Z) (i : nat) :
  (i < List.length calls)%nat ->
  nth i (ListBasedSequenceStructure.history_terms
           (ListBasedSequenceStructure.inserts (map snd calls)) n) 0
  == deviation [[(c, calls)]] n i.
Proof.
  intro Hi. destruct (list_inserts (map snd calls)) as [Hel Hsum].
  unfold ListBasedSequenceStructure.history_terms. rewrite Hel.
  set (s := ListBasedSequenceStructure.get_sum _) in *.
  rewrite (nth_indep _ 0 (Qabs (s - inject_Z n * 0))) by (now rewrite !length_map).
  rewrite (map_nth (fun e => Qabs (s - inject_Z n * e))).
  unfold deviation. cbn [map sumQ snd]. rewrite Hsum. ring.
Qed.

Lemma single_history_sum (c : string) (calls : list (Z * Q)) (n : Z) (F : Q -> Q) :
  (forall x y, x == y -> F x == F y) ->
  sumQ (map F (ListBasedSequenceStructure.history_terms
                 (ListBasedSequenceStructure.inserts (map snd calls)) n))
  == sumQ (map (fun i => F (deviation [[(c, calls)]] n i)) (seq 0 (List.length calls))).
Proof.
  intro HF.
  set (ts := ListBasedSequenceStructure.history_terms _ n).
  assert (Hlen : List.length ts = List.length calls).
  { unfold ts, ListBasedSequenceStructure.history_terms.
    rewrite length_map, (proj1 (list_inserts (map snd calls))). apply length_map. }
  rewrite <- Hlen. rewrite <- (length_map F ts). apply sumQ_pointwise.
  intros i Hi. rewrite length_map, Hlen in Hi.
  rewrite (nth_indep _ 0 (F 0)) by (rewrite length_map; lia).
  rewrite (map_nth F). apply HF. now apply single_history_terms.
Qed.

(** ** Sequence structures: the stated property *)

(** C2, as the code has it. For the exact values of a non-empty history
    [e_1 .. e_n] of sum [s], with [lc] and [ls] the count and the sum of the
    values strictly below the mean [s / n], the closed form
    [s * lc - n * ls] is half of the sum of the [|s - n * e_i|]. For a
    history of values 0 and 1, on which the arithmetic of the programs is
    exact, what [TreapBasedSequenceStructure.get_modelling_sum] accumulates
    for the history, divided by [n * (n + 1)], equals what
    [ListBasedSequenceStructure.get_modelling_sum] accumulates for it over
    all sample indices, divided by [2 * n * (n + 1)]; the first normalizes
    that quantity, the second normalizes the part of each sample index and
    adds the parts up. *)
Theorem modelling_sum_terms (fuel : nat) (c : string) (calls : list (Z * Q)) :
  let es := map snd calls in
  let n := len es in
  calls <> [] -> (List.length calls < fuel)%nat ->
  (let s := sumQ es in
   let mean := s / inject_Z n in
   s * inject_Z (len (below mean es)) - inject_Z n * sumQ (below mean es)
   == sumQ (map (fun e => Qabs (s - inject_Z n * e)) es) / 2) /\
  (Forall (fun e => e == 0 \/ e == 1) es ->
   exists hT q v w,
     TreapBasedSequenceStructure.inserts fuel calls = Ok hT /\
     TreapBasedSequenceStructure.history_term fuel hT n = Ok q /\
     let hL := ListBasedSequenceStructure.inserts es in
     let ts := ListBasedSequenceStructure.history_terms hL n in
     q / inject_Z (n * (n + 1)) == sumQ ts / inject_Z (2 * n * (n + 1)) /\
     TreapBasedSequenceStructure.get_modelling_sum fuel [[(c, hT)]] n = Ok v /\
     v == normalized_gld 1 (q / inject_Z (n * (n + 1))) /\
     ListBasedSequenceStructure.get_modelling_sum [[(c, hL)]] n = Ok w /\
     w == fold_left Qplus
            (map (fun t => normalized_gld 1 (t / inject_Z (2 * n * (n + 1)))) ts) 0).
Proof.
  intros es n Hne Hfuel.
  destruct (history_terms_agree fuel calls Hne Hfuel) as [Hid (hT & q & HhT & Hq & Heq)].
  split; [exact Hid|]. intros _.
  fold es in Hq, Heq. fold n in Hq, Heq.
  set (data := [[(c, calls)]] : histories).
  assert (Hlen : Z.to_nat n = List.length calls).
  { unfold n, es, len. now rewrite length_map, Nat2Z.id. }
  assert (Hn : (1 <= n)%Z).
  { unfold n, es, len. rewrite length_map. destruct calls; [congruence | simpl; lia]. }
  assert (Hreg : regular data n).
  { repeat constructor; [simpl; tauto|]. unfold n, es, len. cbn [snd]. now rewrite !length_map. }
  assert (Hdata : data <> []) by discriminate.
  destruct (treap_modelling_value fuel data n Hn Hdata Hreg ltac:(lia))
    as (Y & v & HY & Hv & Ev).
  destruct (list_modelling_value data n Hn Hdata Hreg) as (w & Hw & Ew).
  assert (EY : Y = [[(c, hT)]]).
  { unfold treap_Y, data in HY. cbn [mapM fst snd] in HY.
    rewrite HhT in HY. cbn [bind] in HY. now inversion HY. }
  subst Y.
  exists hT, q, v, w. split; [exact HhT|]. split; [exact Hq|].
  cbv zeta. split; [exact Heq|]. split; [exact Hv|]. split; [|split; [exact Hw|]].
  - assert (E : sumQ (ListBasedSequenceStructure.history_terms
                        (ListBasedSequenceStructure.inserts es) n)
               == sumQ (map (deviation data n) (seq 0 (List.length calls)))).
    { pose proof (single_history_sum c calls n (fun x => x)
                    ltac:(intros x y Exy; exact Exy)) as H.
      rewrite map_id in H. exact H. }
    rewrite Ev. apply normalized_gld_compat. rewrite Heq, Hlen, E. reflexivity.
  - rewrite Ew, fold_left_Qplus, Qplus_0_l, Hlen.
    symmetry.
    exact (single_history_sum c calls n
             (fun t => normalized_gld 1 (t / inject_Z (2 * n * (n + 1))))
             ltac:(intros x y Exy; apply normalized_gld_compat; now rewrite Exy)).
Qed.

Lemma modelling_sum_terms_witness :
  let calls := [(5%Z, 1); (3%Z, 0); (8%Z, 1); (1%Z, 0)] in
  let es := map snd calls in
  let n := len es in
  (let s := sumQ es in
   let mean := s / inject_Z n in
   s * inject_Z (len (below mean es)) - inject_Z n * sumQ (below mean es)
   == sumQ (map (fun e => Qabs (s - inject_Z n * e)) es) / 2) /\
  exists hT q v w,
    TreapBasedSequenceStructure.inserts 5 calls = Ok hT /\
    TreapBasedSequenceStructure.history_term 5 hT n = Ok q /\
    let hL := ListBasedSequenceStructure.inserts es in
    let ts := ListBasedSequenceStructure.history_terms hL n in
    q / inject_Z (n * (n + 1)) == sumQ ts / inject_Z (2 * n * (n + 1)) /\
    TreapBasedSequenceStructure.get_modelling_sum 5 [[("A"%string, hT)]] n = Ok v /\
    v == normalized_gld 1 (q / inject_Z (n * (n + 1))) /\
    ListBasedSequenceStructure.get_modelling_sum [[("A"%string, hL)]] n = Ok w /\
    w == fold_left Qplus
           (map (fun t => normalized_gld 1 (t / inject_Z (2 * n * (n + 1)))) ts) 0.
Proof.
  intros calls es n.
  destruct (modelling_sum_terms 5 "A" calls ltac:(discriminate) ltac:(simpl; lia))
    as [H1 H2].
  split; [exact H1|]. apply H2.
  repeat apply Forall_cons; [right|left|right|left|apply Forall_nil]; reflexivity.
Defined.

Open Scope float_scope.

(** C2 as stated fails on binary64 numbers, where each quantity carries the
    rounding of its own operations: for the history 0, 0, 0.3 (and [n = 3])
    the tree-backed quantity is 0.049999999999999996 and the list-backed
    quantity is 0.04999999999999999. *)
Lemma modelling_sum_terms_rounding :
  let calls := [(3%Z, 0); (2%Z, 0); (1%Z, 0.3)] in
  let hL := Binary64.ListBasedSequenceStructure.inserts (map snd calls) in
  let ts := Binary64.ListBasedSequenceStructure.history_terms hL 3 in
  exists hT q,
    Binary64.TreapBasedSequenceStructure.inserts 4 calls = Ok hT /\
    Binary64.TreapBasedSequenceStructure.history_term 4 hT 3 = Ok q /\
    q / Binary64.of_Z (3 * (3 + 1)) = 0.049999999999999996 /\
    ts = [0.3; 0.3; 0.5999999999999999] /\
    fold_left add ts 0 / Binary64.of_Z (2 * 3 * (3 + 1)) = 0.04999999999999999 /\
    (0.04999999999999999 <? 0.049999999999999996) = true.
Proof.
  cbv zeta. by_computation.
Qed.

(** On a history of values 0 and 1 every number that the two structures
    compute is an integer before the last division, and the two quantities
    are one binary64 number: 0.2 for the history 1, 0, 1, 0. *)
Lemma history_of_bits_exact :
  let calls := [(5%Z, 1); (3%Z, 0); (8%Z, 1); (1%Z, 0)] in
  let hL := Binary64.ListBasedSequenceStructure.inserts (map snd calls) in
  let ts := Binary64.ListBasedSequenceStructure.history_terms hL 4 in
  exists hT q,
    Binary64.TreapBasedSequenceStructure.inserts 5 calls = Ok hT /\
    Binary64.TreapBasedSequenceStructure.history_term 5 hT 4 = Ok q /\
    q = 4 /\ ts = [2; 2; 2; 2] /\
    q / Binary64.of_Z (4 * (4 + 1)) = 0.2 /\
    fold_left add ts 0 / Binary64.of_Z (2 * 4 * (4 + 1)) = 0.2.
Proof.
  cbv zeta. by_computation.
Qed.

Close Scope float_scope.

(** * Further properties of the programs *)

(** ** Cell *)

(** X1. [best_key] of a Cell with no label is the empty string; of any
    other Cell of the data model it is a label of greatest weight, the
    first in the order of [sorted] among the labels of that weight. *)
Theorem best_key_greatest (c : Cell.t) :
  cell_ok c ->
  (c = [] -> Cell.best_key c = EmptyString) /\
  (c <> [] ->
   In (Cell.best_key c) (keys c) /\
   forall k, In k (keys c) ->
             weight_of c k <= weight_of c (Cell.best_key c) /\
             (weight_of c k == weight_of c (Cell.best_key c) ->
              String.leb (Cell.best_key c) k = true)).
Proof.
  intro Hc. split.
  - intros ->. reflexivity.
  - intro Hne. rewrite best_key_pick.
    destruct (pick_sorted_items (fun _ => false) c Hc) as [[Hall _]|(Hin & _ & Hmax)].
    + destruct c as [|[k v] c]; [congruence|].
      specialize (Hall k (or_introl eq_refl)). discriminate.
    + split; [exact Hin|]. intros k Hk. now apply Hmax.
Qed.

Lemma best_key_greatest_witness :
  let c := [("B", 1 # 2); ("C", 1 # 4); ("A", 1 # 2)]%string in
  (c = [] -> Cell.best_key c = EmptyString) /\
  (c <> [] ->
   In (Cell.best_key c) (keys c) /\
   forall k, In k (keys c) ->
             weight_of c k <= weight_of c (Cell.best_key c) /\
             (weight_of c k == weight_of c (Cell.best_key c) ->
              String.leb (Cell.best_key c) k = true)).
Proof.
  apply best_key_greatest. concrete_cell_ok.
Defined.

(** X2. [best_key_not_from] returns the empty string when every label of
    the Cell occurs in the exclusion mask; otherwise it returns a label that
    does not occur in the mask, of greatest weight among those, the first in
    the order of [sorted] among the labels of that weight. *)
Theorem best_key_not_from_greatest (c : Cell.t) (exclusion_mask : string) :
  cell_ok c ->
  let r := Cell.best_key_not_from c exclusion_mask in
  ((forall k, In k (keys c) -> Cell.occurs_in k exclusion_mask = true) ->
   r = EmptyString) /\
  ((exists k, In k (keys c) /\ Cell.occurs_in k exclusion_mask = false) ->
   In r (keys c) /\ Cell.occurs_in r exclusion_mask = false /\
   forall k, In k (keys c) -> Cell.occurs_in k exclusion_mask = false ->
             weight_of c k <= weight_of c r /\
             (weight_of c k == weight_of c r -> String.leb r k = true)).
Proof.
  intros Hc r. subst r. rewrite best_key_not_from_pick.
  destruct (pick_sorted_items (fun k => Cell.occurs_in k exclusion_mask) c Hc)
    as [[Hall E]|(Hin & Hs & Hmax)]; cbv beta in *.
  - split; [intros _; exact E|].
    intros (k & Hk & Hf). rewrite (Hall k Hk) in Hf. discriminate.
  - split; [|intros _; auto].
    intro Hall. rewrite (Hall _ Hin) in Hs. discriminate.
Qed.

Lemma best_key_not_from_greatest_witness :
  let c := [("B", 1 # 4); ("@", 1 # 2); ("A", 1 # 4)]%string in
  let r := Cell.best_key_not_from c "@" in
  ((forall k, In k (keys c) -> Cell.occurs_in k "@" = true) -> r = EmptyString) /\
  ((exists k, In k (keys c) /\ Cell.occurs_in k "@" = false) ->
   In r (keys c) /\ Cell.occurs_in r "@" = false /\
   forall k, In k (keys c) -> Cell.occurs_in k "@" = false ->
             weight_of c k <= weight_of c r /\
             (weight_of c k == weight_of c r -> String.leb r k = true)).
Proof.
  apply (best_key_not_from_greatest [("B", 1 # 4); ("@", 1 # 2); ("A", 1 # 4)]%string "@").
  concrete_cell_ok.
Defined.

(** X4. For Cells of the data model, [cell_dist] raises
    [ZeroDivisionError] exactly when one of the two Cells has a label and a
    weight sum of zero, and returns a number otherwise; two Cells with no
    label are at distance 0. *)
Theorem cell_dist_errors (a b : Cell.t) :
  cell_ok a -> cell_ok b ->
  let degenerate (c : Cell.t) := c <> [] /\ Cell.weight_sum c == 0 in
  (degenerate a \/ degenerate b -> cell_dist a b = Raise ZeroDivisionError) /\
  (~ (degenerate a \/ degenerate b) -> exists d, cell_dist a b = Ok d) /\
  (a = [] -> b = [] -> exists d, cell_dist a b = Ok d /\ d == 0).
Proof.
  intros _ _ degenerate. unfold cell_dist.
  destruct (normalized_cases a) as [[Ea Ha]|[(Ea & Za & Ha)|[Za Ha]]];
    destruct (normalized_cases b) as [[Eb Hb]|[(Eb & Zb & Hb)|[Zb Hb]]];
    rewrite Ha; simpl; try rewrite Hb; simpl;
    (split; [|split]);
    try (intros _; reflexivity);
    try (intros [[H1 H2]|[H1 H2]]; congruence);
    try (intros; eexists; reflexivity);
    try (intro H; exfalso; apply H; unfold degenerate; tauto);
    try (intros; subst; congruence);
    try (intros; subst; simpl in *; exfalso; auto with qarith; fail).
  intros _ _. eexists. split; [reflexivity|]. subst. reflexivity.
Qed.

Lemma cell_dist_errors_witness :
  let a := [("A", 0); ("B", 0)]%string in
  let b := [("B", 3)]%string in
  let degenerate (c : Cell.t) := c <> [] /\ Cell.weight_sum c == 0 in
  (degenerate a \/ degenerate b -> cell_dist a b = Raise ZeroDivisionError) /\
  (~ (degenerate a \/ degenerate b) -> exists d, cell_dist a b = Ok d) /\
  (a = [] -> b = [] -> exists d, cell_dist a b = Ok d /\ d == 0).
Proof.
  apply cell_dist_errors; concrete_cell_ok.
Defined.

(** ** merge_cells *)

(** X6. [merge_cells] raises [ZeroDivisionError] when the two weights sum
    to zero, whatever the two Cells of non-zero weight sum are. *)
Theorem merge_cells_zero_weights (a b : Cell.t) (wa wb : Q) :
  ~ Cell.weight_sum a == 0 -> ~ Cell.weight_sum b == 0 -> wa + wb == 0 ->
  merge_cells a b wa wb = Raise ZeroDivisionError.
Proof.
  intros Ha Hb Hw. unfold merge_cells, Cell.normalized, Cell.clone.
  rewrite (normalize_nonzero a Ha), (normalize_nonzero b Hb). simpl.
  destruct b as [|[k v] b]; [exfalso; apply Hb; reflexivity|].
  simpl. destruct (dict_get k (scale (Cell.weight_sum a) a)); simpl;
    rewrite (py_div_zero _ _ Hw); reflexivity.
Qed.

Lemma merge_cells_zero_weights_witness :
  merge_cells [("A", 1)]%string [("B", 2)]%string 1 (- (1)) = Raise ZeroDivisionError.
Proof.
  apply merge_cells_zero_weights; [discriminate|discriminate|reflexivity].
Defined.

(** X7. For Cells of the data model, merging [a] with [b] under the
    weights [(wa, wb)] gives every label the weight that merging [b] with
    [a] under [(wb, wa)] gives it, over the same labels. *)
Theorem merge_cells_swapped (a b : Cell.t) (wa wb : Q) :
  cell_ok a -> cell_ok b ->
  ~ Cell.weight_sum a == 0 -> ~ Cell.weight_sum b == 0 -> ~ wa + wb == 0 ->
  exists rab rba,
    merge_cells a b wa wb = Ok rab /\ merge_cells b a wb wa = Ok rba /\
    (forall k, weight_of rab k == weight_of rba k) /\
    (forall k, In k (keys rab) <-> In k (keys rba)).
Proof.
  intros [Ha _] [Hb _] Hsa Hsb Hw.
  assert (Hw' : ~ wb + wa == 0) by (intro E; apply Hw; rewrite <- E; ring).
  destruct (merge_cells_weights a b wa wb Ha Hb Hsa Hsb Hw) as (rab & Eab & _ & Kab & Wab).
  destruct (merge_cells_weights b a wb wa Hb Ha Hsb Hsa Hw') as (rba & Eba & _ & Kba & Wba).
  cbv zeta in *.
  exists rab, rba.
  split; [exact Eab|]. split; [exact Eba|]. split.
  - intro k. rewrite Wab, Wba. field. repeat split; assumption.
  - intro k. rewrite Kab, Kba, !in_union_keys. tauto.
Qed.

Lemma merge_cells_swapped_witness :
  let a := [("A", 1); ("B", 3)]%string in
  let b := [("B", 1); ("C", 1)]%string in
  exists rab rba,
    merge_cells a b 2 1 = Ok rab /\ merge_cells b a 1 2 = Ok rba /\
    (forall k, weight_of rab k == weight_of rba k) /\
    (forall k, In k (keys rab) <-> In k (keys rba)).
Proof.
  apply merge_cells_swapped; try discriminate; concrete_cell_ok.
Defined.

(** ** levmetric_ocr *)

(** X11. [levmetric_ocr] of a sequence of distributions and itself is 0. *)
Theorem levmetric_ocr_same (ocr_string : list Cell.t) :
  Forall distribution ocr_string ->
  exists v, levmetric_ocr ocr_string ocr_string = Ok v /\ v == 0.
Proof.
  intro H.
  destruct ocr_string as [|c l] eqn:E; [exists 0; now split|]. rewrite <- E in *.
  assert (Hne : ocr_string <> [] \/ ocr_string <> []) by (left; subst; discriminate).
  destruct (levmetric_ocr_value _ _ H H Hne) as ([Hg0 Hg1] & Hn & Hv).
  cbv zeta in *. eexists. split; [exact Hv|].
  rewrite (gld_same _ H _ (Nat.le_refl _)). field. lra.
Qed.

Lemma levmetric_ocr_same_witness :
  exists v,
    levmetric_ocr [[("A", 1); ("B", 3)]; [("C", 1)]]%string
                  [[("A", 1); ("B", 3)]; [("C", 1)]]%string = Ok v /\
    v == 0.
Proof.
  apply levmetric_ocr_same; concrete_distributions.
Defined.

(** ** metrics.py *)

(** X12. [levenshtein] is symmetric, lies between the difference and the
    greater of the two lengths, and is 0 exactly for equal sequences. *)
Theorem levenshtein_distance (a b : list string) :
  exists d,
    levenshtein a b = Ok d /\ levenshtein b a = Ok d /\
    (Z.abs (len a - len b) <= d <= Z.max (len a) (len b))%Z /\
    (d = 0%Z <-> a = b).
Proof.
  exists (edit_distance a b). rewrite !levenshtein_spec.
  split; [reflexivity|]. split; [|split].
  - unfold edit_distance. now rewrite edit_sym.
  - apply edit_distance_bounds.
  - apply edit_distance_zero.
Qed.

(** X13. [normalize_string] keeps the length of a string of ASCII and
    leaves a string of ASCII without lower case letter and without the
    letter O, which normalizing again does not change. *)
Theorem normalize_string_normal (s : string) :
  ascii_only s ->
  let n := normalize_string s in
  ascii_only n /\ String.length n = String.length s /\
  Forall (fun c => ~ lower_case c /\ c <> "O"%char) (list_ascii_of_string n) /\
  normalize_string n = n.
Proof.
  intros Hs n. subst n. unfold ascii_only in *.
  rewrite normalize_string_chars.
  repeat split.
  - apply Forall_map. eapply Forall_impl; [|exact Hs].
    intros c Hc. now apply normalize_char_ascii.
  - apply length_normalize_string.
  - apply Forall_map. apply Forall_forall. intros c _.
    destruct (normalize_char_fixed c) as (H1 & H2 & _). now split.
  - apply normalize_string_idem.
Qed.

Lemma normalize_string_normal_witness :
  let n := normalize_string "Foo-10" in
  ascii_only n /\ String.length n = String.length "Foo-10" /\
  Forall (fun c => ~ lower_case c /\ c <> "O"%char) (list_ascii_of_string n) /\
  normalize_string n = n.
Proof.
  apply normalize_string_normal.
  unfold ascii_only. simpl. repeat constructor.
Defined.

(** X14. On strings of ASCII the three string metrics vanish together:
    [end_to_end] is 0 exactly when the normalized strings are equal, which is
    exactly when [d_levenshtein] is 0 and exactly when [levmetric] is 0. *)
Theorem string_metrics_zero (a b : string) :
  ascii_only a -> ascii_only b ->
  exists d m,
    d_levenshtein a b = Ok d /\ levmetric a b = Ok m /\
    (end_to_end a b = 0%Z <-> normalize_string a = normalize_string b) /\
    (d == 0 <-> normalize_string a = normalize_string b) /\
    (m == 0 <-> normalize_string a = normalize_string b).
Proof.
  intros _ _.
  set (L := edit_distance (chars (normalize_string a)) (chars (normalize_string b))).
  assert (HL : L = 0%Z <-> normalize_string a = normalize_string b).
  { unfold L. rewrite edit_distance_zero. split; [apply chars_injective|congruence]. }
  assert (HLq : inject_Z L == 0 <-> L = 0%Z).
  { change 0 with (inject_Z 0). apply inject_Z_injective. }
  exists (1 * inject_Z L).
  assert (Hend : end_to_end a b = 0%Z <-> normalize_string a = normalize_string b).
  { unfold end_to_end.
    destruct (String.eqb_spec (normalize_string a) (normalize_string b)); split;
      intro H; try reflexivity; try assumption; try discriminate; contradiction. }
  assert (Hd : 1 * inject_Z L == 0 <-> normalize_string a = normalize_string b).
  { rewrite Qmult_1_l, HLq. exact HL. }
  destruct (string_empty_cases a b) as [[-> ->]|Hne].
  - exists 0. split; [apply d_levenshtein_value|]. split; [reflexivity|].
    split; [exact Hend|]. split; [exact Hd|]. split; reflexivity.
  - destruct (levmetric_value a b Hne) as ([Hl0 Hl1] & Hn & Hv). cbv zeta in *.
    fold L in Hl0, Hl1, Hv.
    eexists. split; [apply d_levenshtein_value|]. split; [exact Hv|].
    split; [exact Hend|]. split; [exact Hd|].
    rewrite <- Hd. split; intro H.
    + assert (E : 2 * (1 * inject_Z L)
                  == 2 * (1 * inject_Z L)
                     / (inject_Z (Z.of_nat (String.length a))
                        + inject_Z (Z.of_nat (String.length b)) + 1 * inject_Z L)
                     * (inject_Z (Z.of_nat (String.length a))
                        + inject_Z (Z.of_nat (String.length b)) + 1 * inject_Z L))
        by (field; lra).
      rewrite H in E. lra.
    + rewrite H. field. lra.
Qed.

Lemma string_metrics_zero_witness :
  exists d m,
    d_levenshtein "Foo" "f00" = Ok d /\ levmetric "Foo" "f00" = Ok m /\
    (end_to_end "Foo" "f00" = 0%Z <-> normalize_string "Foo" = normalize_string "f00") /\
    (d == 0 <-> normalize_string "Foo" = normalize_string "f00") /\
    (m == 0 <-> normalize_string "Foo" = normalize_string "f00").
Proof.
  apply string_metrics_zero; unfold ascii_only; simpl; repeat constructor.
Defined.

(** X15. On strings of ASCII [levmetric] returns a number between 0 and 1,
    is symmetric, and does not change when its arguments are normalized
    beforehand. *)
Theorem levmetric_range_symmetric (a b : string) :
  ascii_only a -> ascii_only b ->
  exists m m',
    levmetric a b = Ok m /\ levmetric b a = Ok m' /\
    0 <= m <= 1 /\ m == m' /\
    levmetric (normalize_string a) (normalize_string b) = Ok m.
Proof.
  intros _ _.
  destruct (string_empty_cases a b) as [[-> ->]|Hne].
  - exists 0, 0. repeat split; try reflexivity; try apply Qle_refl; discriminate.
  - destruct (levmetric_value a b Hne) as ([Hl0 Hl1] & Hn & Hv).
    destruct (levmetric_value b a (proj1 (or_comm _ _) Hne)) as ([Hl0' Hl1'] & Hn' & Hv').
    assert (Hne' : normalize_string a <> EmptyString \/ normalize_string b <> EmptyString)
      by (rewrite !normalize_string_empty; exact Hne).
    destruct (levmetric_value _ _ Hne') as (_ & _ & Hv'').
    cbv zeta in *.
    rewrite !normalize_string_idem, !length_normalize_string in Hv''.
    do 2 eexists. split; [exact Hv|]. split; [exact Hv'|].
    split; [|split; [|exact Hv'']].
    + split; [apply Qle_shift_div_l|apply Qle_shift_div_r]; lra.
    + unfold edit_distance in *. rewrite !length_chars, !length_normalize_string in *.
      rewrite (edit_sym (chars (normalize_string b)) (chars (normalize_string a))).
      field. lra.
Qed.

Lemma levmetric_range_symmetric_witness :
  exists m m',
    levmetric "Foo" "f0x1" = Ok m /\ levmetric "f0x1" "Foo" = Ok m' /\
    0 <= m <= 1 /\ m == m' /\
    levmetric (normalize_string "Foo") (normalize_string "f0x1") = Ok m.
Proof.
  apply levmetric_range_symmetric; unfold ascii_only; simpl; repeat constructor.
Defined.

(** X16. On strings of ASCII without the empty character label ['@'],
    [levmetric] is [levmetric_ocr] of the two normalized strings taken as
    sequences of certain Cells, as [add_string] takes a simple string. *)
Theorem levmetric_as_levmetric_ocr (a b : string) :
  ascii_only a -> ascii_only b ->
  ~ In es (chars a) -> ~ In es (chars b) ->
  exists m v,
    levmetric a b = Ok m /\
    levmetric_ocr (cells_of (Str (normalize_string a)))
                  (cells_of (Str (normalize_string b))) = Ok v /\
    m == v.
Proof.
  intros _ _ Ha Hb.
  destruct (levmetric_ocr_certain_value _ _ (no_gap_normalize_string a Ha)
              (no_gap_normalize_string b Hb)) as (v & Hv & Ev).
  change (cells_of (Str (normalize_string a)))
    with (map certain (chars (normalize_string a))).
  change (cells_of (Str (normalize_string b)))
    with (map certain (chars (normalize_string b))).
  unfold normalized_levenshtein, len in Ev.
  rewrite !length_chars, !length_normalize_string in Ev.
  destruct (string_empty_cases a b) as [[-> ->]|Hne].
  - exists 0, v. split; [reflexivity|]. split; [exact Hv|]. now rewrite Ev.
  - destruct (levmetric_value a b Hne) as ([Hl0 Hl1] & Hn & Hm). cbv zeta in *.
    replace ((Z.of_nat (String.length a) =? 0) && (Z.of_nat (String.length b) =? 0))%Z
      with false in Ev.
    + do 2 eexists. split; [exact Hm|]. split; [exact Hv|]. rewrite Ev. field. lra.
    + symmetry. apply andb_false_iff.
      destruct Hne as [H|H]; [left; destruct a|right; destruct b]; try congruence;
        apply Z.eqb_neq; cbn [String.length]; lia.
Qed.

Lemma levmetric_as_levmetric_ocr_witness :
  exists m v,
    levmetric "Foo" "f0x1" = Ok m /\
    levmetric_ocr (cells_of (Str (normalize_string "Foo")))
                  (cells_of (Str (normalize_string "f0x1"))) = Ok v /\
    m == v.
Proof.
  apply levmetric_as_levmetric_ocr;
    try (unfold ascii_only; simpl; repeat constructor);
    simpl; unfold es; intuition discriminate.
Defined.

(** ** Treap *)

(** X17. [split] on a Treap that [add_element] calls built returns two
    roots: the in-order traversal from the first holds the elements that are
    not greater than the given value, the traversal from the second the
    elements greater than it, and the two together are the in-order
    traversal of the Treap before. *)
Theorem split_partitions (fuel : nat) (calls : list (Z * Q)) (elt : Q) :
  (List.length calls < fuel)%nat ->
  exists T nodes' l r ls rs,
    Treap.build fuel calls = Ok T /\
    Treap.split fuel (Treap.nodes T) (Treap.root T) elt = Ok (nodes', (l, r)) /\
    Treap.inorder fuel nodes' l = Some ls /\
    Treap.inorder fuel nodes' r = Some rs /\
    Forall (fun x => x <= elt) ls /\ Forall (fun x => elt < x) rs /\
    Treap.inorder fuel (Treap.nodes T) (Treap.root T) = Some (ls ++ rs)%list /\
    Permutation (ls ++ rs) (map snd calls).
Proof.
  intro Hfuel.
  destruct (split_join_built fuel calls elt Hfuel)
    as (T & t & nodes' & tl & tr & nodes'' & t' & Hbuild & Hinv & Hperm & Hsplit
        & Hsl & Hsr & Hel & Hf1 & Hf2 & _ & _ & _ & Hz & Hzl & Hzr & _).
  destruct Hinv as (Hroot & Hs & _ & _).
  exists T, nodes', (root_of tl), (root_of tr), (elems tl), (elems tr).
  split; [exact Hbuild|]. split; [exact Hsplit|].
  split; [now apply inorder_shaped|]. split; [now apply inorder_shaped|].
  split; [exact Hf1|]. split; [exact Hf2|].
  split; [rewrite Hroot, Hel; now apply inorder_shaped|].
  now rewrite Hel.
Qed.

Lemma split_partitions_witness :
  let calls := [(5%Z, 3); (7%Z, 1); (2%Z, 2); (9%Z, 2); (1%Z, 5)] in
  exists T nodes' l r ls rs,
    Treap.build 6 calls = Ok T /\
    Treap.split 6 (Treap.nodes T) (Treap.root T) 2 = Ok (nodes', (l, r)) /\
    Treap.inorder 6 nodes' l = Some ls /\
    Treap.inorder 6 nodes' r = Some rs /\
    Forall (fun x => x <= 2) ls /\ Forall (fun x => 2 < x) rs /\
    Treap.inorder 6 (Treap.nodes T) (Treap.root T) = Some (ls ++ rs)%list /\
    Permutation (ls ++ rs) (map snd calls).
Proof.
  apply (split_partitions 6 [(5%Z, 3); (7%Z, 1); (2%Z, 2); (9%Z, 2); (1%Z, 5)] 2).
  simpl. lia.
Defined.

(** X18. [join] undoes [split]: joining the two roots that [split] returns
    gives a root from which the in-order traversal is that of the Treap
    before, and from which [get_lower] still counts the elements below a
    value. *)
Theorem join_undoes_split (fuel : nat) (calls : list (Z * Q)) (elt : Q) :
  (List.length calls < fuel)%nat ->
  exists T nodes' l r nodes'' root'',
    Treap.build fuel calls = Ok T /\
    Treap.split fuel (Treap.nodes T) (Treap.root T) elt = Ok (nodes', (l, r)) /\
    Treap.join fuel nodes' l r = Ok (nodes'', root'') /\
    Treap.inorder fuel nodes'' root''
    = Treap.inorder fuel (Treap.nodes T) (Treap.root T) /\
    Treap.inorder fuel nodes'' root'' <> None /\
    forall v, exists c s,
        Treap.get_lower fuel nodes'' root'' v = Ok (c, s) /\
        c = len (below v (map snd calls)).
Proof.
  intro Hfuel.
  destruct (split_join_built fuel calls elt Hfuel)
    as (T & t & nodes' & tl & tr & nodes'' & t' & Hbuild & Hinv & Hperm & Hsplit
        & Hsl & Hsr & Hel & Hf1 & Hf2 & Hjoin & Hs' & Hel' & Hz & Hzl & Hzr & Hz').
  destruct Hinv as (Hroot & Hs & _ & Hsorted).
  exists T, nodes', (root_of tl), (root_of tr), nodes'', (root_of t').
  split; [exact Hbuild|]. split; [exact Hsplit|]. split; [exact Hjoin|].
  rewrite Hroot, (inorder_shaped _ _ fuel Hs' Hz'), (inorder_shaped _ _ fuel Hs Hz), Hel'.
  split; [reflexivity|]. split; [discriminate|].
  intro v.
  destruct (get_lower_spec v t' fuel nodes'' Hs' ltac:(rewrite Hel'; exact Hsorted) Hz')
    as (s & Hget & Es).
  exists (len (below v (elems t'))), s. split; [exact Hget|].
  rewrite Hel' in *. unfold below in *.
  unfold len. now rewrite (Permutation_length (filter_perm _ _ _ Hperm)).
Qed.

Lemma join_undoes_split_witness :
  let calls := [(5%Z, 3); (7%Z, 1); (2%Z, 2); (9%Z, 2); (1%Z, 5)] in
  exists T nodes' l r nodes'' root'',
    Treap.build 6 calls = Ok T /\
    Treap.split 6 (Treap.nodes T) (Treap.root T) 2 = Ok (nodes', (l, r)) /\
    Treap.join 6 nodes' l r = Ok (nodes'', root'') /\
    Treap.inorder 6 nodes'' root'' = Treap.inorder 6 (Treap.nodes T) (Treap.root T) /\
    Treap.inorder 6 nodes'' root'' <> None /\
    forall v, exists c s,
        Treap.get_lower 6 nodes'' root'' v = Ok (c, s) /\
        c = len (below v (map snd calls)).
Proof.
  apply (join_undoes_split 6 [(5%Z, 3); (7%Z, 1); (2%Z, 2); (9%Z, 2); (1%Z, 5)] 2).
  simpl. lia.
Defined.

(** X19. [add_element] appends one node and never moves or changes what a
    node stores: after any run of [add_element] calls, node [i] of [nodes]
    holds the element and the priority of call [i]. *)
Theorem add_element_stores (fuel : nat) (calls : list (Z * Q)) :
  (List.length calls < fuel)%nat ->
  exists T,
    Treap.build fuel calls = Ok T /\
    map (fun nd => (Treap.weight nd, Treap.element nd)) (Treap.nodes T) = calls.
Proof.
  intro Hfuel.
  destruct (build_inv fuel calls Hfuel) as (T & _ & Hbuild & _).
  exists T. split; [exact Hbuild|].
  apply (build_from_stored fuel calls Treap.empty T Hbuild).
Qed.

Lemma add_element_stores_witness :
  let calls := [(5%Z, 3); (7%Z, 1); (2%Z, 2); (9%Z, 2); (1%Z, 5)] in
  exists T,
    Treap.build 6 calls = Ok T /\
    map (fun nd => (Treap.weight nd, Treap.element nd)) (Treap.nodes T) = calls.
Proof.
  apply (add_element_stores 6 [(5%Z, 3); (7%Z, 1); (2%Z, 2); (9%Z, 2); (1%Z, 5)]).
  simpl. lia.
Defined.

(** X20. A Treap that [add_element] calls built is a heap of the
    priorities: a child of a node is a node of [nodes] whose priority is not
    above the node's, and no node has a priority above the root's. *)
Theorem add_element_heap_order (fuel : nat) (calls : list (Z * Q)) :
  (List.length calls < fuel)%nat ->
  exists T,
    Treap.build fuel calls = Ok T /\
    (forall i nd c,
        nth_error (Treap.nodes T) i = Some nd ->
        c = Treap.left_node nd \/ c = Treap.right_node nd -> c <> (-1)%Z ->
        exists child,
          (0 <= c)%Z /\ nth_error (Treap.nodes T) (Z.to_nat c) = Some child /\
          (Treap.weight child <= Treap.weight nd)%Z) /\
    (forall top, py_get (Treap.nodes T) (Treap.root T) = Ok top ->
                 forall nd, In nd (Treap.nodes T) ->
                            (Treap.weight nd <= Treap.weight top)%Z).
Proof.
  intro Hfuel.
  destruct (build_inv fuel calls Hfuel) as (T & t & Hbuild & Hinv & _).
  assert (HL : heap (links (Treap.nodes T))).
  { apply (build_heap fuel calls Treap.empty T Hbuild heap_empty). simpl. lia. }
  exists T. split; [exact Hbuild|]. split.
  - intros i nd c Hi Hc Hne.
    destruct (HL _ _ _ _ (links_nth _ _ _ Hi)) as [Hl Hr].
    assert (H : lighter (links (Treap.nodes T)) c (Treap.weight nd))
      by (destruct Hc as [->| ->]; assumption).
    destruct H as [->|(wc & lc & rc & Hz & Hn & Hle)]; [congruence|].
    unfold links in Hn. rewrite nth_error_map in Hn.
    destruct (nth_error (Treap.nodes T) (Z.to_nat c)) as [child|]; [|discriminate].
    simpl in Hn. inversion Hn; subst. now exists child.
  - intros top Htop nd Hnd.
    destruct Hinv as (Hroot & Hs & Hperm & _).
    apply In_nth_error in Hnd. destruct Hnd as [i Hi].
    assert (Hin : In i (idxs t)).
    { apply (Permutation_in _ (Permutation_sym Hperm)), in_seq.
      assert (i < List.length (Treap.nodes T))%nat by (apply nth_error_Some; congruence).
      lia. }
    apply (shaped_heap_bound _ t Hs HL (Treap.weight top)) with (i := i); try assumption.
    rewrite <- Hroot.
    destruct t as [|l k e r]; [contradiction|].
    apply py_get_lighter with (nd := top); [rewrite Hroot; simpl; lia|exact Htop|lia].
Qed.

Lemma add_element_heap_order_witness :
  let calls := [(5%Z, 3); (7%Z, 1); (2%Z, 2); (9%Z, 2); (1%Z, 5)] in
  exists T,
    Treap.build 6 calls = Ok T /\
    (forall i nd c,
        nth_error (Treap.nodes T) i = Some nd ->
        c = Treap.left_node nd \/ c = Treap.right_node nd -> c <> (-1)%Z ->
        exists child,
          (0 <= c)%Z /\ nth_error (Treap.nodes T) (Z.to_nat c) = Some child /\
          (Treap.weight child <= Treap.weight nd)%Z) /\
    (forall top, py_get (Treap.nodes T) (Treap.root T) = Ok top ->
                 forall nd, In nd (Treap.nodes T) ->
                            (Treap.weight nd <= Treap.weight top)%Z).
Proof.
  apply (add_element_heap_order 6 [(5%Z, 3); (7%Z, 1); (2%Z, 2); (9%Z, 2); (1%Z, 5)]).
  simpl. lia.
Defined.

(** ** Alignment *)

(** X21. A simple string is read back from a new Alignment: after
    [add_string] of the string, whatever the weight and [empty_weight],
    [get_string_result] returns the string without the occurrences of the
    empty character label ['@']. *)
Theorem add_string_round_trip (fuel : nat) (empty_weight weight : Q) (s : string) :
  exists self,
    Alignment.add_string fuel (Alignment.init empty_weight) (Str s) weight = Ok self /\
    Alignment.get_string_result self = Ok (drop_char "@" s).
Proof.
  unfold Alignment.add_string. cbn [Alignment.base Alignment.init].
  destruct (Z.eqb_spec (len (cells_of (Str s))) 0) as [E|E].
  - assert (Es : s = EmptyString).
    { apply chars_nil. unfold len in *. cbn [cells_of] in E. now rewrite length_map in E. }
    subst s. eexists. split; [reflexivity|].
    unfold Alignment.get_string_result. simpl.
    destruct (Qltb _ _); reflexivity.
  - cbn [cells_of]. rewrite mapM_normalized_certain, bind_ok.
    eexists. split; [reflexivity|].
    unfold Alignment.get_string_result. cbn [Alignment.base Alignment.ew Alignment.init].
    apply (string_result_certain empty_weight s EmptyString).
Qed.



(** ** AlignmentWithEstimation *)

(** X23. After a run of [add_string] calls of the estimation class that
    returned, [base_samples] is the number of calls, [ew] is the
    [empty_weight] given at the start, and [Y] holds one dictionary of
    histories for each Cell of the base. *)
Theorem estimation_counts_samples
        (T : Type) (SS : SequenceStructure T) (fuel : nat) (empty_weight : Q)
        (calls : list input) (self : AlignmentWithEstimation.t T) :
  AlignmentWithEstimation.run fuel empty_weight calls = Ok self ->
  AlignmentWithEstimation.base_samples self = len calls /\
  AlignmentWithEstimation.ew self = empty_weight /\
  (calls <> [] ->
   exists base Y,
     AlignmentWithEstimation.base self = Some base /\
     AlignmentWithEstimation.Y self = Some Y /\
     List.length Y = List.length base).
Proof.
  intro H.
  destruct (estimation_run_counts fuel calls (AlignmentWithEstimation.init empty_weight)
              self ltac:(reflexivity) H) as (Hn & Hew & HY).
  split; [exact Hn|]. split; [exact Hew|exact HY].
Qed.

Lemma estimation_counts_samples_witness :
  let calls := [Cells [[("A", 1 # 2); ("@", 1 # 2)]]%string; Str EmptyString;
                Cells [[("A", 1); ("@", 0)]; [("A", 0); ("@", 1)]]%string] in
  exists self,
    AlignmentWithEstimation.run (SS := list_based) 3 1 calls = Ok self /\
    AlignmentWithEstimation.base_samples self = len calls /\
    AlignmentWithEstimation.ew self = 1 /\
    (calls <> [] ->
     exists base Y,
       AlignmentWithEstimation.base self = Some base /\
       AlignmentWithEstimation.Y self = Some Y /\
       List.length Y = List.length base).
Proof.
  eexists. split; [vm_compute; reflexivity|].
  apply (estimation_counts_samples _ list_based 3 1
           [Cells [[("A", 1 # 2); ("@", 1 # 2)]]%string; Str EmptyString;
            Cells [[("A", 1); ("@", 0)]; [("A", 0); ("@", 1)]]%string]).
  vm_compute. reflexivity.
Defined.

(** X24. On inputs that are not empty the estimation class combines as
    [Alignment] does with the weight 1 for every input: when its run
    returns, the run of [Alignment] on the same inputs returns the same base,
    and [get_string_result] reads the same string from both. *)
Theorem estimation_combines_as_alignment
        (T : Type) (SS : SequenceStructure T) (fuel : nat) (empty_weight : Q)
        (calls : list input) (self : AlignmentWithEstimation.t T) :
  Forall (fun arg_s => cells_of arg_s <> []) calls ->
  AlignmentWithEstimation.run fuel empty_weight calls = Ok self ->
  exists plain,
    Alignment.run fuel empty_weight (map (fun arg_s => (arg_s, 1)) calls) = Ok plain /\
    Alignment.base plain = AlignmentWithEstimation.base self /\
    Alignment.get_string_result plain = AlignmentWithEstimation.get_string_result self.
Proof.
  intros Hne H.
  destruct (estimation_run_base fuel calls (AlignmentWithEstimation.init empty_weight)
              self (Alignment.init empty_weight) Hne eq_refl eq_refl
              ltac:(intro Hx; exfalso; now apply Hx) H)
    as (plain & Hrun & Hb & Hew).
  exists plain. split; [exact Hrun|]. split; [exact Hb|].
  unfold Alignment.get_string_result, AlignmentWithEstimation.get_string_result.
  rewrite Hb, Hew. reflexivity.
Qed.

Lemma estimation_combines_as_alignment_witness :
  let calls := [Cells [[("A", 1 # 2); ("@", 1 # 2)]]%string;
                Cells [[("A", 1); ("@", 0)]; [("A", 0); ("@", 1)]]%string] in
  exists self,
    AlignmentWithEstimation.run (SS := list_based) 3 1 calls = Ok self /\
    exists plain,
      Alignment.run 3 1 (map (fun arg_s => (arg_s, 1)) calls) = Ok plain /\
      Alignment.base plain = AlignmentWithEstimation.base self /\
      Alignment.get_string_result plain = AlignmentWithEstimation.get_string_result self.
Proof.
  eexists. split; [vm_compute; reflexivity|].
  refine (estimation_combines_as_alignment _ list_based 3 1
            [Cells [[("A", 1 # 2); ("@", 1 # 2)]]%string;
             Cells [[("A", 1); ("@", 0)]; [("A", 0); ("@", 1)]]%string] _ _ _).
  - repeat constructor; discriminate.
  - vm_compute. reflexivity.
Defined.

(** ** The sequence structures *)

(** X26. The list-backed [get_modelling_sum], on histories of [n] values
    each for a base of [m] Cells, returns the sum over the samples [i] of
    [2 * d_i / (d_i + 2 * m)], where [d_i] is the sum over all histories of
    [|s - n * y_i|], [s] the sum of the history, divided by
    [2 * n * (n + 1)]. *)
Theorem list_modelling_sum (data : histories) (n : Z) :
  (1 <= n)%Z -> data <> [] -> regular data n ->
  exists v,
    ListBasedSequenceStructure.get_modelling_sum (list_Y data) n = Ok v /\
    v == sumQ (map (fun i => normalized_gld (len data)
                               (deviation data n i / inject_Z (2 * n * (n + 1))))
                   (seq 0 (Z.to_nat n))).
Proof.
  apply list_modelling_value.
Qed.

Lemma list_modelling_sum_witness :
  let data := [[("A", [(5%Z, 1); (2%Z, 0)]); ("@", [(1%Z, 0); (7%Z, 1)])];
               [("A", [(3%Z, 1 # 2); (4%Z, 1)]); ("@", [(6%Z, 1 # 2); (8%Z, 0)])]]%string in
  exists v,
    ListBasedSequenceStructure.get_modelling_sum (list_Y data) 2 = Ok v /\
    v == sumQ (map (fun i => normalized_gld (len data)
                               (deviation data 2 i / inject_Z (2 * 2 * (2 + 1))))
                   (seq 0 (Z.to_nat 2))).
Proof.
  apply list_modelling_sum.
  - lia.
  - discriminate.
  - repeat (apply Forall_cons;
            [split; [repeat constructor; simpl; intuition discriminate
                    |repeat constructor]|]).
    apply Forall_nil.
Defined.


(** ** The string distances as metrics *)

(** X28. [levenshtein] satisfies the triangle inequality, and so does
    [d_levenshtein], the distance of the normalized strings. *)
Theorem levenshtein_triangle :
  (forall a b c : list string,
      exists dab dbc dac,
        levenshtein a b = Ok dab /\ levenshtein b c = Ok dbc /\
        levenshtein a c = Ok dac /\ (dac <= dab + dbc)%Z) /\
  (forall a b c : string,
      exists dab dbc dac,
        d_levenshtein a b = Ok dab /\ d_levenshtein b c = Ok dbc /\
        d_levenshtein a c = Ok dac /\ dac <= dab + dbc).
Proof.
  split.
  - intros a b c. exists (edit_distance a b), (edit_distance b c), (edit_distance a c).
    rewrite !levenshtein_spec. repeat split.
    unfold edit_distance. eapply edit_triangle. apply Nat.le_refl.
  - intros a b c. do 3 eexists. rewrite !d_levenshtein_value.
    repeat (split; [reflexivity|]).
    rewrite !Qmult_1_l, <- inject_Z_plus, <- Zle_Qle.
    unfold edit_distance. eapply edit_triangle. apply Nat.le_refl.
Qed.

(** ** The estimation after one sample *)

(** X29. [get_modelling_sum] raises TypeError before the first
    [add_string]. After the first [add_string], on an input whose Cells have
    distinct labels, non-negative weights and a positive sum, it returns 0,
    with the list-backed and with the tree-backed sequence structure. *)
Theorem first_sample_estimate
        (fuel : nat) (next_weight : nat -> Z) (empty_weight : Q) (arg_s : input) :
  Forall distribution (cells_of arg_s) -> (2 <= fuel)%nat ->
  AlignmentWithEstimation.get_modelling_sum (SS := list_based)
    (AlignmentWithEstimation.init empty_weight) = Raise TypeError /\
  (exists self v,
      AlignmentWithEstimation.add_string (SS := list_based) fuel
        (AlignmentWithEstimation.init empty_weight) arg_s = Ok self /\
      AlignmentWithEstimation.get_modelling_sum self = Ok v /\ v == 0) /\
  (exists self v,
      AlignmentWithEstimation.add_string (SS := treap_based fuel next_weight) fuel
        (AlignmentWithEstimation.init empty_weight) arg_s = Ok self /\
      AlignmentWithEstimation.get_modelling_sum (SS := treap_based fuel next_weight) self
      = Ok v /\ v == 0).
Proof.
  intros Hd Hfuel.
  destruct (first_cells arg_s Hd) as [Hds Hne].
  destruct (mapM_normalized _ Hds) as (nb & Hb & Hn & Hlen).
  assert (Hdata : forall p, single_histories p nb <> []).
  { intro p. destruct nb as [|c nb]; [|discriminate].
    destruct (estimation_cells None arg_s); [congruence|discriminate]. }
  split; [reflexivity|]. split.
  - destruct (first_add_string (SS := list_based) fuel empty_weight arg_s nb _
                Hne Hb (first_Y_list 0 nb) Hn) as (self & Hrun & HYs & _ & Hns).
    destruct (list_modelling_value (single_histories 0 nb) 1 ltac:(lia) (Hdata 0%Z)
                (single_histories_regular 0 nb Hn)) as (v & Hv & Ev).
    exists self, v. split; [exact Hrun|]. split.
    + unfold AlignmentWithEstimation.get_modelling_sum. rewrite HYs, Hns. exact Hv.
    + rewrite Ev. apply sumQ_map_zero. intros i Hi.
      change (Z.to_nat 1) with 1%nat in Hi. simpl in Hi. destruct Hi as [<-|[]].
      apply normalized_gld_zero. apply single_deviation.
  - set (p := next_weight 0%nat).
    destruct (treap_modelling_value fuel (single_histories p nb) 1 ltac:(lia) (Hdata p)
                (single_histories_regular p nb Hn) ltac:(simpl; lia))
      as (Y & v & HY & Hv & Ev).
    rewrite <- first_Y_treap in HY.
    destruct (first_add_string (SS := treap_based fuel next_weight) fuel empty_weight
                arg_s nb Y Hne Hb HY Hn) as (self & Hrun & HYs & _ & Hns).
    exists self, v. split; [exact Hrun|]. split.
    + unfold AlignmentWithEstimation.get_modelling_sum. rewrite HYs, Hns. exact Hv.
    + rewrite Ev. apply normalized_gld_zero. apply sumQ_map_zero. intros i Hi.
      change (Z.to_nat 1) with 1%nat in Hi. simpl in Hi. destruct Hi as [<-|[]].
      apply single_deviation.
Qed.

Lemma first_sample_estimate_witness :
  let arg_s := Cells [[("A", 1 # 2); ("@", 1 # 2)]; [("B", 3); ("@", 1)]]%string in
  AlignmentWithEstimation.get_modelling_sum (SS := list_based)
    (AlignmentWithEstimation.init 1) = Raise TypeError /\
  (exists self v,
      AlignmentWithEstimation.add_string (SS := list_based) 2
        (AlignmentWithEstimation.init 1) arg_s = Ok self /\
      AlignmentWithEstimation.get_modelling_sum self = Ok v /\ v == 0) /\
  (exists self v,
      AlignmentWithEstimation.add_string (SS := treap_based 2 Z.of_nat) 2
        (AlignmentWithEstimation.init 1) arg_s = Ok self /\
      AlignmentWithEstimation.get_modelling_sum (SS := treap_based 2 Z.of_nat) self
      = Ok v /\ v == 0).
Proof.
  apply first_sample_estimate.
  - repeat (apply Forall_cons; [split; [concrete_cell_ok | reflexivity]|]).
    apply Forall_nil.
  - lia.
Defined.

(** ** Alignment: the same string again *)


